(** * YAWN (Web Notes): the DOM anchoring and positioning engine

    A shallow embedding of the Chrome extension's content scripts
    ([selection-manager.js], [dom-selectors.js], [note-positioning.js],
    [note-dragging.js], [note-editing.js]) and the properties the
    specification states about them.

    JavaScript strings are [string]; pixel coordinates are [Z]; the
    module-level mutable singletons ([elementCache], [noteHighlights],
    [DraggingState], [EditingState]) are explicit state values threaded
    through the functions that read and write them. *)

From Stdlib Require Import ZArith Lia Bool List Ascii String DecimalString.
From Stdlib Require Import Reals.
From stdpp Require Import base option list strings gmap.

Open Scope string_scope.

(* ===================================================================== *)
(** * Part I. Definitions                                                 *)
(* ===================================================================== *)

(** ** JavaScript values and string primitives *)

(** The values a caller can hand to a function that expects a string. *)
Inductive js_value :=
| JUndefined
| JNull
| JBool (b : bool)
| JNumber (n : Z)
| JString (s : string)
| JObject (ref : nat).

(** [String.prototype.includes]. *)
Definition includes (s t : string) : bool :=
  match index 0 t s with Some _ => true | None => false end.

(** [String.prototype.indexOf]: the position of the first occurrence, or -1. *)
Definition indexOf (s t : string) : Z :=
  match index 0 t s with Some i => Z.of_nat i | None => (-1)%Z end.

Definition is_upper (a : ascii) : bool :=
  (65 <=? nat_of_ascii a)%nat && (nat_of_ascii a <=? 90)%nat.
Definition is_lower (a : ascii) : bool :=
  (97 <=? nat_of_ascii a)%nat && (nat_of_ascii a <=? 122)%nat.
Definition is_digit (a : ascii) : bool :=
  (48 <=? nat_of_ascii a)%nat && (nat_of_ascii a <=? 57)%nat.

Definition lower_ascii (a : ascii) : ascii :=
  if is_upper a then ascii_of_nat (nat_of_ascii a + 32) else a.

(** [String.prototype.toLowerCase] on the ASCII range. *)
Fixpoint toLowerCase (s : string) : string :=
  match s with
  | EmptyString => EmptyString
  | String a s' => String (lower_ascii a) (toLowerCase s')
  end.

(** [Array.prototype.includes] on an array of strings. *)
Definition array_includes (l : list string) (s : string) : bool :=
  existsb (String.eqb s) l.

(** ** Regular expressions

    The matcher is the backtracking, continuation-passing matcher of the
    ECMAScript specification restricted to the constructs the source
    uses: character classes, concatenation, greedy alternation and
    repetition, and capture groups. *)

Inductive regex :=
| Eps
| Chr (p : ascii -> bool)
| Cat (r1 r2 : regex)
| Alt (r1 r2 : regex)
| Star (r : regex)
| Group (i : nat) (r : regex).

Definition captures := list (nat * string).
Definition continuation := string -> captures -> option captures.

(** The first [n] characters of [s]. *)
Definition take_string (n : nat) (s : string) : string := substring 0 n s.

(** Greedy repetition of the matcher [m]: as many rounds as the
    continuation allows, each round consuming at least one character. *)
Fixpoint star_loop (m : string -> captures -> continuation -> option captures)
    (k : continuation) (fuel : nat) (s : string) (c : captures) : option captures :=
  match fuel with
  | O => k s c
  | S fuel' =>
      match m s c (fun s' c' =>
                     if (String.length s' <? String.length s)%nat
                     then star_loop m k fuel' s' c' else None) with
      | Some res => Some res
      | None => k s c
      end
  end.

Fixpoint re_match (r : regex) : string -> captures -> continuation -> option captures :=
  match r with
  | Eps => fun s c k => k s c
  | Chr p => fun s c k =>
      match s with
      | String a s' => if p a then k s' c else None
      | EmptyString => None
      end
  | Cat r1 r2 => fun s c k =>
      re_match r1 s c (fun s' c' => re_match r2 s' c' k)
  | Alt r1 r2 => fun s c k =>
      match re_match r1 s c k with
      | Some res => Some res
      | None => re_match r2 s c k
      end
  | Star r' => fun s c k => star_loop (re_match r') k (String.length s) s c
  | Group i r' => fun s c k =>
      re_match r' s c
        (fun s' c' =>
           k s' ((i, take_string (String.length s - String.length s') s) :: c'))
  end.

(** The most recent capture of group [i]. *)
Fixpoint capture (i : nat) (c : captures) : option string :=
  match c with
  | [] => None
  | (j, s) :: c' => if (i =? j)%nat then Some s else capture i c'
  end.

Definition at_end : continuation :=
  fun s c => match s with EmptyString => Some c | _ => None end.

(** [pattern.exec(s)] for a pattern anchored as [^...$]. *)
Definition re_exec (r : regex) (s : string) : option captures :=
  re_match r s [] at_end.

(** [pattern.test(s)] for a pattern anchored as [^...$]. *)
Definition re_test (r : regex) (s : string) : bool :=
  match re_exec r s with Some _ => true | None => false end.

(** [pattern.test(s)] for a pattern without anchors: a match may start
    at any position and end anywhere. *)
Fixpoint re_search (r : regex) (s : string) : bool :=
  match re_match r s [] (fun _ c => Some c) with
  | Some _ => true
  | None =>
      match s with
      | EmptyString => false
      | String _ s' => re_search r s'
      end
  end.

(** Derived forms. *)
Definition Opt (r : regex) : regex := Alt r Eps.
Definition Plus (r : regex) : regex := Cat r (Star r).
Definition Lit1 (a : ascii) : regex := Chr (Ascii.eqb a).
Fixpoint Lit (s : string) : regex :=
  match s with
  | EmptyString => Eps
  | String a s' => Cat (Lit1 a) (Lit s')
  end.
(** Case-insensitive literal (the [i] flag). *)
Fixpoint LitI (s : string) : regex :=
  match s with
  | EmptyString => Eps
  | String a s' => Cat (Chr (fun b => Ascii.eqb (lower_ascii b) (lower_ascii a))) (LitI s')
  end.
Fixpoint Times (n : nat) (r : regex) : regex :=
  match n with
  | O => Eps
  | S n' => Cat r (Times n' r)
  end.
(** [r{1,3}], greedy. *)
Definition Rep1to3 (r : regex) : regex := Cat r (Opt (Cat r (Opt r))).

(** Character classes. *)
Definition is_hex_digit (a : ascii) : bool :=
  is_digit a
  || ((65 <=? nat_of_ascii a)%nat && (nat_of_ascii a <=? 70)%nat)
  || ((97 <=? nat_of_ascii a)%nat && (nat_of_ascii a <=? 102)%nat).
(** [\s] on the ASCII range: tab, line feed, vertical tab, form feed,
    carriage return, space. *)
Definition is_space (a : ascii) : bool :=
  let n := nat_of_ascii a in
  ((9 <=? n)%nat && (n <=? 13)%nat) || (n =? 32)%nat.
(** [\w]. *)
Definition is_word (a : ascii) : bool :=
  is_upper a || is_lower a || is_digit a || Ascii.eqb a "_".
Definition is_alpha (a : ascii) : bool := is_upper a || is_lower a.

Definition ws : regex := Star (Chr is_space).
Definition digits1to3 : regex := Rep1to3 (Chr is_digit).

(** ** selection-manager.js: [sanitizeColor] *)

(** [/^#([0-9A-Fa-f]{3}|[0-9A-Fa-f]{6})$/] *)
Definition hexPattern : regex :=
  Cat (Lit1 "#")
      (Group 1 (Alt (Times 3 (Chr is_hex_digit)) (Times 6 (Chr is_hex_digit)))).

(** [/^rgb\(\s*(\d{1,3})\s*,\s*(\d{1,3})\s*,\s*(\d{1,3})\s*\)$/] *)
Definition rgbPattern : regex :=
  Cat (Lit "rgb(")
  (Cat ws (Cat (Group 1 digits1to3) (Cat ws (Cat (Lit1 ",")
  (Cat ws (Cat (Group 2 digits1to3) (Cat ws (Cat (Lit1 ",")
  (Cat ws (Cat (Group 3 digits1to3) (Cat ws (Lit1 ")")))))))))))).

(** The alpha group [[01]?\.?\d*]. *)
Definition is_zero_or_one (a : ascii) : bool := Ascii.eqb a "0" || Ascii.eqb a "1".
Definition dot_digits : regex := Cat (Opt (Lit1 ".")) (Star (Chr is_digit)).
Definition alphaPattern : regex := Cat (Opt (Chr is_zero_or_one)) dot_digits.

(** [rgbaPattern]: [^rgba\(], then the three [\s*(\d{1,3})\s*] groups of
    [rgbPattern] separated by commas, a third comma, the alpha group
    between [\s*] runs, and [\)$]. *)
Definition rgbaPattern : regex :=
  Cat (Lit "rgba(")
  (Cat ws (Cat (Group 1 digits1to3) (Cat ws (Cat (Lit1 ",")
  (Cat ws (Cat (Group 2 digits1to3) (Cat ws (Cat (Lit1 ",")
  (Cat ws (Cat (Group 3 digits1to3) (Cat ws (Cat (Lit1 ",")
  (Cat ws (Cat (Group 4 alphaPattern) (Cat ws (Lit1 ")")))))))))))))))).

(** The value of a string of decimal digits, most significant first. *)
Fixpoint digits_value (acc : Z) (s : string) : Z :=
  match s with
  | EmptyString => acc
  | String a s' =>
      digits_value (10 * acc + Z.of_nat (nat_of_ascii a - 48)) s'
  end.

(** [parseInt] on a captured [\d{1,3}] group. *)
Definition parseInt (s : string) : Z := digits_value 0 s.

(** The longest prefix of decimal digits, and the rest. *)
Fixpoint span_digits (s : string) : string * string :=
  match s with
  | String a s' =>
      if is_digit a
      then let '(d, rest) := span_digits s' in (String a d, rest)
      else (EmptyString, s)
  | EmptyString => (EmptyString, EmptyString)
  end.

(** [parseFloat] on a string made of digits and dots: the decimal
    literal [int.frac] read from the front, as the exact fraction
    [numerator / 10 ^ scale]; [None] is [NaN] (no digit at all). *)
Definition parseFloat (s : string) : option (Z * nat) :=
  let '(int_part, rest) := span_digits s in
  let frac_part :=
    match rest with
    | String "." rest' => fst (span_digits rest')
    | _ => EmptyString
    end in
  match int_part, frac_part with
  | EmptyString, EmptyString => None
  | _, _ => Some (digits_value 0 (int_part ++ frac_part), String.length frac_part)
  end.

(** [parseFloat(a) <= 1].  The comparison is made on the double nearest
    to the decimal literal (ties to even): the doubles around one are
    [1] and [1 + 2^-52], so the literal compares at most one exactly
    when its value is at most the midpoint [1 + 2^-53].  [NaN <= 1] is
    false. *)
Definition parseFloat_le_1 (s : string) : bool :=
  match parseFloat s with
  | None => false
  | Some (n, scale) => (n * 2 ^ 53 <=? (2 ^ 53 + 1) * 10 ^ Z.of_nat scale)%Z
  end.

Definition namedColors : list string :=
  [ "transparent"; "white"; "black"; "red"; "green"; "blue"; "yellow"; "orange";
    "purple"; "pink"; "gray"; "grey"; "brown"; "cyan"; "magenta"; "lime" ].

Definition DEFAULT_COLOR : string := "#fff3cd".

Definition rgb_in_range (c : captures) : bool :=
  match capture 1 c, capture 2 c, capture 3 c with
  | Some r, Some g, Some b =>
      (parseInt r <=? 255)%Z && (parseInt g <=? 255)%Z && (parseInt b <=? 255)%Z
  | _, _, _ => false
  end.

Definition rgba_in_range (c : captures) : bool :=
  match capture 1 c, capture 2 c, capture 3 c, capture 4 c with
  | Some r, Some g, Some b, Some a =>
      (parseInt r <=? 255)%Z && (parseInt g <=? 255)%Z && (parseInt b <=? 255)%Z
      && parseFloat_le_1 a
  | _, _, _, _ => false
  end.

Definition rgb_accepts (color : string) : bool :=
  match re_exec rgbPattern color with
  | Some c => rgb_in_range c
  | None => false
  end.

Definition rgba_accepts (color : string) : bool :=
  match re_exec rgbaPattern color with
  | Some c => rgba_in_range c
  | None => false
  end.

(** [sanitizeColor(color)].  A value that is falsy or not a string is
    answered with the default before any string operation runs. *)
Definition sanitizeColor (color : js_value) : string :=
  match color with
  | JString EmptyString => DEFAULT_COLOR
  | JString s =>
      if re_test hexPattern s then s
      else if rgb_accepts s then s
      else if rgba_accepts s then s
      else if array_includes namedColors (toLowerCase s) then toLowerCase s
      else DEFAULT_COLOR
  | _ => DEFAULT_COLOR
  end.


(** ** The document

    The part of the browser's DOM the content scripts observe.  An
    element or text node is known by its reference [ref] (object
    identity); text nodes carry their character data.  [tagName] is the DOM property
    (upper case for HTML elements), [id] and [className] are the
    attributes, empty when absent. *)

#[warnings="-register-all"]
Inductive node :=
| Text (ref : nat) (data : string)
| Element (ref : nat) (tagName id className : string) (childNodes : list node).

Definition is_element (n : node) : bool :=
  match n with Element _ _ _ _ _ => true | Text _ _ => false end.
Definition node_ref (n : node) : option nat :=
  match n with Element r _ _ _ _ => Some r | Text _ _ => None end.
Definition node_tagName (n : node) : string :=
  match n with Element _ t _ _ _ => t | Text _ _ => "" end.
Definition node_id (n : node) : string :=
  match n with Element _ _ i _ _ => i | Text _ _ => "" end.
Definition node_className (n : node) : string :=
  match n with Element _ _ _ c _ => c | Text _ _ => "" end.
Definition childNodes (n : node) : list node :=
  match n with Element _ _ _ _ kids => kids | Text _ _ => [] end.

(** [parent.children]: the element children. *)
Definition children (n : node) : list node := List.filter is_element (childNodes n).

(** [a === b] on nodes that are elements. *)
Definition same_node (a b : node) : bool :=
  match node_ref a, node_ref b with
  | Some x, Some y => (x =? y)%nat
  | _, _ => false
  end.

(** Every element of the tree in document order, each with its chain of
    ancestors: the element first, then [parentElement], up to the root. *)
Fixpoint chains_from (anc : list node) (n : node) : list (list node) :=
  match n with
  | Text _ _ => []
  | Element _ _ _ _ kids => (n :: anc) :: flat_map (chains_from (n :: anc)) kids
  end.

Definition doc_chains (doc : node) : list (list node) := chains_from [] doc.

Definition chain_ref (ch : list node) : option nat :=
  match ch with n :: _ => node_ref n | [] => None end.

Definition chain_is (r : nat) (ch : list node) : bool :=
  match chain_ref ch with Some x => (x =? r)%nat | None => false end.

(** The references of the elements of the document, in document order. *)
Definition doc_refs (doc : node) : list nat := omap chain_ref (doc_chains doc).

(** [document.contains(element)]. *)
Definition contains (doc : node) (r : nat) : bool :=
  existsb (chain_is r) (doc_chains doc).

(** The element [r] with its ancestors, when it is in the document. *)
Definition chain_of (doc : node) (r : nat) : option (list node) :=
  List.find (chain_is r) (doc_chains doc).

(** [document.documentElement]. *)
Definition documentElement (doc : node) : option nat := node_ref doc.

(** [Array.prototype.indexOf] on an array of nodes, plus one: zero when
    the node is not in the array. *)
Fixpoint index_plus_1 (n : node) (l : list node) : nat :=
  match l with
  | [] => 0
  | m :: l' =>
      if same_node m n then 1
      else match index_plus_1 n l' with 0 => 0 | S i => S (S i) end
  end.

(** The nodes of [l] before [n]: the [previousSibling] chain of [n]. *)
Fixpoint previous_siblings (n : node) (l : list node) : list node :=
  match l with
  | [] => []
  | m :: l' => if same_node m n then [] else m :: previous_siblings n l'
  end.

(** [className.trim().split(/\s+/)], without the empty strings. *)
Fixpoint split_spaces_aux (cur : string) (s : string) : list string :=
  let flush := match cur with EmptyString => [] | _ => [cur] end in
  match s with
  | EmptyString => flush
  | String a s' =>
      if is_space a then flush ++ split_spaces_aux EmptyString s'
      else split_spaces_aux (cur ++ String a EmptyString) s'
  end.
Definition class_tokens (className : string) : list string :=
  split_spaces_aux EmptyString className.

(** *** The selector engines

    [document.querySelector], [document.querySelectorAll] and
    [document.evaluate] on the grammar this module writes: compound
    selectors (type, [#id], [.class], [:nth-child(n)]) joined by the
    child combinator, and location paths [//name[i]/name[j]...].  Any
    other string is a syntax error, which the engine throws. *)

Inductive outcome (A : Type) :=
| Threw
| Returned (a : A).
Arguments Threw {A}.
Arguments Returned {A} a.

Record compound := {
  c_type : option string;
  c_ids : list string;
  c_classes : list string;
  c_nths : list nat
}.

Definition is_name_start (a : ascii) : bool :=
  is_alpha a || Ascii.eqb a "_" || (128 <=? nat_of_ascii a)%nat.
Definition is_name_char (a : ascii) : bool :=
  is_name_start a || is_digit a || Ascii.eqb a "-".

Definition hex_digit_value (a : ascii) : nat :=
  let n := nat_of_ascii a in
  if is_digit a then n - 48
  else if (97 <=? n)%nat then n - 87 else n - 55.

Fixpoint hex_value (acc : nat) (s : string) : nat :=
  match s with
  | EmptyString => acc
  | String a s' => hex_value (16 * acc + hex_digit_value a) s'
  end.

(** At most [n] leading hexadecimal digits, and the rest. *)
Fixpoint span_hex (n : nat) (s : string) : string * string :=
  match n, s with
  | S n', String a s' =>
      if is_hex_digit a
      then let '(h, rest) := span_hex n' s' in (String a h, rest)
      else (EmptyString, s)
  | _, _ => (EmptyString, s)
  end.

(** The code point of an escape, after the backslash; [None] when the
    backslash is followed by a line feed. *)
Definition eat_escape (s : string) : option (ascii * string) :=
  match s with
  | EmptyString => Some ("?"%char, EmptyString)
  | String a s' =>
      if is_hex_digit a then
        let '(h, rest) := span_hex 6 s in
        let v := hex_value 0 h in
        let rest' := match rest with
                     | String b r => if is_space b then r else rest
                     | EmptyString => rest
                     end in
        Some (if ((v =? 0) || (255 <? v))%nat then "?"%char else ascii_of_nat v, rest')
      else if (nat_of_ascii a =? 10)%nat then None
      else Some (a, s')
  end.

(** The longest run of name characters and escapes at the front. *)
Fixpoint eat_name (fuel : nat) (s : string) : string * string :=
  match fuel with
  | O => (EmptyString, s)
  | S fuel' =>
      match s with
      | String "\" s' =>
          match eat_escape s' with
          | Some (a, rest) =>
              let '(n, rest') := eat_name fuel' rest in (String a n, rest')
          | None => (EmptyString, s)
          end
      | String a s' =>
          if is_name_char a
          then let '(n, rest') := eat_name fuel' s' in (String a n, rest')
          else (EmptyString, s)
      | EmptyString => (EmptyString, s)
      end
  end.

(** Whether an identifier starts here. *)
Definition starts_ident (s : string) : bool :=
  match s with
  | String "\" (String b _) => negb (nat_of_ascii b =? 10)%nat
  | String "-" (String "\" (String b _)) => negb (nat_of_ascii b =? 10)%nat
  | String "-" (String b _) => is_name_start b || Ascii.eqb b "-"
  | String a _ => is_name_start a
  | EmptyString => false
  end.

Definition parse_ident (s : string) : option (string * string) :=
  if starts_ident s then Some (eat_name (String.length s) s) else None.

Definition strip_prefix (p s : string) : option string :=
  if String.prefix p s
  then Some (substring (String.length p) (String.length s - String.length p) s)
  else None.

Definition digits_to_nat (s : string) : nat := Z.to_nat (digits_value 0 s).

(** The suffixes of a compound selector. *)
Fixpoint parse_suffixes (fuel : nat) (c : compound) (s : string) : option (compound * string) :=
  match fuel with
  | O => None
  | S fuel' =>
      match s with
      | String "#" s' =>
          match parse_ident s' with
          | Some (i, rest) =>
              parse_suffixes fuel'
                {| c_type := c_type c; c_ids := c_ids c ++ [i];
                   c_classes := c_classes c; c_nths := c_nths c |} rest
          | None => None
          end
      | String "." s' =>
          match parse_ident s' with
          | Some (i, rest) =>
              parse_suffixes fuel'
                {| c_type := c_type c; c_ids := c_ids c;
                   c_classes := c_classes c ++ [i]; c_nths := c_nths c |} rest
          | None => None
          end
      | String ":" s' =>
          match strip_prefix "nth-child(" s' with
          | Some s'' =>
              match span_digits s'' with
              | (String d ds, String ")" rest) =>
                  parse_suffixes fuel'
                    {| c_type := c_type c; c_ids := c_ids c; c_classes := c_classes c;
                       c_nths := c_nths c ++ [digits_to_nat (String d ds)] |} rest
              | _ => None
              end
          | None => None
          end
      | _ => Some (c, s)
      end
  end.

Definition compound_is_empty (c : compound) : bool :=
  match c_type c, c_ids c, c_classes c, c_nths c with
  | None, [], [], [] => true
  | _, _, _, _ => false
  end.

Definition parse_compound (s : string) : option (compound * string) :=
  let '(ty, rest) :=
    match parse_ident s with
    | Some (t, rest) => (Some t, rest)
    | None => (None, s)
    end in
  match parse_suffixes (S (String.length rest))
          {| c_type := ty; c_ids := []; c_classes := []; c_nths := [] |} rest with
  | Some (c, rest') => if compound_is_empty c then None else Some (c, rest')
  | None => None
  end.

Fixpoint skip_spaces (s : string) : string :=
  match s with
  | String a s' => if is_space a then skip_spaces s' else s
  | EmptyString => s
  end.

(** A selector: compounds joined by [>], leftmost first. *)
Fixpoint parse_selector (fuel : nat) (s : string) : option (list compound) :=
  match fuel with
  | O => None
  | S fuel' =>
      match parse_compound s with
      | Some (c, rest) =>
          match skip_spaces rest with
          | EmptyString => Some [c]
          | String ">" rest' =>
              match parse_selector fuel' (skip_spaces rest') with
              | Some cs => Some (c :: cs)
              | None => None
              end
          | _ => None
          end
      | None => None
      end
  end.

Definition parse_css (s : string) : option (list compound) :=
  parse_selector (S (String.length s)) (skip_spaces s).

(** The position of the element at the head of the chain among the
    element children of its parent; the root is the first child of the
    document. *)
Definition element_index (ch : list node) : nat :=
  match ch with
  | n :: p :: _ => index_plus_1 n (children p)
  | _ => 1
  end.

(** Its position among the element children with the same tag name. *)
Definition type_index (ch : list node) : nat :=
  match ch with
  | n :: p :: _ =>
      index_plus_1 n
        (List.filter (fun m => String.eqb (node_tagName m) (node_tagName n)) (children p))
  | _ => 1
  end.

Definition name_matches (name : string) (n : node) : bool :=
  String.eqb (toLowerCase name) (toLowerCase (node_tagName n)).

Definition compound_matches (c : compound) (ch : list node) : bool :=
  match ch with
  | [] => false
  | n :: _ =>
      match c_type c with Some t => name_matches t n | None => true end
      && forallb (fun i => String.eqb i (node_id n)) (c_ids c)
      && forallb (fun cl => array_includes (class_tokens (node_className n)) cl) (c_classes c)
      && forallb (fun k => (k =? element_index ch)%nat) (c_nths c)
  end.

(** The compounds, rightmost first, against the element and its ancestors. *)
Fixpoint selector_matches (rev_sel : list compound) (ch : list node) : bool :=
  match rev_sel with
  | [] => true
  | c :: cs =>
      compound_matches c ch
      && match cs with
         | [] => true
         | _ => match ch with _ :: up => selector_matches cs up | [] => false end
         end
  end.

(** [document.querySelectorAll(selector)]. *)
Definition querySelectorAll (doc : node) (selector : string) : outcome (list nat) :=
  match parse_css selector with
  | None => Threw
  | Some sel =>
      Returned (omap chain_ref (List.filter (selector_matches (rev sel)) (doc_chains doc)))
  end.

(** [document.querySelector(selector)]: the first match in document order. *)
Definition querySelector (doc : node) (selector : string) : outcome (option nat) :=
  match querySelectorAll doc selector with
  | Threw => Threw
  | Returned l => Returned (head l)
  end.

(** The steps [name[i]] of a location path. *)
Definition is_xname_char (a : ascii) : bool := is_name_char a || Ascii.eqb a ".".

Fixpoint span_xname (s : string) : string * string :=
  match s with
  | String a s' =>
      if is_xname_char a
      then let '(n, rest) := span_xname s' in (String a n, rest)
      else (EmptyString, s)
  | EmptyString => (EmptyString, EmptyString)
  end.

Definition parse_step (s : string) : option ((string * nat) * string) :=
  match s with
  | String a _ =>
      if is_name_start a then
        match span_xname s with
        | (name, String "[" rest) =>
            match span_digits rest with
            | (String d ds, String "]" rest') => Some ((name, digits_to_nat (String d ds)), rest')
            | _ => None
            end
        | _ => None
        end
      else None
  | EmptyString => None
  end.

Fixpoint parse_steps (fuel : nat) (s : string) : option (list (string * nat)) :=
  match fuel with
  | O => None
  | S fuel' =>
      match parse_step s with
      | Some (st, EmptyString) => Some [st]
      | Some (st, String "/" rest) =>
          match parse_steps fuel' rest with
          | Some sts => Some (st :: sts)
          | None => None
          end
      | _ => None
      end
  end.

Definition parse_xpath (s : string) : option (list (string * nat)) :=
  match strip_prefix "//" s with
  | Some rest => parse_steps (S (String.length rest)) rest
  | None => None
  end.

Definition step_matches (st : string * nat) (ch : list node) : bool :=
  match ch with
  | [] => false
  | n :: _ => name_matches (fst st) n && (snd st =? type_index ch)%nat
  end.

Fixpoint steps_match (rev_steps : list (string * nat)) (ch : list node) : bool :=
  match rev_steps with
  | [] => true
  | st :: sts =>
      step_matches st ch
      && match sts with
         | [] => true
         | _ => match ch with _ :: up => steps_match sts up | [] => false end
         end
  end.

(** [document.evaluate(xpath, document, null, FIRST_ORDERED_NODE_TYPE,
    null).singleNodeValue]. *)
Definition evaluate (doc : node) (xpath : string) : outcome (option nat) :=
  match parse_xpath xpath with
  | None => Threw
  | Some steps =>
      Returned (head (omap chain_ref (List.filter (steps_match (rev steps)) (doc_chains doc))))
  end.

(** The decimal numeral of a number, as a template literal prints it. *)
Definition nat_to_string (n : nat) : string :=
  NilEmpty.string_of_uint (Nat.to_uint n).

(** [CSS.escape(value)]. *)
Definition hex_char (n : nat) : ascii :=
  if (n <? 10)%nat then ascii_of_nat (48 + n) else ascii_of_nat (87 + n).
Definition hex_escape (a : ascii) : string :=
  let n := nat_of_ascii a in
  String "\" ((if (n <? 16)%nat then EmptyString else String (hex_char (n / 16)) EmptyString)
              ++ String (hex_char (n mod 16)) (String " " EmptyString)).

Fixpoint css_escape_from (i : nat) (first : ascii) (len : nat) (s : string) : string :=
  match s with
  | EmptyString => EmptyString
  | String a s' =>
      let n := nat_of_ascii a in
      (if (n =? 0)%nat then "?"
       else if ((n <=? 31) || (n =? 127))%nat then hex_escape a
       else if ((i =? 0)%nat && is_digit a) then hex_escape a
       else if ((i =? 1)%nat && is_digit a && Ascii.eqb first "-") then hex_escape a
       else if ((i =? 0)%nat && (len =? 1)%nat && Ascii.eqb a "-") then String "\" (String a EmptyString)
       else if is_name_char a then String a EmptyString
       else String "\" (String a EmptyString))
      ++ css_escape_from (S i) first len s'
  end.

Definition CSS_escape (s : string) : string :=
  css_escape_from 0 (match s with String a _ => a | EmptyString => "000"%char end)
    (String.length s) s.

(** ** JavaScript [Map]: keys in insertion order *)

Definition jsmap (V : Type) := list (string * V).

Fixpoint map_get {V} (k : string) (m : jsmap V) : option V :=
  match m with
  | [] => None
  | (k', v) :: m' => if String.eqb k k' then Some v else map_get k m'
  end.

Definition map_has {V} (k : string) (m : jsmap V) : bool :=
  match map_get k m with Some _ => true | None => false end.

Fixpoint map_delete {V} (k : string) (m : jsmap V) : jsmap V :=
  match m with
  | [] => []
  | (k', v) :: m' => if String.eqb k k' then map_delete k m' else (k', v) :: map_delete k m'
  end.

(** [map.set(k, v)]: an existing key keeps its place, a new key goes last. *)
Fixpoint map_set {V} (k : string) (v : V) (m : jsmap V) : jsmap V :=
  match m with
  | [] => [(k, v)]
  | (k', v') :: m' => if String.eqb k k' then (k, v) :: m' else (k', v') :: map_set k v m'
  end.

Definition map_size {V} (m : jsmap V) : nat := List.length m.
Definition map_keys {V} (m : jsmap V) : list string := List.map fst m.

(** ** selection-manager.js: [validateXPath] *)

Definition safe_xpath_char (a : ascii) : bool :=
  is_word a || is_space a || is_digit a
  || existsb (Ascii.eqb a)
       [ "["; "]"; "@"; "="; "'"; "034"; "-"; "_"; "."; "/"; "("; ")" ]%char.

(** [safeXPathPattern]: a slash, an optional second slash, an optional
    star, then any run of word characters, white space, digits and the
    punctuation [ ] @ = ' (double quote) - _ . / ( and ), up to the end. *)
Definition safeXPathPattern : regex :=
  Cat (Lit1 "/") (Cat (Opt (Lit1 "/")) (Cat (Opt (Lit1 "*")) (Star (Chr safe_xpath_char)))).

(** [document\s*\(], [eval\s*\(], [script\s*\(], [javascript:] (i),
    [data:] (i), [<script] (i), [on\w+\s*=] (i). *)
Definition dangerousPatterns : list regex :=
  [ Cat (Lit "document") (Cat ws (Lit1 "("));
    Cat (Lit "eval") (Cat ws (Lit1 "("));
    Cat (Lit "script") (Cat ws (Lit1 "("));
    LitI "javascript:";
    LitI "data:";
    LitI "<script";
    Cat (LitI "on") (Cat (Plus (Chr is_word)) (Cat ws (Lit1 "="))) ].

(** [validateXPath(xpath)]; [None] is a null or missing value. *)
Definition validateXPath (xpath : option string) : bool :=
  match xpath with
  | None | Some EmptyString => false
  | Some x =>
      if negb (re_test safeXPathPattern x) then false
      else negb (existsb (fun p => re_search p x) dangerousPatterns)
  end.

(** ** dom-selectors.js *)

Record selector := { css : option string; xpath : option string }.

Definition element_cache := jsmap nat.
Definition CACHE_SIZE_LIMIT : nat := 500.

(** [`${a || ''}`]. *)
Definition or_empty (s : option string) : string :=
  match s with Some x => x | None => EmptyString end.

(** A string that is neither null nor empty. *)
Definition truthy (s : option string) : option string :=
  match s with
  | Some EmptyString | None => None
  | Some x => Some x
  end.

(** [cacheElement(key, element)]: at the size limit the first quarter
    of the keys, in insertion order, is deleted before the entry is set. *)
Definition cacheElement (cache : element_cache) (key : string) (element : nat) : element_cache :=
  let cache' :=
    if (CACHE_SIZE_LIMIT <=? map_size cache)%nat then
      let entriesToRemove := (CACHE_SIZE_LIMIT * 25 / 100)%nat in
      let keys := firstn entriesToRemove (map_keys cache) in
      fold_left (fun c k => map_delete k c) keys cache
    else cache in
  map_set key element cache'.

Definition cache_key (s : selector) : string :=
  or_empty (css s) ++ "_" ++ or_empty (xpath s).

(** The lookups of [findElementBySelector] after the cache has missed:
    the CSS selector first, the XPath when it validates; an engine
    error is caught and the lookup goes on. *)
Definition query_selectors (doc : node) (cache : element_cache) (cacheKey : string)
    (s : selector) : option nat * element_cache :=
  let by_xpath :=
    match truthy (xpath s) with
    | Some x =>
        if validateXPath (Some x) then
          match evaluate doc x with
          | Returned (Some element) => (Some element, cacheElement cache cacheKey element)
          | _ => (None, cache)
          end
        else (None, cache)
    | None => (None, cache)
    end in
  match truthy (css s) with
  | Some c =>
      match querySelector doc c with
      | Returned (Some element) => (Some element, cacheElement cache cacheKey element)
      | _ => by_xpath
      end
  | None => by_xpath
  end.

(** [findElementBySelector(selector)]: the element found, and the cache
    as the call leaves it. *)
Definition findElementBySelector (doc : node) (cache : element_cache)
    (s : option selector) : option nat * element_cache :=
  match s with
  | None => (None, cache)
  | Some s =>
      let cacheKey := cache_key s in
      match map_get cacheKey cache with
      | Some cachedElement =>
          if contains doc cachedElement then (Some cachedElement, cache)
          else query_selectors doc (map_delete cacheKey cache) cacheKey s
      | None => query_selectors doc cache cacheKey s
      end
  end.

(** [/^[a-zA-Z][a-zA-Z0-9_-]*$/] *)
Definition validClassPattern : regex :=
  Cat (Chr is_alpha)
      (Star (Chr (fun a => is_alpha a || is_digit a || Ascii.eqb a "_" || Ascii.eqb a "-"))).

Definition isValidCSSClass (className : string) : bool :=
  match className with
  | EmptyString => false
  | _ => re_test validClassPattern className && (String.length className <=? 50)%nat
  end.

(** [isIdUnique(id)]; a query error is caught and answered with false. *)
Definition isIdUnique (doc : node) (id : string) : bool :=
  match id with
  | EmptyString => false
  | _ =>
      match querySelectorAll doc ("#" ++ CSS_escape id) with
      | Returned elements => (List.length elements =? 1)%nat
      | Threw => false
      end
  end.

Definition is_documentElement (doc n : node) : bool := same_node n doc.

(** [array.join(sep)]. *)
Definition join (sep : string) (l : list string) : string := String.concat sep l.

(** The segment of [generateCSSSelector] for [current], for an element
    whose id is not used: tag, up to three valid classes, and the
    position among the siblings of the same tag when there are several. *)
Definition css_segment (current : node) (parent : option node) : string :=
  let sel := toLowerCase (node_tagName current) in
  let classes :=
    firstn 3 (List.map CSS_escape
                (List.filter isValidCSSClass (class_tokens (node_className current)))) in
  let sel := match classes with
             | [] => sel
             | _ => sel ++ "." ++ join "." classes
             end in
  match parent with
  | Some p =>
      let siblings :=
        List.filter (fun el => String.eqb (node_tagName el) (node_tagName current)) (children p) in
      if (1 <? List.length siblings)%nat
      then sel ++ ":nth-child(" ++ nat_to_string (index_plus_1 current siblings) ++ ")"
      else sel
  | None => sel
  end.

(** The loop of [generateCSSSelector]: from [current] up, until the
    document element or the first element with a unique id. *)
Fixpoint css_path (doc : node) (ch : list node) : list string :=
  match ch with
  | [] => []
  | current :: up =>
      if is_documentElement doc current then []
      else if negb (String.eqb (node_id current) EmptyString) && isIdUnique doc (node_id current)
      then [toLowerCase (node_tagName current) ++ "#" ++ CSS_escape (node_id current)]
      else css_path doc up ++ [css_segment current (head up)]
  end.

Definition join_path (sep : string) (path : list string) : option string :=
  match path with [] => None | _ => Some (join sep path) end.

Definition generateCSSSelector (doc : node) (ch : list node) : option string :=
  join_path " > " (css_path doc ch).

(** The loop of [generateRobustCSSSelector]: every segment carries its
    position among all the element children of the parent. *)
Fixpoint robust_path (doc : node) (ch : list node) : list string :=
  match ch with
  | [] => []
  | current :: up =>
      if is_documentElement doc current then []
      else
        let sel := toLowerCase (node_tagName current) in
        let sel := match head up with
                   | Some p =>
                       sel ++ ":nth-child("
                       ++ nat_to_string (index_plus_1 current (children p)) ++ ")"
                   | None => sel
                   end in
        robust_path doc up ++ [sel]
  end.

Definition generateRobustCSSSelector (doc : node) (ch : list node) : option string :=
  join_path " > " (robust_path doc ch).

(** The loop of [generateXPath]: one plus the number of preceding
    siblings that are elements of the same tag name. *)
Fixpoint xpath_path (doc : node) (ch : list node) : list string :=
  match ch with
  | [] => []
  | current :: up =>
      if is_documentElement doc current then []
      else
        let before :=
          match head up with
          | Some p => previous_siblings current (childNodes p)
          | None => []
          end in
        let index :=
          S (List.length
               (List.filter
                  (fun sib => is_element sib
                              && String.eqb (node_tagName sib) (node_tagName current))
                  before)) in
        xpath_path doc up
        ++ [toLowerCase (node_tagName current) ++ "[" ++ nat_to_string index ++ "]"]
  end.

Definition generateXPath (doc : node) (ch : list node) : option string :=
  match xpath_path doc ch with
  | [] => None
  | path => Some ("//" ++ join "/" path)
  end.

Definition same_element (found : option nat) (element : nat) : bool :=
  match found with Some r => (r =? element)%nat | None => false end.

Definition null_selector : selector := {| css := None; xpath := None |}.

(** [generateOptimalSelector(element)].  The element is a reference
    into the document; [None] is null.  An error thrown by
    [document.querySelector] leaves through the function's own handler,
    which answers with the null pair; an error thrown by the XPath
    evaluation is caught where it is raised. *)
Definition generateOptimalSelector (doc : node) (element : option nat) : selector :=
  match element with
  | None => null_selector
  | Some e =>
      let ch := match chain_of doc e with Some ch => ch | None => [] end in
      let css := generateCSSSelector doc ch in
      let xpath := generateXPath doc ch in
      let after_css :=
        (* the XPath check, then the robust selector *)
        let after_xpath :=
          let robustCSS := generateRobustCSSSelector doc ch in
          match truthy robustCSS with
          | Some rc =>
              match querySelector doc rc with
              | Threw => null_selector
              | Returned found =>
                  if same_element found e then {| css := Some rc; xpath := xpath |}
                  else {| css := css; xpath := xpath |}
              end
          | None => {| css := css; xpath := xpath |}
          end in
        match truthy xpath with
        | Some x =>
            if validateXPath (Some x) then
              match evaluate doc x with
              | Returned found =>
                  if same_element found e then {| css := None; xpath := xpath |}
                  else after_xpath
              | Threw => after_xpath
              end
            else after_xpath
        | None => after_xpath
        end in
      match truthy css with
      | Some c =>
          match querySelector doc c with
          | Threw => null_selector
          | Returned found =>
              if same_element found e then {| css := css; xpath := xpath |}
              else after_css
          end
      | None => after_css
      end
  end.

(** ** selection-manager.js: locating and highlighting text *)

Definition MAX_HIGHLIGHTS : nat := 1000.
Definition HIGHLIGHT_CLASS : string := "web-notes-highlight".

(** The text nodes under a node, as a [TreeWalker] with [SHOW_TEXT]
    visits them: reference and [textContent], in document order. *)
Fixpoint text_nodes (n : node) : list (nat * string) :=
  match n with
  | Text r d => [(r, d)]
  | Element _ _ _ _ kids => flat_map text_nodes kids
  end.

(** [node.textContent]. *)
Fixpoint textContent (n : node) : string :=
  match n with
  | Text _ d => d
  | Element _ _ _ _ kids => String.concat "" (List.map textContent kids)
  end.

(** The loop of [findTextInElement] over the text nodes. *)
Fixpoint findTextInNodes (nodes : list (nat * string))
    (text contextBefore contextAfter : string) : option (nat * Z) :=
  match nodes with
  | [] => None
  | (node, nodeText) :: rest =>
      let fullContext := contextBefore ++ text ++ contextAfter in
      if includes nodeText fullContext
      then Some (node, (indexOf nodeText fullContext + Z.of_nat (String.length contextBefore))%Z)
      else if includes nodeText text
      then Some (node, indexOf nodeText text)
      else findTextInNodes rest text contextBefore contextAfter
  end.

(** [findTextInElement(element, text, contextBefore, contextAfter)]:
    the text node and the position in it, or [None] for null. *)
Definition findTextInElement (element : node)
    (text contextBefore contextAfter : string) : option (nat * Z) :=
  findTextInNodes (text_nodes element) text contextBefore contextAfter.

(** [findTextOffset(textNode, text, contextBefore)], on the node's text. *)
Definition findTextOffset (nodeText text contextBefore : string) : Z :=
  let fallback := indexOf nodeText text in
  match contextBefore with
  | EmptyString => fallback
  | _ =>
      let contextIndex := indexOf nodeText (contextBefore ++ text) in
      if (contextIndex =? -1)%Z then fallback
      else (contextIndex + Z.of_nat (String.length contextBefore))%Z
  end.

Record selection_data := {
  sel_text : string;
  contextBefore : string;
  contextAfter : string;
  sel_targetElement : option nat
}.

Record highlight_record := {
  hl_element : nat;
  hl_targetElement : nat;
  originalText : string
}.

(** The document, the [noteHighlights] map, the inline background of
    each highlight span, and the next reference [document.createElement]
    or a new text node receives. *)
Record highlight_state := {
  hs_doc : node;
  noteHighlights : jsmap highlight_record;
  hs_background : list (nat * string);
  hs_next_ref : nat
}.

Definition is_element_ref (r : nat) (n : node) : bool :=
  match n with Element r' _ _ _ _ => (r' =? r)%nat | Text _ _ => false end.
Definition is_text_ref (r : nat) (n : node) : bool :=
  match n with Text r' _ => (r' =? r)%nat | Element _ _ _ _ _ => false end.

(** The subtree of the element [r]. *)
Definition find_element (doc : node) (r : nat) : option node :=
  match chain_of doc r with
  | Some (n :: _) => Some n
  | _ => None
  end.

(** [Node.normalize] on a list of children: empty text nodes go, a run
    of adjacent text nodes becomes its first node with the data of all. *)
Fixpoint merge_text (l : list node) : list node :=
  match l with
  | [] => []
  | Text r d :: rest =>
      match d with
      | EmptyString => merge_text rest
      | _ =>
          match merge_text rest with
          | Text _ d' :: rest' => Text r (d ++ d') :: rest'
          | other => Text r d :: other
          end
      end
  | n :: rest => n :: merge_text rest
  end.

Fixpoint normalize (n : node) : node :=
  match n with
  | Text _ _ => n
  | Element r t i c kids => Element r t i c (merge_text (List.map normalize kids))
  end.

(** What the three range calls of [createTextHighlight] leave where the
    text node was: [extractContents] moves the characters of the range
    into a new text node, [insertNode] splits the node at the start of
    the range and puts the span before the second half, [appendChild]
    moves the extracted text into the span. *)
Definition split_around (span mid after : nat) (offset len : nat) (n : node) : list node :=
  match n with
  | Text r d =>
      [ Text r (substring 0 offset d);
        Element span "SPAN" "" HIGHLIGHT_CLASS [Text mid (substring offset len d)];
        Text after (substring (offset + len) (String.length d - (offset + len)) d) ]
  | _ => [n]
  end.

Fixpoint wrap_range (text_node span mid after : nat) (offset len : nat) (n : node) : node :=
  match n with
  | Text _ _ => n
  | Element r t i c kids =>
      Element r t i c
        (flat_map (fun k => if is_text_ref text_node k
                            then split_around span mid after offset len k
                            else [wrap_range text_node span mid after offset len k]) kids)
  end.

(** [parent.replaceChild(textNode, element)] followed by
    [parent.normalize()], at the parent of the span. *)
Fixpoint unwrap (span fresh : nat) (n : node) : node :=
  match n with
  | Text _ _ => n
  | Element r t i c kids =>
      if existsb (is_element_ref span) kids
      then normalize
             (Element r t i c
                (List.map (fun k => if is_element_ref span k
                                    then Text fresh (textContent k) else k) kids))
      else Element r t i c (List.map (unwrap span fresh) kids)
  end.

(** [removeTextHighlight(noteId)].  A span that is no longer in the
    document has at most a detached parent: the document stays as it
    is and the record is dropped all the same. *)
Definition removeTextHighlight (noteId : string) (s : highlight_state)
    : bool * highlight_state :=
  match map_get noteId (noteHighlights s) with
  | None => (false, s)
  | Some highlightData =>
      let element := hl_element highlightData in
      (true,
       {| hs_doc := if contains (hs_doc s) element
                    then unwrap element (hs_next_ref s) (hs_doc s)
                    else hs_doc s;
          noteHighlights := map_delete noteId (noteHighlights s);
          hs_background := hs_background s;
          hs_next_ref := S (hs_next_ref s) |})
  end.

(** [cleanupHighlights()]: above the limit, the oldest entries in
    excess are removed. *)
Definition cleanupHighlights (s : highlight_state) : highlight_state :=
  if (MAX_HIGHLIGHTS <? map_size (noteHighlights s))%nat then
    let excessCount := (map_size (noteHighlights s) - MAX_HIGHLIGHTS)%nat in
    fold_left (fun st noteId => snd (removeTextHighlight noteId st))
              (firstn excessCount (map_keys (noteHighlights s))) s
  else s.

(** [createTextHighlight(noteData, backgroundColor)], on the fields of
    [noteData] it reads: the note id and the selection data. *)
Definition createTextHighlight (id : string) (selectionData : option selection_data)
    (backgroundColor : js_value) (s : highlight_state) : bool * highlight_state :=
  match selectionData with
  | None => (false, s)
  | Some sd =>
      match sel_text sd with
      | EmptyString => (false, s)
      | text =>
          let s1 := snd (removeTextHighlight id s) in
          match sel_targetElement sd with
          | None => (false, s1)
          | Some target =>
              match find_element (hs_doc s1) target with
              | None => (false, s1)
              | Some targetElement =>
                  match findTextInElement targetElement text (contextBefore sd) (contextAfter sd) with
                  | None => (false, s1)
                  | Some (textNode, _) =>
                      let highlight := hs_next_ref s1 in
                      let s2 :=
                        {| hs_doc := hs_doc s1;
                           noteHighlights := noteHighlights s1;
                           hs_background :=
                             (highlight, sanitizeColor backgroundColor) :: hs_background s1;
                           hs_next_ref := S highlight |} in
                      let nodeText :=
                        match List.find (fun p => (fst p =? textNode)%nat) (text_nodes targetElement) with
                        | Some (_, d) => d
                        | None => EmptyString
                        end in
                      let textOffset := findTextOffset nodeText text (contextBefore sd) in
                      if (textOffset =? -1)%Z then (false, s2)
                      else
                        let s3 :=
                          {| hs_doc :=
                               wrap_range textNode highlight (S highlight) (S (S highlight))
                                 (Z.to_nat textOffset) (String.length text) (hs_doc s2);
                             noteHighlights :=
                               map_set id {| hl_element := highlight;
                                             hl_targetElement := target;
                                             originalText := text |} (noteHighlights s2);
                             hs_background := hs_background s2;
                             hs_next_ref := S (S (S highlight)) |} in
                        (true, cleanupHighlights s3)
                  end
              end
          end
      end
  end.

(** ** Note records, update requests, geometry *)

(** The fields of a stored note the engine reads; [None] is an absent
    or null field. *)
Record note_data := {
  nd_id : string;
  cssSelector : option string;
  nd_xpath : option string;
  offsetX : option Z;
  offsetY : option Z;
  selectionData : option selection_data
}.

(** The partial records handed to [updateNote(url, noteId, fields)]. *)
Inductive update_fields :=
| AnchorFields (cssSelector xpath : option string) (offsetX offsetY : Z)
| OffsetFields (offsetX offsetY : Z)
| AbsoluteFields (x y : Z)
| ContentFields (content : string).

Record update_request := { req_noteId : string; req_fields : update_fields }.

(** [window]: the viewport, the scroll position and how far the page
    can scroll. *)
Record window_state := {
  innerWidth : Z;
  innerHeight : Z;
  pageXOffset : Z;
  pageYOffset : Z;
  scrollMaxX : Z;
  scrollMaxY : Z
}.

(** A [DOMRect]. *)
Record rect := { r_left : Z; r_top : Z; r_width : Z; r_height : Z }.
Definition r_right (r : rect) : Z := r_left r + r_width r.
Definition r_bottom (r : rect) : Z := r_top r + r_height r.

(** A note element: an absolutely positioned box whose inline
    [style.left] and [style.top] are page coordinates in pixels, with
    the inline style and the classes the drag code writes. *)
Record note_element := {
  ne_ref : nat;
  style_left : Z;
  style_top : Z;
  ne_width : Z;
  ne_height : Z;
  style_opacity : string;
  style_transform : string;
  style_zIndex : string;
  style_cursor : string;
  style_boxShadow : string;
  ne_classList : list string;
  dataset_cssSelector : string;
  dataset_xpath : string
}.

Definition set_position (n : note_element) (l t : Z) : note_element :=
  {| ne_ref := ne_ref n; style_left := l; style_top := t;
     ne_width := ne_width n; ne_height := ne_height n;
     style_opacity := style_opacity n; style_transform := style_transform n;
     style_zIndex := style_zIndex n; style_cursor := style_cursor n;
     style_boxShadow := style_boxShadow n; ne_classList := ne_classList n;
     dataset_cssSelector := dataset_cssSelector n; dataset_xpath := dataset_xpath n |}.

(** [noteElement.getBoundingClientRect()]: the box in viewport
    coordinates. *)
Definition note_rect (w : window_state) (n : note_element) : rect :=
  {| r_left := style_left n - pageXOffset w; r_top := style_top n - pageYOffset w;
     r_width := ne_width n; r_height := ne_height n |}.

(** [element.getBoundingClientRect()] for a page element whose box, in
    page coordinates, is [layout element]. *)
Definition client_rect (w : window_state) (layout : nat -> rect) (element : nat) : rect :=
  let b := layout element in
  {| r_left := r_left b - pageXOffset w; r_top := r_top b - pageYOffset w;
     r_width := r_width b; r_height := r_height b |}.

(** ** note-positioning.js *)

Definition DEFAULT_OFFSET_X : Z := 10.
Definition DEFAULT_OFFSET_Y : Z := 10.
Definition MIN_VIEWPORT_MARGIN : Z := 20.

(** [updateNoteOffset(noteId, newOffsetX, newOffsetY)]: the call to
    [updateNote] it makes. *)
Definition updateNoteOffset (noteId : string) (newOffsetX newOffsetY : Z) : update_request :=
  {| req_noteId := noteId; req_fields := OffsetFields newOffsetX newOffsetY |}.

Definition is_truthy (s : option string) : bool :=
  match truthy s with Some _ => true | None => false end.

(** [ensureNoteVisibility(noteElement, noteData)]: the note element,
    the element cache and the update requests it leaves. *)
Definition ensureNoteVisibility (doc : node) (cache : element_cache) (w : window_state)
    (layout : nat -> rect) (noteElement : note_element) (noteData : note_data)
    : note_element * element_cache * list update_request :=
  if negb (contains doc (ne_ref noteElement)) then (noteElement, cache, [])
  else
    let rect := note_rect w noteElement in
    let '(newLeft, adjustedX) :=
      if (innerWidth w - MIN_VIEWPORT_MARGIN <? r_right rect)%Z
      then ((innerWidth w - r_width rect - MIN_VIEWPORT_MARGIN + pageXOffset w)%Z, true)
      else if (r_left rect <? MIN_VIEWPORT_MARGIN)%Z
      then ((MIN_VIEWPORT_MARGIN + pageXOffset w)%Z, true)
      else (style_left noteElement, false) in
    let '(newTop, adjustedY) :=
      if (innerHeight w - MIN_VIEWPORT_MARGIN <? r_bottom rect)%Z
      then ((innerHeight w - r_height rect - MIN_VIEWPORT_MARGIN + pageYOffset w)%Z, true)
      else if (r_top rect <? MIN_VIEWPORT_MARGIN)%Z
      then ((MIN_VIEWPORT_MARGIN + pageYOffset w)%Z, true)
      else (style_top noteElement, false) in
    if adjustedX || adjustedY then
      let moved := set_position noteElement newLeft newTop in
      if is_truthy (cssSelector noteData) || is_truthy (nd_xpath noteData) then
        match findElementBySelector doc cache
                (Some {| css := cssSelector noteData; xpath := nd_xpath noteData |}) with
        | (Some targetElement, cache') =>
            let targetRect := client_rect w layout targetElement in
            let newOffsetX := (newLeft - (r_left targetRect + pageXOffset w))%Z in
            let newOffsetY := (newTop - (r_top targetRect + pageYOffset w))%Z in
            (moved, cache', [updateNoteOffset (nd_id noteData) newOffsetX newOffsetY])
        | (None, cache') => (moved, cache', [])
        end
      else (moved, cache, [])
    else (noteElement, cache, []).

(** [calculateNotePosition(noteData, targetElement)]. *)
Definition calculateNotePosition (doc : node) (w : window_state) (layout : nat -> rect)
    (noteData : note_data) (targetElement : option nat) : option (Z * Z) :=
  match targetElement with
  | None => None
  | Some t =>
      if contains doc t then
        let targetRect := client_rect w layout t in
        let offX := match offsetX noteData with Some v => v | None => DEFAULT_OFFSET_X end in
        let offY := match offsetY noteData with Some v => v | None => DEFAULT_OFFSET_Y end in
        Some ((r_left targetRect + pageXOffset w + offX)%Z,
              (r_top targetRect + pageYOffset w + offY)%Z)
      else None
  end.

(** ** note-dragging.js *)

Record DraggingStateT := {
  isDragging : bool;
  draggedNote : option nat;
  draggedNoteData : option note_data;
  drag_targetElement : option nat;
  initialMousePos : Z * Z;
  initialNotePos : Z * Z;
  dragOffsetX : Z;
  dragOffsetY : Z
}.

Definition DRAG_THRESHOLD : Z := 5.
Definition DRAG_OPACITY : string := "0.8".
Definition DRAG_SCALE : string := "1.05".
Definition DRAG_Z_INDEX : string := "10001".
Definition SCROLL_ZONE_SIZE : Z := 50.
Definition SCROLL_SPEED : Z := 5.

(** A mouse event, with what the hit tests of the handlers answer for
    it: [under_cursor] is [document.elementFromPoint(clientX, clientY)]
    while the dragged note is hidden; [stack_at_center] is
    [document.elementsFromPoint] at the centre of that element's box. *)
Record mouse_event := {
  clientX : Z;
  clientY : Z;
  under_cursor : option nat;
  stack_at_center : list nat
}.

(** The page the drag handlers act on.  [pg_notes] holds the note
    elements by reference: the handlers reach the dragged note through
    [DraggingState.draggedNote] and write its inline style in place.
    [pg_requests] lists the calls to [updateNote], oldest first, and
    [pg_visibility_checks] the notes for which [ensureNoteVisibility]
    has been scheduled. *)
Record page := {
  pg_doc : node;
  pg_cache : element_cache;
  pg_window : window_state;
  pg_layout : nat -> rect;
  pg_notes : gmap nat note_element;
  currentPageNotes : list note_data;
  pg_requests : list update_request;
  pg_visibility_checks : list (nat * note_data);
  DraggingState : DraggingStateT
}.

Definition with_dragging (p : page) (d : DraggingStateT) : page :=
  {| pg_doc := pg_doc p; pg_cache := pg_cache p; pg_window := pg_window p;
     pg_layout := pg_layout p; pg_notes := pg_notes p;
     currentPageNotes := currentPageNotes p; pg_requests := pg_requests p;
     pg_visibility_checks := pg_visibility_checks p; DraggingState := d |}.

Definition with_notes (p : page) (ns : gmap nat note_element) : page :=
  {| pg_doc := pg_doc p; pg_cache := pg_cache p; pg_window := pg_window p;
     pg_layout := pg_layout p; pg_notes := ns;
     currentPageNotes := currentPageNotes p; pg_requests := pg_requests p;
     pg_visibility_checks := pg_visibility_checks p; DraggingState := DraggingState p |}.

Definition with_doc (p : page) (d : node) : page :=
  {| pg_doc := d; pg_cache := pg_cache p; pg_window := pg_window p;
     pg_layout := pg_layout p; pg_notes := pg_notes p;
     currentPageNotes := currentPageNotes p; pg_requests := pg_requests p;
     pg_visibility_checks := pg_visibility_checks p; DraggingState := DraggingState p |}.

Definition with_window (p : page) (w : window_state) : page :=
  {| pg_doc := pg_doc p; pg_cache := pg_cache p; pg_window := w;
     pg_layout := pg_layout p; pg_notes := pg_notes p;
     currentPageNotes := currentPageNotes p; pg_requests := pg_requests p;
     pg_visibility_checks := pg_visibility_checks p; DraggingState := DraggingState p |}.

Definition with_requests (p : page) (rs : list update_request) : page :=
  {| pg_doc := pg_doc p; pg_cache := pg_cache p; pg_window := pg_window p;
     pg_layout := pg_layout p; pg_notes := pg_notes p;
     currentPageNotes := currentPageNotes p; pg_requests := rs;
     pg_visibility_checks := pg_visibility_checks p; DraggingState := DraggingState p |}.

Definition with_visibility_checks (p : page) (cs : list (nat * note_data)) : page :=
  {| pg_doc := pg_doc p; pg_cache := pg_cache p; pg_window := pg_window p;
     pg_layout := pg_layout p; pg_notes := pg_notes p;
     currentPageNotes := currentPageNotes p; pg_requests := pg_requests p;
     pg_visibility_checks := cs; DraggingState := DraggingState p |}.

(** A write to the style of the note element [r]. *)
Definition update_note (r : nat) (f : note_element -> note_element) (p : page) : page :=
  with_notes p (alter f r (pg_notes p)).

Definition set_drag_style (opacity transform zIndex cursor boxShadow : string)
    (classes : list string) (n : note_element) : note_element :=
  {| ne_ref := ne_ref n; style_left := style_left n; style_top := style_top n;
     ne_width := ne_width n; ne_height := ne_height n;
     style_opacity := opacity; style_transform := transform;
     style_zIndex := zIndex; style_cursor := cursor;
     style_boxShadow := boxShadow; ne_classList := classes;
     dataset_cssSelector := dataset_cssSelector n; dataset_xpath := dataset_xpath n |}.

(** [classList.add] and [classList.remove] on a list of class names. *)
Definition classList_add (cls : string) (l : list string) : list string :=
  if array_includes l cls then l else l ++ [cls].
Definition classList_remove (cls : string) (l : list string) : list string :=
  List.filter (fun c => negb (String.eqb c cls)) l.

(** [startDrag(event, noteElement, noteData, targetElement)]. *)
Definition startDrag (event : mouse_event) (noteElement : nat) (noteData : note_data)
    (targetElement : option nat) (p : page) : page :=
  match pg_notes p !! noteElement with
  | None => p
  | Some n =>
      let noteRect := note_rect (pg_window p) n in
      with_dragging p
        {| isDragging := false;
           draggedNote := Some noteElement;
           draggedNoteData := Some noteData;
           drag_targetElement := targetElement;
           initialMousePos := (clientX event, clientY event);
           initialNotePos := ((r_left noteRect + pageXOffset (pg_window p))%Z,
                              (r_top noteRect + pageYOffset (pg_window p))%Z);
           dragOffsetX := (clientX event - r_left noteRect)%Z;
           dragOffsetY := (clientY event - r_top noteRect)%Z |}
  end.

(** [startDragVisualEffects(noteElement)]. *)
Definition startDragVisualEffects (noteElement : nat) (p : page) : page :=
  update_note noteElement
    (fun n => set_drag_style DRAG_OPACITY ("scale(" ++ DRAG_SCALE ++ ")") DRAG_Z_INDEX
                "grabbing" "0 8px 25px rgba(0,0,0,0.25)"
                (classList_add "note-dragging" (ne_classList n)) n) p.

(** [window.scrollBy(x, y)]: the scroll position stays within the page. *)
Definition scrollBy (dx dy : Z) (w : window_state) : window_state :=
  {| innerWidth := innerWidth w; innerHeight := innerHeight w;
     pageXOffset := Z.max 0 (Z.min (scrollMaxX w) (pageXOffset w + dx));
     pageYOffset := Z.max 0 (Z.min (scrollMaxY w) (pageYOffset w + dy));
     scrollMaxX := scrollMaxX w; scrollMaxY := scrollMaxY w |}.

(** [handleAutoScroll(event)]. *)
Definition handleAutoScroll (event : mouse_event) (p : page) : page :=
  let w := pg_window p in
  let scrollX :=
    if (clientX event <? SCROLL_ZONE_SIZE)%Z then (- SCROLL_SPEED)%Z
    else if (innerWidth w - SCROLL_ZONE_SIZE <? clientX event)%Z then SCROLL_SPEED
    else 0%Z in
  let scrollY :=
    if (clientY event <? SCROLL_ZONE_SIZE)%Z then (- SCROLL_SPEED)%Z
    else if (innerHeight w - SCROLL_ZONE_SIZE <? clientY event)%Z then SCROLL_SPEED
    else 0%Z in
  if negb (scrollX =? 0)%Z || negb (scrollY =? 0)%Z then
    let p := with_window p (scrollBy scrollX scrollY w) in
    match draggedNote (DraggingState p) with
    | Some r =>
        update_note r
          (fun n => set_position n (style_left n + scrollX)%Z (style_top n + scrollY)%Z) p
    | None => p
    end
  else p.

(** [element.classList.contains(cls)], on the [class] attribute. *)
Definition has_class (cls : string) (n : node) : bool :=
  array_includes (class_tokens (node_className n)) cls.

Definition preferredTags : list string :=
  [ "P"; "H1"; "H2"; "H3"; "H4"; "H5"; "H6"; "LI"; "DIV"; "SECTION"; "ARTICLE" ].

(** [canAnchorToElement(element)]; [closest] looks at the element and
    its ancestors. *)
Definition canAnchorToElement (p : page) (element : option nat) : bool :=
  match element with
  | None => false
  | Some e =>
      match chain_of (pg_doc p) e with
      | Some (n :: up) =>
          if existsb (has_class "web-notes-note") (n :: up)
             || existsb (has_class HIGHLIGHT_CLASS) (n :: up)
          then false
          else
            let rect := client_rect (pg_window p) (pg_layout p) e in
            if ((r_width rect <? 10) || (r_height rect <? 10))%Z then false
            else array_includes preferredTags (node_tagName n)
      | _ => false
      end
  end.

(** [classList.remove(cls)] and [classList.add(cls)] on the [class]
    attribute: an attribute that holds the class, or receives it, is
    written back as its tokens joined by single spaces. *)
Definition remove_class (cls className : string) : string :=
  if array_includes (class_tokens className) cls
  then join " " (classList_remove cls (class_tokens className))
  else className.
Definition add_class (cls className : string) : string :=
  join " " (classList_add cls (class_tokens className)).

(** Rewrite the [class] attribute of the elements of the document. *)
Fixpoint map_className (f : nat -> string -> string) (n : node) : node :=
  match n with
  | Text _ _ => n
  | Element r t i c kids => Element r t i (f r c) (List.map (map_className f) kids)
  end.

(** [updateDropTargetHighlight(event)]: the class [note-drop-target]
    leaves every element and is given to the element under the cursor
    when a note can be anchored to it. *)
Definition updateDropTargetHighlight (event : mouse_event) (p : page) : page :=
  let cleared := map_className (fun _ c => remove_class "note-drop-target" c) (pg_doc p) in
  let p := with_doc p cleared in
  let elementUnderCursor := under_cursor event in
  if canAnchorToElement p elementUnderCursor then
    with_doc p
      (map_className
         (fun r c => if same_element elementUnderCursor r
                     then add_class "note-drop-target" c
                     else c)
         (pg_doc p))
  else p.

(** [Math.sqrt(deltaX * deltaX + deltaY * deltaY) > DRAG_THRESHOLD]:
    for a threshold that is not negative the square root exceeds it
    exactly when the sum of the squares exceeds its square. *)
Definition beyond_threshold (deltaX deltaY : Z) : bool :=
  (DRAG_THRESHOLD * DRAG_THRESHOLD <? deltaX * deltaX + deltaY * deltaY)%Z.

(** [handleMouseMove(event)]. *)
Definition handleMouseMove (event : mouse_event) (p : page) : page :=
  let d := DraggingState p in
  match draggedNote d with
  | None => p
  | Some note =>
      let deltaX := (clientX event - fst (initialMousePos d))%Z in
      let deltaY := (clientY event - snd (initialMousePos d))%Z in
      let started :=
        if isDragging d then Some p
        else if beyond_threshold deltaX deltaY then
          Some (startDragVisualEffects note
                  (with_dragging p
                     {| isDragging := true;
                        draggedNote := draggedNote d;
                        draggedNoteData := draggedNoteData d;
                        drag_targetElement := drag_targetElement d;
                        initialMousePos := initialMousePos d;
                        initialNotePos := initialNotePos d;
                        dragOffsetX := dragOffsetX d;
                        dragOffsetY := dragOffsetY d |}))
        else None in
      match started with
      | None => p
      | Some p =>
          let newX := (fst (initialNotePos d) + deltaX)%Z in
          let newY := (snd (initialNotePos d) + deltaY)%Z in
          let p := update_note note (fun n => set_position n newX newY) p in
          let p := handleAutoScroll event p in
          updateDropTargetHighlight event p
      end
  end.

(** [getNoteDataById(noteId)] and the cursor [updateNoteCursor] picks. *)
Definition getNoteDataById (p : page) (noteId : string) : option note_data :=
  List.find (fun nd => String.eqb (nd_id nd) noteId) (currentPageNotes p).

(** [endDragVisualEffects(noteElement)], with the class and cursor
    [addInteractiveEffects] sets; [noteId] is [dataset.noteId]. *)
Definition endDragVisualEffects (noteElement : nat) (noteId : string) (p : page) : page :=
  update_note noteElement
    (fun n =>
       let isAnchored :=
         negb (String.eqb (dataset_cssSelector n) EmptyString)
         || negb (String.eqb (dataset_xpath n) EmptyString) in
       let classes :=
         classList_remove "note-floating"
           (classList_remove "note-anchored"
              (classList_remove "note-dragging" (ne_classList n))) in
       let classes :=
         classList_add (if isAnchored then "note-anchored" else "note-floating") classes in
       let cursor :=
         match getNoteDataById p noteId with
         | Some nd =>
             if is_truthy (cssSelector nd) || is_truthy (nd_xpath nd) then "move" else "grab"
         | None => "grab"
         end in
       set_drag_style "" "" "10000" cursor "" classes n) p.

(** [findNearestAnchorElement(event, draggedNote)]. *)
Definition findNearestAnchorElement (event : mouse_event) (p : page) : option nat :=
  let elementUnderCursor := under_cursor event in
  if canAnchorToElement p elementUnderCursor then elementUnderCursor
  else
    match elementUnderCursor with
    | Some _ => List.find (fun e => canAnchorToElement p (Some e)) (stack_at_center event)
    | None => None
    end.

(** [anchorNoteToElement(noteElement, noteData, anchorElement)], up to
    the call to [updateNote] it awaits. *)
Definition anchorNoteToElement (noteElement : note_element) (noteData : note_data)
    (anchorElement : nat) (p : page) : page :=
  let selectors := generateOptimalSelector (pg_doc p) (Some anchorElement) in
  if negb (is_truthy (css selectors)) && negb (is_truthy (xpath selectors)) then p
  else
    let w := pg_window p in
    let noteRect := note_rect w noteElement in
    let anchorRect := client_rect w (pg_layout p) anchorElement in
    let offX := ((r_left noteRect + pageXOffset w) - (r_left anchorRect + pageXOffset w))%Z in
    let offY := ((r_top noteRect + pageYOffset w) - (r_top anchorRect + pageYOffset w))%Z in
    with_requests p
      (pg_requests p
       ++ [{| req_noteId := nd_id noteData;
              req_fields := AnchorFields (css selectors) (xpath selectors) offX offY |}]).

(** [updateAnchoredNoteOffset(noteElement, noteData, targetElement,
    finalX, finalY)]. *)
Definition updateAnchoredNoteOffset (noteData : note_data) (targetElement : nat)
    (finalX finalY : Z) (p : page) : page :=
  let w := pg_window p in
  let targetRect := client_rect w (pg_layout p) targetElement in
  let newOffsetX := (finalX - (r_left targetRect + pageXOffset w))%Z in
  let newOffsetY := (finalY - (r_top targetRect + pageYOffset w))%Z in
  with_requests p (pg_requests p ++ [updateNoteOffset (nd_id noteData) newOffsetX newOffsetY]).

(** [updateFreeFloatingNote(noteData, finalX, finalY)]. *)
Definition updateFreeFloatingNote (noteData : note_data) (finalX finalY : Z) (p : page) : page :=
  with_requests p
    (pg_requests p ++ [{| req_noteId := nd_id noteData; req_fields := AbsoluteFields finalX finalY |}]).

(** [finishDrag(event)]. *)
Definition finishDrag (event : mouse_event) (p : page) : page :=
  let d := DraggingState p in
  match draggedNote d, draggedNoteData d with
  | Some note, Some noteData =>
      let p := endDragVisualEffects note (nd_id noteData) p in
      match pg_notes p !! note with
      | None => p
      | Some noteElement =>
          let w := pg_window p in
          let finalRect := note_rect w noteElement in
          let finalX := (r_left finalRect + pageXOffset w)%Z in
          let finalY := (r_top finalRect + pageYOffset w)%Z in
          let newAnchor := findNearestAnchorElement event p in
          let targetElement := drag_targetElement d in
          let reanchor :=
            match newAnchor with
            | Some a => if same_element targetElement a then None else Some a
            | None => None
            end in
          let p :=
            match reanchor, targetElement with
            | Some a, _ => anchorNoteToElement noteElement noteData a p
            | None, Some t => updateAnchoredNoteOffset noteData t finalX finalY p
            | None, None => updateFreeFloatingNote noteData finalX finalY p
            end in
          with_visibility_checks p (pg_visibility_checks p ++ [(note, noteData)])
      end
  | _, _ => p
  end.

Definition idle : DraggingStateT :=
  {| isDragging := false; draggedNote := None; draggedNoteData := None;
     drag_targetElement := None; initialMousePos := (0, 0)%Z;
     initialNotePos := (0, 0)%Z; dragOffsetX := 0; dragOffsetY := 0 |}.

(** [clearDraggingState()]. *)
Definition clearDraggingState (p : page) : page :=
  let cleared := map_className (fun _ c => remove_class "note-drop-target" c) (pg_doc p) in
  with_dragging (with_doc p cleared) idle.

(** [handleMouseUp(event)]. *)
Definition handleMouseUp (event : mouse_event) (p : page) : page :=
  let p := if isDragging (DraggingState p) then finishDrag event p else p in
  clearDraggingState p.

(** ** note-editing.js *)

Definition AUTOSAVE_DELAY : nat := 1000.

(** What [enterEditMode] stores on the note element as
    [_editingElements], with the current value of the textarea. *)
Record editing_elements := {
  textarea_value : string
}.

(** A timer set by [autoSaveNote]: the note it saves and the content
    its callback captured. *)
Record autosave_timer := {
  timer_id : nat;
  timer_noteId : string;
  timer_content : string
}.

(** [EditingState], the state of the note elements the editor touches,
    the pending timers, and the calls to [updateNote]. *)
Record editor := {
  currentlyEditingNote : option nat;
  autosaveTimeouts : gmap string nat;
  ed_editingElements : gmap nat editing_elements;
  ed_noteId : gmap nat string;
  ed_contentHTML : gmap nat string;
  ed_timers : list autosave_timer;
  ed_next_timer : nat;
  ed_requests : list update_request
}.

(** [clearTimeout(id)]. *)
Definition clearTimeout (id : nat) (timers : list autosave_timer) : list autosave_timer :=
  List.filter (fun t => negb (timer_id t =? id)%nat) timers.

(** [autoSaveNote(noteElement, noteData, content)]: the pending timer
    of the note is cleared and a new one is set and registered.  Timer
    identifiers are positive, so a registered identifier is truthy. *)
Definition autoSaveNote (noteId : string) (content : string) (e : editor) : editor :=
  let timers :=
    match autosaveTimeouts e !! noteId with
    | Some existingTimeout => clearTimeout existingTimeout (ed_timers e)
    | None => ed_timers e
    end in
  let timeoutId := ed_next_timer e in
  {| currentlyEditingNote := currentlyEditingNote e;
     autosaveTimeouts := <[noteId := timeoutId]> (autosaveTimeouts e);
     ed_editingElements := ed_editingElements e;
     ed_noteId := ed_noteId e;
     ed_contentHTML := ed_contentHTML e;
     ed_timers := timers ++ [{| timer_id := timeoutId; timer_noteId := noteId;
                                timer_content := content |}];
     ed_next_timer := S timeoutId;
     ed_requests := ed_requests e |}.

Section Editing.

(** [window.MarkdownUtils.renderMarkdown], of markdown-utils.js. *)
Variable renderMarkdown : string -> string.



End Editing.

(** The callback of an auto-save timer, when the timer fires: the call
    to [updateNote] it makes. *)
Definition fire_timer (id : nat) (e : editor) : editor :=
  match List.find (fun t => (timer_id t =? id)%nat) (ed_timers e) with
  | None => e
  | Some t =>
      {| currentlyEditingNote := currentlyEditingNote e;
         autosaveTimeouts := autosaveTimeouts e;
         ed_editingElements := ed_editingElements e;
         ed_noteId := ed_noteId e;
         ed_contentHTML := ed_contentHTML e;
         ed_timers := clearTimeout id (ed_timers e);
         ed_next_timer := ed_next_timer e;
         ed_requests :=
           ed_requests e ++ [{| req_noteId := timer_noteId t;
                                req_fields := ContentFields (timer_content t) |}] |}
  end.

(** The rest of the callback, once [updateNote] has answered: on
    success the displayed content is replaced; in either case the
    registration of the note is deleted. *)
Definition autosave_settled (renderMarkdown : string -> string) (noteElement : nat)
    (noteId content : string) (success : bool) (e : editor) : editor :=
  {| currentlyEditingNote := currentlyEditingNote e;
     autosaveTimeouts := delete noteId (autosaveTimeouts e);
     ed_editingElements := ed_editingElements e;
     ed_noteId := ed_noteId e;
     ed_contentHTML :=
       if success then <[noteElement := renderMarkdown content]> (ed_contentHTML e)
       else ed_contentHTML e;
     ed_timers := ed_timers e;
     ed_next_timer := ed_next_timer e;
     ed_requests := ed_requests e |}.

(** ** Statements about the drag controller *)

(** The square of the distance of the pointer from where it went down. *)
Definition distance2 (p : page) (event : mouse_event) : Z :=
  let d := DraggingState p in
  ((clientX event - fst (initialMousePos d)) * (clientX event - fst (initialMousePos d))
   + (clientY event - snd (initialMousePos d)) * (clientY event - snd (initialMousePos d)))%Z.

(** [Armed]: the pointer went down on a note and no move has passed the
    threshold yet. *)
Definition armed (p : page) : Prop :=
  is_Some (draggedNote (DraggingState p)) /\ isDragging (DraggingState p) = false.

(** A page with one free-floating note, 200 by 100 pixels, at (100, 100). *)
Definition sample_note : note_element :=
  {| ne_ref := 5; style_left := 100; style_top := 100; ne_width := 200; ne_height := 100;
     style_opacity := ""; style_transform := ""; style_zIndex := "10000";
     style_cursor := "grab"; style_boxShadow := ""; ne_classList := ["web-notes-note"];
     dataset_cssSelector := ""; dataset_xpath := "" |}.

Definition sample_note_data : note_data :=
  {| nd_id := "note-1"; cssSelector := None; nd_xpath := None;
     offsetX := None; offsetY := None; selectionData := None |}.

Definition sample_doc : node :=
  Element 0 "HTML" "" ""
    [ Element 1 "HEAD" "" "" [];
      Element 2 "BODY" "" ""
        [ Element 3 "P" "" "" [Text 4 "say hello world today"];
          Element 5 "DIV" "" "web-notes-note" [Text 6 "a note"] ] ].

Definition sample_window : window_state :=
  {| innerWidth := 1024; innerHeight := 768; pageXOffset := 0; pageYOffset := 0;
     scrollMaxX := 0; scrollMaxY := 2000 |}.

Definition sample_layout (r : nat) : rect :=
  match r with
  | 3 => {| r_left := 8; r_top := 8; r_width := 600; r_height := 40 |}
  | _ => {| r_left := 0; r_top := 0; r_width := 1024; r_height := 768 |}
  end.

Definition sample_page : page :=
  {| pg_doc := sample_doc; pg_cache := []; pg_window := sample_window;
     pg_layout := sample_layout; pg_notes := {[ 5 := sample_note ]};
     currentPageNotes := [sample_note_data]; pg_requests := [];
     pg_visibility_checks := []; DraggingState := idle |}.

Definition mouse_at (x y : Z) : mouse_event :=
  {| clientX := x; clientY := y; under_cursor := Some 2; stack_at_center := [2; 0] |}.

(** The page after the pointer went down on the note at (150, 150). *)
Definition armed_page : page :=
  startDrag (mouse_at 150 150) 5 sample_note_data None sample_page.

(** ** Statements about the visibility clamp *)

(** All four edges of a rectangle lie within the band
    [[margin, viewport - margin]] of the viewport, on both axes. *)
Definition in_band (w : window_state) (r : rect) : Prop :=
  (MIN_VIEWPORT_MARGIN <= r_left r)%Z
  /\ (r_right r <= innerWidth w - MIN_VIEWPORT_MARGIN)%Z
  /\ (MIN_VIEWPORT_MARGIN <= r_top r)%Z
  /\ (r_bottom r <= innerHeight w - MIN_VIEWPORT_MARGIN)%Z.

(** The note element [ensureNoteVisibility] leaves. *)
Definition visible_note (doc : node) (cache : element_cache) (w : window_state)
    (layout : nat -> rect) (noteElement : note_element) (noteData : note_data) : note_element :=
  fst (fst (ensureNoteVisibility doc cache w layout noteElement noteData)).

(** A viewport 100 pixels wide and a note 90 pixels wide. *)
Definition narrow_window : window_state :=
  {| innerWidth := 100; innerHeight := 768; pageXOffset := 0; pageYOffset := 0;
     scrollMaxX := 0; scrollMaxY := 0 |}.

Definition wide_note : note_element :=
  {| ne_ref := 5; style_left := 30; style_top := 100; ne_width := 90; ne_height := 100;
     style_opacity := ""; style_transform := ""; style_zIndex := "10000";
     style_cursor := "grab"; style_boxShadow := ""; ne_classList := ["web-notes-note"];
     dataset_cssSelector := ""; dataset_xpath := "" |}.

(** The sample note moved to the right edge of the sample window. *)
Definition offscreen_note : note_element := set_position sample_note 900 (-30).

(** The position [ensureNoteVisibility] writes, axis by axis. *)
Definition clamp_axis (viewport size scroll pos : Z) : Z :=
  if (viewport - MIN_VIEWPORT_MARGIN <? pos - scroll + size)%Z
  then (viewport - size - MIN_VIEWPORT_MARGIN + scroll)%Z
  else if (pos - scroll <? MIN_VIEWPORT_MARGIN)%Z
  then (MIN_VIEWPORT_MARGIN + scroll)%Z
  else pos.


(** ** Statements about the edit session *)


(** An editor in which the note element 5, of note [note-1], is being
    edited and the user has typed [draft]. *)
Definition editing_note : editor :=
  {| currentlyEditingNote := Some 5;
     autosaveTimeouts := ∅;
     ed_editingElements := {[ 5 := {| textarea_value := "draft" |} ]};
     ed_noteId := {[ 5 := "note-1" ]};
     ed_contentHTML := {[ 5 := "<p>a note</p>" ]};
     ed_timers := [];
     ed_next_timer := 1;
     ed_requests := [] |}.



(** ** Statements about the element resolver *)

(** A run of [findElementBySelector] calls on one document: the answers
    in order, and the cache the last call leaves. *)
Fixpoint resolve_all (doc : node) (cache : element_cache) (calls : list (option selector))
    : list (option nat) * element_cache :=
  match calls with
  | [] => ([], cache)
  | s :: rest =>
      let '(r, cache') := findElementBySelector doc cache s in
      let '(rs, cache'') := resolve_all doc cache' rest in
      (r :: rs, cache'')
  end.

(** The answer is null or an element of the document other than [n]. *)
Definition attached_not (doc : node) (n : nat) (r : option nat) : Prop :=
  r <> Some n /\ forall e, r = Some e -> contains doc e = true.

(** The sample document after the paragraph 3 has been removed, and a
    cache that still holds the paragraph under its selector pair. *)
Definition doc_without_p : node :=
  Element 0 "HTML" "" ""
    [ Element 1 "HEAD" "" "" [];
      Element 2 "BODY" "" ""
        [ Element 5 "DIV" "" "web-notes-note" [Text 6 "a note"] ] ].

Definition p_selector : selector :=
  {| css := Some "body > p"; xpath := Some "//body[1]/p[1]" |}.

Definition stale_cache : element_cache := [(cache_key p_selector, 3)].

(** ** Statements about the selector round trip *)

(** The element with its ancestors, as [generateOptimalSelector] walks
    them. *)
Definition element_chain (doc : node) (e : nat) : list node :=
  match chain_of doc e with Some ch => ch | None => [] end.

(** The generation validates one of its three candidates for [e]: the
    CSS path is a selector the engine accepts, and the CSS path, the
    XPath (when it passes [validateXPath]) or the robust CSS path
    resolves to [e]. *)
Definition generation_validates (doc : node) (e : nat) : Prop :=
  let ch := element_chain doc e in
  (forall c, truthy (generateCSSSelector doc ch) = Some c -> querySelector doc c <> Threw)
  /\ ((exists c, truthy (generateCSSSelector doc ch) = Some c
                 /\ querySelector doc c = Returned (Some e))
      \/ (exists x, truthy (generateXPath doc ch) = Some x
                    /\ validateXPath (Some x) = true
                    /\ evaluate doc x = Returned (Some e))
      \/ (exists c, truthy (generateRobustCSSSelector doc ch) = Some c
                    /\ querySelector doc c = Returned (Some e))).

(** The pair resolves to [e]: by its CSS selector, or, when it has
    none, by an XPath that passes [validateXPath]. *)
Definition resolves_to (doc : node) (s : selector) (e : nat) : Prop :=
  (exists c, truthy (css s) = Some c /\ querySelector doc c = Returned (Some e))
  \/ (truthy (css s) = None
      /\ exists x, truthy (xpath s) = Some x /\ validateXPath (Some x) = true
                   /\ evaluate doc x = Returned (Some e)).

(** The cache holds no element of the document other than [e] under
    the key of the pair. *)
Definition no_other_cached (doc : node) (cache : element_cache) (s : selector) (e : nat) : Prop :=
  forall r, map_get (cache_key s) cache = Some r -> contains doc r = true -> r = e.

(** A page with a heading, a paragraph and a division in its body, and
    an overlay division appended to the document element. *)
Definition overlay_doc : node :=
  Element 0 "HTML" "" ""
    [ Element 1 "HEAD" "" "" [];
      Element 2 "BODY" "" ""
        [ Element 3 "H1" "" "" [Text 10 "Title"];
          Element 4 "P" "" "" [Text 11 "say hello world today"];
          Element 5 "DIV" "" "content" [Text 12 "more"] ];
      Element 6 "DIV" "" "" [] ].

(** The selector pair of the paragraph 4 of [overlay_doc], and a cache
    that holds under its key an element that has left the document. *)
Definition overlay_p_key : string := "body > p_//body[1]/p[1]".
Definition overlay_stale_cache : element_cache := [(overlay_p_key, 99)].

(** A page exported from a word processor: the division 7 sits inside
    an [o:p] element. *)
Definition office_doc : node :=
  Element 0 "HTML" "" ""
    [ Element 1 "HEAD" "" "" [];
      Element 2 "BODY" "" ""
        [ Element 3 "P" "" "MsoNormal" [Text 10 "say hello world today"];
          Element 4 "O:P" "" "" [ Element 7 "DIV" "" "" [Text 11 "a box"] ];
          Element 5 "DIV" "" "web-notes-note" [Text 6 "a note"] ] ].

(** ** Statements about the release of a drag *)





(** The same drag on the sample page, over the paragraph 3. *)
Definition over_paragraph (x y : Z) : mouse_event :=
  {| clientX := x; clientY := y; under_cursor := Some 3; stack_at_center := [3; 2; 0] |}.

Definition sample_dragging : page :=
  handleMouseMove (over_paragraph 100 30)
    (startDrag (mouse_at 150 150) 5 sample_note_data None sample_page).


Definition is_anchor_update (r : update_request) : bool :=
  match req_fields r with AnchorFields _ _ _ _ => true | _ => false end.

(** ** Statements about the color sanitizer

    The accepted forms in the words of the specification; they are
    compared with the patterns of the source in Part II. *)

Fixpoint string_forall (p : ascii -> bool) (s : string) : bool :=
  match s with
  | EmptyString => true
  | String a s' => p a && string_forall p s'
  end.

(** The first character, if any, is not in the class. *)
Definition head_not (p : ascii -> bool) (s : string) : Prop :=
  match s with
  | EmptyString => True
  | String a _ => p a = false
  end.











(** ** Statements about the text-span locator *)

(** A paragraph whose first text node holds the selected word without
    its context, and whose last text node holds it with its context. *)
Definition repeated_word_paragraph : node :=
  Element 3 "P" "" ""
    [ Text 4 "hello there. ";
      Element 5 "B" "" "" [Text 6 "X"];
      Text 7 "say hello world today" ].

(** ** Statements about the highlights *)

(** The number of nodes of a tree that satisfy [p]. *)
Fixpoint count_nodes (p : node -> bool) (n : node) : nat :=
  (if p n then 1 else 0)
  + match n with
    | Text _ _ => 0
    | Element _ _ _ _ kids => list_sum (List.map (count_nodes p) kids)
    end.

(** A predicate that looks at the node itself, not below it. *)
Definition shallow (p : node -> bool) : Prop :=
  (forall r d d', p (Text r d) = p (Text r d'))
  /\ (forall r t i c kids kids', p (Element r t i c kids) = p (Element r t i c kids')).

Definition has_ref (r : nat) (n : node) : bool :=
  match n with
  | Text r' _ => (r' =? r)%nat
  | Element r' _ _ _ _ => (r' =? r)%nat
  end.

(** How many nodes carry the reference [r]; how many highlight
    wrappers the tree holds. *)
Definition occ (r : nat) (n : node) : nat := count_nodes (has_ref r) n.
Definition count_highlights (n : node) : nat := count_nodes (has_class HIGHLIGHT_CLASS) n.

(** References are identities: no two nodes of the document share one,
    and none is at or above the next reference to be given out. *)
Record well_formed (s : highlight_state) : Prop := {
  wf_unique : forall r, occ r (hs_doc s) <= 1;
  wf_fresh : forall r, hs_next_ref s <= r -> occ r (hs_doc s) = 0
}.

(** The first of the values that are there. *)
Fixpoint first_some {A} (l : list (option A)) : option A :=
  match l with
  | [] => None
  | Some x :: _ => Some x
  | None :: l' => first_some l'
  end.

(** The first element with reference [r], in document order. *)
Fixpoint subtree (r : nat) (n : node) : option node :=
  match n with
  | Text _ _ => None
  | Element r' _ _ _ kids =>
      if (r' =? r)%nat then Some n else first_some (List.map (subtree r) kids)
  end.

(** The text of a list of siblings. *)
Definition text_of (l : list node) : string := String.concat "" (List.map textContent l).

(** Some text node under [n] holds [text]. *)
Definition has_text (text : string) (n : node) : bool :=
  existsb (fun p => includes (snd p) text) (text_nodes n).

(** The elements with reference [r] have text nodes for children and
    nothing else: the shape of a highlight span when it is made. *)
Fixpoint leafy (r : nat) (n : node) : bool :=
  match n with
  | Text _ _ => true
  | Element r' _ _ _ kids =>
      (if (r' =? r)%nat then forallb (fun k => negb (is_element k)) kids else true)
      && forallb (leafy r) kids
  end.

(** Every reference of the tree, in document order. *)
Fixpoint node_refs (n : node) : list nat :=
  match n with
  | Text r _ => [r]
  | Element r _ _ _ kids => r :: flat_map node_refs kids
  end.

(** The text under [b] is the text under [a], and what a text node of
    [a] holds, a text node of [b] holds. *)
Definition carries (a b : node) : Prop :=
  textContent b = textContent a
  /\ forall text, text <> "" -> has_text text a = true -> has_text text b = true.

(** The calls a page makes on the highlights of its notes. *)
Inductive highlight_op :=
| CreateHighlight (id : string) (selectionData : option selection_data)
    (backgroundColor : js_value)
| RemoveHighlight (id : string).

Definition run_op (op : highlight_op) (s : highlight_state) : highlight_state :=
  match op with
  | CreateHighlight id sd color => snd (createTextHighlight id sd color s)
  | RemoveHighlight id => snd (removeTextHighlight id s)
  end.

Definition run_ops (ops : list highlight_op) (s : highlight_state) : highlight_state :=
  fold_left (fun st op => run_op op st) ops s.

(** The element of the highlight recorded for a note. *)
Definition wrapper_of (s : highlight_state) (id : string) : option nat :=
  match map_get id (noteHighlights s) with
  | Some rec => Some (hl_element rec)
  | None => None
  end.

(** The count over a list of siblings. *)
Definition count_list (p : node -> bool) (l : list node) : nat :=
  list_sum (List.map (count_nodes p) l).

(** What [unwrap] puts where the span was. *)
Definition replace_span (span fresh : nat) (k : node) : node :=
  if is_element_ref span k then Text fresh (textContent k) else k.

(** What [wrap_range] puts where a child was. *)
Definition wrap_child (text_node span mid after : nat) (offset len : nat) (k : node)
    : list node :=
  if is_text_ref text_node k
  then split_around span mid after offset len k
  else [wrap_range text_node span mid after offset len k].

(** Both absent, or both there and the second carrying the first. *)
Definition matched (a b : option node) : Prop :=
  match a, b with
  | None, None => True
  | Some x, Some y => carries x y
  | _, _ => False
  end.

(** [f] keeps the element [r] where it is found, with its text. *)
Definition lifts (r : nat) (f : node -> node) (n : node) : Prop :=
  matched (subtree r n) (subtree r (f n)).

(** The text of the text node [tn] under [n], as [createTextHighlight]
    reads it for [findTextOffset]. *)
Definition data_of (tn : nat) (n : node) : string :=
  match List.find (fun p => (fst p =? tn)%nat) (text_nodes n) with
  | Some (_, d) => d
  | None => EmptyString
  end.

(** The state after the range calls and [noteHighlights.set], before
    [cleanupHighlights]. *)
Definition highlighted (id : string) (sd : selection_data) (color : js_value)
    (target textNode offset : nat) (s : highlight_state) : highlight_state :=
  {| hs_doc := wrap_range textNode (hs_next_ref s) (S (hs_next_ref s))
                 (S (S (hs_next_ref s))) offset (String.length (sel_text sd)) (hs_doc s);
     noteHighlights :=
       map_set id {| hl_element := hs_next_ref s;
                     hl_targetElement := target;
                     originalText := sel_text sd |} (noteHighlights s);
     hs_background := (hs_next_ref s, sanitizeColor color) :: hs_background s;
     hs_next_ref := S (S (S (hs_next_ref s))) |}.

(** [well_formed], computed, for a page whose references follow the
    document order: each reference above the one before it, and all
    of them below the next reference. *)
Fixpoint ascending (l : list nat) : bool :=
  match l with
  | x :: (y :: _) as l' => (x <? y)%nat && ascending l'
  | _ => true
  end.

Definition well_formedb (s : highlight_state) : bool :=
  ascending (node_refs (hs_doc s))
  && forallb (fun r => (r <? hs_next_ref s)%nat) (node_refs (hs_doc s)).

(** A page with no highlight yet, and the selection of a word of its
    paragraph. *)
Definition plain_page : highlight_state :=
  {| hs_doc := sample_doc; noteHighlights := []; hs_background := []; hs_next_ref := 7 |}.

Definition hello_selection : selection_data :=
  {| sel_text := "hello"; contextBefore := "say "; contextAfter := " world";
     sel_targetElement := Some 3 |}.

Definition once_highlighted : highlight_state :=
  snd (createTextHighlight "note-1" (Some hello_selection) (JString "#fff3cd") plain_page).

(** What [createTextHighlight] holds when it is about to wrap the
    range: the state after [removeTextHighlight], the target element
    in the document, a text node under it and the offset of the text
    in that node. *)
Record located (sd : selection_data) (target textNode offset : nat)
    (s : highlight_state) : Prop := {
  loc_well_formed : well_formed s;
  loc_size : map_size (noteHighlights s) < MAX_HIGHLIGHTS;
  loc_text : sel_text sd <> "";
  loc_target : sel_targetElement sd = Some target;
  loc_found :
    exists targetElement d,
      subtree target (hs_doc s) = Some targetElement
      /\ In (textNode, d) (text_nodes targetElement)
      /\ substring offset (String.length (sel_text sd)) d = sel_text sd
}.

(** The spans the calls have made, each with the note it was made for.
    A call of [createTextHighlight] that returns true has made one
    span, with the reference that was next after [removeTextHighlight]. *)
Definition made_by (op : highlight_op) (s : highlight_state) : list (nat * string) :=
  match op with
  | CreateHighlight id sd color =>
      if fst (createTextHighlight id sd color s)
      then [(hs_next_ref (snd (removeTextHighlight id s)), id)]
      else []
  | RemoveHighlight _ => []
  end.

Fixpoint made (ops : list highlight_op) (s : highlight_state) : list (nat * string) :=
  match ops with
  | [] => []
  | op :: ops' => (made_by op s ++ made ops' (run_op op s))%list
  end.

(** The live highlights of a note: the spans made for it that are in
    the document. *)
Definition live_wrappers (id : string) (own : list (nat * string)) (doc : node)
    : list nat :=
  List.map fst
    (List.filter (fun p => String.eqb (snd p) id && contains doc (fst p)) own).

(** What holds of the page and of the spans made so far, whatever the
    calls: a span made for a note is in the document only while the map
    records it for that note; the spans have references of their own,
    given out before the next one; the document element is never a
    recorded highlight. *)
Record consistent (own : list (nat * string)) (s : highlight_state) : Prop := {
  con_well_formed : well_formed s;
  con_recorded :
    forall r id, In (r, id) own -> contains (hs_doc s) r = true ->
                 wrapper_of s id = Some r;
  con_below : forall r id, In (r, id) own -> r < hs_next_ref s;
  con_distinct : List.NoDup (List.map fst own);
  con_root :
    forall id rec, In (id, rec) (noteHighlights s) ->
                   is_element_ref (hl_element rec) (hs_doc s) = false
}.

(** A page at the limit: the paragraph holds the highlights of a
    thousand notes, the oldest of them around [say hello world].  A
    new note selects [hello] inside that oldest highlight: the common
    ancestor of the selection is the text node of the span, so the
    span is the target element of the selection. *)
Definition filler_span (i : nat) : node :=
  Element (6 + 2 * i) "SPAN" "" HIGHLIGHT_CLASS [Text (7 + 2 * i) "x"].

Definition filler_record (i : nat) : string * highlight_record :=
  ("note-" ++ nat_to_string i,
   {| hl_element := 6 + 2 * i; hl_targetElement := 3; originalText := "x" |}).

Definition crowded_page : highlight_state :=
  {| hs_doc :=
       Element 0 "HTML" "" ""
         [ Element 1 "HEAD" "" "" [];
           Element 2 "BODY" "" ""
             [ Element 3 "P" "" ""
                 (Element 4 "SPAN" "" HIGHLIGHT_CLASS [Text 5 "say hello world"]
                  :: List.map filler_span (seq 0 999)) ] ];
     noteHighlights :=
       ("note-oldest",
        {| hl_element := 4; hl_targetElement := 3; originalText := "say hello world" |})
       :: List.map filler_record (seq 0 999);
     hs_background := [];
     hs_next_ref := 2004 |}.

Definition inner_selection : selection_data :=
  {| sel_text := "hello"; contextBefore := "say "; contextAfter := " world";
     sel_targetElement := Some 4 |}.

(** The call for the new note, made twice on that page. *)
Definition highlight_inside : highlight_op :=
  CreateHighlight "note-new" (Some inner_selection) (JString "#fff3cd").

Definition crowded_first : bool * highlight_state :=
  createTextHighlight "note-new" (Some inner_selection) (JString "#fff3cd") crowded_page.

Definition crowded_second : bool * highlight_state :=
  createTextHighlight "note-new" (Some inner_selection) (JString "#fff3cd")
    (snd crowded_first).

(** The document element is not a recorded highlight, computed. *)
Definition recorded_below_root (s : highlight_state) : bool :=
  forallb (fun p => negb (is_element_ref (hl_element (snd p)) (hs_doc s)))
          (noteHighlights s).

(** ** selection-manager.js: the other queries and the capture of context *)

(** [hasHighlight(noteId)]. *)
Definition hasHighlight (s : highlight_state) (noteId : string) : bool :=
  map_has noteId (noteHighlights s).

(** [clearAllHighlights()]: the loop over the map removes the highlight
    of every key, in insertion order; then the map is cleared. *)
Definition clearAllHighlights (s : highlight_state) : highlight_state :=
  let s' :=
    fold_left (fun st noteId => snd (removeTextHighlight noteId st))
              (map_keys (noteHighlights s)) s in
  {| hs_doc := hs_doc s'; noteHighlights := [];
     hs_background := hs_background s'; hs_next_ref := hs_next_ref s' |}.

(** [String.prototype.substring(a, b)]: both indices are brought into
    [0, length], and exchanged when the first is the greater. *)
Definition js_substring (s : string) (a b : Z) : string :=
  let len := Z.of_nat (String.length s) in
  let a' := Z.max 0 (Z.min a len) in
  let b' := Z.max 0 (Z.min b len) in
  substring (Z.to_nat (Z.min a' b')) (Z.to_nat (Z.max a' b' - Z.min a' b')) s.

(** [getTextContext(node, offset, length)]. *)
Definition getTextContext (n : node) (offset length : Z) : string :=
  match n with
  | Text _ text =>
      if (length <? 0)%Z
      then js_substring text (Z.max 0 (offset + length)) offset
      else js_substring text offset
             (Z.min (Z.of_nat (String.length text)) (offset + length))
  | Element _ _ _ _ _ => EmptyString
  end.

(** The span [createHighlightSpan] makes and the range calls fill. *)
Definition highlight_span (span mid : nat) (text : string) : node :=
  Element span "SPAN" "" HIGHLIGHT_CLASS [Text mid text].

(** ** dom-selectors.js: the cache, the second resolver, the text node
    at an offset *)

(** [clearElementCache()] and [getCacheStats()]. *)
Definition clearElementCache (cache : element_cache) : element_cache := [].
Definition getCacheStats (cache : element_cache) : nat * nat :=
  (map_size cache, CACHE_SIZE_LIMIT).

(** [if (targetElement && cacheKey) cacheElement(cacheKey, targetElement)]. *)
Definition cache_if_keyed (cache : element_cache) (cacheKey : option string)
    (element : nat) : element_cache :=
  match truthy cacheKey with
  | Some key => cacheElement cache key element
  | None => cache
  end.

(** The lookups of [tryBothSelectors] after the cache: the CSS selector,
    then the XPath when the CSS selector gave nothing and the XPath
    validates; an engine error is caught and the lookup goes on. *)
Definition try_lookups (doc : node) (cache : element_cache) (noteData : note_data)
    (cacheKey : option string) : option nat * element_cache :=
  let by_xpath :=
    match truthy (nd_xpath noteData) with
    | Some x =>
        if validateXPath (Some x) then
          match evaluate doc x with
          | Returned (Some element) => (Some element, cache_if_keyed cache cacheKey element)
          | _ => (None, cache)
          end
        else (None, cache)
    | None => (None, cache)
    end in
  match truthy (cssSelector noteData) with
  | Some c =>
      match querySelector doc c with
      | Returned (Some element) => (Some element, cache_if_keyed cache cacheKey element)
      | _ => by_xpath
      end
  | None => by_xpath
  end.

(** [tryBothSelectors(noteData, cacheKey)]: the element found, and the
    cache as the call leaves it. *)
Definition tryBothSelectors (doc : node) (cache : element_cache) (noteData : note_data)
    (cacheKey : option string) : option nat * element_cache :=
  match truthy cacheKey with
  | Some key =>
      match map_get key cache with
      | Some cached =>
          if contains doc cached then (Some cached, cache)
          else try_lookups doc (map_delete key cache) noteData cacheKey
      | None => try_lookups doc cache noteData cacheKey
      end
  | None => try_lookups doc cache noteData cacheKey
  end.




(** The characters a class name may hold after its first letter. *)
Definition is_class_char (a : ascii) : bool :=
  is_alpha a || is_digit a || Ascii.eqb a "_" || Ascii.eqb a "-".

(** The total length of the texts of a list of text nodes. *)
Definition total_length (nodes : list (nat * string)) : Z :=
  fold_right (fun p acc => (Z.of_nat (String.length (snd p)) + acc)%Z) 0%Z nodes.

(** The characters of an ordinary tag name, and those of the location
    paths [generateXPath] writes for such names. *)
Definition is_tag_char (a : ascii) : bool :=
  is_word a || Ascii.eqb a "-" || Ascii.eqb a ".".
Definition is_path_char (a : ascii) : bool :=
  is_tag_char a || Ascii.eqb a "[" || Ascii.eqb a "]" || Ascii.eqb a "/".

(** ** Statements about saved positions and drop targets *)

(** The stored note once an update of its offsets has been saved. *)
Definition with_offsets (nd : note_data) (ox oy : Z) : note_data :=
  {| nd_id := nd_id nd; cssSelector := cssSelector nd; nd_xpath := nd_xpath nd;
     offsetX := Some ox; offsetY := Some oy; selectionData := selectionData nd |}.

(** The note element the sample drag has in hand. *)
Definition sample_dragged_note : note_element :=
  match pg_notes sample_dragging !! 5%nat with Some n => n | None => sample_note end.

(** [document.querySelectorAll('.' + cls)]: the elements that carry the
    class, in document order. *)
Definition classed (cls : string) (doc : node) : list nat :=
  omap (fun ch => match ch with
                  | e :: _ => if has_class cls e then node_ref e else None
                  | [] => None
                  end)
       (doc_chains doc).

(** A class name as [class_tokens] yields them: not empty, without
    white space. *)
Definition not_space (a : ascii) : bool := negb (is_space a).
Definition clean_token (t : string) : Prop :=
  t <> EmptyString /\ string_forall not_space t = true.

(** The elements [findNearestAnchorElement] tries, in order. *)
Definition anchor_candidates (event : mouse_event) : list nat :=
  match under_cursor event with
  | Some e => e :: stack_at_center event
  | None => []
  end.

(** The sample note as a note anchored to the paragraph of the sample
    document. *)
Definition anchored_note_data : note_data :=
  {| nd_id := "note-1"; cssSelector := Some "p"; nd_xpath := None;
     offsetX := Some 10%Z; offsetY := Some 10%Z; selectionData := None |}.

(** The sample drag on a page scrolled to (100, 500) that can scroll
    either way on both axes. *)
Definition scrolled_window : window_state :=
  {| innerWidth := 1024; innerHeight := 768; pageXOffset := 100; pageYOffset := 500;
     scrollMaxX := 1000; scrollMaxY := 2000 |}.
Definition scrolled_dragging : page := with_window sample_dragging scrolled_window.




(** ** note-editing.js: the markdown toolbar

    The textarea of the editor: its value and its selection, which the
    browser keeps within [0 <= selectionStart <= selectionEnd <=
    value.length]. *)
Record textarea := {
  ta_value : string;
  selectionStart : Z;
  selectionEnd : Z
}.

Definition newline : string := String "010" EmptyString.

Definition strlen (s : string) : Z := Z.of_nat (String.length s).

(** [s.substring(a)]. *)
Definition js_substring_from (s : string) (a : Z) : string :=
  js_substring s a (strlen s).

(** [s.startsWith(t)]. *)
Definition startsWith (s t : string) : bool := String.prefix t s.

(** [s.indexOf(t, position)]: the first occurrence at or after the
    position, brought into [0, length]. *)
Definition indexOf_from (s t : string) (position : Z) : Z :=
  match index (Z.to_nat (Z.max 0 (Z.min position (strlen s)))) t s with
  | Some i => Z.of_nat i
  | None => (-1)%Z
  end.

(** [s.lastIndexOf(t, position)]: the last occurrence that starts at or
    before the position, brought into [0, length - t.length]. *)
Fixpoint last_occurrence (s t : string) (k : nat) : Z :=
  if String.eqb (substring k (String.length t) s) t then Z.of_nat k
  else match k with
       | O => (-1)%Z
       | S k' => last_occurrence s t k'
       end.
Definition lastIndexOf (s t : string) (position : Z) : Z :=
  if (strlen s <? strlen t)%Z then (-1)%Z
  else last_occurrence s t (Z.to_nat (Z.max 0 (Z.min position (strlen s - strlen t)))).

(** An argument of type [unsigned long]: the number modulo 2^32. *)
Definition to_uint32 (x : Z) : Z := (x mod 2 ^ 32)%Z.

(** [textarea.setSelectionRange(start, end)]: both ends are brought
    down to the length of the value, and the start down to the end. *)
Definition setSelectionRange (start end_ : Z) (t : textarea) : textarea :=
  let len := strlen (ta_value t) in
  let e := Z.min (to_uint32 end_) len in
  let s := Z.min (to_uint32 start) len in
  {| ta_value := ta_value t;
     selectionStart := if (e <? s)%Z then e else s;
     selectionEnd := e |}.

(** The value a textarea answers with has its line breaks normalised:
    a carriage return, with the line feed that follows it if any,
    reads as one line feed. *)
Fixpoint normalize_newlines (s : string) : string :=
  match s with
  | EmptyString => EmptyString
  | String a s' =>
      if Ascii.eqb a "013" then
        match s' with
        | String b s'' =>
            if Ascii.eqb b "010" then String "010" (normalize_newlines s'')
            else String "010" (normalize_newlines s')
        | EmptyString => String "010" EmptyString
        end
      else String a (normalize_newlines s')
  end.

(** [textarea.value = v]: the value reads back normalised; when it
    differs from the value before, the caret goes to its end. *)
Definition set_value (v : string) (t : textarea) : textarea :=
  let v' := normalize_newlines v in
  if String.eqb v' (ta_value t) then t
  else {| ta_value := v'; selectionStart := strlen v'; selectionEnd := strlen v' |}.

(** The events a toolbar action dispatches on the textarea; the
    listeners of [input] are [autoSaveNote], with the value of the
    textarea, and [autoResizeTextarea]. *)
Inductive dom_event := InputEvent.

(** [insertMarkdownSyntax(textarea, before, after)]. *)
Definition insertMarkdownSyntax (before after : string) (t : textarea)
    : textarea * list dom_event :=
  let start := selectionStart t in
  let end_ := selectionEnd t in
  let selectedText := js_substring (ta_value t) start end_ in
  let replacement := before ++ selectedText ++ after in
  let t1 :=
    set_value (js_substring (ta_value t) 0 start ++ replacement
               ++ js_substring_from (ta_value t) end_) t in
  let t2 :=
    match selectedText with
    | String _ _ => setSelectionRange start (start + strlen replacement) t1
    | EmptyString => setSelectionRange (start + strlen before) (start + strlen before) t1
    end in
  (t2, [InputEvent]).

(** [insertLinePrefix(textarea, prefix)]. *)
Definition insertLinePrefix (prefix : string) (t : textarea) : textarea * list dom_event :=
  let start := selectionStart t in
  let value := ta_value t in
  let lineStart := (lastIndexOf value newline (start - 1) + 1)%Z in
  let lineEnd := indexOf_from value newline start in
  let actualLineEnd := if (lineEnd =? -1)%Z then strlen value else lineEnd in
  let currentLine := js_substring value lineStart actualLineEnd in
  let t2 :=
    if startsWith currentLine prefix then
      let newLine := js_substring_from currentLine (strlen prefix) in
      setSelectionRange (start - strlen prefix) (start - strlen prefix)
        (set_value (js_substring value 0 lineStart ++ newLine
                    ++ js_substring_from value actualLineEnd) t)
    else
      let newLine := prefix ++ currentLine in
      setSelectionRange (start + strlen prefix) (start + strlen prefix)
        (set_value (js_substring value 0 lineStart ++ newLine
                    ++ js_substring_from value actualLineEnd) t) in
  (t2, [InputEvent]).

(** [insertMarkdownLink(textarea)]. *)
Definition insertMarkdownLink (t : textarea) : textarea * list dom_event :=
  let start := selectionStart t in
  let end_ := selectionEnd t in
  let selectedText := js_substring (ta_value t) start end_ in
  let looks_like_url :=
    match selectedText with
    | String _ _ => startsWith selectedText "http://" || startsWith selectedText "https://"
    | EmptyString => false
    end in
  let linkText :=
    if looks_like_url then "link text"
    else match selectedText with String _ _ => selectedText | EmptyString => "link text" end in
  let url := if looks_like_url then selectedText else "https://" in
  let replacement := "[" ++ linkText ++ "](" ++ url ++ ")" in
  let t1 :=
    set_value (js_substring (ta_value t) 0 start ++ replacement
               ++ js_substring_from (ta_value t) end_) t in
  let urlStart := (start + strlen linkText + 3)%Z in
  (setSelectionRange urlStart (urlStart + strlen url) t1, [InputEvent]).

(** ** Statements about the toolbar *)

(** A string without a carriage return. *)
Definition no_cr (s : string) : Prop :=
  string_forall (fun a => negb (Ascii.eqb a "013")) s = true.

(** The invariant of a textarea: the selection lies within the value
    and the value holds no carriage return. *)
Definition textarea_ok (t : textarea) : Prop :=
  (0 <= selectionStart t <= selectionEnd t)%Z
  /\ (selectionEnd t <= strlen (ta_value t))%Z
  /\ no_cr (ta_value t).

(** The selected text. *)
Definition selected (t : textarea) : string :=
  js_substring (ta_value t) (selectionStart t) (selectionEnd t).

(** A string without a line break. *)
Definition no_newline (s : string) : Prop :=
  string_forall (fun a => negb (Ascii.eqb a "010")) s = true.

(** A textarea whose value is [A ++ line ++ B], with the caret at
    [start]. *)
Definition caret_at (v : string) (start : Z) : textarea :=
  {| ta_value := v; selectionStart := start; selectionEnd := start |}.

(** The text [say hello] with the word [hello] selected. *)
Definition sample_textarea : textarea :=
  {| ta_value := "say hello"; selectionStart := 4; selectionEnd := 9 |}.

(** The caret is on the line [line] of the value [A ++ line ++ B]:
    [A] is empty or ends with a line break, [B] is empty or starts with
    one, and the caret is not before the first character of a text
    that starts with a line break. *)
Record on_line (A line B : string) (start : Z) : Prop := {
  ol_before : A = EmptyString \/ exists A', A = A' ++ newline;
  ol_line : no_newline line;
  ol_after : B = EmptyString \/ exists B', B = newline ++ B';
  ol_caret : (strlen A <= start <= strlen A + strlen line)%Z;
  ol_first : (0 < start)%Z \/ line <> EmptyString \/ B = EmptyString
}.

(** Two lines, with the caret in the second one. *)
Definition two_lines : textarea := caret_at ("title" ++ newline ++ "body") 8.

(** ** Statements about the auto-save timers *)

(** The input events of a run of keystrokes in the textarea of one
    note: each calls [autoSaveNote] with the value of the textarea at
    that moment. *)
Definition keystrokes (noteId : string) (contents : list string) (e : editor) : editor :=
  fold_left (fun e content => autoSaveNote noteId content e) contents e.

(** The pending timers that will save the note. *)
Definition pending_for (noteId : string) (e : editor) : list autosave_timer :=
  List.filter (fun t => String.eqb (timer_noteId t) noteId) (ed_timers e).

(** The pending timers are the registered ones: each is registered
    under its note, registered identifiers are older than the next
    one, and no identifier is registered under two notes. *)
Record timers_tracked (e : editor) : Prop := {
  tt_registered :
    forall t, In t (ed_timers e) ->
              autosaveTimeouts e !! timer_noteId t = Some (timer_id t);
  tt_older :
    forall k x, autosaveTimeouts e !! k = Some x -> x < ed_next_timer e;
  tt_once :
    forall a b x, autosaveTimeouts e !! a = Some x -> autosaveTimeouts e !! b = Some x -> a = b
}.

(** ** note-editing.js: [insertOrderedListItem] *)









(** ** Statements about numbered lists *)

(** The text made of the lines [ls], each ended by a line break. *)
Definition lines_text (ls : list string) : string :=
  String.concat EmptyString (List.map (fun l => l ++ newline) ls).



(** ** selection-manager.js: [captureSelectionData] *)





(** ** Statements about the characters of a sanitized color *)


(* ===================================================================== *)
(** * Part II. Properties                                                 *)
(* ===================================================================== *)

(** ** The color sanitizer *)

Example sanitizeColor_samples :
  List.map sanitizeColor
    [ JString "#abc"; JString "#ABCDEF"; JString "#abcd"; JString "rgb( 1 ,22,255 )";
      JString "rgb(256,0,0)"; JString "rgba(0,0,0,0.5)"; JString "rgba(0,0,0,1.5)";
      JString "rgba(0,0,0,)"; JString "rgba(0,0,0,1.)"; JString "RED"; JString "url(x)";
      JNumber 3; JString ""; JString "rgba(1,2,3,15)";
      JString "rgba(1,2,3,1.00000000000000001)" ]
  = [ "#abc"; "#ABCDEF"; "#fff3cd"; "rgb( 1 ,22,255 )";
      "#fff3cd"; "rgba(0,0,0,0.5)"; "#fff3cd";
      "#fff3cd"; "rgba(0,0,0,1.)"; "red"; "#fff3cd";
      "#fff3cd"; "#fff3cd"; "#fff3cd";
      "rgba(1,2,3,1.00000000000000001)" ].
Proof. vm_compute. reflexivity. Qed.

Lemma array_includes_In (l : list string) (s : string) :
  array_includes l s = true <-> In s l.
Proof.
  unfold array_includes. rewrite existsb_exists. split.
  - intros (x & Hin & Heq). apply String.eqb_eq in Heq. subst. exact Hin.
  - intros Hin. exists s. split; [exact Hin | apply String.eqb_refl].
Qed.

(** The sanitizer by cases, on a string that is not empty. *)
Lemma sanitizeColor_string (a : ascii) (s : string) :
  sanitizeColor (JString (String a s))
  = if re_test hexPattern (String a s) then String a s
    else if rgb_accepts (String a s) then String a s
    else if rgba_accepts (String a s) then String a s
    else if array_includes namedColors (toLowerCase (String a s))
         then toLowerCase (String a s)
    else DEFAULT_COLOR.
Proof. reflexivity. Qed.

(** A color the sanitizer answers with is a string that is not empty. *)
Lemma named_color_fixed (s : string) :
  In s namedColors -> sanitizeColor (JString s) = s.
Proof.
  unfold namedColors. simpl.
  intros H. repeat (destruct H as [<- | H]; [vm_compute; reflexivity|]). destruct H.
Qed.

Lemma sanitizeColor_default_fixed : sanitizeColor (JString DEFAULT_COLOR) = DEFAULT_COLOR.
Proof. vm_compute. reflexivity. Qed.

(** C10.  The sanitizer is idempotent: the color it answers with,
    whatever the input value, is answered with itself; in particular
    for every string [c]. *)
Theorem sanitizeColor_idempotent (color : js_value) :
  sanitizeColor (JString (sanitizeColor color)) = sanitizeColor color.
Proof.
  destruct color as [| | b | n | [|a s] | r];
    try exact sanitizeColor_default_fixed.
  rewrite (sanitizeColor_string a s).
  destruct (re_test hexPattern (String a s)) eqn:Hhex.
  { rewrite (sanitizeColor_string a s), Hhex. reflexivity. }
  destruct (rgb_accepts (String a s)) eqn:Hrgb.
  { rewrite (sanitizeColor_string a s), Hhex, Hrgb. reflexivity. }
  destruct (rgba_accepts (String a s)) eqn:Hrgba.
  { rewrite (sanitizeColor_string a s), Hhex, Hrgb, Hrgba. reflexivity. }
  destruct (array_includes namedColors (toLowerCase (String a s))) eqn:Hnamed.
  { apply named_color_fixed. apply array_includes_In. exact Hnamed. }
  exact sanitizeColor_default_fixed.
Qed.

(** *** Strings *)

Lemma append_cons (a : ascii) (s t : string) : String a s ++ t = String a (s ++ t).
Proof. reflexivity. Qed.

Lemma append_nil_l (t : string) : "" ++ t = t.
Proof. reflexivity. Qed.

Lemma append_nil_r (s : string) : s ++ "" = s.
Proof. induction s as [|a s IH]; [reflexivity|]. rewrite append_cons, IH. reflexivity. Qed.

Lemma append_assoc (s t u : string) : (s ++ t) ++ u = s ++ t ++ u.
Proof.
  induction s as [|a s IH]; [reflexivity|]. rewrite !append_cons, IH. reflexivity.
Qed.

Lemma length_append (s t : string) :
  String.length (s ++ t) = String.length s + String.length t.
Proof.
  induction s as [|a s IH]; [reflexivity|]. rewrite append_cons. simpl. rewrite IH. reflexivity.
Qed.


Lemma string_forall_append (p : ascii -> bool) (s t : string) :
  string_forall p (s ++ t) = string_forall p s && string_forall p t.
Proof.
  induction s as [|a s IH]; [reflexivity|]. rewrite append_cons. simpl. rewrite IH.
  apply andb_assoc.
Qed.

(** *** The matcher, construct by construct *)

Lemma re_match_Cat (r1 r2 : regex) s c k :
  re_match (Cat r1 r2) s c k = re_match r1 s c (fun s' c' => re_match r2 s' c' k).
Proof. reflexivity. Qed.


Lemma re_match_Star (r : regex) s c k :
  re_match (Star r) s c k = star_loop (re_match r) k (String.length s) s c.
Proof. reflexivity. Qed.


Lemma lit_backward (l s : string) c k res :
  re_match (Lit l) s c k = Some res -> exists t, s = l ++ t /\ k t c = Some res.
Proof.
  revert s. induction l as [|a l IH]; intros s H.
  - exists s. split; [reflexivity | exact H].
  - simpl in H. destruct s as [|b s]; [discriminate|].
    destruct (Ascii.eqb_spec a b) as [<-|]; [|discriminate].
    apply IH in H. destruct H as (t & -> & H). exists t. split; [reflexivity | exact H].
Qed.

Lemma lit1_forward (a : ascii) (t : string) c k :
  re_match (Lit1 a) (String a t) c k = k t c.
Proof. simpl. rewrite Ascii.eqb_refl. reflexivity. Qed.

Lemma lit1_backward (a : ascii) (s : string) c k res :
  re_match (Lit1 a) s c k = Some res -> exists t, s = String a t /\ k t c = Some res.
Proof.
  simpl. destruct s as [|b s]; [discriminate|].
  destruct (Ascii.eqb_spec a b) as [<-|]; [|discriminate].
  intros H. exists s. split; [reflexivity | exact H].
Qed.

Lemma star_loop_S m (k : continuation) (fuel : nat) s c :
  star_loop m k (S fuel) s c
  = match m s c (fun s' c' =>
                   if (String.length s' <? String.length s)%nat
                   then star_loop m k fuel s' c' else None) with
    | Some res => Some res
    | None => k s c
    end.
Proof. reflexivity. Qed.

Lemma re_match_Chr_cons (p : ascii -> bool) (a : ascii) s c k :
  re_match (Chr p) (String a s) c k = if p a then k s c else None.
Proof. reflexivity. Qed.

Lemma re_match_Chr_nil (p : ascii -> bool) c k : re_match (Chr p) "" c k = None.
Proof. reflexivity. Qed.

Lemma ltb_length_cons (a : ascii) (s : string) :
  (String.length s <? String.length (String a s))%nat = true.
Proof. apply Nat.ltb_lt. simpl. lia. Qed.

Lemma star_chr_forward (p : ascii -> bool) (k : continuation) (w t : string) c res :
  string_forall p w = true -> head_not p t -> k t c = Some res ->
  re_match (Star (Chr p)) (w ++ t) c k = Some res.
Proof.
  intros Hw Ht Hk. rewrite re_match_Star.
  assert (H : forall fuel, String.length (w ++ t) <= fuel ->
                           star_loop (re_match (Chr p)) k fuel (w ++ t) c = Some res).
  { induction w as [|a w IH]; intros fuel Hfuel.
    - rewrite append_nil_l. destruct fuel as [|fuel]; [exact Hk|].
      rewrite star_loop_S. destruct t as [|b t].
      + rewrite re_match_Chr_nil. exact Hk.
      + rewrite re_match_Chr_cons. simpl in Ht. rewrite Ht. exact Hk.
    - simpl in Hw. apply andb_prop in Hw. destruct Hw as [Ha Hw].
      rewrite append_cons in *. simpl in Hfuel.
      destruct fuel as [|fuel]; [lia|].
      rewrite star_loop_S, re_match_Chr_cons, Ha, ltb_length_cons.
      rewrite (IH Hw fuel); [reflexivity | lia]. }
  apply H. lia.
Qed.

Lemma star_chr_backward (p : ascii -> bool) (k : continuation) (s : string) c res :
  re_match (Star (Chr p)) s c k = Some res ->
  exists w t, s = w ++ t /\ string_forall p w = true /\ k t c = Some res.
Proof.
  rewrite re_match_Star. generalize (String.length s) as fuel. intros fuel.
  revert s. induction fuel as [|fuel IH]; intros s H.
  - exists "", s. auto.
  - rewrite star_loop_S in H. destruct s as [|a s].
    + rewrite re_match_Chr_nil in H. exists "", "". auto.
    + rewrite re_match_Chr_cons in H. destruct (p a) eqn:Ha.
      * rewrite ltb_length_cons in H.
        destruct (star_loop (re_match (Chr p)) k fuel s c) as [res'|] eqn:Hloop.
        -- injection H as <-. apply IH in Hloop. destruct Hloop as (w & t & -> & Hw & Hk).
           exists (String a w), t. split; [reflexivity|]. split; [|exact Hk].
           simpl. rewrite Ha. exact Hw.
        -- exists "", (String a s). auto.
      * exists "", (String a s). auto.
Qed.



Lemma re_match_Alt (r1 r2 : regex) s c k :
  re_match (Alt r1 r2) s c k
  = match re_match r1 s c k with Some res => Some res | None => re_match r2 s c k end.
Proof. reflexivity. Qed.

Lemma re_match_Eps s c k : re_match Eps s c k = k s c.
Proof. reflexivity. Qed.

(** *** Character classes *)






Lemma zero_or_one_digit (a : ascii) : is_zero_or_one a = true -> is_digit a = true.
Proof. destruct a as [[] [] [] [] [] [] [] []]; vm_compute; congruence. Qed.




(** *** The alpha group *)

Lemma chr_fails_on_head (p : ascii -> bool) (t : string) c k :
  head_not p t -> re_match (Chr p) t c k = None.
Proof.
  destruct t as [|a t]; [reflexivity|]. simpl. intros ->. reflexivity.
Qed.





(** *** Capture groups *)



(** *** What follows a run of characters *)





Lemma at_end_backward (t : string) c res : at_end t c = Some res -> t = "" /\ res = c.
Proof. destruct t; simpl; [intros [= <-]; auto | discriminate]. Qed.

(** *** The patterns of the sanitizer *)


















(** ** The text-span locator *)

(** A node that holds the bare text is taken as soon as it is met: the
    nodes after it are not looked at, whether or not one of them holds
    the text with its context. *)
Lemma findTextInNodes_bare_match_first (node : nat) (nodeText : string)
    (rest : list (nat * string)) (text contextBefore contextAfter : string) :
  includes nodeText (contextBefore ++ text ++ contextAfter) = false ->
  includes nodeText text = true ->
  findTextInNodes ((node, nodeText) :: rest) text contextBefore contextAfter
  = Some (node, indexOf nodeText text).
Proof. intros H1 H2. simpl. rewrite H1, H2. reflexivity. Qed.

(** C2, the failing input.  The text node 7 holds the exact
    concatenation [say hello world], at index 0, so the
    context-qualified match is node 7 at offset 4; the locator answers
    with the bare match in node 4, at offset 0. *)
Example findTextInElement_prefers_earlier_bare_match :
  includes "say hello world today" ("say " ++ "hello" ++ " world") = true
  /\ indexOf "say hello world today" ("say " ++ "hello" ++ " world") = 0%Z
  /\ findTextInElement repeated_word_paragraph "hello" "say " " world" = Some (4, 0%Z).
Proof. vm_compute. repeat split. Qed.

(** ** The element resolver and its cache *)

Lemma map_get_delete {V} (k k' : string) (m : jsmap V) :
  map_get k (map_delete k' m) = if String.eqb k k' then None else map_get k m.
Proof.
  induction m as [|[k0 v] m IH]; simpl.
  - destruct (String.eqb k k'); reflexivity.
  - destruct (String.eqb_spec k' k0) as [->|Hne].
    + rewrite IH. destruct (String.eqb_spec k k0); reflexivity.
    + simpl. rewrite IH.
      destruct (String.eqb_spec k k0) as [->|Hne'].
      * destruct (String.eqb_spec k0 k'); [congruence | reflexivity].
      * reflexivity.
Qed.

Lemma map_get_set {V} (k k' : string) (v : V) (m : jsmap V) :
  map_get k (map_set k' v m) = if String.eqb k k' then Some v else map_get k m.
Proof.
  induction m as [|[k0 v0] m IH]; simpl.
  - reflexivity.
  - destruct (String.eqb_spec k' k0) as [->|Hne]; simpl.
    + destruct (String.eqb_spec k k0); reflexivity.
    + rewrite IH. destruct (String.eqb_spec k k0) as [->|Hne'].
      * destruct (String.eqb_spec k0 k'); [congruence | reflexivity].
      * reflexivity.
Qed.

Lemma map_get_delete_all {V} (k : string) (keys : list string) (m : jsmap V) (v : V) :
  map_get k (fold_left (fun c k' => map_delete k' c) keys m) = Some v ->
  map_get k m = Some v.
Proof.
  revert m. induction keys as [|k' keys IH]; simpl; intros m H.
  - exact H.
  - apply IH in H. rewrite map_get_delete in H.
    destruct (String.eqb k k'); [discriminate | exact H].
Qed.

(** What [cacheElement] leaves under a key: the element it was given,
    or what was there. *)
Lemma cacheElement_get (cache : element_cache) (key k : string) (element v : nat) :
  map_get k (cacheElement cache key element) = Some v ->
  (k = key /\ v = element) \/ map_get k cache = Some v.
Proof.
  unfold cacheElement. rewrite map_get_set.
  destruct (String.eqb_spec k key) as [->|Hne].
  - intros [= <-]. left. split; reflexivity.
  - intros H. right.
    destruct (CACHE_SIZE_LIMIT <=? map_size cache)%nat.
    + eapply map_get_delete_all. exact H.
    + exact H.
Qed.

Lemma head_omap_chain_ref_contains (doc : node) (f : list node -> bool) (e : nat) :
  head (omap chain_ref (List.filter f (doc_chains doc))) = Some e ->
  contains doc e = true.
Proof.
  unfold contains. generalize (doc_chains doc). intros chains.
  induction chains as [|ch chains IH]; simpl; [discriminate|].
  destruct (f ch) eqn:Hf; simpl.
  - unfold chain_is at 1.
    destruct (chain_ref ch) as [r|] eqn:Hr; simpl.
    + intros [= ->]. rewrite Nat.eqb_refl. reflexivity.
    + intros H. exact (IH H).
  - intros H. rewrite (IH H). apply orb_true_r.
Qed.

(** The engines answer with elements of the document. *)
Lemma querySelector_contains (doc : node) (c : string) (e : nat) :
  querySelector doc c = Returned (Some e) -> contains doc e = true.
Proof.
  unfold querySelector, querySelectorAll.
  destruct (parse_css c) as [sel|]; [|discriminate].
  intros [= H]. eapply head_omap_chain_ref_contains. exact H.
Qed.

Lemma evaluate_contains (doc : node) (x : string) (e : nat) :
  evaluate doc x = Returned (Some e) -> contains doc e = true.
Proof.
  unfold evaluate.
  destruct (parse_xpath x) as [steps|]; [|discriminate].
  intros [= H]. eapply head_omap_chain_ref_contains. exact H.
Qed.

(** The lookups after a cache miss: the answer is an element of the
    document, cached under the key, or null with the cache untouched. *)
Lemma query_selectors_spec (doc : node) (cache : element_cache) (key : string) (s : selector) :
  (query_selectors doc cache key s = (None, cache))
  \/ (exists e, contains doc e = true
                /\ query_selectors doc cache key s = (Some e, cacheElement cache key e)).
Proof.
  unfold query_selectors.
  assert (Hx :
    (match truthy (xpath s) with
     | Some x =>
         if validateXPath (Some x) then
           match evaluate doc x with
           | Returned (Some element) => (Some element, cacheElement cache key element)
           | _ => (None, cache)
           end
         else (None, cache)
     | None => (None, cache)
     end = (None, cache))
    \/ (exists e, contains doc e = true
          /\ match truthy (xpath s) with
             | Some x =>
                 if validateXPath (Some x) then
                   match evaluate doc x with
                   | Returned (Some element) => (Some element, cacheElement cache key element)
                   | _ => (None, cache)
                   end
                 else (None, cache)
             | None => (None, cache)
             end = (Some e, cacheElement cache key e))).
  { destruct (truthy (xpath s)) as [x|]; [|left; reflexivity].
    destruct (validateXPath (Some x)); [|left; reflexivity].
    destruct (evaluate doc x) as [|[e|]] eqn:He; try (left; reflexivity).
    right. exists e. split; [eapply evaluate_contains; exact He | reflexivity]. }
  destruct (truthy (css s)) as [c|]; [|exact Hx].
  destruct (querySelector doc c) as [|[e|]] eqn:Hq; try exact Hx.
  right. exists e. split; [eapply querySelector_contains; exact Hq | reflexivity].
Qed.

(** One call: the answer is attached, the call stores no detached
    element, and the entry under the looked-up key is attached. *)
Lemma findElementBySelector_step (doc : node) (n : nat) (cache : element_cache)
    (s : option selector) :
  contains doc n = false ->
  attached_not doc n (fst (findElementBySelector doc cache s))
  /\ (forall k, map_get k (snd (findElementBySelector doc cache s)) = Some n ->
                map_get k cache = Some n)
  /\ (forall sel, s = Some sel ->
                  map_get (cache_key sel) (snd (findElementBySelector doc cache s)) <> Some n).
Proof.
  intros Hn.
  assert (Hmiss : forall c key sel,
             (forall k, map_get k c = Some n -> map_get k cache = Some n) ->
             map_get key c <> Some n ->
             attached_not doc n (fst (query_selectors doc c key sel))
             /\ (forall k, map_get k (snd (query_selectors doc c key sel)) = Some n ->
                           map_get k cache = Some n)
             /\ map_get key (snd (query_selectors doc c key sel)) <> Some n).
  { intros c key sel Hc Hkey.
    destruct (query_selectors_spec doc c key sel) as [-> | (e & He & ->)]; simpl.
    - split; [split; [discriminate | discriminate] |]. split; assumption.
    - assert (Hne : e <> n) by (intros ->; rewrite Hn in He; discriminate).
      split; [split; [congruence | intros e' [= <-]; exact He] |].
      split.
      + intros k Hk. apply cacheElement_get in Hk. destruct Hk as [[_ ->] | Hk].
        * congruence.
        * auto.
      + intros Hk. apply cacheElement_get in Hk. destruct Hk as [[_ Heq] | Hk].
        * congruence.
        * contradiction. }
  destruct s as [sel|]; simpl.
  - destruct (map_get (cache_key sel) cache) as [cached|] eqn:Hget.
    + destruct (contains doc cached) eqn:Hc; simpl.
      * split; [split; [intros [= ->]; congruence | intros e [= <-]; exact Hc] |].
        split; [auto|]. intros sel' [= <-]. rewrite Hget. intros [= ->]. congruence.
      * destruct (Hmiss (map_delete (cache_key sel) cache) (cache_key sel) sel)
          as (H1 & H2 & H3).
        -- intros k. rewrite map_get_delete. destruct (String.eqb k (cache_key sel));
             [discriminate | auto].
        -- rewrite map_get_delete, String.eqb_refl. discriminate.
        -- split; [exact H1|]. split; [exact H2|]. intros sel' [= <-]. exact H3.
    + destruct (Hmiss cache (cache_key sel) sel) as (H1 & H2 & H3).
      * auto.
      * rewrite Hget. discriminate.
      * split; [exact H1|]. split; [exact H2|]. intros sel' [= <-]. exact H3.
  - split; [split; [discriminate | discriminate] |]. split; [auto | discriminate].
Qed.

Lemma resolve_all_cons doc cache s rest :
  resolve_all doc cache (s :: rest)
  = (fst (findElementBySelector doc cache s)
       :: fst (resolve_all doc (snd (findElementBySelector doc cache s)) rest),
     snd (resolve_all doc (snd (findElementBySelector doc cache s)) rest)).
Proof.
  simpl. destruct (findElementBySelector doc cache s) as [r c'].
  simpl. destruct (resolve_all doc c' rest). reflexivity.
Qed.

Lemma resolve_all_keeps_out (doc : node) (n : nat) (calls : list (option selector)) :
  contains doc n = false ->
  forall cache k,
    map_get k (snd (resolve_all doc cache calls)) = Some n -> map_get k cache = Some n.
Proof.
  intros Hn. induction calls as [|s rest IH]; intros cache k; [auto|].
  rewrite resolve_all_cons. simpl. intros H. apply IH in H.
  destruct (findElementBySelector_step doc n cache s Hn) as (_ & H2 & _). auto.
Qed.

(** C5.  Once an element is no longer in the document, no call of
    [findElementBySelector] answers with it, whatever the cache holds
    and whatever the selector pairs looked up, in any run of calls:
    every answer is null or an element of the document.  After the run
    the cache holds the detached element under none of the pairs that
    were looked up: a stale entry is deleted on lookup, and what is
    cached in its place is an element of the document. *)
Theorem cache_coherence (doc : node) (n : nat) (cache : element_cache)
    (calls : list (option selector)) :
  contains doc n = false ->
  Forall (attached_not doc n) (fst (resolve_all doc cache calls))
  /\ (forall s, In (Some s) calls ->
                map_get (cache_key s) (snd (resolve_all doc cache calls)) <> Some n).
Proof.
  intros Hn. revert cache. induction calls as [|s rest IH]; intros cache.
  - split; [constructor | intros s []].
  - rewrite resolve_all_cons. simpl.
    destruct (findElementBySelector_step doc n cache s Hn) as (H1 & H2 & H3).
    destruct (IH (snd (findElementBySelector doc cache s))) as (IH1 & IH2).
    split; [constructor; assumption|].
    intros sel [-> | Hin].
    + intros Hk. apply (resolve_all_keeps_out doc n rest Hn) in Hk.
      exact (H3 sel eq_refl Hk).
    + apply IH2. exact Hin.
Qed.

Lemma cache_coherence_witness :
  contains doc_without_p 3 = false
  /\ map_get (cache_key p_selector) stale_cache = Some 3
  /\ Forall (attached_not doc_without_p 3)
       (fst (resolve_all doc_without_p stale_cache [Some p_selector; Some p_selector]))
  /\ map_get (cache_key p_selector)
       (snd (resolve_all doc_without_p stale_cache [Some p_selector; Some p_selector]))
     <> Some 3.
Proof.
  split; [reflexivity|]. split; [reflexivity|].
  destruct (cache_coherence doc_without_p 3 stale_cache [Some p_selector; Some p_selector])
    as (H1 & H2); [reflexivity|].
  split; [exact H1|]. apply H2. left. reflexivity.
Defined.

(** ** The selector round trip *)

Lemma same_element_true (found : option nat) (e : nat) :
  same_element found e = true <-> found = Some e.
Proof.
  unfold same_element. destruct found as [r|]; [|split; discriminate].
  rewrite Nat.eqb_eq. split; congruence.
Qed.

Lemma truthy_Some (s : option string) (c : string) :
  truthy s = Some c -> s = Some c /\ truthy (Some c) = Some c.
Proof.
  destruct s as [[|a s]|]; simpl; try discriminate.
  intros [= <-]. split; reflexivity.
Qed.

(** A pair that resolves to [e] is resolved to [e] when the cache does
    not stand in the way. *)
Lemma findElementBySelector_resolves (doc : node) (cache : element_cache)
    (s : selector) (e : nat) :
  no_other_cached doc cache s e ->
  resolves_to doc s e ->
  fst (findElementBySelector doc cache (Some s)) = Some e.
Proof.
  intros Hcache Hres.
  assert (Hq : forall c key, fst (query_selectors doc c key s) = Some e).
  { intros c key. unfold query_selectors.
    destruct Hres as [(sel & -> & ->) | (-> & x & -> & -> & ->)]; reflexivity. }
  simpl. destruct (map_get (cache_key s) cache) as [cached|] eqn:Hget.
  - destruct (contains doc cached) eqn:Hc.
    + simpl. f_equal. apply Hcache; [exact Hget | exact Hc].
    + apply Hq.
  - apply Hq.
Qed.

(** The pair [generateOptimalSelector] answers with resolves to the
    element when its validation succeeds. *)
Lemma generateOptimalSelector_resolves (doc : node) (e : nat) :
  generation_validates doc e ->
  resolves_to doc (generateOptimalSelector doc (Some e)) e.
Proof.
  intros (Hcss & Hsome).
  unfold generateOptimalSelector. fold (element_chain doc e).
  set (ch := element_chain doc e) in *.
  set (css0 := generateCSSSelector doc ch) in *.
  set (xpath0 := generateXPath doc ch) in *.
  set (robust0 := generateRobustCSSSelector doc ch) in *.
  (* the robust stage *)
  set (A3 := match truthy robust0 with
             | Some rc =>
                 match querySelector doc rc with
                 | Threw => null_selector
                 | Returned found =>
                     if same_element found e then {| css := Some rc; xpath := xpath0 |}
                     else {| css := css0; xpath := xpath0 |}
                 end
             | None => {| css := css0; xpath := xpath0 |}
             end).
  assert (H3 : (exists c, truthy robust0 = Some c /\ querySelector doc c = Returned (Some e))
               -> resolves_to doc A3 e).
  { intros (rc & Hrc & Hq). subst A3. rewrite Hrc, Hq.
    unfold same_element. rewrite Nat.eqb_refl.
    left. exists rc. simpl. split; [apply (truthy_Some _ _ Hrc) | exact Hq]. }
  (* the XPath stage *)
  set (A2 := match truthy xpath0 with
             | Some x =>
                 if validateXPath (Some x) then
                   match evaluate doc x with
                   | Returned found =>
                       if same_element found e then {| css := None; xpath := xpath0 |}
                       else A3
                   | Threw => A3
                   end
                 else A3
             | None => A3
             end).
  assert (H2 : (exists x, truthy xpath0 = Some x /\ validateXPath (Some x) = true
                          /\ evaluate doc x = Returned (Some e))
               \/ (exists c, truthy robust0 = Some c /\ querySelector doc c = Returned (Some e))
               -> resolves_to doc A2 e).
  { intros [(x & Hx & Hv & He) | Hr]; subst A2.
    - rewrite Hx, Hv, He. unfold same_element. rewrite Nat.eqb_refl.
      right. simpl. split; [reflexivity|]. exists x. auto.
    - destruct (truthy xpath0) as [x|] eqn:Hx; [|auto].
      destruct (validateXPath (Some x)) eqn:Hv; [|auto].
      destruct (evaluate doc x) as [|found] eqn:He; [auto|].
      destruct (same_element found e) eqn:Hsame; [|auto].
      apply same_element_true in Hsame. subst found.
      right. simpl. split; [reflexivity|]. exists x. auto. }
  (* the CSS stage *)
  destruct (truthy css0) as [c|] eqn:Hc.
  - specialize (Hcss c eq_refl).
    destruct (querySelector doc c) as [|found] eqn:Hq; [congruence|].
    destruct (same_element found e) eqn:Hsame.
    + apply same_element_true in Hsame. subst found.
      left. exists c. simpl. auto.
    + apply H2. destruct Hsome as [(c' & [= <-] & Hr) | H]; [|exact H].
      rewrite Hq in Hr. injection Hr as ->.
      unfold same_element in Hsame. rewrite Nat.eqb_refl in Hsame. discriminate.
  - apply H2. destruct Hsome as [(c' & [=] & _) | H]; exact H.
Qed.

(** C1, as amended.  When the generation validates one of its
    candidate selectors for [e] -- the engine accepts the CSS path,
    and the CSS path, the XPath or the robust CSS path resolves to [e]
    in the document -- and the cache holds no other element of the
    document under the key of the generated pair, resolving the
    generated pair on the same document answers with [e] itself. *)
Theorem selector_round_trip (doc : node) (cache : element_cache) (e : nat) :
  generation_validates doc e ->
  no_other_cached doc cache (generateOptimalSelector doc (Some e)) e ->
  fst (findElementBySelector doc cache (Some (generateOptimalSelector doc (Some e)))) = Some e.
Proof.
  intros Hval Hcache.
  apply findElementBySelector_resolves; [exact Hcache|].
  apply generateOptimalSelector_resolves. exact Hval.
Qed.

Lemma selector_round_trip_witness :
  generation_validates overlay_doc 4
  /\ no_other_cached overlay_doc overlay_stale_cache
       (generateOptimalSelector overlay_doc (Some 4)) 4
  /\ fst (findElementBySelector overlay_doc overlay_stale_cache
            (Some (generateOptimalSelector overlay_doc (Some 4)))) = Some 4.
Proof.
  assert (Hval : generation_validates overlay_doc 4).
  { split.
    - intros c Hc. vm_compute in Hc. injection Hc as <-. vm_compute. discriminate.
    - left. exists "body > p". split; vm_compute; reflexivity. }
  assert (Hcache : no_other_cached overlay_doc overlay_stale_cache
                     (generateOptimalSelector overlay_doc (Some 4)) 4).
  { intros r Hr Hin. vm_compute in Hr. injection Hr as <-. vm_compute in Hin. discriminate. }
  split; [exact Hval|]. split; [exact Hcache|].
  apply (selector_round_trip overlay_doc overlay_stale_cache 4 Hval Hcache).
Defined.

(** C1 as stated fails for the overlay division 6, a child of the
    document element: the CSS path [div], the XPath [//div[1]] and the
    robust path [div:nth-child(3)] all resolve to the division 5 of the
    body, which comes first in document order; the generation answers
    with the pair it could not validate, and the pair resolves to 5,
    with an empty cache. *)
Lemma overlay_not_round_tripped :
  ~ (forall (doc : node) (cache : element_cache) (e : nat),
        contains doc e = true ->
        documentElement doc <> Some e ->
        fst (findElementBySelector doc cache (Some (generateOptimalSelector doc (Some e))))
        = Some e).
Proof.
  intros H. specialize (H overlay_doc [] 6).
  assert (Hfound : fst (findElementBySelector overlay_doc []
                          (Some (generateOptimalSelector overlay_doc (Some 6)))) = Some 5)
    by (vm_compute; reflexivity).
  rewrite Hfound in H.
  assert (Heq : Some 5 = Some 6) by (apply H; [reflexivity | vm_compute; discriminate]).
  discriminate Heq.
Qed.

(** What the generation answers for the overlay division 6, and for
    the division 7 under [o:p], whose CSS path the engine rejects. *)
Example generateOptimalSelector_samples :
  generateOptimalSelector overlay_doc (Some 6)
  = {| css := Some "div"; xpath := Some "//div[1]" |}
  /\ generateOptimalSelector overlay_doc (Some 5)
     = {| css := Some "body > div.content"; xpath := Some "//body[1]/div[1]" |}
  /\ generateCSSSelector office_doc (element_chain office_doc 7) = Some "body > o:p > div"
  /\ querySelector office_doc "body > o:p > div" = Threw
  /\ generateOptimalSelector office_doc (Some 7) = null_selector.
Proof. vm_compute. repeat split. Qed.

(** A cache entry made before the document changed shadows the pair:
    the entry is an element of the document, so it is the answer. *)
Example live_cache_entry_shadows_pair :
  fst (findElementBySelector overlay_doc [(overlay_p_key, 3)]
         (Some (generateOptimalSelector overlay_doc (Some 4)))) = Some 3.
Proof. vm_compute. reflexivity. Qed.

(** ** The highlights *)

(** Induction on a tree, with the property at hand for the children. *)
Lemma node_induction (P : node -> Prop) :
  (forall r d, P (Text r d)) ->
  (forall r t i c kids, Forall P kids -> P (Element r t i c kids)) ->
  forall n, P n.
Proof.
  intros HT HE. fix IH 1. intros [r d | r t i c kids].
  - apply HT.
  - apply HE. induction kids as [|k kids IHk]; constructor; [apply IH | exact IHk].
Qed.

Lemma concat_empty_append (l1 l2 : list string) :
  String.concat "" (l1 ++ l2) = String.concat "" l1 ++ String.concat "" l2.
Proof.
  induction l1 as [|x l1 IH]; [reflexivity|].
  destruct l1 as [|y l1].
  - simpl. destruct l2 as [|z l2]; simpl.
    + rewrite append_nil_r. reflexivity.
    + reflexivity.
  - change (String.concat "" ((x :: y :: l1) ++ l2))
      with (x ++ "" ++ String.concat "" ((y :: l1) ++ l2)).
    rewrite IH. change (String.concat "" (x :: y :: l1))
      with (x ++ "" ++ String.concat "" (y :: l1)).
    rewrite !append_nil_l, append_assoc. reflexivity.
Qed.

Lemma concat_empty_cons (x : string) (l : list string) :
  String.concat "" (x :: l) = x ++ String.concat "" l.
Proof. exact (concat_empty_append [x] l). Qed.

Lemma textContent_Element r t i c kids :
  textContent (Element r t i c kids) = text_of kids.
Proof. reflexivity. Qed.

Lemma text_of_cons k l : text_of (k :: l) = textContent k ++ text_of l.
Proof. unfold text_of. simpl List.map. apply concat_empty_cons. Qed.

Lemma text_of_app l1 l2 : text_of (l1 ++ l2) = text_of l1 ++ text_of l2.
Proof. unfold text_of. rewrite List.map_app. apply concat_empty_append. Qed.

Lemma text_of_merge_text (l : list node) : text_of (merge_text l) = text_of l.
Proof.
  induction l as [|k l IH]; [reflexivity|].
  destruct k as [r d | r t i c kids].
  - simpl. destruct d as [|a d].
    + rewrite IH, text_of_cons. reflexivity.
    + rewrite !text_of_cons, <- IH. simpl textContent.
      destruct (merge_text l) as [|[r' d' | r' t' i' c' kids'] rest];
        rewrite ?text_of_cons; simpl textContent;
        rewrite ?append_assoc; reflexivity.
  - simpl. rewrite !text_of_cons, IH. reflexivity.
Qed.

Lemma text_of_map_ext (f : node -> node) (l : list node) :
  Forall (fun k => textContent (f k) = textContent k) l ->
  text_of (List.map f l) = text_of l.
Proof.
  induction 1 as [|k l Hk _ IH]; [reflexivity|].
  simpl List.map. rewrite !text_of_cons, Hk, IH. reflexivity.
Qed.

Lemma normalize_Element r t i c kids :
  normalize (Element r t i c kids) = Element r t i c (merge_text (List.map normalize kids)).
Proof. reflexivity. Qed.

Lemma textContent_normalize (n : node) : textContent (normalize n) = textContent n.
Proof.
  induction n as [r d | r t i c kids IH] using node_induction; [reflexivity|].
  rewrite normalize_Element, !textContent_Element, text_of_merge_text.
  apply text_of_map_ext. exact IH.
Qed.

Lemma unwrap_Element span fresh r t i c kids :
  unwrap span fresh (Element r t i c kids)
  = if existsb (is_element_ref span) kids
    then normalize
           (Element r t i c
              (List.map (fun k => if is_element_ref span k
                                  then Text fresh (textContent k) else k) kids))
    else Element r t i c (List.map (unwrap span fresh) kids).
Proof. reflexivity. Qed.

Lemma textContent_unwrap (span fresh : nat) (n : node) :
  textContent (unwrap span fresh n) = textContent n.
Proof.
  induction n as [r d | r t i c kids IH] using node_induction; [reflexivity|].
  rewrite unwrap_Element. destruct (existsb (is_element_ref span) kids).
  - rewrite textContent_normalize, !textContent_Element.
    apply text_of_map_ext. apply Forall_forall. intros k _.
    destruct (is_element_ref span k); reflexivity.
  - rewrite !textContent_Element. apply text_of_map_ext. exact IH.
Qed.

Lemma substring_whole (d : string) : substring 0 (String.length d) d = d.
Proof. induction d as [|a d IH]; [reflexivity|]. simpl. rewrite IH. reflexivity. Qed.

Lemma substring_0_0 (d : string) : substring 0 0 d = "".
Proof. destruct d; reflexivity. Qed.

Lemma substring_take_drop (len : nat) (d : string) :
  substring 0 len d ++ substring len (String.length d - len) d = d.
Proof.
  revert len. induction d as [|a d IH]; intros [|len]; try reflexivity.
  - rewrite substring_0_0, append_nil_l, Nat.sub_0_r. apply substring_whole.
  - simpl. rewrite append_cons. f_equal. apply IH.
Qed.

Lemma substring_split (offset len : nat) (d : string) :
  substring 0 offset d ++ substring offset len d
  ++ substring (offset + len) (String.length d - (offset + len)) d = d.
Proof.
  revert offset. induction d as [|a d IH]; intros [|offset].
  - destruct len; reflexivity.
  - destruct len; reflexivity.
  - rewrite substring_0_0, append_nil_l, Nat.add_0_l. apply substring_take_drop.
  - simpl. rewrite append_cons. f_equal. apply IH.
Qed.

Lemma wrap_range_Element tn span mid after offset len r t i c kids :
  wrap_range tn span mid after offset len (Element r t i c kids)
  = Element r t i c
      (flat_map (fun k => if is_text_ref tn k
                          then split_around span mid after offset len k
                          else [wrap_range tn span mid after offset len k]) kids).
Proof. reflexivity. Qed.

Lemma text_of_nil : text_of [] = "".
Proof. reflexivity. Qed.

Lemma textContent_Text r d : textContent (Text r d) = d.
Proof. reflexivity. Qed.

Lemma textContent_split_around span mid after offset len (k : node) :
  text_of (split_around span mid after offset len k) = textContent k.
Proof.
  destruct k as [r d | r t i c kids]; unfold split_around.
  - rewrite !text_of_cons, textContent_Element, text_of_cons, text_of_nil.
    rewrite !textContent_Text, !append_nil_r. apply substring_split.
  - rewrite text_of_cons, text_of_nil. apply append_nil_r.
Qed.

Lemma textContent_wrap_range tn span mid after offset len (n : node) :
  textContent (wrap_range tn span mid after offset len n) = textContent n.
Proof.
  induction n as [r d | r t i c kids IH] using node_induction; [reflexivity|].
  rewrite wrap_range_Element, !textContent_Element.
  induction IH as [|k kids Hk _ IHk]; [reflexivity|].
  simpl flat_map. rewrite text_of_app, IHk, text_of_cons. f_equal.
  destruct (is_text_ref tn k).
  - apply textContent_split_around.
  - rewrite text_of_cons, Hk, text_of_nil. apply append_nil_r.
Qed.

Lemma textContent_removeTextHighlight (noteId : string) (s : highlight_state) :
  textContent (hs_doc (snd (removeTextHighlight noteId s))) = textContent (hs_doc s).
Proof.
  unfold removeTextHighlight.
  destruct (map_get noteId (noteHighlights s)) as [rec|]; [|reflexivity].
  simpl. destruct (contains (hs_doc s) (hl_element rec)); [|reflexivity].
  apply textContent_unwrap.
Qed.

Lemma textContent_remove_all (ids : list string) (s : highlight_state) :
  textContent (hs_doc (fold_left (fun st noteId => snd (removeTextHighlight noteId st)) ids s))
  = textContent (hs_doc s).
Proof.
  revert s. induction ids as [|id ids IH]; intros s; [reflexivity|].
  simpl. rewrite IH. apply textContent_removeTextHighlight.
Qed.

Lemma textContent_cleanupHighlights (s : highlight_state) :
  textContent (hs_doc (cleanupHighlights s)) = textContent (hs_doc s).
Proof.
  unfold cleanupHighlights.
  destruct (MAX_HIGHLIGHTS <? map_size (noteHighlights s))%nat; [|reflexivity].
  apply textContent_remove_all.
Qed.

Lemma textContent_createTextHighlight id sd color (s : highlight_state) :
  textContent (hs_doc (snd (createTextHighlight id sd color s))) = textContent (hs_doc s).
Proof.
  pose proof (textContent_removeTextHighlight id s) as Hrm.
  unfold createTextHighlight.
  destruct sd as [sd|]; [|reflexivity].
  destruct (sel_text sd) as [|a text]; [reflexivity|].
  destruct (sel_targetElement sd) as [target|]; [|exact Hrm].
  destruct (find_element _ target) as [targetElement|]; [|exact Hrm].
  destruct (findTextInElement _ _ _ _) as [[textNode pos]|]; [|exact Hrm].
  destruct (_ =? -1)%Z; [exact Hrm|].
  cbn [snd]. rewrite textContent_cleanupHighlights. cbn [hs_doc].
  rewrite textContent_wrap_range. exact Hrm.
Qed.

(** Whatever highlights are created and removed, in whatever order, the
    text of the document is what it was. *)
Lemma textContent_run_ops (ops : list highlight_op) (s : highlight_state) :
  textContent (hs_doc (run_ops ops s)) = textContent (hs_doc s).
Proof.
  unfold run_ops. revert s. induction ops as [|op ops IH]; intros s; [reflexivity|].
  simpl. rewrite IH. destruct op as [id sd color | id]; simpl.
  - apply textContent_createTextHighlight.
  - apply textContent_removeTextHighlight.
Qed.

(** *** Occurrences of one string in another *)

Lemma substring_prefix_append (t post : string) :
  substring 0 (String.length t) (t ++ post) = t.
Proof.
  induction t as [|a t IH]; [apply substring_0_0|].
  rewrite append_cons. simpl. now rewrite IH.
Qed.

Lemma substring_at_append (pre t post : string) :
  substring (String.length pre) (String.length t) (pre ++ t ++ post) = t.
Proof.
  induction pre as [|a pre IH].
  - rewrite append_nil_l. apply substring_prefix_append.
  - rewrite append_cons. simpl. exact IH.
Qed.

Lemma includes_empty (s : string) : includes s "" = true.
Proof. unfold includes. destruct s; reflexivity. Qed.

Lemma includes_occurs (s t : string) :
  includes s t = true <-> exists pre post, s = pre ++ t ++ post.
Proof.
  unfold includes. split.
  - destruct (index 0 t s) as [m|] eqn:E; [intros _ | discriminate].
    apply index_correct1 in E.
    exists (substring 0 m s),
           (substring (m + String.length t) (String.length s - (m + String.length t)) s).
    pose proof (substring_split m (String.length t) s) as H.
    rewrite E in H. now symmetry.
  - intros (pre & post & ->).
    destruct t as [|a t]; [apply includes_empty|].
    destruct (index 0 (String a t) (pre ++ String a t ++ post)) eqn:E; [reflexivity|].
    exfalso.
    apply (index_correct3 0 (String.length pre) _ _ E); [discriminate | lia |].
    apply substring_at_append.
Qed.

Lemma includes_append_l (d d' t : string) :
  includes d t = true -> includes (d ++ d') t = true.
Proof.
  rewrite !includes_occurs. intros (pre & post & ->).
  exists pre, (post ++ d'). now rewrite !append_assoc.
Qed.

Lemma includes_append_r (d d' t : string) :
  includes d' t = true -> includes (d ++ d') t = true.
Proof.
  rewrite !includes_occurs. intros (pre & post & ->).
  exists (d ++ pre), post. now rewrite !append_assoc.
Qed.

Lemma includes_refl (t : string) : includes t t = true.
Proof.
  apply includes_occurs. exists "", "". now rewrite append_nil_l, append_nil_r.
Qed.

Lemma includes_inner (s before t after : string) :
  includes s (before ++ t ++ after) = true -> includes s t = true.
Proof.
  rewrite !includes_occurs. intros (pre & post & ->).
  exists (pre ++ before), (after ++ post). now rewrite !append_assoc.
Qed.

Lemma includes_in_empty (t : string) : t <> "" -> includes "" t = false.
Proof. destruct t; [congruence | reflexivity]. Qed.

Lemma includes_indexOf (s t : string) :
  includes s t = true -> (0 <= indexOf s t)%Z.
Proof.
  unfold includes, indexOf. destruct (index 0 t s); [lia | discriminate].
Qed.

Lemma indexOf_substring (s t : string) :
  (indexOf s t <> -1)%Z ->
  substring (Z.to_nat (indexOf s t)) (String.length t) s = t.
Proof.
  unfold indexOf. destruct (index 0 t s) as [m|] eqn:E; [intros _ | congruence].
  rewrite Nat2Z.id. exact (index_correct1 _ _ _ _ E).
Qed.

Lemma indexOf_range (s t : string) : (-1 <= indexOf s t)%Z.
Proof. unfold indexOf. destruct (index 0 t s); lia. Qed.

Lemma substring_of_empty (n m : nat) : substring n m "" = "".
Proof. destruct n, m; reflexivity. Qed.

Lemma append_eq_empty (a b : string) : a ++ b = "" -> a = "" /\ b = "".
Proof.
  destruct a; [rewrite append_nil_l; auto | rewrite append_cons; discriminate].
Qed.

Lemma substring_skip_prefix (a b d : string) :
  substring 0 (String.length (a ++ b)) d = a ++ b ->
  substring (String.length a) (String.length b) d = b.
Proof.
  revert d. induction a as [|x a IH]; intros d.
  - now rewrite append_nil_l.
  - rewrite append_cons. destruct d as [|y d]; simpl; [discriminate|].
    intros [= _ H]. now apply IH.
Qed.

Lemma substring_skip (m : nat) (a b d : string) :
  substring m (String.length (a ++ b)) d = a ++ b ->
  substring (m + String.length a) (String.length b) d = b.
Proof.
  revert d. induction m as [|m IH]; intros d H.
  - now apply substring_skip_prefix.
  - destruct d as [|y d].
    + rewrite substring_of_empty in H. symmetry in H.
      apply append_eq_empty in H as [_ ->]. apply substring_of_empty.
    + simpl in *. now apply IH.
Qed.

(** The offset [findTextOffset] returns, when it is one, is the start
    of an occurrence of the text. *)
Lemma findTextOffset_substring (d text before : string) :
  (findTextOffset d text before <> -1)%Z ->
  substring (Z.to_nat (findTextOffset d text before)) (String.length text) d = text.
Proof.
  unfold findTextOffset. destruct before as [|x before].
  - apply indexOf_substring.
  - destruct (indexOf d (String x before ++ text) =? -1)%Z eqn:E.
    + apply indexOf_substring.
    + intros _. apply Z.eqb_neq in E.
      pose proof (indexOf_range d (String x before ++ text)) as Hr.
      assert (0 <= indexOf d (String x before ++ text))%Z as H0 by lia.
      apply indexOf_substring in E.
      apply substring_skip in E.
      rewrite Z2Nat.inj_add, Nat2Z.id by lia. exact E.
Qed.

Lemma findTextOffset_found (d text before : string) :
  includes d text = true -> (findTextOffset d text before <> -1)%Z.
Proof.
  intros H. apply includes_indexOf in H. unfold findTextOffset.
  destruct before as [|x before]; [lia|].
  pose proof (indexOf_range d (String x before ++ text)) as Hr.
  destruct (indexOf d (String x before ++ text) =? -1)%Z eqn:E; [lia|].
  apply Z.eqb_neq in E. lia.
Qed.

Lemma findTextOffset_includes (d text before : string) :
  (findTextOffset d text before <> -1)%Z -> includes d text = true.
Proof.
  intros H. apply findTextOffset_substring in H.
  apply includes_occurs.
  set (m := Z.to_nat (findTextOffset d text before)) in *.
  exists (substring 0 m d),
         (substring (m + String.length text) (String.length d - (m + String.length text)) d).
  pose proof (substring_split m (String.length text) d) as H'.
  rewrite H in H'. now symmetry.
Qed.

(** *** Counting the nodes of a tree *)

Lemma count_nodes_Text p r d : count_nodes p (Text r d) = Nat.b2n (p (Text r d)).
Proof. simpl. destruct (p _); reflexivity. Qed.

Lemma count_nodes_Element p r t i c kids :
  count_nodes p (Element r t i c kids)
  = Nat.b2n (p (Element r t i c kids)) + count_list p kids.
Proof. reflexivity. Qed.

Lemma count_list_nil p : count_list p [] = 0.
Proof. reflexivity. Qed.

Lemma count_list_cons p k l : count_list p (k :: l) = count_nodes p k + count_list p l.
Proof. reflexivity. Qed.

Lemma count_list_app p l1 l2 :
  count_list p (l1 ++ l2)%list = count_list p l1 + count_list p l2.
Proof.
  induction l1 as [|k l1 IH]; [reflexivity|].
  simpl app. rewrite !count_list_cons, IH. lia.
Qed.

Lemma count_nodes_root p n : Nat.b2n (p n) <= count_nodes p n.
Proof. destruct n; [rewrite count_nodes_Text | rewrite count_nodes_Element]; lia. Qed.

Lemma count_nodes_le (p q : node -> bool) :
  (forall n, p n = true -> q n = true) ->
  forall n, count_nodes p n <= count_nodes q n.
Proof.
  intros Hpq. induction n as [r d | r t i c kids IH] using node_induction.
  - rewrite !count_nodes_Text. specialize (Hpq (Text r d)).
    destruct (p _); [rewrite Hpq by reflexivity|]; simpl; lia.
  - rewrite !count_nodes_Element.
    assert (count_list p kids <= count_list q kids) as Hk.
    { induction IH as [|k kids Hk _ IHk]; [reflexivity|].
      rewrite !count_list_cons. lia. }
    specialize (Hpq (Element r t i c kids)).
    destruct (p _); [rewrite Hpq by reflexivity|]; simpl; lia.
Qed.

Lemma unwrap_Element_with span fresh r t i c kids :
  existsb (is_element_ref span) kids = true ->
  unwrap span fresh (Element r t i c kids)
  = normalize (Element r t i c (List.map (replace_span span fresh) kids)).
Proof. intros H. rewrite unwrap_Element, H. reflexivity. Qed.

Lemma unwrap_Element_without span fresh r t i c kids :
  existsb (is_element_ref span) kids = false ->
  unwrap span fresh (Element r t i c kids)
  = Element r t i c (List.map (unwrap span fresh) kids).
Proof. intros H. rewrite unwrap_Element, H. reflexivity. Qed.

Lemma wrap_range_children tn span mid after offset len r t i c kids :
  wrap_range tn span mid after offset len (Element r t i c kids)
  = Element r t i c (flat_map (wrap_child tn span mid after offset len) kids).
Proof. reflexivity. Qed.

Lemma shallow_has_ref r : shallow (has_ref r).
Proof. split; reflexivity. Qed.

Lemma shallow_is_element_ref r : shallow (is_element_ref r).
Proof. split; reflexivity. Qed.

Lemma shallow_is_text_ref r : shallow (is_text_ref r).
Proof. split; reflexivity. Qed.

Lemma shallow_has_class cls : shallow (has_class cls).
Proof. split; reflexivity. Qed.

Lemma shallow_and_not (p q : node -> bool) :
  shallow p -> shallow q -> shallow (fun n => p n && negb (q n)).
Proof.
  intros [Hp1 Hp2] [Hq1 Hq2]. split; intros.
  - now rewrite (Hp1 r d d'), (Hq1 r d d').
  - now rewrite (Hp2 r t i c kids kids'), (Hq2 r t i c kids kids').
Qed.

Section Counting.

Variable p : node -> bool.
Hypothesis Hp : shallow p.

Lemma shallow_Text r d d' : p (Text r d) = p (Text r d').
Proof. apply Hp. Qed.

Lemma shallow_Element r t i c kids kids' :
  p (Element r t i c kids) = p (Element r t i c kids').
Proof. apply Hp. Qed.

Lemma count_list_map_le (f : node -> node) (q : node -> bool) (e : nat) (l : list node) :
  Forall (fun k => count_nodes p (f k) <= count_nodes p k + e * count_nodes q k) l ->
  count_list p (List.map f l) <= count_list p l + e * count_list q l.
Proof.
  induction 1 as [|k l Hk _ IH]; [simpl List.map; rewrite !count_list_nil; lia|].
  simpl List.map. rewrite !count_list_cons, Nat.mul_add_distr_l. lia.
Qed.

Lemma count_list_merge_text (l : list node) :
  count_list p (merge_text l) <= count_list p l.
Proof.
  induction l as [|k l IH]; [reflexivity|].
  destruct k as [r d | r t i c kids].
  - destruct d as [|a d].
    + change (merge_text (Text r "" :: l)) with (merge_text l).
      rewrite count_list_cons. lia.
    + change (merge_text (Text r (String a d) :: l))
        with (match merge_text l with
              | Text _ d' :: rest' => Text r (String a d ++ d') :: rest'
              | other => Text r (String a d) :: other
              end).
      destruct (merge_text l) as [|[r' d' | r' t' i' c' kids'] rest];
        rewrite ?count_list_cons in *; rewrite ?count_nodes_Text in *;
        rewrite ?(shallow_Text r (String a d ++ d') (String a d)); lia.
  - change (merge_text (Element r t i c kids :: l))
      with (Element r t i c kids :: merge_text l).
    rewrite !count_list_cons. lia.
Qed.

Lemma count_nodes_normalize (n : node) :
  count_nodes p (normalize n) <= count_nodes p n.
Proof.
  induction n as [r d | r t i c kids IH] using node_induction; [reflexivity|].
  rewrite normalize_Element, !count_nodes_Element.
  rewrite (shallow_Element r t i c _ kids).
  pose proof (count_list_merge_text (List.map normalize kids)) as Hm.
  pose proof (count_list_map_le normalize p 0 kids) as Hl.
  assert (Forall (fun k => count_nodes p (normalize k)
                           <= count_nodes p k + 0 * count_nodes p k) kids) as HF.
  { eapply Forall_impl; [exact IH|]. simpl. intros; lia. }
  specialize (Hl HF). lia.
Qed.

(** Wrapping adds the span and the two new text nodes once for each
    text node it splits. *)
Lemma count_nodes_wrap_range tn span mid after offset len (n : node) :
  count_nodes p (wrap_range tn span mid after offset len n)
  = count_nodes p n
    + (count_nodes (is_text_ref tn) n - Nat.b2n (is_text_ref tn n))
      * (Nat.b2n (p (Element span "SPAN" "" HIGHLIGHT_CLASS []))
         + Nat.b2n (p (Text mid "")) + Nat.b2n (p (Text after ""))).
Proof.
  set (e := Nat.b2n (p (Element span "SPAN" "" HIGHLIGHT_CLASS []))
            + Nat.b2n (p (Text mid "")) + Nat.b2n (p (Text after ""))).
  induction n as [r d | r t i c kids IH] using node_induction.
  - rewrite count_nodes_Text. simpl wrap_range. rewrite !count_nodes_Text.
    destruct (is_text_ref tn (Text r d)); simpl; lia.
  - rewrite wrap_range_children, !count_nodes_Element.
    rewrite (shallow_Element r t i c _ kids).
    change (is_text_ref tn (Element r t i c kids)) with false.
    simpl Nat.b2n. rewrite Nat.add_0_l, Nat.sub_0_r.
    assert (count_list p (flat_map (wrap_child tn span mid after offset len) kids)
            = count_list p kids + count_list (is_text_ref tn) kids * e) as Hk.
    { induction IH as [|k kids Hk _ IHk]; [reflexivity|].
      simpl flat_map. rewrite count_list_app, !count_list_cons, IHk.
      unfold wrap_child. destruct (is_text_ref tn k) eqn:Ek.
      - destruct k as [r' d' | ]; [|discriminate].
        unfold split_around.
        rewrite !count_list_cons, count_list_nil, count_nodes_Element,
          !count_list_cons, count_list_nil, !count_nodes_Text.
        rewrite Ek.
        rewrite (shallow_Text r' _ d'), (shallow_Text mid _ ""),
          (shallow_Text after _ ""), (shallow_Element span _ _ _ _ []).
        fold e. simpl Nat.b2n. lia.
      - rewrite count_list_cons, count_list_nil, Hk. simpl Nat.b2n. lia. }
    rewrite Hk. lia.
Qed.

(** Unwrapping adds at most the new text node, once for each span. *)
Lemma count_list_replace_span span fresh (l : list node) :
  count_list p (List.map (replace_span span fresh) l)
  <= count_list p l + Nat.b2n (p (Text fresh "")) * count_list (is_element_ref span) l.
Proof.
  apply count_list_map_le. apply Forall_forall. intros k _.
  unfold replace_span. destruct (is_element_ref span k) eqn:Ek; [|lia].
  pose proof (count_nodes_root (is_element_ref span) k) as Hr. rewrite Ek in Hr.
  rewrite count_nodes_Text, (shallow_Text fresh _ ""). simpl in Hr. nia.
Qed.

Lemma count_nodes_unwrap span fresh (n : node) :
  count_nodes p (unwrap span fresh n)
  <= count_nodes p n + Nat.b2n (p (Text fresh "")) * count_nodes (is_element_ref span) n.
Proof.
  induction n as [r d | r t i c kids IH] using node_induction; [simpl; lia|].
  destruct (existsb (is_element_ref span) kids) eqn:E.
  - rewrite unwrap_Element_with by exact E.
    etransitivity; [apply count_nodes_normalize|].
    rewrite !count_nodes_Element, (shallow_Element r t i c _ kids).
    pose proof (count_list_replace_span span fresh kids). nia.
  - rewrite unwrap_Element_without by exact E.
    rewrite !count_nodes_Element, (shallow_Element r t i c _ kids).
    pose proof (count_list_map_le (unwrap span fresh) (is_element_ref span)
                  (Nat.b2n (p (Text fresh ""))) kids IH). nia.
Qed.

Hypothesis Hfresh : forall fresh d, p (Text fresh d) = false.

Lemma count_nodes_unwrap_le span fresh (n : node) :
  count_nodes p (unwrap span fresh n) <= count_nodes p n.
Proof.
  pose proof (count_nodes_unwrap span fresh n) as H.
  rewrite Hfresh in H. simpl in H. lia.
Qed.

Lemma count_list_unwrap_le span fresh (l : list node) :
  count_list p (List.map (unwrap span fresh) l) <= count_list p l.
Proof.
  induction l as [|k l IH]; [reflexivity|].
  simpl List.map. rewrite !count_list_cons.
  pose proof (count_nodes_unwrap_le span fresh k). lia.
Qed.

Lemma count_list_replace_span_le span fresh (l : list node) :
  count_list p (List.map (replace_span span fresh) l) <= count_list p l.
Proof.
  pose proof (count_list_replace_span span fresh l) as H.
  rewrite Hfresh in H. simpl in H. lia.
Qed.

(** When the spans all satisfy [p] and the new text node does not,
    unwrapping a tree that holds a span below its root takes one away. *)
Lemma count_list_replace_span_lt span fresh (l : list node) :
  existsb (is_element_ref span) l = true ->
  count_list (fun n => is_element_ref span n && negb (p n)) l = 0 ->
  count_list p (List.map (replace_span span fresh) l) + 1 <= count_list p l.
Proof.
  induction l as [|k l IH]; [discriminate|].
  simpl existsb. simpl List.map. rewrite !count_list_cons. intros He Hq.
  pose proof (count_list_replace_span_le span fresh l) as Hl.
  unfold replace_span at 1. destruct (is_element_ref span k) eqn:Ek.
  - pose proof (count_nodes_root (fun n => is_element_ref span n && negb (p n)) k) as Hr.
    pose proof (count_nodes_root p k) as Hr'.
    cbv beta in Hr. rewrite Ek in Hr. rewrite count_nodes_Text, Hfresh.
    destruct (p k); simpl in *; lia.
  - simpl in He. assert (count_list p (List.map (replace_span span fresh) l) + 1
                         <= count_list p l) by (apply IH; [exact He | lia]).
    lia.
Qed.

Lemma count_nodes_unwrap_lt span fresh (n : node) :
  count_nodes (fun n => is_element_ref span n && negb (p n)) n = 0 ->
  Nat.b2n (is_element_ref span n) < count_nodes (is_element_ref span) n ->
  count_nodes p (unwrap span fresh n) + 1 <= count_nodes p n.
Proof.
  induction n as [r d | r t i c kids IH] using node_induction.
  - rewrite !count_nodes_Text. simpl. lia.
  - rewrite !count_nodes_Element. intros Hq Hs.
    destruct (existsb (is_element_ref span) kids) eqn:E.
    + rewrite unwrap_Element_with by exact E.
      pose proof (count_nodes_normalize
                    (Element r t i c (List.map (replace_span span fresh) kids))) as Hn.
      rewrite !count_nodes_Element, (shallow_Element r t i c _ kids) in Hn.
      pose proof (count_list_replace_span_lt span fresh kids E) as Hl.
      lia.
    + rewrite unwrap_Element_without by exact E.
      rewrite count_nodes_Element, (shallow_Element r t i c _ kids).
      assert (count_list (fun n => is_element_ref span n && negb (p n)) kids = 0) as Hq' by lia.
      assert (1 <= count_list (is_element_ref span) kids) as Hs' by lia.
      clear Hq Hs.
      enough (count_list p (List.map (unwrap span fresh) kids) + 1 <= count_list p kids) by lia.
      induction IH as [|k kids Hk _ IHk]; [rewrite count_list_nil in Hs'; lia|].
      simpl in E. apply orb_false_iff in E as [Ek E].
      simpl List.map. rewrite !count_list_cons in *.
      pose proof (count_nodes_unwrap_le span fresh k) as Hwk.
      pose proof (count_list_unwrap_le span fresh kids) as Hwl.
      rewrite Ek in Hk. simpl Nat.b2n in Hk.
      destruct (count_nodes (is_element_ref span) k) as [|m] eqn:Em.
      * assert (count_list p (List.map (unwrap span fresh) kids) + 1 <= count_list p kids)
          by (apply IHk; [exact E | lia | lia]).
        lia.
      * assert (count_nodes p (unwrap span fresh k) + 1 <= count_nodes p k)
          by (apply Hk; lia).
        lia.
Qed.

End Counting.

(** *** The queries on the document, on the tree *)

Lemma find_app_first {A} (f : A -> bool) (l1 l2 : list A) :
  List.find f (l1 ++ l2)%list
  = match List.find f l1 with Some x => Some x | None => List.find f l2 end.
Proof.
  induction l1 as [|x l1 IH]; [reflexivity|].
  simpl. destruct (f x); [reflexivity | exact IH].
Qed.

Lemma find_chain_not_empty r (l : list (list node)) :
  List.find (chain_is r) l <> Some [].
Proof.
  intros H. apply find_some in H as [_ H]. discriminate.
Qed.

Lemma subtree_Element r r' t i c kids :
  subtree r (Element r' t i c kids)
  = if (r' =? r)%nat then Some (Element r' t i c kids)
    else first_some (List.map (subtree r) kids).
Proof. reflexivity. Qed.

Lemma chain_head_subtree (r : nat) (n : node) (anc : list node) :
  match List.find (chain_is r) (chains_from anc n) with
  | Some (x :: _) => Some x
  | _ => None
  end = subtree r n.
Proof.
  revert anc. induction n as [r' d | r' t i c kids IH] using node_induction; intros anc.
  - reflexivity.
  - rewrite subtree_Element.
    change (chains_from anc (Element r' t i c kids))
      with ((Element r' t i c kids :: anc)
              :: flat_map (chains_from (Element r' t i c kids :: anc)) kids).
    set (anc' := Element r' t i c kids :: anc).
    simpl List.find.
    change (chain_is r anc') with (r' =? r)%nat.
    destruct (r' =? r)%nat; [reflexivity|]. clearbody anc'.
    induction IH as [|k kids Hk _ IHk]; [reflexivity|].
    simpl flat_map. simpl List.map. rewrite find_app_first.
    specialize (Hk anc').
    destruct (List.find (chain_is r) (chains_from anc' k)) as [[|x ch]|] eqn:E.
    + now apply find_chain_not_empty in E.
    + rewrite <- Hk. reflexivity.
    + rewrite <- Hk. exact IHk.
Qed.

Lemma find_element_subtree (doc : node) (r : nat) : find_element doc r = subtree r doc.
Proof. exact (chain_head_subtree r doc []). Qed.

Lemma existsb_chains_count (r : nat) (n : node) (anc : list node) :
  existsb (chain_is r) (chains_from anc n) = true
  <-> 1 <= count_nodes (is_element_ref r) n.
Proof.
  revert anc. induction n as [r' d | r' t i c kids IH] using node_induction; intros anc.
  - simpl. split; [discriminate | lia].
  - rewrite count_nodes_Element.
    change (chains_from anc (Element r' t i c kids))
      with ((Element r' t i c kids :: anc)
              :: flat_map (chains_from (Element r' t i c kids :: anc)) kids).
    set (anc' := Element r' t i c kids :: anc).
    simpl existsb.
    change (chain_is r anc') with (r' =? r)%nat.
    change (is_element_ref r (Element r' t i c kids)) with (r' =? r)%nat.
    clearbody anc'.
    assert (existsb (chain_is r) (flat_map (chains_from anc') kids) = true
            <-> 1 <= count_list (is_element_ref r) kids) as Hk.
    { induction IH as [|k kids Hk _ IHk].
      - simpl. rewrite count_list_nil. split; [discriminate | lia].
      - simpl flat_map. rewrite existsb_app, orb_true_iff, count_list_cons.
        rewrite (Hk anc'), IHk. lia. }
    rewrite orb_true_iff, Hk. destruct (r' =? r)%nat; simpl; split; try lia; auto.
Qed.

Lemma contains_count (doc : node) (r : nat) :
  contains doc r = true <-> 1 <= count_nodes (is_element_ref r) doc.
Proof. apply existsb_chains_count. Qed.

Lemma contains_false_count (doc : node) (r : nat) :
  contains doc r = false <-> count_nodes (is_element_ref r) doc = 0.
Proof.
  pose proof (contains_count doc r) as H.
  destruct (contains doc r).
  - split; [discriminate|]. intros E.
    assert (1 <= count_nodes (is_element_ref r) doc) by (now apply H). lia.
  - split; [intros _ | reflexivity].
    destruct (count_nodes (is_element_ref r) doc) eqn:E; [reflexivity|].
    assert (false = true) by (apply H; lia). discriminate.
Qed.

(** The subtree of an element is a part of the tree. *)
Lemma subtree_root (r : nat) (n x : node) :
  subtree r n = Some x -> is_element_ref r x = true.
Proof.
  induction n as [r' d | r' t i c kids IH] using node_induction; [discriminate|].
  rewrite subtree_Element. destruct (r' =? r)%nat eqn:E.
  - intros [= <-]. exact E.
  - induction IH as [|k kids Hk _ IHk]; [discriminate|].
    simpl. destruct (subtree r k); [intros [= <-]; now apply Hk | exact IHk].
Qed.

Lemma subtree_count (p : node -> bool) (r : nat) (n x : node) :
  subtree r n = Some x -> count_nodes p x <= count_nodes p n.
Proof.
  induction n as [r' d | r' t i c kids IH] using node_induction; [discriminate|].
  rewrite subtree_Element. destruct (r' =? r)%nat.
  - intros [= <-]. reflexivity.
  - intros H. rewrite count_nodes_Element.
    enough (count_nodes p x <= count_list p kids) by lia.
    induction IH as [|k kids Hk _ IHk]; [discriminate|].
    simpl in H. rewrite count_list_cons. destruct (subtree r k).
    + injection H as <-. specialize (Hk eq_refl). lia.
    + specialize (IHk H). lia.
Qed.

Lemma subtree_occurs (r : nat) (n x : node) :
  subtree r n = Some x -> 1 <= count_nodes (is_element_ref r) n.
Proof.
  intros H. pose proof (subtree_count (is_element_ref r) r n x H) as Hc.
  apply subtree_root in H. pose proof (count_nodes_root (is_element_ref r) x) as Hr.
  rewrite H in Hr. simpl in Hr. lia.
Qed.

(** *** Text nodes *)

Lemma text_nodes_Element r t i c kids :
  text_nodes (Element r t i c kids) = flat_map text_nodes kids.
Proof. reflexivity. Qed.

Lemma count_text_nodes (r : nat) (n : node) :
  count_nodes (is_text_ref r) n
  = List.length (List.filter (fun p => (fst p =? r)%nat) (text_nodes n)).
Proof.
  induction n as [r' d | r' t i c kids IH] using node_induction.
  - rewrite count_nodes_Text. simpl. destruct (r' =? r)%nat; reflexivity.
  - rewrite count_nodes_Element, text_nodes_Element. simpl Nat.b2n. rewrite Nat.add_0_l.
    induction IH as [|k kids Hk _ IHk]; [reflexivity|].
    simpl flat_map. rewrite count_list_cons, List.filter_app, List.length_app, Hk, IHk.
    reflexivity.
Qed.

Lemma find_unique (r : nat) (d : string) (l : list (nat * string)) :
  In (r, d) l ->
  List.length (List.filter (fun p => (fst p =? r)%nat) l) <= 1 ->
  List.find (fun p => (fst p =? r)%nat) l = Some (r, d).
Proof.
  induction l as [|[r' d'] l IH]; [contradiction|].
  simpl. intros [H|H] Hl.
  - injection H as -> ->. now rewrite Nat.eqb_refl.
  - destruct (r' =? r)%nat eqn:E.
    + exfalso. simpl in Hl.
      assert (In (r, d) (List.filter (fun p => (fst p =? r)%nat) l)) as Hin
        by (apply List.filter_In; split; [exact H | apply Nat.eqb_refl]).
      destruct (List.filter (fun p => (fst p =? r)%nat) l); [contradiction | simpl in Hl; lia].
    + now apply IH.
Qed.

Lemma find_ref_in (r : nat) (l : list (nat * string)) (x : nat * string) :
  List.find (fun p => (fst p =? r)%nat) l = Some x -> In x l /\ fst x = r.
Proof.
  intros H. apply find_some in H as [Hin H]. split; [exact Hin | now apply Nat.eqb_eq].
Qed.

Lemma text_node_occurs (r : nat) (d : string) (n : node) :
  In (r, d) (text_nodes n) -> 1 <= count_nodes (is_text_ref r) n.
Proof.
  intros H. rewrite count_text_nodes.
  assert (In (r, d) (List.filter (fun p => (fst p =? r)%nat) (text_nodes n))) as Hin
    by (apply List.filter_In; split; [exact H | apply Nat.eqb_refl]).
  destruct (List.filter _ (text_nodes n)); [contradiction | simpl; lia].
Qed.

Lemma is_text_ref_has_ref r n : is_text_ref r n = true -> has_ref r n = true.
Proof. destruct n; [auto | discriminate]. Qed.

Lemma is_element_ref_has_ref r n : is_element_ref r n = true -> has_ref r n = true.
Proof. destruct n; [discriminate | auto]. Qed.

Lemma count_text_le_occ r n : count_nodes (is_text_ref r) n <= occ r n.
Proof. apply count_nodes_le. apply is_text_ref_has_ref. Qed.

Lemma count_element_le_occ r n : count_nodes (is_element_ref r) n <= occ r n.
Proof. apply count_nodes_le. apply is_element_ref_has_ref. Qed.

(** What [findTextInNodes] returns is one of the nodes, and it holds the text. *)
Lemma findTextInNodes_in (nodes : list (nat * string)) (text before after : string)
    (tn : nat) (pos : Z) :
  findTextInNodes nodes text before after = Some (tn, pos) ->
  exists d, In (tn, d) nodes /\ includes d text = true.
Proof.
  induction nodes as [|[r d] nodes IH]; [discriminate|].
  simpl. destruct (includes d (before ++ text ++ after)) eqn:E1.
  - intros [= <- _]. exists d. split; [now left|]. now apply includes_inner in E1.
  - destruct (includes d text) eqn:E2.
    + intros [= <- _]. exists d. split; [now left | exact E2].
    + intros H. destruct (IH H) as (d' & Hin & Hd). exists d'. split; [now right | exact Hd].
Qed.

Lemma findTextInNodes_finds (nodes : list (nat * string)) (text before after : string) :
  existsb (fun p => includes (snd p) text) nodes = true ->
  findTextInNodes nodes text before after <> None.
Proof.
  induction nodes as [|[r d] nodes IH]; [discriminate|].
  simpl. destruct (includes d (before ++ text ++ after)); [discriminate|].
  destruct (includes d text); [discriminate|]. exact IH.
Qed.

(** *** What the text nodes hold *)

Lemma has_text_Text text r d : has_text text (Text r d) = includes d text.
Proof. unfold has_text. simpl. apply orb_false_r. Qed.

Lemma has_text_Element text r t i c kids :
  has_text text (Element r t i c kids) = existsb (has_text text) kids.
Proof.
  unfold has_text. rewrite text_nodes_Element.
  induction kids as [|k kids IH]; [reflexivity|].
  simpl. rewrite existsb_app, IH. reflexivity.
Qed.

Lemma existsb_map_impl {A} (P : A -> bool) (f : A -> A) (l : list A) :
  Forall (fun k => P k = true -> P (f k) = true) l ->
  existsb P l = true -> existsb P (List.map f l) = true.
Proof.
  induction 1 as [|k l Hk _ IH]; [discriminate|].
  simpl. rewrite !orb_true_iff. intros [H|H]; [left; now apply Hk | right; now apply IH].
Qed.

Lemma has_text_textContent text (n : node) :
  has_text text n = true -> includes (textContent n) text = true.
Proof.
  induction n as [r d | r t i c kids IH] using node_induction.
  - now rewrite has_text_Text.
  - rewrite has_text_Element, textContent_Element.
    induction IH as [|k kids Hk _ IHk]; [discriminate|].
    simpl existsb. rewrite text_of_cons, orb_true_iff. intros [H|H].
    + apply includes_append_l. now apply Hk.
    + apply includes_append_r. now apply IHk.
Qed.

Lemma merge_text_empty r l : merge_text (Text r "" :: l) = merge_text l.
Proof. reflexivity. Qed.

Lemma merge_text_Text r a d l :
  merge_text (Text r (String a d) :: l)
  = match merge_text l with
    | Text _ d' :: rest' => Text r (String a d ++ d') :: rest'
    | other => Text r (String a d) :: other
    end.
Proof. reflexivity. Qed.

Lemma merge_text_Element r t i c kids l :
  merge_text (Element r t i c kids :: l) = Element r t i c kids :: merge_text l.
Proof. reflexivity. Qed.

Lemma existsb_has_text_merge text (l : list node) :
  text <> "" ->
  existsb (has_text text) l = true -> existsb (has_text text) (merge_text l) = true.
Proof.
  intros Ht. induction l as [|k l IH]; [discriminate|].
  destruct k as [r [|a d] | r t i c kids].
  - rewrite merge_text_empty. simpl existsb.
    rewrite has_text_Text, includes_in_empty by exact Ht. exact IH.
  - rewrite merge_text_Text. simpl existsb. rewrite has_text_Text, orb_true_iff.
    intros H.
    destruct (merge_text l) as [|[r' d' | r' t' i' c' kids'] rest].
    + simpl existsb. rewrite has_text_Text. destruct H as [H|H]; [now rewrite H|].
      now apply IH in H.
    + simpl existsb in *. rewrite has_text_Text in *. apply orb_true_iff.
      destruct H as [H|H]; [left; now apply includes_append_l|].
      apply IH in H. apply orb_true_iff in H as [H|H];
        [left; now apply includes_append_r | now right].
    + simpl existsb in *. rewrite has_text_Text. apply orb_true_iff.
      destruct H as [H|H]; [now left | right; now apply IH].
  - rewrite merge_text_Element. simpl existsb. rewrite !orb_true_iff.
    intros [H|H]; [now left | right; now apply IH].
Qed.

Lemma has_text_normalize text (n : node) :
  text <> "" -> has_text text n = true -> has_text text (normalize n) = true.
Proof.
  intros Ht. induction n as [r d | r t i c kids IH] using node_induction; [auto|].
  rewrite normalize_Element, !has_text_Element. intros H.
  apply existsb_has_text_merge; [exact Ht|].
  now apply existsb_map_impl.
Qed.

Lemma has_text_replace_span text span fresh (k : node) :
  has_text text k = true -> has_text text (replace_span span fresh k) = true.
Proof.
  unfold replace_span. destruct (is_element_ref span k); [|auto].
  rewrite has_text_Text. apply has_text_textContent.
Qed.

Lemma has_text_unwrap text span fresh (n : node) :
  text <> "" -> has_text text n = true -> has_text text (unwrap span fresh n) = true.
Proof.
  intros Ht. induction n as [r d | r t i c kids IH] using node_induction; [auto|].
  destruct (existsb (is_element_ref span) kids) eqn:E.
  - rewrite unwrap_Element_with by exact E. intros H.
    apply has_text_normalize; [exact Ht|].
    rewrite has_text_Element in *.
    apply existsb_map_impl; [|exact H].
    apply Forall_forall. intros k _. apply has_text_replace_span.
  - rewrite unwrap_Element_without by exact E.
    rewrite !has_text_Element. now apply existsb_map_impl.
Qed.

Lemma includes_substring (offset len : nat) (d : string) :
  includes d (substring offset len d) = true.
Proof.
  apply includes_occurs.
  exists (substring 0 offset d),
         (substring (offset + len) (String.length d - (offset + len)) d).
  symmetry. apply substring_split.
Qed.

(** Once the range is wrapped, the new text node holds what was in it. *)
Lemma has_text_wrap_range tn span mid after offset len (d : string) (n : node) :
  In (tn, d) (text_nodes n) ->
  has_text (substring offset len d) (wrap_range tn span mid after offset len n) = true.
Proof.
  induction n as [r d' | r t i c kids IH] using node_induction.
  - simpl. intros [[= -> ->]|[]]. rewrite has_text_Text. apply includes_substring.
  - rewrite text_nodes_Element, wrap_range_children, has_text_Element.
    induction IH as [|k kids Hk _ IHk]; [contradiction|].
    simpl flat_map. rewrite in_app_iff, existsb_app, orb_true_iff.
    intros [H|H]; [left | right; now apply IHk].
    unfold wrap_child. destruct (is_text_ref tn k) eqn:Ek.
    + destruct k as [r' d' | ]; [|discriminate].
      simpl in H. destruct H as [[= _ ->]|[]].
      unfold split_around. simpl existsb.
      rewrite has_text_Element. simpl existsb.
      rewrite !has_text_Text, includes_refl. simpl. apply orb_true_r.
    + simpl existsb. rewrite orb_false_r. now apply Hk.
Qed.

(** *** Carrying the text *)

Lemma carries_refl (a : node) : carries a a.
Proof. split; auto. Qed.

Lemma carries_trans (a b c : node) : carries a b -> carries b c -> carries a c.
Proof.
  intros [H1 H2] [H3 H4]. split; [congruence|].
  intros text Ht H. apply H4; [exact Ht|]. now apply H2.
Qed.

Lemma carries_normalize (n : node) : carries n (normalize n).
Proof.
  split; [apply textContent_normalize|]. intros text. apply has_text_normalize.
Qed.

Lemma carries_unwrap span fresh (n : node) : carries n (unwrap span fresh n).
Proof.
  split; [apply textContent_unwrap|]. intros text. apply has_text_unwrap.
Qed.

(** *** The subtree of an element, through the changes of the tree *)

Lemma first_some_app {A} (l1 l2 : list (option A)) :
  first_some (l1 ++ l2)%list
  = match first_some l1 with Some x => Some x | None => first_some l2 end.
Proof.
  induction l1 as [|[x|] l1 IH]; [reflexivity | reflexivity | exact IH].
Qed.

Lemma subtree_same_root r (n : node) : is_element_ref r n = true -> subtree r n = Some n.
Proof.
  destruct n as [|r' t i c kids]; [discriminate|].
  simpl is_element_ref. intros E. rewrite subtree_Element, E. reflexivity.
Qed.

Lemma matched_list r (f : node -> node) (l : list node) :
  Forall (lifts r f) l ->
  matched (first_some (List.map (subtree r) l))
          (first_some (List.map (subtree r) (List.map f l))).
Proof.
  induction 1 as [|k l Hk _ IH]; [exact I|].
  simpl. unfold lifts, matched in Hk.
  destruct (subtree r k), (subtree r (f k)); try contradiction; [exact Hk | exact IH].
Qed.

Lemma first_some_merge_text r (l : list node) :
  first_some (List.map (subtree r) (merge_text l))
  = first_some (List.map (subtree r) l).
Proof.
  induction l as [|k l IH]; [reflexivity|].
  destruct k as [r' [|a d] | r' t i c kids].
  - rewrite merge_text_empty. exact IH.
  - rewrite merge_text_Text. simpl. rewrite <- IH.
    destruct (merge_text l) as [|[r'' d' | r'' t' i' c' kids'] rest]; reflexivity.
  - rewrite merge_text_Element. simpl. now rewrite IH.
Qed.

Lemma lifts_normalize r (n : node) : lifts r normalize n.
Proof.
  induction n as [r' d | r' t i c kids IH] using node_induction; [exact I|].
  unfold lifts. pose proof (carries_normalize (Element r' t i c kids)) as Hc.
  rewrite normalize_Element in *. rewrite !subtree_Element.
  destruct (r' =? r)%nat; [exact Hc|].
  rewrite first_some_merge_text. now apply matched_list.
Qed.

Lemma subtree_leafy_span r span (k : node) :
  r <> span -> is_element_ref span k = true -> leafy span k = true ->
  subtree r k = None.
Proof.
  intros Hr. destruct k as [|r' t i c kids]; [reflexivity|].
  simpl is_element_ref. intros E. simpl leafy. rewrite E.
  apply Nat.eqb_eq in E. subst r'.
  rewrite subtree_Element. destruct (span =? r)%nat eqn:E; [apply Nat.eqb_eq in E; congruence|].
  intros H. apply andb_true_iff in H as [H _].
  induction kids as [|k kids IH]; [reflexivity|].
  simpl in H. apply andb_true_iff in H as [Hk H].
  destruct k; [|discriminate]. simpl. now apply IH.
Qed.

Lemma leafy_Element span r t i c kids :
  leafy span (Element r t i c kids) = true -> forallb (leafy span) kids = true.
Proof. simpl. intros H. now apply andb_true_iff in H as [_ H]. Qed.

(** Unwrapping a span that holds text nodes only keeps every other
    element where it is found, with its text. *)
Lemma lifts_unwrap r span fresh (n : node) :
  r <> span -> leafy span n = true -> lifts r (unwrap span fresh) n.
Proof.
  intros Hr. induction n as [r' d | r' t i c kids IH] using node_induction; [intros; exact I|].
  intros Hl. unfold lifts.
  pose proof (carries_unwrap span fresh (Element r' t i c kids)) as Hc.
  apply leafy_Element in Hl.
  destruct (existsb (is_element_ref span) kids) eqn:E.
  - rewrite unwrap_Element_with in * by exact E.
    rewrite normalize_Element in *. rewrite !subtree_Element.
    destruct (r' =? r)%nat; [exact Hc|].
    rewrite first_some_merge_text, (List.map_map (replace_span span fresh) normalize).
    apply (matched_list r (fun k => normalize (replace_span span fresh k))). apply Forall_forall. intros k Hk.
    assert (leafy span k = true) as Hlk.
    { rewrite forallb_forall in Hl. apply Hl. now apply list_elem_of_In. }
    unfold lifts, replace_span. destruct (is_element_ref span k) eqn:Ek.
    + rewrite (subtree_leafy_span r span k Hr Ek Hlk). exact I.
    + apply lifts_normalize.
  - rewrite unwrap_Element_without in * by exact E.
    rewrite !subtree_Element.
    destruct (r' =? r)%nat; [exact Hc|].
    apply matched_list. clear Hc E.
    induction IH as [|k kids Hk _ IHk]; constructor.
    + apply Hk. simpl in Hl. now apply andb_true_iff in Hl as [Hl _].
    + apply IHk. simpl in Hl. now apply andb_true_iff in Hl as [_ Hl].
Qed.

(** Wrapping a range keeps every element that is not the new span
    where it is found. *)
Lemma subtree_wrap_range r tn span mid after offset len (n : node) :
  r <> span ->
  subtree r (wrap_range tn span mid after offset len n)
  = option_map (wrap_range tn span mid after offset len) (subtree r n).
Proof.
  intros Hr. induction n as [r' d | r' t i c kids IH] using node_induction; [reflexivity|].
  rewrite wrap_range_children, !subtree_Element.
  destruct (r' =? r)%nat; [reflexivity|].
  induction IH as [|k kids Hk _ IHk]; [reflexivity|].
  simpl flat_map. simpl List.map. rewrite List.map_app, first_some_app, IHk.
  unfold wrap_child. destruct (is_text_ref tn k) eqn:Ek.
  - destruct k as [r'' d'' | ]; [|discriminate].
    unfold split_around. simpl.
    destruct (span =? r)%nat eqn:E; [apply Nat.eqb_eq in E; congruence|].
    reflexivity.
  - simpl List.map. rewrite Hk. simpl first_some.
    destruct (subtree r k); reflexivity.
Qed.

Lemma leafy_wrap_range tn span mid after offset len (n : node) :
  count_nodes (is_element_ref span) n = 0 ->
  leafy span (wrap_range tn span mid after offset len n) = true.
Proof.
  induction n as [r d | r t i c kids IH] using node_induction; [reflexivity|].
  rewrite count_nodes_Element, wrap_range_children.
  change (is_element_ref span (Element r t i c kids)) with (r =? span)%nat.
  intros H. simpl leafy.
  destruct (r =? span)%nat; [simpl in H; lia|]. simpl in H. simpl andb.
  induction IH as [|k kids Hk _ IHk]; [reflexivity|].
  rewrite count_list_cons in H.
  simpl flat_map. rewrite forallb_app, IHk by lia. rewrite andb_true_r.
  unfold wrap_child. destruct (is_text_ref tn k) eqn:Ek.
  - destruct k as [r' d' | ]; [|discriminate].
    unfold split_around. simpl. now rewrite Nat.eqb_refl.
  - simpl. rewrite Hk by lia. reflexivity.
Qed.

(** *** The map of the highlights *)

Lemma map_size_delete {V} (k : string) (m : jsmap V) :
  map_size (map_delete k m) <= map_size m.
Proof.
  unfold map_size. induction m as [|[k' v] m IH]; [reflexivity|].
  simpl. destruct (String.eqb k k'); simpl; lia.
Qed.

Lemma map_size_set {V} (k : string) (v : V) (m : jsmap V) :
  map_size (map_set k v m) <= S (map_size m).
Proof.
  unfold map_size. induction m as [|[k' v'] m IH]; [reflexivity|].
  simpl. destruct (String.eqb k k'); simpl; lia.
Qed.

Lemma map_delete_set {V} (k : string) (v : V) (m : jsmap V) :
  map_delete k (map_set k v m) = map_delete k m.
Proof.
  induction m as [|[k' v'] m IH]; simpl.
  - now rewrite String.eqb_refl.
  - destruct (String.eqb k k') eqn:E; simpl.
    + now rewrite String.eqb_refl.
    + now rewrite E, IH.
Qed.

Lemma map_get_set_same {V} (k : string) (v : V) (m : jsmap V) :
  map_get k (map_set k v m) = Some v.
Proof. now rewrite map_get_set, String.eqb_refl. Qed.

(** *** References stay identities *)

Lemma occ_unwrap r span fresh (n : node) :
  occ r (unwrap span fresh n)
  <= occ r n + Nat.b2n (fresh =? r)%nat * count_nodes (is_element_ref span) n.
Proof. exact (count_nodes_unwrap (has_ref r) (shallow_has_ref r) span fresh n). Qed.

Lemma occ_wrap_range r tn span mid after offset len (n : node) :
  occ r (wrap_range tn span mid after offset len n)
  = occ r n
    + (count_nodes (is_text_ref tn) n - Nat.b2n (is_text_ref tn n))
      * (Nat.b2n (span =? r)%nat + Nat.b2n (mid =? r)%nat + Nat.b2n (after =? r)%nat).
Proof.
  exact (count_nodes_wrap_range (has_ref r) (shallow_has_ref r) tn span mid after offset len n).
Qed.

Lemma well_formed_unwrap (s : highlight_state) (span : nat) bg m :
  well_formed s ->
  well_formed {| hs_doc := unwrap span (hs_next_ref s) (hs_doc s);
                 noteHighlights := m;
                 hs_background := bg;
                 hs_next_ref := S (hs_next_ref s) |}.
Proof.
  intros [Hu Hf]. split; cbn [hs_doc hs_next_ref]; intros r.
  - pose proof (occ_unwrap r span (hs_next_ref s) (hs_doc s)) as H.
    pose proof (count_element_le_occ span (hs_doc s)) as Hs.
    pose proof (Hu r). pose proof (Hu span).
    destruct (Nat.eqb_spec (hs_next_ref s) r) as [E|E]; simpl in H; [|lia].
    rewrite (Hf r) in H by lia. lia.
  - intros Hr.
    pose proof (occ_unwrap r span (hs_next_ref s) (hs_doc s)) as H.
    destruct (Nat.eqb_spec (hs_next_ref s) r) as [E|E]; [lia|].
    simpl in H. rewrite (Hf r) in H by lia. lia.
Qed.

Lemma well_formed_next (s : highlight_state) (n : nat) bg m :
  well_formed s -> hs_next_ref s <= n ->
  well_formed {| hs_doc := hs_doc s; noteHighlights := m;
                 hs_background := bg; hs_next_ref := n |}.
Proof.
  intros [Hu Hf] Hn. split; cbn [hs_doc hs_next_ref]; [exact Hu|].
  intros r Hr. apply Hf. lia.
Qed.

Lemma well_formed_removeTextHighlight (noteId : string) (s : highlight_state) :
  well_formed s -> well_formed (snd (removeTextHighlight noteId s)).
Proof.
  intros Hs. unfold removeTextHighlight.
  destruct (map_get noteId (noteHighlights s)) as [rec|]; [|exact Hs].
  cbn [snd]. destruct (contains (hs_doc s) (hl_element rec)).
  - now apply well_formed_unwrap.
  - apply well_formed_next; [exact Hs | lia].
Qed.

Lemma well_formed_remove_all (ids : list string) (s : highlight_state) :
  well_formed s ->
  well_formed (fold_left (fun st noteId => snd (removeTextHighlight noteId st)) ids s).
Proof.
  revert s. induction ids as [|id ids IH]; intros s Hs; [exact Hs|].
  simpl. apply IH. now apply well_formed_removeTextHighlight.
Qed.

Lemma well_formed_cleanupHighlights (s : highlight_state) :
  well_formed s -> well_formed (cleanupHighlights s).
Proof.
  intros Hs. unfold cleanupHighlights.
  destruct (MAX_HIGHLIGHTS <? map_size (noteHighlights s))%nat; [|exact Hs].
  now apply well_formed_remove_all.
Qed.

Lemma well_formed_wrap_range (s : highlight_state) (tn offset len : nat) bg m :
  well_formed s ->
  well_formed {| hs_doc := wrap_range tn (hs_next_ref s) (S (hs_next_ref s))
                             (S (S (hs_next_ref s))) offset len (hs_doc s);
                 noteHighlights := m;
                 hs_background := bg;
                 hs_next_ref := S (S (S (hs_next_ref s))) |}.
Proof.
  intros [Hu Hf]. split; cbn [hs_doc hs_next_ref]; intros r.
  - rewrite occ_wrap_range.
    pose proof (count_text_le_occ tn (hs_doc s)) as Ht. pose proof (Hu tn) as Hutn.
    pose proof (Hu r) as Hur.
    destruct (Nat.eqb_spec (hs_next_ref s) r) as [E1|E1];
      destruct (Nat.eqb_spec (S (hs_next_ref s)) r) as [E2|E2];
      destruct (Nat.eqb_spec (S (S (hs_next_ref s))) r) as [E3|E3];
      try lia; simpl Nat.b2n; try (rewrite (Hf r) by lia); nia.
  - intros Hr. rewrite occ_wrap_range, (Hf r) by lia.
    destruct (Nat.eqb_spec (hs_next_ref s) r) as [E1|E1];
      destruct (Nat.eqb_spec (S (hs_next_ref s)) r) as [E2|E2];
      destruct (Nat.eqb_spec (S (S (hs_next_ref s))) r) as [E3|E3];
      try lia; simpl Nat.b2n; nia.
Qed.

Lemma well_formed_createTextHighlight id sd color (s : highlight_state) :
  well_formed s -> well_formed (snd (createTextHighlight id sd color s)).
Proof.
  intros Hs.
  pose proof (well_formed_removeTextHighlight id s Hs) as Hrm.
  unfold createTextHighlight.
  destruct sd as [sd|]; [|exact Hs].
  destruct (sel_text sd) as [|a text]; [exact Hs|].
  destruct (sel_targetElement sd) as [target|]; [|exact Hrm].
  destruct (find_element _ target) as [targetElement|]; [|exact Hrm].
  destruct (findTextInElement _ _ _ _) as [[textNode pos]|]; [|exact Hrm].
  destruct (_ =? -1)%Z; cbn [snd].
  - apply well_formed_next; [exact Hrm | lia].
  - apply well_formed_cleanupHighlights.
    exact (well_formed_wrap_range (snd (removeTextHighlight id s)) _ _ _ _ _ Hrm).
Qed.

Lemma well_formed_run_ops (ops : list highlight_op) (s : highlight_state) :
  well_formed s -> well_formed (run_ops ops s).
Proof.
  unfold run_ops. revert s. induction ops as [|op ops IH]; intros s Hs; [exact Hs|].
  simpl. apply IH. destruct op as [id sd color | id]; simpl.
  - now apply well_formed_createTextHighlight.
  - now apply well_formed_removeTextHighlight.
Qed.

(** *** The steps of the two calls *)

Lemma map_delete_absent {V} (k : string) (m : jsmap V) :
  map_get k m = None -> map_delete k m = m.
Proof.
  induction m as [|[k' v] m IH]; [reflexivity|].
  simpl. destruct (String.eqb k k'); [discriminate|]. intros H. now rewrite IH.
Qed.

Lemma noteHighlights_removeTextHighlight (noteId : string) (s : highlight_state) :
  noteHighlights (snd (removeTextHighlight noteId s)) = map_delete noteId (noteHighlights s).
Proof.
  unfold removeTextHighlight.
  destruct (map_get noteId (noteHighlights s)) eqn:E; [reflexivity|].
  symmetry. now apply map_delete_absent.
Qed.

Lemma hs_next_ref_removeTextHighlight (noteId : string) (s : highlight_state) :
  hs_next_ref s <= hs_next_ref (snd (removeTextHighlight noteId s)).
Proof.
  unfold removeTextHighlight.
  destruct (map_get noteId (noteHighlights s)); cbn [snd hs_next_ref]; lia.
Qed.

Lemma removeTextHighlight_live (noteId : string) (s : highlight_state)
    (rec : highlight_record) :
  map_get noteId (noteHighlights s) = Some rec ->
  contains (hs_doc s) (hl_element rec) = true ->
  removeTextHighlight noteId s
  = (true, {| hs_doc := unwrap (hl_element rec) (hs_next_ref s) (hs_doc s);
              noteHighlights := map_delete noteId (noteHighlights s);
              hs_background := hs_background s;
              hs_next_ref := S (hs_next_ref s) |}).
Proof. intros H1 H2. unfold removeTextHighlight. now rewrite H1, H2. Qed.

Lemma count_nodes_removeTextHighlight (p : node -> bool) (noteId : string)
    (s : highlight_state) :
  shallow p -> (forall fresh d, p (Text fresh d) = false) ->
  count_nodes p (hs_doc (snd (removeTextHighlight noteId s))) <= count_nodes p (hs_doc s).
Proof.
  intros Hp Hf. unfold removeTextHighlight.
  destruct (map_get noteId (noteHighlights s)) as [rec|]; [|reflexivity].
  cbn [snd hs_doc]. destruct (contains (hs_doc s) (hl_element rec)); [|reflexivity].
  now apply count_nodes_unwrap_le.
Qed.

Lemma cleanupHighlights_small (s : highlight_state) :
  map_size (noteHighlights s) <= MAX_HIGHLIGHTS -> cleanupHighlights s = s.
Proof.
  intros H. unfold cleanupHighlights.
  destruct (Nat.ltb_spec MAX_HIGHLIGHTS (map_size (noteHighlights s))); [lia | reflexivity].
Qed.

Lemma createTextHighlight_steps id sd color (s : highlight_state) :
  sel_text sd <> "" ->
  createTextHighlight id (Some sd) color s
  = let s1 := snd (removeTextHighlight id s) in
    match sel_targetElement sd with
    | None => (false, s1)
    | Some target =>
        match find_element (hs_doc s1) target with
        | None => (false, s1)
        | Some targetElement =>
            match findTextInElement targetElement (sel_text sd)
                    (contextBefore sd) (contextAfter sd) with
            | None => (false, s1)
            | Some (textNode, _) =>
                let textOffset :=
                  findTextOffset (data_of textNode targetElement) (sel_text sd)
                    (contextBefore sd) in
                if (textOffset =? -1)%Z
                then (false,
                      {| hs_doc := hs_doc s1;
                         noteHighlights := noteHighlights s1;
                         hs_background :=
                           (hs_next_ref s1, sanitizeColor color) :: hs_background s1;
                         hs_next_ref := S (hs_next_ref s1) |})
                else (true,
                      cleanupHighlights
                        (highlighted id sd color target textNode (Z.to_nat textOffset) s1))
            end
        end
    end.
Proof.
  intros H. unfold createTextHighlight, highlighted, data_of.
  destruct (sel_text sd) eqn:E; [congruence | reflexivity].
Qed.

(** What a call that returns true went through. *)
Lemma createTextHighlight_true id sd color (s s1 : highlight_state) :
  createTextHighlight id (Some sd) color s = (true, s1) ->
  sel_text sd <> ""
  /\ exists target targetElement textNode pos,
       sel_targetElement sd = Some target
       /\ find_element (hs_doc (snd (removeTextHighlight id s))) target = Some targetElement
       /\ findTextInElement targetElement (sel_text sd) (contextBefore sd) (contextAfter sd)
          = Some (textNode, pos)
       /\ (findTextOffset (data_of textNode targetElement) (sel_text sd) (contextBefore sd)
           <> -1)%Z
       /\ s1 = cleanupHighlights
                 (highlighted id sd color target textNode
                    (Z.to_nat (findTextOffset (data_of textNode targetElement)
                                 (sel_text sd) (contextBefore sd)))
                    (snd (removeTextHighlight id s))).
Proof.
  intros H.
  assert (sel_text sd <> "") as Ht.
  { intros E. unfold createTextHighlight in H. rewrite E in H. discriminate. }
  split; [exact Ht|].
  rewrite createTextHighlight_steps in H by exact Ht. cbv zeta in H.
  destruct (sel_targetElement sd) as [target|]; [|discriminate].
  destruct (find_element _ target) as [targetElement|] eqn:E1; [|discriminate].
  destruct (findTextInElement _ _ _ _) as [[textNode pos]|] eqn:E2; [|discriminate].
  destruct (_ =? -1)%Z eqn:E; [discriminate|].
  apply Z.eqb_neq in E. injection H as <-.
  exists target, targetElement, textNode, pos.
  split; [reflexivity|]. split; [exact E1|]. split; [exact E2|].
  split; [exact E | reflexivity].
Qed.

(** What makes a call return true. *)
Lemma createTextHighlight_succeeds id sd color (s : highlight_state)
    (target : nat) (targetElement : node) :
  sel_text sd <> "" ->
  sel_targetElement sd = Some target ->
  well_formed (snd (removeTextHighlight id s)) ->
  subtree target (hs_doc (snd (removeTextHighlight id s))) = Some targetElement ->
  has_text (sel_text sd) targetElement = true ->
  exists textNode d,
    In (textNode, d) (text_nodes targetElement)
    /\ includes d (sel_text sd) = true
    /\ createTextHighlight id (Some sd) color s
       = (true,
          cleanupHighlights
            (highlighted id sd color target textNode
               (Z.to_nat (findTextOffset d (sel_text sd) (contextBefore sd)))
               (snd (removeTextHighlight id s)))).
Proof.
  intros Ht HT Hwf Hsub Htext.
  rewrite createTextHighlight_steps by exact Ht. cbv zeta.
  rewrite HT, find_element_subtree, Hsub.
  unfold findTextInElement.
  pose proof (findTextInNodes_finds (text_nodes targetElement) (sel_text sd)
                (contextBefore sd) (contextAfter sd) Htext) as Hfound.
  destruct (findTextInNodes _ _ _ _) as [[textNode pos]|] eqn:E; [|congruence].
  apply findTextInNodes_in in E as (d & Hin & Hd).
  assert (data_of textNode targetElement = d) as Hdata.
  { unfold data_of. rewrite (find_unique textNode d); [reflexivity | exact Hin |].
    rewrite <- count_text_nodes.
    pose proof (subtree_count (is_text_ref textNode) _ _ _ Hsub).
    pose proof (count_text_le_occ textNode (hs_doc (snd (removeTextHighlight id s)))).
    pose proof (wf_unique _ Hwf textNode). lia. }
  rewrite Hdata.
  pose proof (findTextOffset_found d (sel_text sd) (contextBefore sd) Hd) as Hoff.
  apply Z.eqb_neq in Hoff. rewrite Hoff.
  exists textNode, d. split; [exact Hin|]. split; [exact Hd | reflexivity].
Qed.

(** *** A second call on a page that has just been highlighted *)

Lemma count_nodes_never (p : node -> bool) (n : node) :
  (forall x, p x = false) -> count_nodes p n = 0.
Proof.
  intros Hp. induction n as [r d | r t i c kids IH] using node_induction.
  - now rewrite count_nodes_Text, Hp.
  - rewrite count_nodes_Element, Hp. simpl.
    induction IH as [|k kids Hk _ IHk]; [reflexivity|].
    rewrite count_list_cons, Hk, IHk. reflexivity.
Qed.

Lemma has_class_Text cls r d : has_class cls (Text r d) = false.
Proof. reflexivity. Qed.

Lemma has_class_span r kids :
  has_class HIGHLIGHT_CLASS (Element r "SPAN" "" HIGHLIGHT_CLASS kids) = true.
Proof. reflexivity. Qed.

Lemma is_element_ref_wrap_range r tn span mid after offset len (n : node) :
  is_element_ref r (wrap_range tn span mid after offset len n) = is_element_ref r n.
Proof. destruct n; reflexivity. Qed.

Lemma subtree_not_text r tn (n x : node) :
  subtree r n = Some x -> is_text_ref tn n = false.
Proof. destruct n; [discriminate | reflexivity]. Qed.

Lemma occurs_below_next (s : highlight_state) (r : nat) :
  well_formed s -> 1 <= occ r (hs_doc s) -> r < hs_next_ref s.
Proof.
  intros Hwf H. destruct (Nat.lt_ge_cases r (hs_next_ref s)) as [Hlt|Hge]; [exact Hlt|].
  rewrite (wf_fresh _ Hwf r Hge) in H. lia.
Qed.

Lemma element_below_next (s : highlight_state) (r : nat) (x : node) :
  well_formed s -> subtree r (hs_doc s) = Some x -> r < hs_next_ref s.
Proof.
  intros Hwf H. apply (occurs_below_next s r Hwf).
  apply subtree_occurs in H. pose proof (count_element_le_occ r (hs_doc s)). lia.
Qed.

Lemma root_below_next (s : highlight_state) (r : nat) :
  well_formed s -> is_element_ref r (hs_doc s) = true -> r < hs_next_ref s.
Proof.
  intros Hwf H. apply (occurs_below_next s r Hwf).
  pose proof (count_nodes_root (is_element_ref r) (hs_doc s)) as Hr. rewrite H in Hr.
  pose proof (count_element_le_occ r (hs_doc s)). simpl in Hr. lia.
Qed.

Lemma text_node_once (s : highlight_state) (r tn : nat) (x : node) (d : string) :
  well_formed s -> subtree r (hs_doc s) = Some x -> In (tn, d) (text_nodes x) ->
  count_nodes (is_text_ref tn) (hs_doc s) - Nat.b2n (is_text_ref tn (hs_doc s)) = 1.
Proof.
  intros Hwf Hsub Hin.
  rewrite (subtree_not_text r tn _ _ Hsub). simpl.
  pose proof (text_node_occurs tn d x Hin).
  pose proof (subtree_count (is_text_ref tn) r _ _ Hsub).
  pose proof (count_text_le_occ tn (hs_doc s)).
  pose proof (wf_unique _ Hwf tn). lia.
Qed.

Lemma first_span_absent_before (s0 : highlight_state) :
  well_formed s0 ->
  count_nodes (is_element_ref (hs_next_ref s0)) (hs_doc s0) = 0.
Proof.
  intros Hwf.
  pose proof (count_element_le_occ (hs_next_ref s0) (hs_doc s0)).
  pose proof (wf_fresh _ Hwf (hs_next_ref s0) (Nat.le_refl _)). lia.
Qed.

(** The page once the range is wrapped: the span is there once, with
    the class, below the root and with a text node for its only child;
    the target element is where it was and the new text node holds the
    text. *)
Lemma highlighted_facts (id : string) (sd : selection_data) (color : js_value)
    (target textNode offset : nat) (s0 : highlight_state) :
  located sd target textNode offset s0 ->
  let s1 := highlighted id sd color target textNode offset s0 in
  let w1 := hs_next_ref s0 in
  well_formed s1
  /\ count_nodes (is_element_ref w1) (hs_doc s1) = 1
  /\ leafy w1 (hs_doc s1) = true
  /\ is_element_ref w1 (hs_doc s1) = false
  /\ count_nodes (fun n => is_element_ref w1 n && negb (has_class HIGHLIGHT_CLASS n))
       (hs_doc s1) = 0
  /\ target < w1
  /\ count_highlights (hs_doc s1) = S (count_highlights (hs_doc s0))
  /\ (forall r, r <> w1 ->
        count_nodes (is_element_ref r) (hs_doc s1)
        = count_nodes (is_element_ref r) (hs_doc s0))
  /\ (forall r x, subtree r (hs_doc s0) = Some x ->
        exists y, subtree r (hs_doc s1) = Some y /\ textContent y = textContent x)
  /\ exists targetElement1,
       subtree target (hs_doc s1) = Some targetElement1
       /\ has_text (sel_text sd) targetElement1 = true.
Proof.
  intros [Hwf _ _ _ (targetElement & d & Hsub & Hin & Hoff)] s1 w1.
  pose proof (first_span_absent_before s0 Hwf) as Habs.
  pose proof (element_below_next s0 target _ Hwf Hsub) as Hlt.
  pose proof (text_node_once s0 target textNode targetElement d Hwf Hsub Hin) as Hone.
  fold w1 in Habs, Hlt.
  split; [apply well_formed_wrap_range; exact Hwf|].
  split.
  { cbn [s1 highlighted hs_doc].
    rewrite (count_nodes_wrap_range _ (shallow_is_element_ref _)).
    fold w1. rewrite Habs, Hone.
    cbn [is_element_ref Nat.b2n]. rewrite Nat.eqb_refl. reflexivity. }
  split; [now apply leafy_wrap_range|].
  split.
  { cbn [s1 highlighted hs_doc]. rewrite is_element_ref_wrap_range.
    destruct (is_element_ref w1 (hs_doc s0)) eqn:E; [|reflexivity].
    apply (root_below_next s0 _ Hwf) in E. unfold w1 in E. lia. }
  split.
  { cbn [s1 highlighted hs_doc].
    rewrite (count_nodes_wrap_range _
               (shallow_and_not _ _ (shallow_is_element_ref _)
                  (shallow_has_class HIGHLIGHT_CLASS))).
    rewrite has_class_span. cbn [is_element_ref negb andb Nat.b2n].
    rewrite andb_false_r. cbn [Nat.b2n]. rewrite Nat.mul_0_r, Nat.add_0_r.
    pose proof (count_nodes_le
                  (fun n => is_element_ref w1 n && negb (has_class HIGHLIGHT_CLASS n))
                  (is_element_ref w1)) as H.
    specialize (H (fun n Hn => proj1 (andb_prop _ _ Hn)) (hs_doc s0)).
    fold w1. lia. }
  split; [exact Hlt|].
  split.
  { unfold count_highlights. cbn [s1 highlighted hs_doc].
    rewrite (count_nodes_wrap_range _ (shallow_has_class HIGHLIGHT_CLASS)), Hone.
    rewrite has_class_span, !has_class_Text. cbn [Nat.b2n]. lia. }
  split.
  { intros r Hr. cbn [s1 highlighted hs_doc].
    rewrite (count_nodes_wrap_range _ (shallow_is_element_ref _)).
    cbn [is_element_ref Nat.b2n]. fold w1.
    destruct (Nat.eqb_spec w1 r) as [E|E]; [congruence|]. cbn [Nat.b2n]. lia. }
  split.
  { intros r x Hx. pose proof (element_below_next s0 r x Hwf Hx) as Hr.
    cbn [s1 highlighted hs_doc]. rewrite subtree_wrap_range, Hx by lia.
    eexists. split; [reflexivity|]. apply textContent_wrap_range. }
  eexists. split.
  { cbn [s1 highlighted hs_doc]. fold w1.
    rewrite subtree_wrap_range, Hsub; [reflexivity | lia]. }
  rewrite <- Hoff at 1. now apply has_text_wrap_range.
Qed.

(** [removeTextHighlight] on that page: the span goes, and every other
    element is where it was, with its text. *)
Lemma removeTextHighlight_highlighted (id : string) (sd : selection_data)
    (color : js_value) (target textNode offset : nat) (s0 : highlight_state) :
  located sd target textNode offset s0 ->
  let s1 := highlighted id sd color target textNode offset s0 in
  let w1 := hs_next_ref s0 in
  exists s1',
    removeTextHighlight id s1 = (true, s1')
    /\ well_formed s1'
    /\ noteHighlights s1' = map_delete id (noteHighlights s0)
    /\ hs_next_ref s1' = S (hs_next_ref s1)
    /\ contains (hs_doc s1) w1 = true
    /\ contains (hs_doc s1') w1 = false
    /\ S (count_highlights (hs_doc s1')) <= count_highlights (hs_doc s1)
    /\ (exists targetElement', subtree target (hs_doc s1') = Some targetElement'
                               /\ has_text (sel_text sd) targetElement' = true)
    /\ (forall r x, r <> w1 -> subtree r (hs_doc s1) = Some x ->
          exists y, subtree r (hs_doc s1') = Some y /\ carries x y).
Proof.
  intros Hloc s1 w1.
  destruct (highlighted_facts id sd color target textNode offset s0 Hloc)
    as (Hwf1 & Honce & Hleafy & Hroot & Hclass & Hlt & _ & _ & _
        & (targetElement1 & Hsub1 & Htext1)).
  fold s1 in Hwf1, Honce, Hleafy, Hroot, Hclass, Hsub1.
  fold w1 in Honce, Hleafy, Hroot, Hclass, Hlt.
  destruct Hloc as [Hwf Hsize Htext Htarget _].
  set (rec1 := {| hl_element := w1; hl_targetElement := target;
                  originalText := sel_text sd |}).
  assert (map_get id (noteHighlights s1) = Some rec1) as Hget
    by apply map_get_set_same.
  assert (contains (hs_doc s1) w1 = true) as Hlive by (apply contains_count; lia).
  pose proof (removeTextHighlight_live id s1 rec1 Hget Hlive) as Hrm.
  cbn [hl_element rec1] in Hrm.
  set (s1' := {| hs_doc := unwrap w1 (hs_next_ref s1) (hs_doc s1);
                 noteHighlights := map_delete id (noteHighlights s1);
                 hs_background := hs_background s1;
                 hs_next_ref := S (hs_next_ref s1) |}) in Hrm.
  exists s1'. split; [exact Hrm|].
  assert (forall r x, r <> w1 -> subtree r (hs_doc s1) = Some x ->
            exists y, subtree r (hs_doc s1') = Some y /\ carries x y) as Hkeep.
  { intros r x Hr Hx.
    pose proof (lifts_unwrap r w1 (hs_next_ref s1) (hs_doc s1) Hr Hleafy) as Hl.
    unfold lifts in Hl. rewrite Hx in Hl. cbn [s1' hs_doc].
    destruct (subtree r (unwrap w1 (hs_next_ref s1) (hs_doc s1))) as [y|];
      [|contradiction].
    exists y. split; [reflexivity | exact Hl]. }
  split.
  { replace s1' with (snd (removeTextHighlight id s1)) by now rewrite Hrm.
    now apply well_formed_removeTextHighlight. }
  split; [apply map_delete_set|].
  split; [reflexivity|].
  split; [exact Hlive|].
  split.
  { apply contains_false_count.
    pose proof (count_nodes_unwrap_lt (is_element_ref w1) (shallow_is_element_ref w1)
                  (fun _ _ => eq_refl) w1 (hs_next_ref s1) (hs_doc s1)) as H.
    cbn [s1' hs_doc]. rewrite Hroot, Honce in H.
    rewrite count_nodes_never in H by (intros x; apply andb_negb_r).
    cbn [Nat.b2n] in H. specialize (H eq_refl Nat.lt_0_1). lia. }
  split.
  { pose proof (count_nodes_unwrap_lt (has_class HIGHLIGHT_CLASS)
                  (shallow_has_class HIGHLIGHT_CLASS)
                  (has_class_Text HIGHLIGHT_CLASS) w1 (hs_next_ref s1) (hs_doc s1)
                  Hclass) as H.
    rewrite Hroot, Honce in H. cbn [Nat.b2n] in H. specialize (H (Nat.lt_0_1)).
    unfold count_highlights. cbn [s1' hs_doc]. lia. }
  split; [|exact Hkeep].
  destruct (Hkeep target targetElement1) as (y & Hy & Hc); [lia | exact Hsub1 |].
  exists y. split; [exact Hy|]. now apply Hc.
Qed.

(** *** From one call to the next *)

Lemma data_of_unique (s : highlight_state) (r tn : nat) (x : node) (d : string) :
  well_formed s -> subtree r (hs_doc s) = Some x -> In (tn, d) (text_nodes x) ->
  data_of tn x = d.
Proof.
  intros Hwf Hsub Hin. unfold data_of.
  rewrite (find_unique tn d); [reflexivity | exact Hin |].
  rewrite <- count_text_nodes.
  pose proof (subtree_count (is_text_ref tn) _ _ _ Hsub).
  pose proof (count_text_le_occ tn (hs_doc s)).
  pose proof (wf_unique _ Hwf tn). lia.
Qed.

Lemma highlighted_small id sd color target textNode offset (s0 : highlight_state) :
  map_size (noteHighlights s0) < MAX_HIGHLIGHTS ->
  cleanupHighlights (highlighted id sd color target textNode offset s0)
  = highlighted id sd color target textNode offset s0.
Proof.
  intros H. apply cleanupHighlights_small. cbn [highlighted noteHighlights].
  pose proof (map_size_set id {| hl_element := hs_next_ref s0;
                                 hl_targetElement := target;
                                 originalText := sel_text sd |} (noteHighlights s0)).
  lia.
Qed.

(** A call that returns true has located the text and wrapped it. *)
Lemma createTextHighlight_located id sd color (s s1 : highlight_state) :
  well_formed s ->
  map_size (map_delete id (noteHighlights s)) < MAX_HIGHLIGHTS ->
  createTextHighlight id (Some sd) color s = (true, s1) ->
  exists target textNode offset,
    located sd target textNode offset (snd (removeTextHighlight id s))
    /\ s1 = highlighted id sd color target textNode offset
              (snd (removeTextHighlight id s)).
Proof.
  intros Hwf Hsize H.
  apply createTextHighlight_true in H
    as (Ht & target & targetElement & textNode & pos & HT & Hsub & Hfind & Hoff & ->).
  set (s0 := snd (removeTextHighlight id s)) in *.
  assert (well_formed s0) as Hwf0 by now apply well_formed_removeTextHighlight.
  assert (map_size (noteHighlights s0) < MAX_HIGHLIGHTS) as Hsize0.
  { unfold s0. now rewrite noteHighlights_removeTextHighlight. }
  rewrite find_element_subtree in Hsub.
  apply findTextInNodes_in in Hfind as (d & Hin & Hd).
  rewrite (data_of_unique s0 target textNode targetElement d Hwf0 Hsub Hin) in *.
  exists target, textNode,
    (Z.to_nat (findTextOffset d (sel_text sd) (contextBefore sd))).
  split.
  - split; try assumption.
    exists targetElement, d. split; [exact Hsub|]. split; [exact Hin|].
    now apply findTextOffset_substring.
  - now apply highlighted_small.
Qed.

(** On a page that has just been highlighted for a note, the next call
    for the note locates the text again, in the state it reaches by
    removing the highlight, and wraps it. *)
Lemma createTextHighlight_relocated id sd color color' target textNode offset
    (s0 : highlight_state) :
  located sd target textNode offset s0 ->
  let s1 := highlighted id sd color target textNode offset s0 in
  exists textNode' offset',
    located sd target textNode' offset' (snd (removeTextHighlight id s1))
    /\ createTextHighlight id (Some sd) color' s1
       = (true, highlighted id sd color' target textNode' offset'
                  (snd (removeTextHighlight id s1))).
Proof.
  intros Hloc s1.
  destruct (removeTextHighlight_highlighted id sd color target textNode offset s0 Hloc)
    as (s1' & Hrm & Hwf1' & Hmap & _ & _ & _ & _ & (targetElement' & Hsub' & Htext') & _).
  fold s1 in Hrm. rewrite Hrm. cbn [snd].
  assert (snd (removeTextHighlight id s1) = s1') as Hs1' by now rewrite Hrm.
  destruct Hloc as [Hwf Hsize Htext Htarget _].
  assert (map_size (noteHighlights s1') < MAX_HIGHLIGHTS) as Hsize'.
  { rewrite Hmap. pose proof (map_size_delete id (noteHighlights s0)). lia. }
  destruct (createTextHighlight_succeeds id sd color' s1 target targetElement'
              Htext Htarget) as (textNode' & d' & Hin' & Hd' & Hcall).
  { now rewrite Hs1'. }
  { now rewrite Hs1'. }
  { exact Htext'. }
  rewrite Hs1', highlighted_small in Hcall by exact Hsize'.
  exists textNode', (Z.to_nat (findTextOffset d' (sel_text sd) (contextBefore sd))).
  split; [|exact Hcall].
  split; try assumption.
  exists targetElement', d'. split; [exact Hsub'|]. split; [exact Hin'|].
  apply findTextOffset_substring. now apply findTextOffset_found.
Qed.

Lemma occ_outside (n : node) (r : nat) : ~ In r (node_refs n) -> occ r n = 0.
Proof.
  unfold occ.
  induction n as [r' d | r' t i c kids IH] using node_induction; intros Hr.
  - rewrite count_nodes_Text. simpl in *.
    destruct (Nat.eqb_spec r' r); [tauto | reflexivity].
  - rewrite count_nodes_Element. simpl in Hr. simpl has_ref.
    destruct (Nat.eqb_spec r' r) as [E|E]; [tauto|]. simpl.
    assert (~ In r (flat_map node_refs kids)) as Hk by tauto. clear Hr.
    induction IH as [|k kids Hk' _ IHk]; [reflexivity|].
    simpl in Hk. rewrite in_app_iff in Hk.
    rewrite count_list_cons, Hk', IHk by tauto. reflexivity.
Qed.

Lemma occ_count_occ (n : node) (r : nat) :
  occ r n = count_occ Nat.eq_dec (node_refs n) r.
Proof.
  unfold occ.
  induction n as [r' d | r' t i c kids IH] using node_induction.
  - rewrite count_nodes_Text. simpl.
    destruct (Nat.eq_dec r' r) as [E|E], (Nat.eqb_spec r' r); try congruence; reflexivity.
  - rewrite count_nodes_Element. simpl node_refs. simpl has_ref.
    assert (count_list (has_ref r) kids
            = count_occ Nat.eq_dec (flat_map node_refs kids) r) as Hk.
    { induction IH as [|k kids Hk _ IHk]; [reflexivity|].
      simpl flat_map. rewrite count_list_cons, count_occ_app, Hk, IHk. reflexivity. }
    rewrite Hk. simpl count_occ.
    destruct (Nat.eq_dec r' r) as [E|E], (Nat.eqb_spec r' r); try congruence; reflexivity.
Qed.

Lemma ascending_above (x : nat) (l : list nat) :
  ascending (x :: l) = true -> ascending l = true /\ forall y, In y l -> x < y.
Proof.
  revert x. induction l as [|z l IH]; intros x; [simpl; tauto|].
  change (ascending (x :: z :: l)) with ((x <? z)%nat && ascending (z :: l)).
  intros H. apply andb_true_iff in H as [Hx Hz]. apply Nat.ltb_lt in Hx.
  split; [exact Hz|]. intros y [<-|Hy]; [exact Hx|].
  destruct (IH z Hz) as [_ Hl]. specialize (Hl y Hy). lia.
Qed.

Lemma ascending_NoDup (l : list nat) : ascending l = true -> List.NoDup l.
Proof.
  induction l as [|x l IH]; [constructor|].
  intros H. apply ascending_above in H as [Hl Hx]. constructor; [|now apply IH].
  intros Hin. specialize (Hx x Hin). lia.
Qed.

Lemma well_formedb_sound (s : highlight_state) :
  well_formedb s = true -> well_formed s.
Proof.
  unfold well_formedb. intros H. apply andb_true_iff in H as [Ha Hb].
  rewrite forallb_forall in Hb. split; intros r.
  - rewrite occ_count_occ. revert r. apply (NoDup_count_occ Nat.eq_dec).
    now apply ascending_NoDup.
  - intros Hr. apply occ_outside. intros Hin. apply Hb in Hin.
    apply Nat.ltb_lt in Hin. lia.
Qed.

(** *** The spans made for a note and the record of the note *)

Lemma map_get_In {V} (k : string) (v : V) (m : jsmap V) :
  map_get k m = Some v -> In (k, v) m.
Proof.
  induction m as [|[k' v'] m IH]; [discriminate|].
  simpl. destruct (String.eqb_spec k k') as [->|Hne].
  - intros [= ->]. now left.
  - intros H. right. now apply IH.
Qed.

Lemma In_map_delete {V} (k k' : string) (v : V) (m : jsmap V) :
  In (k, v) (map_delete k' m) -> In (k, v) m.
Proof.
  induction m as [|[k0 v0] m IH]; [contradiction|].
  simpl. destruct (String.eqb k' k0).
  - intros H. right. now apply IH.
  - intros [H|H]; [now left | right; now apply IH].
Qed.

Lemma In_map_set {V} (k k' : string) (v v' : V) (m : jsmap V) :
  In (k, v) (map_set k' v' m) -> (k, v) = (k', v') \/ In (k, v) m.
Proof.
  induction m as [|[k0 v0] m IH]; simpl.
  - intros [H|[]]. left. now symmetry.
  - destruct (String.eqb k' k0).
    + intros [H|H]; [left; now symmetry | right; now right].
    + intros [H|H]; [right; now left|].
      destruct (IH H) as [E|E]; [now left | right; now right].
Qed.

Lemma is_element_ref_normalize r (n : node) :
  is_element_ref r (normalize n) = is_element_ref r n.
Proof. destruct n; reflexivity. Qed.

Lemma is_element_ref_unwrap r span fresh (n : node) :
  is_element_ref r (unwrap span fresh n) = is_element_ref r n.
Proof.
  destruct n as [|r' t i c kids]; [reflexivity|].
  rewrite unwrap_Element. destruct (existsb (is_element_ref span) kids); reflexivity.
Qed.

Lemma count_element_wrap_range r tn span mid after offset len (n : node) :
  r <> span ->
  count_nodes (is_element_ref r) (wrap_range tn span mid after offset len n)
  = count_nodes (is_element_ref r) n.
Proof.
  intros Hr. rewrite (count_nodes_wrap_range _ (shallow_is_element_ref r)).
  cbn [is_element_ref Nat.b2n].
  destruct (Nat.eqb_spec span r) as [E|E]; [congruence|]. cbn [Nat.b2n]. lia.
Qed.

Lemma contains_unwrap (doc : node) (r span fresh : nat) :
  contains (unwrap span fresh doc) r = true -> contains doc r = true.
Proof.
  rewrite !contains_count.
  pose proof (count_nodes_unwrap_le (is_element_ref r) (shallow_is_element_ref r)
                (fun _ _ => eq_refl) span fresh doc). lia.
Qed.

(** A span that is in the document once, below the document element,
    is out of it once unwrapped. *)
Lemma contains_unwrap_self (s : highlight_state) (span fresh : nat) :
  well_formed s ->
  is_element_ref span (hs_doc s) = false ->
  contains (unwrap span fresh (hs_doc s)) span = false.
Proof.
  intros Hwf Hroot. apply contains_false_count.
  pose proof (count_element_le_occ span (hs_doc s)) as Hle.
  pose proof (wf_unique _ Hwf span) as Hu.
  pose proof (count_nodes_unwrap_le (is_element_ref span) (shallow_is_element_ref span)
                (fun _ _ => eq_refl) span fresh (hs_doc s)) as Hw.
  destruct (count_nodes (is_element_ref span) (hs_doc s)) as [|m] eqn:E; [lia|].
  pose proof (count_nodes_unwrap_lt (is_element_ref span) (shallow_is_element_ref span)
                (fun _ _ => eq_refl) span fresh (hs_doc s)) as H.
  rewrite count_nodes_never in H by (intros x; apply andb_negb_r).
  rewrite Hroot, E in H. cbn [Nat.b2n] in H. specialize (H eq_refl). lia.
Qed.

Lemma wrapper_of_delete (s : highlight_state) (id id' : string) bg doc n :
  id <> id' ->
  wrapper_of {| hs_doc := doc; noteHighlights := map_delete id' (noteHighlights s);
                hs_background := bg; hs_next_ref := n |} id
  = wrapper_of s id.
Proof.
  intros Hne. unfold wrapper_of. cbn [noteHighlights]. rewrite map_get_delete.
  destruct (String.eqb_spec id id'); [congruence | reflexivity].
Qed.

Lemma consistent_removeTextHighlight (own : list (nat * string)) (noteId : string)
    (s : highlight_state) :
  consistent own s ->
  consistent own (snd (removeTextHighlight noteId s))
  /\ wrapper_of (snd (removeTextHighlight noteId s)) noteId = None.
Proof.
  intros Hc.
  pose proof (well_formed_removeTextHighlight noteId s (con_well_formed _ _ Hc)) as Hwf'.
  destruct Hc as [Hwf Hrec Hbelow Hdist Hroot].
  unfold removeTextHighlight in *.
  destruct (map_get noteId (noteHighlights s)) as [rec|] eqn:E.
  2:{ split; [now split|]. unfold wrapper_of. cbn [snd]. now rewrite E. }
  cbn [snd] in *.
  assert (is_element_ref (hl_element rec) (hs_doc s) = false) as Hnot
    by (apply (Hroot noteId); now apply map_get_In).
  assert (wrapper_of s noteId = Some (hl_element rec)) as Hw
    by (unfold wrapper_of; now rewrite E).
  split.
  - split; cbn [hs_doc hs_next_ref noteHighlights].
    + exact Hwf'.
    + intros r id Hin Hlive.
      assert (contains (hs_doc s) r = true /\ r <> hl_element rec) as [Hlive0 Hr].
      { destruct (contains (hs_doc s) (hl_element rec)) eqn:Ec.
        - split; [now apply contains_unwrap in Hlive|].
          intros ->. rewrite contains_unwrap_self in Hlive by assumption. discriminate.
        - split; [exact Hlive | congruence]. }
      pose proof (Hrec r id Hin Hlive0) as Hid.
      rewrite wrapper_of_delete; [exact Hid|].
      intros ->. congruence.
    + intros r id Hin. specialize (Hbelow r id Hin). lia.
    + exact Hdist.
    + intros id rec0 Hin. apply In_map_delete in Hin.
      destruct (contains (hs_doc s) (hl_element rec));
        [rewrite is_element_ref_unwrap|]; now apply (Hroot id).
  - unfold wrapper_of. cbn [noteHighlights].
    now rewrite map_get_delete, String.eqb_refl.
Qed.

Lemma consistent_remove_all (own : list (nat * string)) (ids : list string)
    (s : highlight_state) :
  consistent own s ->
  consistent own (fold_left (fun st noteId => snd (removeTextHighlight noteId st)) ids s).
Proof.
  revert s. induction ids as [|id ids IH]; intros s Hs; [exact Hs|].
  simpl. apply IH. now apply consistent_removeTextHighlight.
Qed.

Lemma consistent_cleanupHighlights (own : list (nat * string)) (s : highlight_state) :
  consistent own s -> consistent own (cleanupHighlights s).
Proof.
  intros Hs. unfold cleanupHighlights.
  destruct (MAX_HIGHLIGHTS <? map_size (noteHighlights s))%nat; [|exact Hs].
  now apply consistent_remove_all.
Qed.

Lemma consistent_same (own : list (nat * string)) (s s' : highlight_state) :
  consistent own s ->
  hs_doc s' = hs_doc s -> noteHighlights s' = noteHighlights s ->
  hs_next_ref s <= hs_next_ref s' ->
  consistent own s'.
Proof.
  intros [[Hu Hf] Hrec Hbelow Hdist Hroot] Hd Hm Hn. split.
  - split; rewrite Hd; [exact Hu|]. intros r Hr. apply Hf. lia.
  - intros r id Hin. rewrite Hd. unfold wrapper_of. rewrite Hm. now apply Hrec.
  - intros r id Hin. specialize (Hbelow r id Hin). lia.
  - exact Hdist.
  - intros id rec. rewrite Hd, Hm. apply Hroot.
Qed.

Lemma NoDup_snoc (l : list nat) (w : nat) :
  List.NoDup l -> ~ In w l -> List.NoDup (l ++ [w]).
Proof.
  induction 1 as [|x l Hx Hl IH]; intros Hw; simpl.
  - constructor; [intros [] | constructor].
  - constructor.
    + rewrite in_app_iff. simpl. intros [H|[H|[]]]; [contradiction|].
      apply Hw. left. now symmetry.
    + apply IH. intros H. apply Hw. now right.
Qed.

Lemma consistent_highlighted (own : list (nat * string)) id sd color
    (target textNode offset : nat) (s0 : highlight_state) :
  consistent own s0 -> wrapper_of s0 id = None ->
  consistent (own ++ [(hs_next_ref s0, id)])
             (highlighted id sd color target textNode offset s0).
Proof.
  intros [Hwf Hrec Hbelow Hdist Hroot] Hnone. split.
  - now apply well_formed_wrap_range.
  - intros r id0 Hin Hlive. apply in_app_iff in Hin as [Hin|[[= <- <-]|[]]].
    + pose proof (Hbelow r id0 Hin) as Hr.
      apply contains_count in Hlive. cbn [highlighted hs_doc] in Hlive.
      rewrite count_element_wrap_range in Hlive by lia.
      apply contains_count in Hlive.
      pose proof (Hrec r id0 Hin Hlive) as Hid.
      unfold wrapper_of in *. cbn [highlighted noteHighlights]. rewrite map_get_set.
      destruct (String.eqb_spec id0 id) as [->|Hne]; [congruence | exact Hid].
    + unfold wrapper_of. cbn [highlighted noteHighlights].
      now rewrite map_get_set_same.
  - intros r id0 Hin. cbn [highlighted hs_next_ref].
    apply in_app_iff in Hin as [Hin|[[= <- <-]|[]]]; [|lia].
    specialize (Hbelow r id0 Hin). lia.
  - rewrite List.map_app. apply NoDup_snoc; [exact Hdist|].
    intros Hin. apply in_map_iff in Hin as ([r id0] & Hr & Hin). simpl in Hr. subst r.
    specialize (Hbelow _ _ Hin). lia.
  - intros id0 rec Hin. cbn [highlighted noteHighlights hs_doc] in *.
    rewrite is_element_ref_wrap_range.
    apply In_map_set in Hin as [[= -> ->]|Hin]; [|now apply (Hroot id0)].
    cbn [hl_element].
    destruct (is_element_ref (hs_next_ref s0) (hs_doc s0)) eqn:E; [|reflexivity].
    apply (root_below_next s0 _ Hwf) in E. lia.
Qed.

(** A call that returns false leaves the page it was given or the page
    after [removeTextHighlight], up to the next reference. *)
Lemma createTextHighlight_false id sd color (s s1 : highlight_state) :
  createTextHighlight id sd color s = (false, s1) ->
  s1 = s
  \/ (hs_doc s1 = hs_doc (snd (removeTextHighlight id s))
      /\ noteHighlights s1 = noteHighlights (snd (removeTextHighlight id s))
      /\ hs_next_ref (snd (removeTextHighlight id s)) <= hs_next_ref s1).
Proof.
  destruct sd as [sd|]; [|intros [= <-]; now left].
  destruct (sel_text sd) as [|a text] eqn:Et.
  { unfold createTextHighlight. rewrite Et. intros [= <-]. now left. }
  rewrite createTextHighlight_steps by (rewrite Et; discriminate). cbv zeta.
  destruct (sel_targetElement sd) as [target|]; [|intros [= <-]; right; auto].
  destruct (find_element _ target) as [targetElement|]; [|intros [= <-]; right; auto].
  destruct (findTextInElement _ _ _ _) as [[textNode pos]|];
    [|intros [= <-]; right; auto].
  destruct (_ =? -1)%Z; [|discriminate].
  intros [= <-]. right. cbn [hs_doc noteHighlights hs_next_ref]. auto.
Qed.

Lemma consistent_createTextHighlight (own : list (nat * string)) id sd color
    (s : highlight_state) :
  consistent own s ->
  consistent (own ++ made_by (CreateHighlight id sd color) s)
             (snd (createTextHighlight id sd color s)).
Proof.
  intros Hc. destruct (consistent_removeTextHighlight own id s Hc) as [Hc0 Hnone].
  unfold made_by.
  destruct (createTextHighlight id sd color s) as [[|] s1] eqn:E; cbn [fst snd].
  - destruct sd as [sd|]; [|discriminate].
    apply createTextHighlight_true in E
      as (_ & target & targetElement & textNode & pos & _ & _ & _ & _ & ->).
    apply consistent_cleanupHighlights. now apply consistent_highlighted.
  - rewrite app_nil_r. apply createTextHighlight_false in E as [->|(Hd & Hm & Hn)];
      [exact Hc|].
    now apply (consistent_same own (snd (removeTextHighlight id s))).
Qed.

Lemma consistent_run_op (own : list (nat * string)) (op : highlight_op)
    (s : highlight_state) :
  consistent own s -> consistent (own ++ made_by op s) (run_op op s).
Proof.
  intros Hc. destruct op as [id sd color | id].
  - now apply consistent_createTextHighlight.
  - simpl. rewrite app_nil_r. now apply consistent_removeTextHighlight.
Qed.

Lemma run_ops_cons op ops (s : highlight_state) :
  run_ops (op :: ops) s = run_ops ops (run_op op s).
Proof. reflexivity. Qed.

Lemma run_ops_app ops ops' (s : highlight_state) :
  run_ops (ops ++ ops') s = run_ops ops' (run_ops ops s).
Proof. unfold run_ops. apply fold_left_app. Qed.

Lemma made_app ops ops' (s : highlight_state) :
  made (ops ++ ops') s = (made ops s ++ made ops' (run_ops ops s))%list.
Proof.
  revert s. induction ops as [|op ops IH]; intros s; [reflexivity|].
  rewrite run_ops_cons. simpl app.
  change (made (op :: ops ++ ops') s)
    with (made_by op s ++ made (ops ++ ops') (run_op op s))%list.
  change (made (op :: ops) s) with (made_by op s ++ made ops (run_op op s))%list.
  rewrite IH, app_assoc. reflexivity.
Qed.

Lemma consistent_run_ops (own : list (nat * string)) (ops : list highlight_op)
    (s : highlight_state) :
  consistent own s -> consistent (own ++ made ops s) (run_ops ops s).
Proof.
  revert own s. induction ops as [|op ops IH]; intros own s Hc.
  - simpl. now rewrite app_nil_r.
  - rewrite run_ops_cons.
    change (made (op :: ops) s) with (made_by op s ++ made ops (run_op op s))%list.
    rewrite app_assoc. apply IH. now apply consistent_run_op.
Qed.

(** *** At most one live highlight for a note *)

Lemma NoDup_map_filter {A} (f : A -> nat) (p : A -> bool) (l : list A) :
  List.NoDup (List.map f l) -> List.NoDup (List.map f (List.filter p l)).
Proof.
  induction l as [|x l IH]; [auto|].
  simpl. intros H. inversion H as [|y l' Hx Hl]; subst.
  destruct (p x); [|now apply IH].
  simpl. constructor; [|now apply IH].
  intros Hin. apply Hx. apply in_map_iff in Hin as (z & Hz & Hin).
  apply in_map_iff. exists z. split; [exact Hz|].
  now apply List.filter_In in Hin as [Hin _].
Qed.

Lemma NoDup_all_equal (l : list nat) :
  List.NoDup l -> (forall x y, In x l -> In y l -> x = y) -> List.length l <= 1.
Proof.
  intros Hl Heq. destruct l as [|x [|y l]]; simpl; try lia.
  exfalso. inversion Hl as [|? ? Hx _]; subst. apply Hx.
  rewrite (Heq x y); [now left | now left | right; now left].
Qed.

Lemma live_wrappers_In id own doc r :
  In r (live_wrappers id own doc) <-> In (r, id) own /\ contains doc r = true.
Proof.
  unfold live_wrappers. rewrite in_map_iff. split.
  - intros ([r' id'] & Hr & Hin). simpl in Hr. subst r'.
    apply List.filter_In in Hin as [Hin Hp]. simpl in Hp.
    apply andb_true_iff in Hp as [Hid Hlive]. apply String.eqb_eq in Hid. subst id'.
    now split.
  - intros [Hin Hlive]. exists (r, id). split; [reflexivity|].
    apply List.filter_In. split; [exact Hin|]. simpl.
    now rewrite String.eqb_refl, Hlive.
Qed.

Lemma live_wrappers_recorded own id (s : highlight_state) r :
  consistent own s -> In r (live_wrappers id own (hs_doc s)) ->
  wrapper_of s id = Some r.
Proof.
  intros Hc Hin. apply live_wrappers_In in Hin as [Hin Hlive].
  now apply (con_recorded _ _ Hc).
Qed.

Lemma live_wrappers_at_most_one own id (s : highlight_state) :
  consistent own s -> List.length (live_wrappers id own (hs_doc s)) <= 1.
Proof.
  intros Hc. apply NoDup_all_equal.
  - unfold live_wrappers. apply NoDup_map_filter. exact (con_distinct _ _ Hc).
  - intros x y Hx Hy.
    apply (live_wrappers_recorded own id s _ Hc) in Hx, Hy. congruence.
Qed.

Lemma live_wrappers_only own id (s : highlight_state) r :
  consistent own s -> In (r, id) own -> contains (hs_doc s) r = true ->
  live_wrappers id own (hs_doc s) = [r].
Proof.
  intros Hc Hin Hlive.
  pose proof (live_wrappers_at_most_one own id s Hc) as Hlen.
  assert (In r (live_wrappers id own (hs_doc s))) as Hr
    by (apply live_wrappers_In; now split).
  destruct (live_wrappers id own (hs_doc s)) as [|x [|y l]]; simpl in *;
    [contradiction | | lia].
  destruct Hr as [->|[]]. reflexivity.
Qed.

Lemma live_wrappers_none own id (s : highlight_state) :
  consistent own s -> wrapper_of s id = None ->
  live_wrappers id own (hs_doc s) = [].
Proof.
  intros Hc Hnone. destruct (live_wrappers id own (hs_doc s)) as [|x l] eqn:E;
    [reflexivity|].
  assert (In x (live_wrappers id own (hs_doc s))) as Hx by (rewrite E; now left).
  apply (live_wrappers_recorded own id s _ Hc) in Hx. congruence.
Qed.

Lemma recorded_below_root_sound (s : highlight_state) :
  well_formed s -> recorded_below_root s = true -> consistent [] s.
Proof.
  intros Hwf H. unfold recorded_below_root in H. rewrite forallb_forall in H.
  split; [exact Hwf | intros r id [] | intros r id [] | constructor |].
  intros id rec Hin. apply H in Hin. simpl in Hin. now apply negb_true_iff in Hin.
Qed.

(** *** Two calls in succession *)

(** On a page whose references are identities and where the other
    notes hold fewer than [MAX_HIGHLIGHTS] highlights, a call that
    returns true is followed by a call that returns true, and by a
    removal that returns true. *)
Lemma createTextHighlight_twice (id : string) (sd : selection_data)
    (color color' : js_value) (s s1 : highlight_state) :
  well_formed s ->
  map_size (map_delete id (noteHighlights s)) < MAX_HIGHLIGHTS ->
  createTextHighlight id (Some sd) color s = (true, s1) ->
  exists s2 s3 w1 w2,
    createTextHighlight id (Some sd) color' s1 = (true, s2)
    /\ w1 = hs_next_ref (snd (removeTextHighlight id s))
    /\ w2 = hs_next_ref (snd (removeTextHighlight id s1))
    /\ w1 < w2
    /\ wrapper_of s1 id = Some w1 /\ contains (hs_doc s1) w1 = true
    /\ wrapper_of s2 id = Some w2 /\ contains (hs_doc s2) w2 = true
    /\ contains (hs_doc s2) w1 = false
    /\ count_highlights (hs_doc s1) <= S (count_highlights (hs_doc s))
    /\ count_highlights (hs_doc s2) <= count_highlights (hs_doc s1)
    /\ (forall r x, r <> w1 -> find_element (hs_doc s1) r = Some x ->
          exists y, find_element (hs_doc s2) r = Some y
                    /\ textContent y = textContent x)
    /\ removeTextHighlight id s2 = (true, s3)
    /\ wrapper_of s3 id = None
    /\ contains (hs_doc s3) w2 = false
    /\ count_highlights (hs_doc s3) <= count_highlights (hs_doc s)
    /\ (forall r x, r <> w2 -> find_element (hs_doc s2) r = Some x ->
          exists y, find_element (hs_doc s3) r = Some y
                    /\ textContent y = textContent x)
    /\ (forall ops, textContent (hs_doc (run_ops ops s1)) = textContent (hs_doc s)).
Proof.
  intros Hwf Hsize Hcall.
  assert (textContent (hs_doc s1) = textContent (hs_doc s)) as Htext.
  { pose proof (textContent_createTextHighlight id (Some sd) color s) as H.
    now rewrite Hcall in H. }
  destruct (createTextHighlight_located id sd color s s1 Hwf Hsize Hcall)
    as (target & textNode & offset & Hloc & ->).
  pose proof (count_nodes_removeTextHighlight (has_class HIGHLIGHT_CLASS) id s
                (shallow_has_class HIGHLIGHT_CLASS) (has_class_Text HIGHLIGHT_CLASS))
    as Hcnt0.
  set (s0 := snd (removeTextHighlight id s)) in *.
  destruct (highlighted_facts id sd color target textNode offset s0 Hloc)
    as (_ & _ & _ & _ & _ & _ & Hcnt1 & _ & _ & _).
  destruct (removeTextHighlight_highlighted id sd color target textNode offset s0 Hloc)
    as (s1' & Hrm & Hwf1' & Hmap1 & Hnext1 & Hlive1 & Hgone1 & Hless1 & _ & Hkeep1).
  destruct (createTextHighlight_relocated id sd color color' target textNode offset s0 Hloc)
    as (textNode' & offset' & Hloc' & Hcall2).
  set (s1 := highlighted id sd color target textNode offset s0) in *.
  rewrite Hrm in Hloc', Hcall2. cbn [snd] in Hloc', Hcall2.
  destruct (highlighted_facts id sd color' target textNode' offset' s1' Hloc')
    as (_ & _ & _ & _ & _ & _ & Hcnt2 & Helems2 & Htext2 & _).
  destruct (removeTextHighlight_highlighted id sd color' target textNode' offset'
              s1' Hloc')
    as (s3 & Hrm3 & _ & Hmap3 & _ & Hlive2 & Hgone2 & Hless3 & _ & Hkeep3).
  set (s2 := highlighted id sd color' target textNode' offset' s1') in *.
  exists s2, s3, (hs_next_ref s0), (hs_next_ref s1').
  split; [exact Hcall2|].
  split; [reflexivity|].
  split; [now rewrite Hrm|].
  split; [rewrite Hnext1; cbn [s1 highlighted hs_next_ref]; lia|].
  split; [unfold wrapper_of; cbn [s1 highlighted noteHighlights];
          now rewrite map_get_set_same|].
  split; [exact Hlive1|].
  split; [unfold wrapper_of; cbn [s2 highlighted noteHighlights];
          now rewrite map_get_set_same|].
  split; [exact Hlive2|].
  split.
  { apply contains_false_count. apply contains_false_count in Hgone1.
    rewrite Helems2; [exact Hgone1|].
    rewrite Hnext1. cbn [s1 highlighted hs_next_ref]. lia. }
  split; [unfold count_highlights in *; lia|].
  split; [unfold count_highlights in *; lia|].
  split.
  { intros r x Hr Hx. rewrite find_element_subtree in *.
    destruct (Hkeep1 r x Hr Hx) as (y & Hy & Hc).
    destruct (Htext2 r y Hy) as (z & Hz & Ht).
    exists z. split; [exact Hz|]. rewrite Ht. apply Hc. }
  split; [exact Hrm3|].
  split.
  { unfold wrapper_of. rewrite Hmap3, map_get_delete, String.eqb_refl. reflexivity. }
  split; [exact Hgone2|].
  split; [unfold count_highlights in *; lia|].
  split.
  { intros r x Hr Hx. rewrite find_element_subtree in *.
    destruct (Hkeep3 r x Hr Hx) as (y & Hy & Hc).
    exists y. split; [exact Hy | apply Hc]. }
  intros ops. now rewrite textContent_run_ops.
Qed.


(** C6, amended.  Take a page whose references are identities and whose
    map records no highlight on the document element, and make any
    calls of [createTextHighlight] and [removeTextHighlight] on it.
    Then, for every note, at most one of the spans made for the note
    is in the document, and the text of the document is what it was.
    Further, if the other notes hold fewer than [MAX_HIGHLIGHTS]
    highlights and [createTextHighlight] returns true for a note, a
    second call for the same note and selection returns true as well
    and leaves exactly one span of the note in the document, the one
    of the second call, which the map records; the second call leaves
    no more highlight spans than the first; every element other than
    the removed span is where it was, with the same text.
    [removeTextHighlight] then returns true and leaves no record and
    no span of the note in the document, and no more highlight spans
    than before the two calls, again with every other element and its
    text in place. *)
Theorem one_live_highlight (s : highlight_state) (ops : list highlight_op) :
  consistent [] s ->
  let s' := run_ops ops s in
  (forall id, List.length (live_wrappers id (made ops s) (hs_doc s')) <= 1)
  /\ textContent (hs_doc s') = textContent (hs_doc s)
  /\ (forall id sd color color' s1,
        map_size (map_delete id (noteHighlights s')) < MAX_HIGHLIGHTS ->
        createTextHighlight id (Some sd) color s' = (true, s1) ->
        let own := made (ops ++ [CreateHighlight id (Some sd) color;
                                 CreateHighlight id (Some sd) color']) s in
        exists s2 s3 w1 w2,
          createTextHighlight id (Some sd) color' s1 = (true, s2)
          /\ wrapper_of s1 id = Some w1 /\ contains (hs_doc s1) w1 = true
          /\ wrapper_of s2 id = Some w2 /\ w1 <> w2
          /\ live_wrappers id own (hs_doc s2) = [w2]
          /\ count_highlights (hs_doc s2) <= count_highlights (hs_doc s1)
          /\ (forall r x, r <> w1 -> find_element (hs_doc s1) r = Some x ->
                exists y, find_element (hs_doc s2) r = Some y
                          /\ textContent y = textContent x)
          /\ removeTextHighlight id s2 = (true, s3)
          /\ wrapper_of s3 id = None
          /\ live_wrappers id own (hs_doc s3) = []
          /\ count_highlights (hs_doc s3) <= count_highlights (hs_doc s')
          /\ (forall r x, r <> w2 -> find_element (hs_doc s2) r = Some x ->
                exists y, find_element (hs_doc s3) r = Some y
                          /\ textContent y = textContent x)).
Proof.
  intros Hc s'.
  pose proof (consistent_run_ops [] ops s Hc) as Hc'. cbn [app] in Hc'. fold s' in Hc'.
  split; [intros id; now apply live_wrappers_at_most_one|].
  split; [apply textContent_run_ops|].
  intros id sd color color' s1 Hsize Hcall own.
  destruct (createTextHighlight_twice id sd color color' s' s1
              (con_well_formed _ _ Hc') Hsize Hcall)
    as (s2 & s3 & w1 & w2 & Hcall2 & Hw1 & Hw2 & Hlt & Hrec1 & Hlive1 & Hrec2 & Hlive2
        & _ & _ & Hcnt2 & Hkeep2 & Hrm3 & Hrec3 & _ & Hcnt3 & Hkeep3 & _).
  assert (own = (made ops s ++ [(w1, id); (w2, id)])%list) as Hown.
  { unfold own. rewrite made_app. fold s'. f_equal.
    cbn [made made_by run_op]. rewrite Hcall. cbn [fst snd]. rewrite Hcall2.
    cbn [fst]. now rewrite Hw1, Hw2. }
  assert (run_ops (ops ++ [CreateHighlight id (Some sd) color;
                           CreateHighlight id (Some sd) color']) s = s2) as Hrun.
  { rewrite run_ops_app. fold s'. unfold run_ops. cbn [fold_left run_op].
    rewrite Hcall. cbn [snd]. now rewrite Hcall2. }
  pose proof (consistent_run_ops []
                (ops ++ [CreateHighlight id (Some sd) color;
                         CreateHighlight id (Some sd) color']) s Hc) as Hc2.
  rewrite Hrun in Hc2. change (consistent own s2) in Hc2.
  destruct (consistent_removeTextHighlight own id s2 Hc2) as [Hc3 _].
  rewrite Hrm3 in Hc3. cbn [snd] in Hc3.
  exists s2, s3, w1, w2.
  split; [exact Hcall2|]. split; [exact Hrec1|]. split; [exact Hlive1|].
  split; [exact Hrec2|]. split; [lia|].
  split.
  { apply live_wrappers_only; [exact Hc2 | | exact Hlive2].
    rewrite Hown. apply in_app_iff. right. right. now left. }
  split; [exact Hcnt2|]. split; [exact Hkeep2|]. split; [exact Hrm3|].
  split; [exact Hrec3|].
  split; [now apply live_wrappers_none|].
  split; [exact Hcnt3 | exact Hkeep3].
Qed.

Lemma one_live_highlight_witness :
  consistent [] plain_page
  /\ exists s2 s3 w2,
       createTextHighlight "note-1" (Some hello_selection) (JString "#ffffff")
         once_highlighted = (true, s2)
       /\ live_wrappers "note-1"
            (made [CreateHighlight "note-1" (Some hello_selection) (JString "#fff3cd");
                   CreateHighlight "note-1" (Some hello_selection) (JString "#ffffff")]
               plain_page) (hs_doc s2) = [w2]
       /\ removeTextHighlight "note-1" s2 = (true, s3)
       /\ count_highlights (hs_doc s3) <= count_highlights (hs_doc plain_page).
Proof.
  assert (Hc : consistent [] plain_page).
  { apply recorded_below_root_sound; [apply well_formedb_sound|]; reflexivity. }
  split; [exact Hc|].
  destruct (one_live_highlight plain_page [] Hc) as (_ & _ & H).
  destruct (H "note-1" hello_selection (JString "#fff3cd") (JString "#ffffff")
              once_highlighted)
    as (s2 & s3 & w1 & w2 & H1 & _ & _ & _ & _ & H2 & _ & _ & H3 & _ & _ & H4 & _).
  - vm_compute. lia.
  - reflexivity.
  - exists s2, s3, w2. split; [exact H1|]. split; [exact H2|]. split; [exact H3|].
    exact H4.
Defined.

(** C6 as stated fails on a page at the limit.  The new note selects a
    word inside the oldest highlight, whose span is then the target
    element.  The first call wraps the word, records the span 2004 and
    returns true; [cleanupHighlights] finds 1001 entries and removes
    the oldest highlight, and the new span leaves the document with
    the span it was in.  The second call drops the record, does not
    find the target element in the document and returns false: of the
    spans made for the note, none is in the document, the map has no
    record for it, and the page holds the 999 highlights of the other
    notes. *)
Lemma eviction_leaves_no_wrapper :
  consistent [] crowded_page
  /\ map_size (noteHighlights crowded_page) = MAX_HIGHLIGHTS
  /\ count_highlights (hs_doc crowded_page) = 1000
  /\ fst crowded_first = true
  /\ wrapper_of (snd crowded_first) "note-new" = Some 2004
  /\ contains (hs_doc (snd crowded_first)) 2004 = false
  /\ fst crowded_second = false
  /\ wrapper_of (snd crowded_second) "note-new" = None
  /\ made [highlight_inside; highlight_inside] crowded_page = [(2004, "note-new")]
  /\ live_wrappers "note-new" (made [highlight_inside; highlight_inside] crowded_page)
       (hs_doc (snd crowded_second)) = []
  /\ count_highlights (hs_doc (snd crowded_second)) = 999.
Proof.
  split.
  { apply recorded_below_root_sound; [apply well_formedb_sound|];
      vm_compute; reflexivity. }
  split; [vm_compute; reflexivity|].
  split; [vm_compute; reflexivity|].
  split; [vm_compute; reflexivity|].
  split; [vm_compute; reflexivity|].
  split; [vm_compute; reflexivity|].
  split; [vm_compute; reflexivity|].
  split; [vm_compute; reflexivity|].
  split; [vm_compute; reflexivity|].
  split; [vm_compute; reflexivity|].
  vm_compute; reflexivity.
Qed.

(** ** The visibility clamp *)

Lemma note_rect_set_position w n l t :
  note_rect w (set_position n l t)
  = {| r_left := l - pageXOffset w; r_top := t - pageYOffset w;
       r_width := ne_width n; r_height := ne_height n |}.
Proof. reflexivity. Qed.

Lemma clamp_axis_in_band viewport size scroll pos :
  (size <= viewport - 2 * MIN_VIEWPORT_MARGIN)%Z ->
  (MIN_VIEWPORT_MARGIN <= clamp_axis viewport size scroll pos - scroll)%Z
  /\ (clamp_axis viewport size scroll pos - scroll + size <= viewport - MIN_VIEWPORT_MARGIN)%Z.
Proof.
  unfold clamp_axis, MIN_VIEWPORT_MARGIN. intros Hfit.
  destruct (Z.ltb_spec (viewport - 20) (pos - scroll + size));
    [lia | destruct (Z.ltb_spec (pos - scroll) 20); lia].
Qed.

Lemma visible_note_position doc cache w layout n nd :
  contains doc (ne_ref n) = true ->
  note_rect w (visible_note doc cache w layout n nd)
  = {| r_left := clamp_axis (innerWidth w) (ne_width n) (pageXOffset w) (style_left n)
                 - pageXOffset w;
       r_top := clamp_axis (innerHeight w) (ne_height n) (pageYOffset w) (style_top n)
                - pageYOffset w;
       r_width := ne_width n; r_height := ne_height n |}.
Proof.
  intros Hin. unfold visible_note, ensureNoteVisibility, clamp_axis.
  rewrite Hin. simpl negb. cbv iota.
  unfold r_right, r_bottom, note_rect. simpl.
  destruct (innerWidth w - MIN_VIEWPORT_MARGIN <? style_left n - pageXOffset w + ne_width n)%Z;
    [| destruct (style_left n - pageXOffset w <? MIN_VIEWPORT_MARGIN)%Z];
    (destruct (innerHeight w - MIN_VIEWPORT_MARGIN <? style_top n - pageYOffset w + ne_height n)%Z;
     [| destruct (style_top n - pageYOffset w <? MIN_VIEWPORT_MARGIN)%Z]);
    simpl;
    repeat (case_match; simpl); reflexivity.
Qed.

Lemma ensureNoteVisibility_in_band_unchanged doc cache w layout n nd :
  in_band w (note_rect w n) ->
  ensureNoteVisibility doc cache w layout n nd = (n, cache, []).
Proof.
  intros (Hl & Hr & Ht & Hb). unfold ensureNoteVisibility.
  destruct (contains doc (ne_ref n)); [|reflexivity]. simpl negb. cbv iota.
  unfold r_right, r_bottom in *. simpl in *.
  destruct (Z.ltb_spec (innerWidth w - MIN_VIEWPORT_MARGIN)
              (style_left n - pageXOffset w + ne_width n)); [lia|].
  destruct (Z.ltb_spec (style_left n - pageXOffset w) MIN_VIEWPORT_MARGIN); [lia|].
  destruct (Z.ltb_spec (innerHeight w - MIN_VIEWPORT_MARGIN)
              (style_top n - pageYOffset w + ne_height n)); [lia|].
  destruct (Z.ltb_spec (style_top n - pageYOffset w) MIN_VIEWPORT_MARGIN); [lia|].
  reflexivity.
Qed.

(** C7, as amended.  For a note element in the document that fits in
    the band -- its width is at most the viewport width less twice the
    margin, and likewise its height -- [ensureNoteVisibility] leaves
    all four edges of its rectangle within
    [[margin, viewport - margin]], whatever its position was; and a
    note already within the band is not moved: the element, the cache
    and the store are left as they were. *)
Theorem ensure_visible_clamps (doc : node) (cache : element_cache) (w : window_state)
    (layout : nat -> rect) (n : note_element) (nd : note_data) :
  contains doc (ne_ref n) = true ->
  (ne_width n <= innerWidth w - 2 * MIN_VIEWPORT_MARGIN)%Z ->
  (ne_height n <= innerHeight w - 2 * MIN_VIEWPORT_MARGIN)%Z ->
  in_band w (note_rect w (visible_note doc cache w layout n nd))
  /\ (in_band w (note_rect w n) ->
      ensureNoteVisibility doc cache w layout n nd = (n, cache, [])).
Proof.
  intros Hin Hw Hh. split.
  - rewrite (visible_note_position doc cache w layout n nd Hin).
    unfold in_band, r_right, r_bottom. simpl.
    pose proof (clamp_axis_in_band (innerWidth w) (ne_width n) (pageXOffset w) (style_left n) Hw).
    pose proof (clamp_axis_in_band (innerHeight w) (ne_height n) (pageYOffset w) (style_top n) Hh).
    lia.
  - apply ensureNoteVisibility_in_band_unchanged.
Qed.

Lemma ensure_visible_clamps_witness :
  in_band sample_window
    (note_rect sample_window
       (visible_note sample_doc [] sample_window sample_layout offscreen_note sample_note_data))
  /\ (in_band sample_window (note_rect sample_window sample_note) ->
      ensureNoteVisibility sample_doc [] sample_window sample_layout sample_note sample_note_data
      = (sample_note, [], [])).
Proof.
  split.
  - apply (ensure_visible_clamps sample_doc [] sample_window sample_layout
             offscreen_note sample_note_data);
      [ reflexivity | vm_compute; discriminate | vm_compute; discriminate ].
  - apply (ensure_visible_clamps sample_doc [] sample_window sample_layout
             sample_note sample_note_data);
      [ reflexivity | vm_compute; discriminate | vm_compute; discriminate ].
Defined.

(** C7 as stated fails for a note wider than the band: in a viewport
    100 pixels wide the band is 60 pixels wide; a note 90 pixels wide
    whose right edge is past the band is moved so that its right edge is
    on the margin, which puts its left edge at -10. *)
Lemma wide_note_leaves_band :
  ~ (forall (doc : node) (cache : element_cache) (w : window_state)
            (layout : nat -> rect) (n : note_element) (nd : note_data),
        contains doc (ne_ref n) = true ->
        ~ in_band w (note_rect w n) ->
        in_band w (note_rect w (visible_note doc cache w layout n nd))).
Proof.
  intros H.
  specialize (H sample_doc [] narrow_window sample_layout wide_note sample_note_data).
  destruct H as (Hl & _).
  - reflexivity.
  - intros (_ & Hr & _). vm_compute in Hr. apply Hr. reflexivity.
  - vm_compute in Hl. apply Hl. reflexivity.
Qed.



(** ** The drag controller *)

(** The comparison of squares is the comparison the source makes on the
    square root. *)
Lemma beyond_threshold_sqrt (deltaX deltaY : Z) :
  beyond_threshold deltaX deltaY = true
  <-> (sqrt (IZR (deltaX * deltaX + deltaY * deltaY)) > IZR DRAG_THRESHOLD)%R.
Proof.
  unfold beyond_threshold, DRAG_THRESHOLD.
  rewrite Z.ltb_lt.
  assert (H5 : (IZR 5 = sqrt (IZR (5 * 5)))%R).
  { rewrite mult_IZR. rewrite sqrt_square; [reflexivity|]. apply IZR_le. lia. }
  split; intros H.
  - rewrite H5. apply sqrt_lt_1_alt. split.
    + apply IZR_le. lia.
    + apply IZR_lt. exact H.
  - apply lt_IZR. apply sqrt_lt_0_alt. rewrite <- H5. exact H.
Qed.

Lemma DraggingState_update_note r f p :
  DraggingState (update_note r f p) = DraggingState p.
Proof. reflexivity. Qed.

Lemma DraggingState_handleAutoScroll event p :
  DraggingState (handleAutoScroll event p) = DraggingState p.
Proof.
  unfold handleAutoScroll.
  repeat (case_match; simpl; try reflexivity).
Qed.

Lemma DraggingState_updateDropTargetHighlight event p :
  DraggingState (updateDropTargetHighlight event p) = DraggingState p.
Proof.
  unfold updateDropTargetHighlight. case_match; reflexivity.
Qed.

Lemma handleMouseMove_within (event : mouse_event) (p : page) :
  armed p ->
  (distance2 p event <= DRAG_THRESHOLD * DRAG_THRESHOLD)%Z ->
  handleMouseMove event p = p.
Proof.
  intros [[note Hnote] Hd] Hle.
  unfold handleMouseMove. rewrite Hnote, Hd.
  unfold distance2 in Hle.
  assert (Hb : beyond_threshold (clientX event - fst (initialMousePos (DraggingState p)))
                 (clientY event - snd (initialMousePos (DraggingState p))) = false).
  { unfold beyond_threshold. apply Z.ltb_ge. exact Hle. }
  rewrite Hb. reflexivity.
Qed.

Lemma handleMouseMove_beyond (event : mouse_event) (p : page) :
  armed p ->
  (DRAG_THRESHOLD * DRAG_THRESHOLD < distance2 p event)%Z ->
  isDragging (DraggingState (handleMouseMove event p)) = true.
Proof.
  intros [[note Hnote] Hd] Hlt.
  unfold handleMouseMove. rewrite Hnote, Hd.
  unfold distance2 in Hlt.
  assert (Hb : beyond_threshold (clientX event - fst (initialMousePos (DraggingState p)))
                 (clientY event - snd (initialMousePos (DraggingState p))) = true).
  { unfold beyond_threshold. apply Z.ltb_lt. exact Hlt. }
  rewrite Hb.
  rewrite DraggingState_updateDropTargetHighlight, DraggingState_handleAutoScroll.
  reflexivity.
Qed.

(** C3, as amended.  From the armed state, pointer moves that stay
    within the drag threshold of the initial pointer position -- at a
    distance less than or equal to it -- leave the whole page state as
    it is: the controller does not enter Dragging and the position of
    the note is not written; this holds for any sequence of such moves.
    A move whose distance is strictly greater than the threshold enters
    Dragging. *)
Theorem drag_threshold (p : page) :
  armed p ->
  (forall events : list mouse_event,
      Forall (fun ev => (distance2 p ev <= DRAG_THRESHOLD * DRAG_THRESHOLD)%Z) events ->
      fold_left (fun q ev => handleMouseMove ev q) events p = p)
  /\ (forall event : mouse_event,
         (DRAG_THRESHOLD * DRAG_THRESHOLD < distance2 p event)%Z ->
         isDragging (DraggingState (handleMouseMove event p)) = true).
Proof.
  intros Harmed. split.
  - intros events Hall. induction Hall as [|ev events Hev _ IH]; simpl.
    + reflexivity.
    + rewrite (handleMouseMove_within ev p Harmed Hev). exact IH.
  - intros event Hlt. apply handleMouseMove_beyond; assumption.
Qed.

Lemma armed_page_armed : armed armed_page.
Proof. split; [eexists; reflexivity | reflexivity]. Qed.

Lemma drag_threshold_witness :
  armed armed_page
  /\ fold_left (fun q ev => handleMouseMove ev q) [mouse_at 153 154; mouse_at 150 149] armed_page
     = armed_page
  /\ isDragging (DraggingState (handleMouseMove (mouse_at 153 155) armed_page)) = true.
Proof.
  split; [exact armed_page_armed|].
  destruct (drag_threshold armed_page armed_page_armed) as [Hwithin Hbeyond].
  split.
  - apply Hwithin. repeat constructor; vm_compute; discriminate.
  - apply Hbeyond. vm_compute. reflexivity.
Defined.

(** C3 as stated fails on the boundary: a move to a distance of exactly
    the threshold (3 across and 4 down, five pixels) is at the
    threshold, and the controller stays armed. *)
Lemma drag_at_threshold_not_dragging :
  ~ (forall (p : page) (event : mouse_event),
        armed p ->
        (DRAG_THRESHOLD * DRAG_THRESHOLD <= distance2 p event)%Z ->
        isDragging (DraggingState (handleMouseMove event p)) = true).
Proof.
  intros H.
  specialize (H armed_page (mouse_at 153 154) armed_page_armed).
  assert (Hd : (DRAG_THRESHOLD * DRAG_THRESHOLD <= distance2 armed_page (mouse_at 153 154))%Z)
    by (vm_compute; discriminate).
  specialize (H Hd).
  rewrite (handleMouseMove_within _ _ armed_page_armed) in H.
  - discriminate H.
  - vm_compute; discriminate.
Qed.

(** ** The release of a drag *)





(** ** The edit session *)

Lemma clearTimeout_gone id timers :
  ~ Exists (fun t => timer_id t = id) (clearTimeout id timers).
Proof.
  unfold clearTimeout. rewrite Exists_exists. intros (t & Hin & Hid).
  apply list_elem_of_In, filter_In in Hin. destruct Hin as [_ Hne].
  rewrite Hid, Nat.eqb_refl in Hne. discriminate.
Qed.





(** ** More of selection-manager.js *)

(** *** [cleanupHighlights]: the limit *)

Lemma map_delete_filter {V} (k : string) (m : jsmap V) :
  map_delete k m = List.filter (fun p => negb (String.eqb k (fst p))) m.
Proof.
  induction m as [|[k' v] m IH]; [reflexivity|].
  simpl. destruct (String.eqb k k'); simpl; now rewrite IH.
Qed.

Lemma delete_all_filter {V} (ks : list string) (m : jsmap V) :
  fold_left (fun c k => map_delete k c) ks m
  = List.filter (fun p => negb (existsb (fun k => String.eqb k (fst p)) ks)) m.
Proof.
  revert m. induction ks as [|k ks IH]; intros m.
  - simpl. induction m as [|p m IHm]; [reflexivity|]. simpl. now rewrite <- IHm.
  - simpl fold_left. rewrite IH, map_delete_filter.
    induction m as [|p m IHm]; [reflexivity|].
    simpl. destruct (String.eqb k (fst p)); simpl; [exact IHm|].
    destruct (existsb _ ks); simpl; now rewrite IHm.
Qed.

Lemma noteHighlights_remove_all (ids : list string) (s : highlight_state) :
  noteHighlights (fold_left (fun st noteId => snd (removeTextHighlight noteId st)) ids s)
  = fold_left (fun c k => map_delete k c) ids (noteHighlights s).
Proof.
  revert s. induction ids as [|id ids IH]; intros s; [reflexivity|].
  simpl. now rewrite IH, noteHighlights_removeTextHighlight.
Qed.

Lemma filter_length_le {A} (f : A -> bool) (l : list A) :
  List.length (List.filter f l) <= List.length l.
Proof. induction l as [|x l IH]; simpl; [lia|]. destruct (f x); simpl; lia. Qed.

(** The entries whose keys are the first [n] keys are gone: at least
    the first [n] entries. *)
Lemma delete_first_keys_size {V} (n : nat) (m : jsmap V) :
  map_size (fold_left (fun c k => map_delete k c) (firstn n (map_keys m)) m)
  <= map_size m - n.
Proof.
  rewrite delete_all_filter. unfold map_size, map_keys.
  set (ks := firstn n (List.map fst m)).
  assert (forall p, In p (firstn n m) ->
                    existsb (fun k => String.eqb k (fst p)) ks = true) as Hks.
  { intros p Hp. apply existsb_exists. exists (fst p). split; [|apply String.eqb_refl].
    unfold ks. rewrite List.firstn_map. now apply in_map. }
  clearbody ks. revert n Hks. induction m as [|p m IH]; intros n Hks; [simpl; lia|].
  destruct n as [|n].
  - rewrite Nat.sub_0_r. apply filter_length_le.
  - simpl List.filter. rewrite (Hks p) by now left. simpl.
    apply IH. intros q Hq. apply Hks. now right.
Qed.

(** When the keys are distinct, the entries after the first [n] stay,
    in their order. *)
Lemma delete_first_keys_skipn {V} (n : nat) (m : jsmap V) :
  List.NoDup (map_keys m) ->
  fold_left (fun c k => map_delete k c) (firstn n (map_keys m)) m = skipn n m.
Proof.
  rewrite delete_all_filter. unfold map_keys. revert n.
  induction m as [|p m IH]; intros n Hnd; [now destruct n|].
  simpl in Hnd. inversion Hnd as [|? ? Hp Hm]; subst.
  destruct n as [|n].
  - simpl. f_equal. clear. induction m as [|q m IHm]; [reflexivity|]. simpl. now f_equal.
  - simpl firstn. simpl List.filter. rewrite String.eqb_refl. simpl.
    rewrite <- (IH n Hm). apply List.filter_ext_in. intros q Hq. simpl.
    destruct (String.eqb_spec (fst p) (fst q)) as [E|E]; [|reflexivity].
    exfalso. apply Hp. rewrite E. now apply in_map.
Qed.

(** X1.  [cleanupHighlights] brings the map back to the limit: after
    it the map holds at most [MAX_HIGHLIGHTS] entries, and so it does
    after every call of [createTextHighlight] that returns true.  On a
    map of distinct keys above the limit it removes the entries in
    excess from the old end and keeps the others, in their order. *)
Theorem cleanupHighlights_limit (s : highlight_state) :
  map_size (noteHighlights (cleanupHighlights s)) <= MAX_HIGHLIGHTS
  /\ (forall id sd color s1,
        createTextHighlight id sd color s = (true, s1) ->
        map_size (noteHighlights s1) <= MAX_HIGHLIGHTS)
  /\ (List.NoDup (map_keys (noteHighlights s)) ->
      noteHighlights (cleanupHighlights s)
      = skipn (map_size (noteHighlights s) - MAX_HIGHLIGHTS) (noteHighlights s)).
Proof.
  assert (forall s', map_size (noteHighlights (cleanupHighlights s')) <= MAX_HIGHLIGHTS)
    as Hlimit.
  { intros s'. unfold cleanupHighlights.
    destruct (Nat.ltb_spec MAX_HIGHLIGHTS (map_size (noteHighlights s'))) as [H|H];
      [|exact H].
    rewrite noteHighlights_remove_all.
    pose proof (delete_first_keys_size (map_size (noteHighlights s') - MAX_HIGHLIGHTS)
                  (noteHighlights s')). lia. }
  split; [apply Hlimit|]. split.
  - intros id sd color s1 H. destruct sd as [sd|]; [|discriminate].
    apply createTextHighlight_true in H as (_ & ? & ? & ? & ? & _ & _ & _ & _ & ->).
    apply Hlimit.
  - intros Hnd. unfold cleanupHighlights.
    destruct (Nat.ltb_spec MAX_HIGHLIGHTS (map_size (noteHighlights s))) as [H|H].
    + rewrite noteHighlights_remove_all. now apply delete_first_keys_skipn.
    + replace (map_size (noteHighlights s) - MAX_HIGHLIGHTS) with 0 by lia. reflexivity.
Qed.

(** *** [findTextOffset] and [findTextInElement] *)

Lemma substring_prefix_part_0 (a b d : string) :
  substring 0 (String.length (a ++ b)) d = a ++ b ->
  substring 0 (String.length a) d = a.
Proof.
  revert d. induction a as [|x a IH]; intros d; [intros _; apply substring_0_0|].
  rewrite append_cons. destruct d as [|y d]; simpl; [discriminate|].
  intros [= -> H]. f_equal. now apply IH.
Qed.

Lemma substring_prefix_part (m : nat) (a b d : string) :
  substring m (String.length (a ++ b)) d = a ++ b ->
  substring m (String.length a) d = a.
Proof.
  revert d. induction m as [|m IH]; intros d H.
  - now apply substring_prefix_part_0 in H.
  - destruct d as [|y d].
    + rewrite substring_of_empty in H. symmetry in H.
      apply append_eq_empty in H as [-> _]. apply substring_of_empty.
    + simpl in *. now apply IH.
Qed.

Lemma includes_false_indexOf (s t : string) :
  includes s t = false <-> indexOf s t = (-1)%Z.
Proof.
  unfold includes, indexOf. destruct (index 0 t s); split; intros; try lia; congruence.
Qed.

(** X2.  [findTextOffset] answers -1 exactly when the text does not
    occur in the node; otherwise its answer is the start of an
    occurrence of the text, and when the context before the text is
    given and occurs in front of the text somewhere in the node, the
    occurrence found comes right after an occurrence of the context. *)
Theorem findTextOffset_spec (d text before : string) :
  (findTextOffset d text before = (-1)%Z <-> includes d text = false)
  /\ (includes d text = true ->
      (0 <= findTextOffset d text before)%Z
      /\ substring (Z.to_nat (findTextOffset d text before)) (String.length text) d = text)
  /\ (includes d (before ++ text) = true -> before <> "" ->
      (Z.of_nat (String.length before) <= findTextOffset d text before)%Z
      /\ substring (Z.to_nat (findTextOffset d text before) - String.length before)
           (String.length before) d = before).
Proof.
  split; [|split].
  - split.
    + intros H. destruct (includes d text) eqn:E; [|reflexivity].
      now apply (findTextOffset_found d text before) in E.
    + intros H. destruct (Z.eq_dec (findTextOffset d text before) (-1)%Z) as [E|E];
        [exact E|]. apply findTextOffset_includes in E. congruence.
  - intros H. pose proof (findTextOffset_found d text before H) as Hne. split.
    + unfold findTextOffset in *. pose proof (indexOf_range d text).
      destruct before as [|x before]; [lia|].
      pose proof (indexOf_range d (String x before ++ text)).
      destruct (indexOf d (String x before ++ text) =? -1)%Z eqn:E; [lia|].
      apply Z.eqb_neq in E. lia.
    + now apply findTextOffset_substring.
  - intros H Hb. unfold findTextOffset. destruct before as [|x before]; [congruence|].
    pose proof (includes_indexOf _ _ H) as H0.
    destruct (indexOf d (String x before ++ text) =? -1)%Z eqn:E;
      [apply Z.eqb_eq in E; lia|].
    apply Z.eqb_neq in E. apply indexOf_substring in E.
    apply substring_prefix_part in E. split; [lia|].
    rewrite Z2Nat.inj_add, Nat2Z.id by lia.
    replace (Z.to_nat (indexOf d (String x before ++ text))
             + String.length (String x before) - String.length (String x before))
      with (Z.to_nat (indexOf d (String x before ++ text))) by lia.
    exact E.
Qed.

(** X3.  [findTextInElement] answers null exactly when no text node
    under the element holds the text.  Otherwise the node it answers
    with is the first text node, in document order, that holds the
    text, whatever the context, and the position is the start of an
    occurrence of the text in that node. *)
Theorem findTextInElement_first_node (element : node) (text before after : string) :
  match findTextInElement element text before after with
  | None => has_text text element = false
  | Some (node, pos) =>
      exists earlier d later,
        text_nodes element = (earlier ++ (node, d) :: later)%list
        /\ Forall (fun p => includes (snd p) text = false) earlier
        /\ includes d text = true
        /\ (0 <= pos)%Z
        /\ substring (Z.to_nat pos) (String.length text) d = text
  end.
Proof.
  unfold findTextInElement, has_text. generalize (text_nodes element) as nodes.
  induction nodes as [|[r d] nodes IH]; [reflexivity|].
  simpl findTextInNodes.
  destruct (includes d (before ++ text ++ after)) eqn:E1.
  - exists [], d, nodes. split; [reflexivity|]. split; [constructor|].
    split; [now apply includes_inner in E1|].
    pose proof (includes_indexOf _ _ E1) as H0. split; [lia|].
    assert (indexOf d (before ++ text ++ after) <> -1)%Z as Hne by lia.
    apply indexOf_substring in Hne. apply substring_skip in Hne.
    apply substring_prefix_part in Hne.
    rewrite Z2Nat.inj_add, Nat2Z.id by lia. exact Hne.
  - destruct (includes d text) eqn:E2.
    + exists [], d, nodes. split; [reflexivity|]. split; [constructor|].
      split; [exact E2|]. pose proof (includes_indexOf _ _ E2) as H0. split; [exact H0|].
      apply indexOf_substring. lia.
    + simpl existsb. rewrite E2. simpl.
      destruct (findTextInNodes nodes text before after) as [[node pos]|]; [|exact IH].
      destruct IH as (earlier & d' & later & -> & Hall & Hd & Hp & Hs).
      exists ((r, d) :: earlier), d', later. split; [reflexivity|].
      split; [constructor; [exact E2 | exact Hall]|]. repeat split; assumption.
Qed.


(** *** The span of a highlight *)

Lemma subtree_text_nodes r (n x : node) (p : nat * string) :
  subtree r n = Some x -> In p (text_nodes x) -> In p (text_nodes n).
Proof.
  induction n as [r' d | r' t i c kids IH] using node_induction; [discriminate|].
  rewrite subtree_Element. destruct (r' =? r)%nat; [now intros [= <-]|].
  rewrite text_nodes_Element. intros H Hp.
  induction IH as [|k kids Hk _ IHk]; [discriminate|].
  simpl in *. apply in_app_iff. destruct (subtree r k) as [y|].
  - left. apply Hk; [exact H | exact Hp].
  - right. now apply IHk.
Qed.

(** Where the span is after [wrap_range]: around the characters of the
    range of the first text node with the reference. *)
Lemma subtree_span_wrap_child tn span mid after offset len (k : node) :
  count_nodes (is_element_ref span) k = 0 ->
  first_some (List.map (subtree span) (wrap_child tn span mid after offset len k))
  = option_map (fun p => highlight_span span mid (substring offset len (snd p)))
      (List.find (fun p => (fst p =? tn)%nat) (text_nodes k)).
Proof.
  induction k as [r d | r t i c kids IH] using node_induction.
  - intros _. unfold wrap_child. simpl is_text_ref. simpl text_nodes. simpl List.find.
    destruct (r =? tn)%nat; [|reflexivity].
    unfold split_around. simpl. now rewrite Nat.eqb_refl.
  - rewrite count_nodes_Element.
    change (is_element_ref span (Element r t i c kids)) with (r =? span)%nat.
    intros H.
    change (wrap_child tn span mid after offset len (Element r t i c kids))
      with [wrap_range tn span mid after offset len (Element r t i c kids)].
    change (first_some
              (List.map (subtree span)
                 [wrap_range tn span mid after offset len (Element r t i c kids)]))
      with (match subtree span
                    (wrap_range tn span mid after offset len (Element r t i c kids))
            with Some x => Some x | None => None end).
    rewrite wrap_range_children, subtree_Element, text_nodes_Element.
    destruct (r =? span)%nat; [simpl in H; lia|]. simpl in H.
    assert (first_some (List.map (subtree span)
                          (flat_map (wrap_child tn span mid after offset len) kids))
            = option_map (fun p => highlight_span span mid (substring offset len (snd p)))
                (List.find (fun p => (fst p =? tn)%nat) (flat_map text_nodes kids))) as Hk.
    { clear r t i c. induction IH as [|k kids Hk _ IHk]; [reflexivity|].
      rewrite count_list_cons in H. simpl flat_map.
      rewrite List.map_app, first_some_app, find_app_first, Hk, IHk by lia.
      destruct (List.find _ (text_nodes k)); reflexivity. }
    rewrite Hk. destruct (option_map _ _); reflexivity.
Qed.

(** X4.  On a page whose references are identities and where the other
    notes hold fewer than [MAX_HIGHLIGHTS] highlights, a call of
    [createTextHighlight] that returns true leaves, recorded for the
    note and in the document, a [SPAN] of class [web-notes-highlight]
    whose only child is a text node with exactly the selected text; the
    background written on it is the sanitized colour. *)
Theorem createTextHighlight_wraps_text (id : string) (sd : selection_data)
    (color : js_value) (s s1 : highlight_state) :
  well_formed s ->
  map_size (map_delete id (noteHighlights s)) < MAX_HIGHLIGHTS ->
  createTextHighlight id (Some sd) color s = (true, s1) ->
  exists w mid,
    wrapper_of s1 id = Some w
    /\ hasHighlight s1 id = true
    /\ find_element (hs_doc s1) w = Some (highlight_span w mid (sel_text sd))
    /\ List.head (hs_background s1) = Some (w, sanitizeColor color).
Proof.
  intros Hwf Hsize Hcall.
  destruct (createTextHighlight_located id sd color s s1 Hwf Hsize Hcall)
    as (target & textNode & offset & Hloc & ->).
  set (s0 := snd (removeTextHighlight id s)) in *.
  destruct Hloc as [Hwf0 _ _ _ (targetElement & d & Hsub & Hin & Hoff)].
  exists (hs_next_ref s0), (S (hs_next_ref s0)).
  split; [unfold wrapper_of; cbn [highlighted noteHighlights];
          now rewrite map_get_set_same|].
  split; [unfold hasHighlight, map_has; cbn [highlighted noteHighlights];
          now rewrite map_get_set_same|].
  split; [|reflexivity].
  rewrite find_element_subtree. cbn [highlighted hs_doc].
  pose proof (subtree_span_wrap_child textNode (hs_next_ref s0) (S (hs_next_ref s0))
                (S (S (hs_next_ref s0))) offset (String.length (sel_text sd)) (hs_doc s0)
                (first_span_absent_before s0 Hwf0)) as H.
  unfold wrap_child in H. rewrite (subtree_not_text target textNode _ _ Hsub) in H.
  cbn [List.map first_some] in H.
  rewrite (find_unique textNode d) in H.
  - simpl in H. rewrite Hoff in H.
    destruct (subtree (hs_next_ref s0) _); [exact H | discriminate].
  - now apply (subtree_text_nodes target _ targetElement).
  - rewrite <- count_text_nodes.
    pose proof (count_text_le_occ textNode (hs_doc s0)).
    pose proof (wf_unique _ Hwf0 textNode). lia.
Qed.

Lemma createTextHighlight_wraps_text_witness :
  exists w mid,
    wrapper_of once_highlighted "note-1" = Some w
    /\ find_element (hs_doc once_highlighted) w = Some (highlight_span w mid "hello").
Proof.
  destruct (createTextHighlight_wraps_text "note-1" hello_selection (JString "#fff3cd")
              plain_page once_highlighted)
    as (w & mid & H1 & _ & H2 & _).
  - apply well_formedb_sound. reflexivity.
  - vm_compute. lia.
  - reflexivity.
  - exists w, mid. split; [exact H1 | exact H2].
Defined.

(** *** [clearAllHighlights] *)

Lemma delete_all_keys {V} (m : jsmap V) :
  fold_left (fun c k => map_delete k c) (map_keys m) m = [].
Proof.
  pose proof (delete_first_keys_size (List.length m) m) as H.
  unfold map_keys in *. rewrite List.firstn_all2 in H by (rewrite List.length_map; lia).
  unfold map_size in H.
  destruct (fold_left _ _ m); [reflexivity | simpl in H; lia].
Qed.

Lemma count_nodes_remove_all (p : node -> bool) (ids : list string) (s : highlight_state) :
  shallow p -> (forall fresh d, p (Text fresh d) = false) ->
  count_nodes p (hs_doc (fold_left (fun st noteId => snd (removeTextHighlight noteId st))
                           ids s))
  <= count_nodes p (hs_doc s).
Proof.
  intros Hp Hf. revert s. induction ids as [|id ids IH]; intros s; [reflexivity|].
  simpl. etransitivity; [apply IH|]. now apply count_nodes_removeTextHighlight.
Qed.

(** X5.  After [clearAllHighlights] no note has a highlight: the map
    is empty, none of the spans the calls have made is in the
    document, the document holds no more highlight spans than before,
    and its text is what it was. *)
Theorem clearAllHighlights_clears (own : list (nat * string)) (s : highlight_state) :
  consistent own s ->
  (forall id, hasHighlight (clearAllHighlights s) id = false)
  /\ (forall r id, In (r, id) own -> contains (hs_doc (clearAllHighlights s)) r = false)
  /\ count_highlights (hs_doc (clearAllHighlights s)) <= count_highlights (hs_doc s)
  /\ textContent (hs_doc (clearAllHighlights s)) = textContent (hs_doc s).
Proof.
  intros Hc. unfold clearAllHighlights.
  set (s' := fold_left (fun st noteId => snd (removeTextHighlight noteId st))
               (map_keys (noteHighlights s)) s).
  cbn [hs_doc].
  assert (consistent own s') as Hc' by now apply consistent_remove_all.
  assert (noteHighlights s' = []) as Hempty.
  { unfold s'. rewrite noteHighlights_remove_all. apply delete_all_keys. }
  split; [reflexivity|]. split; [|split].
  - intros r id Hin. destruct (contains (hs_doc s') r) eqn:E; [|reflexivity].
    pose proof (con_recorded _ _ Hc' r id Hin E) as H.
    unfold wrapper_of in H. rewrite Hempty in H. discriminate.
  - apply count_nodes_remove_all; [apply shallow_has_class | apply has_class_Text].
  - apply textContent_remove_all.
Qed.

Lemma clearAllHighlights_clears_witness :
  consistent (made [CreateHighlight "note-1" (Some hello_selection) (JString "#fff3cd")]
                plain_page) once_highlighted
  /\ contains (hs_doc once_highlighted) 7 = true
  /\ contains (hs_doc (clearAllHighlights once_highlighted)) 7 = false.
Proof.
  assert (Hc : consistent
                 (made [CreateHighlight "note-1" (Some hello_selection) (JString "#fff3cd")]
                    plain_page) once_highlighted).
  { apply (consistent_run_ops []
             [CreateHighlight "note-1" (Some hello_selection) (JString "#fff3cd")]
             plain_page).
    apply recorded_below_root_sound; [apply well_formedb_sound|]; reflexivity. }
  split; [exact Hc|]. split; [reflexivity|].
  destruct (clearAllHighlights_clears _ _ Hc) as (_ & H & _).
  apply (H 7 "note-1"). vm_compute. now left.
Defined.

(** *** [getTextContext] *)

Lemma substring_join (d : string) (a l1 l2 : nat) :
  a + l1 + l2 <= String.length d ->
  substring a l1 d ++ substring (a + l1) l2 d = substring a (l1 + l2) d.
Proof.
  revert a l1. induction d as [|x d IH]; intros a l1 H.
  - simpl in H. assert (a = 0 /\ l1 = 0 /\ l2 = 0) as (-> & -> & ->) by lia. reflexivity.
  - destruct a as [|a].
    + destruct l1 as [|l1].
      * rewrite substring_0_0, append_nil_l. reflexivity.
      * simpl in *. rewrite append_cons. f_equal.
        specialize (IH 0 l1). simpl in IH. apply IH. lia.
    + simpl in *. apply IH. lia.
Qed.

Lemma js_substring_ordered (d : string) (a b : Z) :
  (0 <= a <= b)%Z -> (b <= Z.of_nat (String.length d))%Z ->
  js_substring d a b = substring (Z.to_nat a) (Z.to_nat b - Z.to_nat a) d.
Proof.
  intros Ha Hb. unfold js_substring.
  rewrite (Z.min_l a), (Z.min_l b), (Z.max_r 0 a), (Z.max_r 0 b) by lia.
  rewrite Z.min_l, Z.max_r by lia. f_equal. lia.
Qed.

Lemma length_substring_le (a l : nat) (d : string) :
  String.length (substring a l d) <= l.
Proof.
  revert a l. induction d as [|x d IH]; intros a l.
  - rewrite substring_of_empty. simpl. lia.
  - destruct a as [|a]; [destruct l as [|l]; simpl; [lia|] | simpl; apply IH].
    specialize (IH 0 l). lia.
Qed.

(** X6.  Around a range of a text node, [getTextContext] gives the
    characters just before the start and just after the end, at most
    as many as asked for: with the characters of the range in between
    they are one slice of the text of the node, so the three together
    occur in the node.  For a node that is not a text node the context
    is empty. *)
Theorem getTextContext_slice (r : nat) (d : string) (start stop before after : Z) :
  (0 <= start <= stop)%Z -> (stop <= Z.of_nat (String.length d))%Z ->
  (0 < before)%Z -> (0 <= after)%Z ->
  getTextContext (Text r d) start (- before) ++ js_substring d start stop
    ++ getTextContext (Text r d) stop after
  = js_substring d (Z.max 0 (start - before))
      (Z.min (Z.of_nat (String.length d)) (stop + after))
  /\ (Z.of_nat (String.length (getTextContext (Text r d) start (- before))) <= before)%Z
  /\ (Z.of_nat (String.length (getTextContext (Text r d) stop after)) <= after)%Z
  /\ includes d (getTextContext (Text r d) start (- before) ++ js_substring d start stop
                 ++ getTextContext (Text r d) stop after) = true
  /\ (forall r' t i c kids n len, getTextContext (Element r' t i c kids) n len = "").
Proof.
  intros Hs He Hb Ha.
  assert (getTextContext (Text r d) start (- before)
          = substring (Z.to_nat (Z.max 0 (start - before)))
              (Z.to_nat start - Z.to_nat (Z.max 0 (start - before))) d) as Hcb.
  { unfold getTextContext. destruct (Z.ltb_spec (- before) 0); [|lia].
    replace (start + - before)%Z with (start - before)%Z by lia.
    apply js_substring_ordered; lia. }
  assert (getTextContext (Text r d) stop after
          = substring (Z.to_nat stop)
              (Z.to_nat (Z.min (Z.of_nat (String.length d)) (stop + after))
               - Z.to_nat stop) d) as Hca.
  { unfold getTextContext. destruct (Z.ltb_spec after 0); [lia|].
    apply js_substring_ordered; lia. }
  assert (getTextContext (Text r d) start (- before) ++ js_substring d start stop
            ++ getTextContext (Text r d) stop after
          = js_substring d (Z.max 0 (start - before))
              (Z.min (Z.of_nat (String.length d)) (stop + after))) as Hall.
  { rewrite Hcb, Hca, !js_substring_ordered by lia.
    set (a := Z.to_nat (Z.max 0 (start - before))).
    set (e := Z.to_nat (Z.min (Z.of_nat (String.length d)) (stop + after))).
    replace (Z.to_nat stop) with (Z.to_nat start + (Z.to_nat stop - Z.to_nat start)) at 2
      by lia.
    rewrite substring_join by lia.
    replace (Z.to_nat start) with (a + (Z.to_nat start - a)) at 2 by (unfold a; lia).
    rewrite substring_join by (unfold a, e; lia).
    f_equal. unfold a, e. lia. }
  split; [exact Hall|].
  split; [rewrite Hcb; pose proof (length_substring_le
            (Z.to_nat (Z.max 0 (start - before)))
            (Z.to_nat start - Z.to_nat (Z.max 0 (start - before))) d); lia|].
  split; [rewrite Hca; pose proof (length_substring_le (Z.to_nat stop)
            (Z.to_nat (Z.min (Z.of_nat (String.length d)) (stop + after))
             - Z.to_nat stop) d); lia|].
  split; [|reflexivity].
  rewrite Hall. unfold js_substring. apply includes_substring.
Qed.

Lemma getTextContext_slice_witness :
  getTextContext (Text 4 "say hello world today") 4 (-50) ++ "hello"
    ++ getTextContext (Text 4 "say hello world today") 9 50
  = "say hello world today".
Proof.
  destruct (getTextContext_slice 4 "say hello world today" 4 9 50 50) as (H & _);
    [simpl; lia | simpl; lia | lia | lia |].
  exact H.
Defined.

(** ** More of dom-selectors.js *)

(** *** The size of the element cache *)

Lemma cacheElement_size (cache : element_cache) (key : string) (element : nat) :
  map_size cache <= CACHE_SIZE_LIMIT ->
  map_size (cacheElement cache key element) <= CACHE_SIZE_LIMIT.
Proof.
  intros H. unfold cacheElement.
  destruct (Nat.leb_spec CACHE_SIZE_LIMIT (map_size cache)) as [Hfull|Hroom].
  - pose proof (delete_first_keys_size (CACHE_SIZE_LIMIT * 25 / 100) cache) as Hd.
    pose proof (map_size_set key element
                  (fold_left (fun c k => map_delete k c)
                     (firstn (CACHE_SIZE_LIMIT * 25 / 100) (map_keys cache)) cache)) as Hs.
    change (CACHE_SIZE_LIMIT * 25 / 100) with 125 in *.
    unfold CACHE_SIZE_LIMIT in *. lia.
  - pose proof (map_size_set key element cache). lia.
Qed.

(** X7.  The element cache stays within its limit: [cacheElement] on a
    cache of at most [CACHE_SIZE_LIMIT] entries leaves at most that
    many, with the element under the key, and below the limit it
    touches no other key; every call of [findElementBySelector], and
    so every run of calls, keeps the cache within the limit. *)
Theorem element_cache_limit (doc : node) (cache : element_cache) :
  map_size cache <= CACHE_SIZE_LIMIT ->
  (forall key element,
      map_size (cacheElement cache key element) <= CACHE_SIZE_LIMIT
      /\ map_get key (cacheElement cache key element) = Some element
      /\ (map_size cache < CACHE_SIZE_LIMIT ->
          forall k, k <> key -> map_get k (cacheElement cache key element) = map_get k cache))
  /\ (forall s, map_size (snd (findElementBySelector doc cache s)) <= CACHE_SIZE_LIMIT)
  /\ (forall calls, map_size (snd (resolve_all doc cache calls)) <= CACHE_SIZE_LIMIT).
Proof.
  intros H.
  assert (forall cache' s, map_size cache' <= CACHE_SIZE_LIMIT ->
            map_size (snd (findElementBySelector doc cache' s)) <= CACHE_SIZE_LIMIT)
    as Hfind.
  { intros cache' [s|] Hc; [|exact Hc]. unfold findElementBySelector.
    assert (forall c, map_size c <= CACHE_SIZE_LIMIT ->
              map_size (snd (query_selectors doc c (cache_key s) s)) <= CACHE_SIZE_LIMIT)
      as Hq.
    { intros c Hc'. destruct (query_selectors_spec doc c (cache_key s) s)
        as [->|(e & _ & ->)]; [exact Hc' | now apply cacheElement_size]. }
    destruct (map_get (cache_key s) cache') as [cached|]; [|now apply Hq].
    destruct (contains doc cached); [exact Hc|].
    apply Hq. pose proof (map_size_delete (cache_key s) cache'). lia. }
  split; [|split].
  - intros key element. split; [now apply cacheElement_size|].
    split; [unfold cacheElement; now rewrite map_get_set, String.eqb_refl|].
    intros Hroom k Hk. unfold cacheElement.
    destruct (Nat.leb_spec CACHE_SIZE_LIMIT (map_size cache)); [lia|].
    rewrite map_get_set. destruct (String.eqb_spec k key); [congruence | reflexivity].
  - intros s. now apply Hfind.
  - intros calls. revert cache H. induction calls as [|s calls IH]; intros cache H;
      [exact H|].
    simpl. pose proof (Hfind cache s H) as Hs.
    destruct (findElementBySelector doc cache s) as [r cache1].
    specialize (IH cache1 Hs). destruct (resolve_all doc cache1 calls) as [rs cache2].
    exact IH.
Qed.

Lemma element_cache_limit_witness :
  map_size (snd (resolve_all sample_doc stale_cache [Some p_selector; None]))
  <= CACHE_SIZE_LIMIT.
Proof.
  destruct (element_cache_limit sample_doc stale_cache) as (_ & _ & H).
  - vm_compute. lia.
  - apply H.
Defined.

(** *** [tryBothSelectors] *)

Lemma cache_key_truthy (s : selector) : truthy (Some (cache_key s)) = Some (cache_key s).
Proof.
  unfold cache_key. destruct (or_empty (css s)) as [|a c].
  - rewrite append_nil_l. reflexivity.
  - rewrite append_cons. reflexivity.
Qed.

Lemma try_lookups_keyed (doc : node) (cache : element_cache) (noteData : note_data)
    (key : string) :
  truthy (Some key) = Some key ->
  try_lookups doc cache noteData (Some key)
  = query_selectors doc cache key
      {| css := cssSelector noteData; xpath := nd_xpath noteData |}.
Proof.
  intros Hk. unfold try_lookups, query_selectors, cache_if_keyed. rewrite Hk.
  reflexivity.
Qed.

Lemma try_lookups_attached (doc : node) (cache : element_cache) (noteData : note_data)
    (cacheKey : option string) (e : nat) :
  fst (try_lookups doc cache noteData cacheKey) = Some e -> contains doc e = true.
Proof.
  unfold try_lookups.
  assert (forall x, fst (if validateXPath (Some x)
                         then match evaluate doc x with
                              | Returned (Some element) =>
                                  (Some element, cache_if_keyed cache cacheKey element)
                              | _ => (None, cache)
                              end
                         else (None, cache)) = Some e -> contains doc e = true) as Hx.
  { intros x. destruct (validateXPath (Some x)); [|discriminate].
    destruct (evaluate doc x) as [|[el|]] eqn:E; try discriminate.
    intros [= ->]. eapply evaluate_contains. exact E. }
  destruct (truthy (cssSelector noteData)) as [c|].
  - destruct (querySelector doc c) as [|[el|]] eqn:E.
    + destruct (truthy (nd_xpath noteData)); [apply Hx | discriminate].
    + intros [= ->]. eapply querySelector_contains. exact E.
    + destruct (truthy (nd_xpath noteData)); [apply Hx | discriminate].
  - destruct (truthy (nd_xpath noteData)); [apply Hx | discriminate].
Qed.

Lemma try_lookups_unkeyed (doc : node) (cache : element_cache) (noteData : note_data) :
  snd (try_lookups doc cache noteData None) = cache.
Proof.
  unfold try_lookups, cache_if_keyed. simpl truthy.
  assert (forall x, snd (if validateXPath (Some x)
                         then match evaluate doc x with
                              | Returned (Some element) => (Some element, cache)
                              | _ => (None, cache)
                              end
                         else (None, cache)) = cache) as Hx.
  { intros x. destruct (validateXPath (Some x)); [|reflexivity].
    destruct (evaluate doc x) as [|[el|]]; reflexivity. }
  destruct (truthy (cssSelector noteData)) as [c|].
  - destruct (querySelector doc c) as [|[el|]]; try reflexivity;
      destruct (truthy (nd_xpath noteData)); try reflexivity; apply Hx.
  - destruct (truthy (nd_xpath noteData)); [apply Hx | reflexivity].
Qed.

(** X8.  [tryBothSelectors] never answers with an element that is not
    in the document.  Called with the key [findElementBySelector]
    builds for the selector pair of the note, it gives the answer of
    [findElementBySelector] and leaves the same cache; called without
    a key it leaves the cache as it was. *)
Theorem tryBothSelectors_resolves (doc : node) (cache : element_cache)
    (noteData : note_data) :
  (forall cacheKey e,
      fst (tryBothSelectors doc cache noteData cacheKey) = Some e ->
      contains doc e = true)
  /\ tryBothSelectors doc cache noteData
       (Some (cache_key {| css := cssSelector noteData; xpath := nd_xpath noteData |}))
     = findElementBySelector doc cache
         (Some {| css := cssSelector noteData; xpath := nd_xpath noteData |})
  /\ snd (tryBothSelectors doc cache noteData None) = cache.
Proof.
  split; [|split].
  - intros cacheKey e. unfold tryBothSelectors.
    destruct (truthy cacheKey) as [key|]; [|apply try_lookups_attached].
    destruct (map_get key cache) as [cached|]; [|apply try_lookups_attached].
    destruct (contains doc cached) eqn:E; [|apply try_lookups_attached].
    intros [= <-]. exact E.
  - unfold tryBothSelectors, findElementBySelector.
    set (s := {| css := cssSelector noteData; xpath := nd_xpath noteData |}).
    rewrite cache_key_truthy.
    rewrite !try_lookups_keyed by apply cache_key_truthy. reflexivity.
  - unfold tryBothSelectors. simpl truthy. apply try_lookups_unkeyed.
Qed.

(** *** [findTextNodeInElement] *)

Lemma total_length_app (l1 l2 : list (nat * string)) :
  total_length (l1 ++ l2)%list = (total_length l1 + total_length l2)%Z.
Proof.
  unfold total_length. induction l1 as [|p l1 IH]; simpl; [reflexivity|].
  rewrite IH. lia.
Qed.

Lemma total_length_nonneg (l : list (nat * string)) : (0 <= total_length l)%Z.
Proof. unfold total_length. induction l as [|p l IH]; simpl; lia. Qed.



(** *** [isValidCSSClass] and [CSS.escape] *)

Lemma class_char_plain (a : ascii) :
  is_class_char a = true ->
  (nat_of_ascii a =? 0)%nat = false
  /\ ((nat_of_ascii a <=? 31) || (nat_of_ascii a =? 127))%nat = false
  /\ is_name_char a = true.
Proof. destruct a as [[] [] [] [] [] [] [] []]; vm_compute; intuition congruence. Qed.

Lemma alpha_plain (a : ascii) :
  is_alpha a = true ->
  is_digit a = false /\ Ascii.eqb a "-" = false /\ is_class_char a = true.
Proof. destruct a as [[] [] [] [] [] [] [] []]; vm_compute; intuition congruence. Qed.

Lemma css_escape_from_class (first : ascii) (len : nat) (s : string) (i : nat) :
  is_alpha first = true ->
  string_forall is_class_char s = true ->
  css_escape_from (S i) first len s = s.
Proof.
  intros Hf. revert i. induction s as [|a s IH]; intros i Hs; [reflexivity|].
  simpl in Hs. apply andb_prop in Hs as [Ha Hs].
  destruct (class_char_plain a Ha) as (H0 & H31 & Hname).
  destruct (alpha_plain first Hf) as (_ & Hdash & _).
  simpl css_escape_from. rewrite H0, H31, Hname, Hdash, IH by exact Hs.
  rewrite andb_false_r. reflexivity.
Qed.

(** X10.  [isValidCSSClass] accepts exactly the names of at most fifty
    characters that start with a letter and go on with letters,
    digits, underscores and hyphens; [CSS.escape] leaves such a name
    as it is, so [generateCSSSelector] writes the classes it keeps
    unchanged. *)
Theorem isValidCSSClass_spec (className : string) :
  (isValidCSSClass className = true <->
   exists a rest, className = String a rest
                  /\ is_alpha a = true
                  /\ string_forall is_class_char rest = true
                  /\ String.length className <= 50)
  /\ (isValidCSSClass className = true -> CSS_escape className = className).
Proof.
  assert (isValidCSSClass className = true <->
          exists a rest, className = String a rest
                         /\ is_alpha a = true
                         /\ string_forall is_class_char rest = true
                         /\ String.length className <= 50) as Hiff.
  { unfold isValidCSSClass. destruct className as [|a rest].
    { split; [discriminate | intros (? & ? & ? & _); discriminate]. }
    rewrite andb_true_iff, Nat.leb_le. unfold re_test, re_exec, validClassPattern.
    rewrite re_match_Cat, re_match_Chr_cons. split.
    - intros [H Hlen]. destruct (is_alpha a) eqn:Ha; [|discriminate].
      exists a, rest. split; [reflexivity|]. split; [exact Ha|]. split; [|exact Hlen].
      destruct (re_match _ rest [] at_end) as [res|] eqn:E; [|discriminate].
      apply star_chr_backward in E as (w & t & -> & Hw & Hend).
      apply at_end_backward in Hend as [-> _]. now rewrite append_nil_r.
    - intros (a' & rest' & [= <- <-] & Ha & Hrest & Hlen). split; [|exact Hlen].
      rewrite Ha. rewrite <- (append_nil_r rest).
      rewrite (star_chr_forward _ at_end rest "" [] []); [reflexivity | exact Hrest | |];
        reflexivity. }
  split; [exact Hiff|].
  intros H. apply Hiff in H as (a & rest & -> & Ha & Hrest & _).
  destruct (alpha_plain a Ha) as (Hd & Hdash & Hc).
  destruct (class_char_plain a Hc) as (H0 & H31 & Hname).
  unfold CSS_escape. simpl css_escape_from.
  rewrite H0, H31, Hd, Hdash, Hname, css_escape_from_class by assumption.
  simpl. rewrite andb_false_r. reflexivity.
Qed.

(** *** The paths of [generateXPath] and [validateXPath] *)

Lemma string_forall_impl (p q : ascii -> bool) (s : string) :
  (forall a, p a = true -> q a = true) ->
  string_forall p s = true -> string_forall q s = true.
Proof.
  intros Hpq. induction s as [|a s IH]; [reflexivity|].
  simpl. intros H. apply andb_prop in H as [Ha Hs]. now rewrite (Hpq a Ha), IH.
Qed.

Lemma string_forall_toLowerCase (s : string) :
  string_forall is_tag_char s = true ->
  string_forall is_path_char (toLowerCase s) = true.
Proof.
  induction s as [|a s IH]; [reflexivity|].
  simpl. intros H. apply andb_prop in H as [Ha Hs]. rewrite IH by exact Hs.
  rewrite andb_true_r. revert Ha.
  destruct a as [[] [] [] [] [] [] [] []]; vm_compute; congruence.
Qed.

Lemma string_forall_uint (d : Decimal.uint) :
  string_forall is_path_char (NilEmpty.string_of_uint d) = true.
Proof. induction d; simpl; try exact IHd; reflexivity. Qed.

Lemma string_forall_join (l : list string) :
  Forall (fun s => string_forall is_path_char s = true) l ->
  string_forall is_path_char (join "/" l) = true.
Proof.
  unfold join. induction 1 as [|s l Hs Hl IH]; [reflexivity|].
  destruct l as [|t l]; [exact Hs|].
  change (String.concat "/" (s :: t :: l)) with (s ++ "/" ++ String.concat "/" (t :: l)).
  rewrite !string_forall_append, Hs, IH. reflexivity.
Qed.

Lemma xpath_path_chars (doc : node) (ch : list node) :
  Forall (fun n => string_forall is_tag_char (node_tagName n) = true) ch ->
  Forall (fun s => string_forall is_path_char s = true) (xpath_path doc ch).
Proof.
  induction 1 as [|current up Hc Hup IH]; [constructor|].
  simpl xpath_path. destruct (is_documentElement doc current); [constructor|].
  apply Forall_app. split; [exact IH|]. constructor; [|constructor].
  rewrite !string_forall_append, string_forall_toLowerCase by exact Hc.
  unfold nat_to_string. rewrite string_forall_uint. reflexivity.
Qed.

(** The strings without the characters the dangerous patterns need. *)
Lemma path_char_harmless (a : ascii) :
  is_path_char a = true ->
  Ascii.eqb "(" a = false /\ Ascii.eqb "=" a = false
  /\ Ascii.eqb (lower_ascii a) ":" = false /\ Ascii.eqb (lower_ascii a) "<" = false
  /\ Ascii.eqb "*" a = false /\ safe_xpath_char a = true.
Proof. destruct a as [[] [] [] [] [] [] [] []]; vm_compute; intuition congruence. Qed.

Lemma re_search_suffix (r : regex) (s : string) :
  re_search r s = true ->
  exists pre suf res,
    s = pre ++ suf /\ re_match r suf [] (fun _ c => Some c) = Some res.
Proof.
  induction s as [|a s IH]; simpl.
  - destruct (re_match r "" [] _) as [res|] eqn:E; [|discriminate].
    intros _. exists "", "", res. split; [reflexivity | exact E].
  - destruct (re_match r (String a s) [] _) as [res|] eqn:E.
    + intros _. exists "", (String a s), res. split; [reflexivity | exact E].
    + intros H. destruct (IH H) as (pre & suf & res & -> & Hm).
      exists (String a pre), suf, res. split; [reflexivity | exact Hm].
Qed.

Lemma chr_backward (p : ascii -> bool) (s : string) c k res :
  re_match (Chr p) s c k = Some res ->
  exists a t, s = String a t /\ p a = true /\ k t c = Some res.
Proof.
  destruct s as [|a t]; [discriminate|]. rewrite re_match_Chr_cons.
  destruct (p a) eqn:E; [|discriminate]. intros H. now exists a, t.
Qed.

(** A match of a literal followed by white space and [c] holds [c]. *)
Lemma call_pattern_needs (l : string) (x : ascii) (suf : string) c k res :
  re_match (Cat (Lit l) (Cat ws (Lit1 x))) suf c k = Some res ->
  exists before after, suf = before ++ String x after.
Proof.
  intros H. rewrite re_match_Cat in H. apply lit_backward in H as (t & -> & H).
  cbv beta in H. rewrite re_match_Cat in H. unfold ws in H.
  apply star_chr_backward in H as (w & t' & -> & _ & H).
  apply lit1_backward in H as (t'' & -> & _).
  exists (l ++ w), t''. now rewrite append_assoc.
Qed.

Lemma litI_backward (l s : string) c k res :
  re_match (LitI l) s c k = Some res ->
  exists m t, s = m ++ t /\ toLowerCase m = toLowerCase l /\ k t c = Some res.
Proof.
  revert s. induction l as [|a l IH]; intros s H.
  - exists "", s. auto.
  - simpl LitI in H. rewrite re_match_Cat in H.
    apply chr_backward in H as (b & t & -> & Hb & H). cbv beta in H.
    apply IH in H as (m & t' & -> & Hm & H).
    exists (String b m), t'. split; [reflexivity|]. split; [|exact H].
    simpl. apply Ascii.eqb_eq in Hb. now rewrite Hb, Hm.
Qed.

Lemma path_without (s before after : string) (x : ascii) :
  string_forall is_path_char s = true -> s = before ++ String x after ->
  is_path_char x = true.
Proof.
  intros Hs ->. rewrite string_forall_append in Hs. apply andb_prop in Hs as [_ Hs].
  simpl in Hs. now apply andb_prop in Hs as [Hx _].
Qed.

Lemma lowered_path (m : string) :
  string_forall is_path_char m = true ->
  string_forall (fun a => negb (Ascii.eqb a ":") && negb (Ascii.eqb a "<"))
    (toLowerCase m) = true.
Proof.
  induction m as [|a m IH]; [reflexivity|].
  simpl. intros H. apply andb_prop in H as [Ha Hm]. rewrite IH by exact Hm.
  destruct (path_char_harmless a Ha) as (_ & _ & H1 & H2 & _). now rewrite H1, H2.
Qed.

Lemma no_dangerous_pattern (s : string) :
  string_forall is_path_char s = true ->
  existsb (fun p => re_search p s) dangerousPatterns = false.
Proof.
  intros Hs.
  assert (forall r, (forall suf res,
                       string_forall is_path_char suf = true ->
                       re_match r suf [] (fun _ c => Some c) = Some res -> False) ->
                    re_search r s = false) as Hno.
  { intros r Hr. destruct (re_search r s) eqn:E; [|reflexivity]. exfalso.
    apply re_search_suffix in E as (pre & suf & res & -> & Hm).
    rewrite string_forall_append in Hs. apply andb_prop in Hs as [_ Hsuf].
    exact (Hr suf res Hsuf Hm). }
  assert (forall l x, Ascii.eqb x "(" = true ->
            forall suf res, string_forall is_path_char suf = true ->
              re_match (Cat (Lit l) (Cat ws (Lit1 x))) suf [] (fun _ c => Some c)
              = Some res -> False) as Hcall.
  { intros l x Hx suf res Hsuf Hm. apply call_pattern_needs in Hm as (b & a & E).
    apply (path_without suf b a x Hsuf) in E. apply Ascii.eqb_eq in Hx. subst x.
    discriminate. }
  assert (forall l, string_forall (fun a => negb (Ascii.eqb a ":") && negb (Ascii.eqb a "<"))
                      (toLowerCase l) = false ->
            forall suf res, string_forall is_path_char suf = true ->
              re_match (LitI l) suf [] (fun _ c => Some c) = Some res -> False) as HlitI.
  { intros l Hl suf res Hsuf Hm. apply litI_backward in Hm as (m & t & -> & Hm & _).
    rewrite string_forall_append in Hsuf. apply andb_prop in Hsuf as [Hm' _].
    apply lowered_path in Hm'. rewrite Hm in Hm'. congruence. }
  unfold dangerousPatterns. cbn [existsb].
  rewrite (Hno _ (Hcall "document" "("%char eq_refl)).
  rewrite (Hno _ (Hcall "eval" "("%char eq_refl)).
  rewrite (Hno _ (Hcall "script" "("%char eq_refl)).
  rewrite (Hno _ (HlitI "javascript:" eq_refl)).
  rewrite (Hno _ (HlitI "data:" eq_refl)).
  rewrite (Hno _ (HlitI "<script" eq_refl)).
  rewrite Hno; [reflexivity|].
  intros suf res Hsuf Hm. rewrite re_match_Cat in Hm.
  apply litI_backward in Hm as (m & t & -> & _ & Hm). cbv beta in Hm.
  unfold Plus in Hm. rewrite !re_match_Cat in Hm.
  apply chr_backward in Hm as (b & t1 & -> & _ & Hm). cbv beta in Hm.
  apply star_chr_backward in Hm as (w & t2 & -> & _ & Hm).
  unfold ws in Hm. rewrite re_match_Cat in Hm.
  apply star_chr_backward in Hm as (w' & t3 & -> & _ & Hm).
  apply lit1_backward in Hm as (t4 & -> & _).
  assert (is_path_char "=" = true) as Habs; [|discriminate Habs].
  apply (path_without _ (m ++ String b (w ++ w')) t4 "="%char Hsuf).
  now rewrite append_assoc, append_cons, append_assoc.
Qed.

Lemma safe_pattern_accepts (rest : string) :
  string_forall is_path_char rest = true ->
  re_test safeXPathPattern ("//" ++ rest) = true.
Proof.
  intros Hr. unfold re_test, re_exec, safeXPathPattern.
  change ("//" ++ rest) with (String "/" (String "/" rest)).
  rewrite re_match_Cat, lit1_forward. unfold Opt.
  rewrite re_match_Cat, re_match_Alt, lit1_forward, re_match_Cat, re_match_Alt.
  assert (re_match (Lit1 "*") rest []
            (fun s' c' => re_match (Star (Chr safe_xpath_char)) s' c' at_end) = None)
    as Hstar.
  { apply chr_fails_on_head. destruct rest as [|a rest]; [exact I|].
    simpl in Hr. apply andb_prop in Hr as [Ha _].
    now destruct (path_char_harmless a Ha) as (_ & _ & _ & _ & H & _). }
  rewrite Hstar, re_match_Eps. rewrite <- (append_nil_r rest).
  rewrite (star_chr_forward safe_xpath_char at_end rest "" [] []); try reflexivity.
  apply (string_forall_impl is_path_char); [|exact Hr].
  intros a Ha. now destruct (path_char_harmless a Ha) as (_ & _ & _ & _ & _ & H).
Qed.

(** X11.  For an element whose tag name and whose ancestors' tag names
    are made of letters, digits, underscores, hyphens and dots, the
    path [generateXPath] writes passes [validateXPath]: the XPath half
    of a generated selector pair is never refused by the resolver. *)
Theorem generated_xpath_validates (doc : node) (ch : list node) (x : string) :
  Forall (fun n => string_forall is_tag_char (node_tagName n) = true) ch ->
  generateXPath doc ch = Some x ->
  validateXPath (Some x) = true.
Proof.
  intros Hch. unfold generateXPath.
  pose proof (xpath_path_chars doc ch Hch) as Hpath.
  destruct (xpath_path doc ch) as [|s path] eqn:E; [discriminate|].
  intros [= <-]. apply string_forall_join in Hpath.
  unfold validateXPath.
  change ("//" ++ join "/" (s :: path)) with (String "/" (String "/" (join "/" (s :: path)))).
  change (String "/" (String "/" (join "/" (s :: path))))
    with ("//" ++ join "/" (s :: path)).
  rewrite safe_pattern_accepts by exact Hpath. cbn [negb].
  rewrite no_dangerous_pattern; [reflexivity|].
  change ("//" ++ join "/" (s :: path)) with (String "/" (String "/" (join "/" (s :: path)))).
  simpl string_forall. exact Hpath.
Qed.

Lemma generated_xpath_validates_witness :
  validateXPath (generateXPath sample_doc
                   (match chain_of sample_doc 3 with Some ch => ch | None => [] end))
  = true.
Proof.
  apply (generated_xpath_validates sample_doc
           (match chain_of sample_doc 3 with Some ch => ch | None => [] end)
           "//body[1]/p[1]").
  - vm_compute. repeat constructor.
  - reflexivity.
Defined.

(** ** Saved positions *)

Lemma canAnchorToElement_contains (p : page) (a : nat) :
  canAnchorToElement p (Some a) = true -> contains (pg_doc p) a = true.
Proof.
  unfold canAnchorToElement, chain_of, contains.
  destruct (List.find (chain_is a) (doc_chains (pg_doc p))) as [ch|] eqn:E; [|discriminate].
  intros _. apply List.find_some in E as [Hin Hch].
  apply existsb_exists. exists ch. split; assumption.
Qed.

Lemma findNearestAnchorElement_anchorable (event : mouse_event) (p : page) (a : nat) :
  findNearestAnchorElement event p = Some a -> canAnchorToElement p (Some a) = true.
Proof.
  unfold findNearestAnchorElement.
  destruct (canAnchorToElement p (under_cursor event)) eqn:E.
  - intros H. rewrite H in E. exact E.
  - destruct (under_cursor event); [|discriminate].
    intros H. apply List.find_some in H as [_ H]. exact H.
Qed.

Lemma calculateNotePosition_with_offsets doc w layout nd t ox oy :
  contains doc t = true ->
  calculateNotePosition doc w layout (with_offsets nd ox oy) (Some t)
  = Some ((r_left (layout t) + ox)%Z, (r_top (layout t) + oy)%Z).
Proof.
  intros Hin. unfold calculateNotePosition. rewrite Hin. simpl. f_equal. f_equal; lia.
Qed.



(** ** Drop targets *)

Lemma split_spaces_aux_clean (cur s : string) :
  string_forall not_space cur = true -> Forall clean_token (split_spaces_aux cur s).
Proof.
  revert cur. induction s as [|a s IH]; intros cur Hcur.
  - simpl. destruct cur; [constructor|]. constructor; [|constructor].
    split; [discriminate | exact Hcur].
  - simpl. destruct (is_space a) eqn:Ha.
    + apply Forall_app. split; [|apply IH; reflexivity].
      destruct cur; [constructor|]. constructor; [|constructor].
      split; [discriminate | exact Hcur].
    + apply IH. rewrite string_forall_append, Hcur. simpl.
      unfold not_space. now rewrite Ha.
Qed.

Lemma class_tokens_clean (c : string) : Forall clean_token (class_tokens c).
Proof. apply split_spaces_aux_clean. reflexivity. Qed.

Lemma split_spaces_aux_token (cur t rest : string) :
  string_forall not_space t = true ->
  split_spaces_aux cur (t ++ rest) = split_spaces_aux (cur ++ t) rest.
Proof.
  revert cur. induction t as [|a t IH]; intros cur Ht.
  - now rewrite append_nil_l, append_nil_r.
  - simpl in Ht. apply andb_prop in Ht as [Ha Ht].
    rewrite append_cons. cbn [split_spaces_aux].
    unfold not_space in Ha. apply negb_true_iff in Ha. rewrite Ha.
    rewrite IH by exact Ht. f_equal. now rewrite append_assoc.
Qed.

Lemma class_tokens_join (l : list string) :
  Forall clean_token l -> class_tokens (join " " l) = l.
Proof.
  unfold class_tokens, join. induction 1 as [|t l [Hne Ht] Hl IH]; [reflexivity|].
  destruct l as [|u l].
  - change (String.concat " " [t]) with t. rewrite <- (append_nil_r t) at 1.
    rewrite split_spaces_aux_token, append_nil_l by exact Ht.
    destruct t; [congruence | reflexivity].
  - change (String.concat " " (t :: u :: l)) with (t ++ String " " (String.concat " " (u :: l))).
    rewrite split_spaces_aux_token, append_nil_l by exact Ht.
    cbn [split_spaces_aux]. change (is_space " ") with true. cbv iota.
    rewrite IH. destruct t; [congruence | reflexivity].
Qed.

Lemma array_includes_filter (cls k : string) (l : list string) :
  array_includes (classList_remove cls l) k
  = negb (String.eqb k cls) && array_includes l k.
Proof.
  unfold array_includes, classList_remove. induction l as [|x l IH].
  - now rewrite andb_false_r.
  - simpl. destruct (String.eqb_spec x cls) as [->|Hx]; simpl.
    + rewrite IH. destruct (String.eqb_spec k cls) as [->|Hk]; simpl; [reflexivity|].
      destruct (String.eqb_spec k cls); [congruence | reflexivity].
    + rewrite IH. destruct (String.eqb_spec k x) as [->|Hkx]; simpl; [|reflexivity].
      destruct (String.eqb_spec x cls); [congruence | reflexivity].
Qed.

Lemma clean_filter (cls : string) (l : list string) :
  Forall clean_token l -> Forall clean_token (classList_remove cls l).
Proof.
  unfold classList_remove. induction 1 as [|x l Hx Hl IH]; simpl; [constructor|].
  destruct (negb (x =? cls)%string); [constructor|]; assumption.
Qed.

Lemma tokens_remove_class (cls k c : string) :
  array_includes (class_tokens (remove_class cls c)) k
  = negb (String.eqb k cls) && array_includes (class_tokens c) k.
Proof.
  unfold remove_class. destruct (array_includes (class_tokens c) cls) eqn:E.
  - rewrite class_tokens_join by (apply clean_filter, class_tokens_clean).
    apply array_includes_filter.
  - destruct (String.eqb_spec k cls) as [->|Hk]; simpl; [exact E | reflexivity].
Qed.

Lemma array_includes_app (l1 l2 : list string) (k : string) :
  array_includes (l1 ++ l2) k = array_includes l1 k || array_includes l2 k.
Proof. unfold array_includes. apply existsb_app. Qed.

Lemma tokens_add_class (cls c : string) :
  clean_token cls ->
  array_includes (class_tokens (add_class cls c)) cls = true.
Proof.
  intros Hcls. unfold add_class, classList_add.
  destruct (array_includes (class_tokens c) cls) eqn:E.
  - rewrite class_tokens_join by apply class_tokens_clean. exact E.
  - rewrite class_tokens_join.
    + rewrite array_includes_app. unfold array_includes at 2. simpl.
      rewrite String.eqb_refl. now rewrite orb_true_r.
    + apply Forall_app. split; [apply class_tokens_clean|]. constructor; [exact Hcls|constructor].
Qed.

Lemma chains_from_map_className (g : nat -> string -> string) (n : node) :
  forall anc,
    chains_from (List.map (map_className g) anc) (map_className g n)
    = List.map (List.map (map_className g)) (chains_from anc n).
Proof.
  induction n as [r d | r t i c kids IH] using node_induction; intros anc; [reflexivity|].
  cbn [chains_from List.map map_className]. f_equal.
  change (Element r t i (g r c) (List.map (map_className g) kids)
          :: List.map (map_className g) anc)
    with (List.map (map_className g) (Element r t i c kids :: anc)).
  generalize (Element r t i c kids :: anc) as anc'. intros anc'.
  induction IH as [|k kids Hk Hkids IHk]; [reflexivity|].
  cbn [List.map flat_map]. rewrite List.map_app, Hk, IHk. reflexivity.
Qed.

Lemma doc_chains_map_className (g : nat -> string -> string) (doc : node) :
  doc_chains (map_className g doc)
  = List.map (List.map (map_className g)) (doc_chains doc).
Proof. exact (chains_from_map_className g doc []). Qed.

Lemma node_ref_map_className g n : node_ref (map_className g n) = node_ref n.
Proof. destruct n; reflexivity. Qed.

Lemma node_tagName_map_className g n : node_tagName (map_className g n) = node_tagName n.
Proof. destruct n; reflexivity. Qed.

Lemma chain_is_map_className g r ch :
  chain_is r (List.map (map_className g) ch) = chain_is r ch.
Proof.
  unfold chain_is, chain_ref. destruct ch as [|n ch]; [reflexivity|].
  simpl. now rewrite node_ref_map_className.
Qed.

Lemma find_map {A B} (f : A -> B) (q : B -> bool) (l : list A) :
  List.find q (List.map f l) = option_map f (List.find (fun x => q (f x)) l).
Proof.
  induction l as [|x l IH]; [reflexivity|]. simpl. destruct (q (f x)); [reflexivity | exact IH].
Qed.

Lemma chain_of_map_className g doc r :
  chain_of (map_className g doc) r
  = option_map (List.map (map_className g)) (chain_of doc r).
Proof.
  unfold chain_of. rewrite doc_chains_map_className, find_map.
  f_equal. 
  induction (doc_chains doc) as [|ch l IH]; [reflexivity|].
  simpl. rewrite chain_is_map_className, IH. reflexivity.
Qed.

Lemma has_class_map_className g cls n :
  has_class cls (map_className g n)
  = match n with
    | Element r _ _ c _ => array_includes (class_tokens (g r c)) cls
    | Text _ _ => false
    end.
Proof. destruct n; reflexivity. Qed.

(** An element that carries the class after the attributes were
    rewritten is one whose rewritten attribute holds it. *)
Lemma classed_map_className (g : nat -> string -> string) (cls : string) (doc : node) (r : nat) :
  In r (classed cls (map_className g doc))
  <-> exists t i c kids anc,
        In (Element r t i c kids :: anc) (doc_chains doc)
        /\ array_includes (class_tokens (g r c)) cls = true.
Proof.
  unfold classed. rewrite doc_chains_map_className.
  rewrite <- list_elem_of_In, list_elem_of_omap. split.
  - intros (ch & Hin & Hch). apply list_elem_of_In, in_map_iff in Hin as (ch0 & <- & Hin).
    destruct ch0 as [|e anc]; [discriminate|]. simpl in Hch.
    rewrite has_class_map_className in Hch. destruct e as [|r' t i c kids]; [discriminate|].
    destruct (array_includes (class_tokens (g r' c)) cls) eqn:E; [|discriminate].
    simpl in Hch. injection Hch as <-. exists t, i, c, kids, anc. split; assumption.
  - intros (t & i & c & kids & anc & Hin & Hc).
    exists (List.map (map_className g) (Element r t i c kids :: anc)).
    split; [apply list_elem_of_In, in_map; exact Hin|].
    simpl. unfold has_class. simpl. rewrite Hc. reflexivity.
Qed.

Lemma chains_from_head (anc : list node) (n : node) (ch : list node) :
  In ch (chains_from anc n) -> exists r t i c kids up, ch = Element r t i c kids :: up.
Proof.
  revert anc ch. induction n as [r d | r t i c kids IH] using node_induction;
    intros anc ch; [intros []|].
  cbn [chains_from]. intros [<- | Hin]; [now exists r, t, i, c, kids, anc|].
  apply in_flat_map in Hin as (k & Hk & Hin).
  rewrite Forall_forall in IH. apply list_elem_of_In in Hk.
  exact (IH k Hk _ _ Hin).
Qed.

Lemma canAnchorToElement_cleared (p : page) (e : option nat) :
  canAnchorToElement
    (with_doc p (map_className (fun _ c => remove_class "note-drop-target" c) (pg_doc p))) e
  = canAnchorToElement p e.
Proof.
  unfold canAnchorToElement. destruct e as [e|]; [|reflexivity].
  cbn [pg_doc with_doc pg_window pg_layout].
  rewrite chain_of_map_className.
  destruct (chain_of (pg_doc p) e) as [[|n up]|]; try reflexivity.
  cbn [option_map List.map].
  assert (forall k l, negb (String.eqb k "note-drop-target") = true ->
            existsb (has_class k)
              (List.map (map_className (fun _ c => remove_class "note-drop-target" c)) l)
            = existsb (has_class k) l) as Hex.
  { intros k l Hk. induction l as [|x l IH]; [reflexivity|].
    cbn [List.map existsb]. rewrite IH. f_equal.
    rewrite has_class_map_className. destruct x as [|r t i c kids]; [reflexivity|].
    rewrite tokens_remove_class, Hk. reflexivity. }
  change (map_className (fun _ c => remove_class "note-drop-target" c) n
          :: List.map (map_className (fun _ c => remove_class "note-drop-target" c)) up)
    with (List.map (map_className (fun _ c => remove_class "note-drop-target" c)) (n :: up)).
  rewrite !Hex by reflexivity.
  cbn [List.map]. rewrite node_tagName_map_className. reflexivity.
Qed.

Lemma map_className_compose (f g : nat -> string -> string) (n : node) :
  map_className f (map_className g n) = map_className (fun r c => f r (g r c)) n.
Proof.
  induction n as [r d | r t i c kids IH] using node_induction; [reflexivity|].
  cbn [map_className]. f_equal. rewrite List.map_map.
  apply List.map_ext_in. intros k Hk. rewrite Forall_forall in IH.
  apply IH, list_elem_of_In, Hk.
Qed.

Lemma classed_cleared (cls : string) (doc : node) :
  classed cls (map_className (fun _ c => remove_class cls c) doc) = [].
Proof.
  destruct (classed cls (map_className (fun _ c => remove_class cls c) doc)) as [|r l] eqn:E;
    [reflexivity|].
  assert (In r (classed cls (map_className (fun _ c => remove_class cls c) doc))) as Hin
    by (rewrite E; left; reflexivity).
  apply classed_map_className in Hin as (t & i & c & kids & anc & _ & Hc).
  rewrite tokens_remove_class, String.eqb_refl in Hc. discriminate.
Qed.

(** X13.  The drop-target mark.  After [updateDropTargetHighlight] the
    elements that carry the class [note-drop-target] are exactly the
    element under the cursor, when a note can be anchored to it; there
    is none otherwise.  After [handleMouseUp] no element carries the
    class and the controller is back in its idle state, whatever the
    state and the page were. *)
Theorem drop_target_marks (event : mouse_event) (p : page) :
  (forall r,
     In r (classed "note-drop-target" (pg_doc (updateDropTargetHighlight event p)))
     <-> under_cursor event = Some r /\ canAnchorToElement p (Some r) = true)
  /\ classed "note-drop-target" (pg_doc (handleMouseUp event p)) = []
  /\ DraggingState (handleMouseUp event p) = idle.
Proof.
  split; [|split].
  - intros r. unfold updateDropTargetHighlight.
    set (g := fun (_ : nat) c => remove_class "note-drop-target" c).
    rewrite canAnchorToElement_cleared.
    destruct (canAnchorToElement p (under_cursor event)) eqn:Hcan.
    + cbn [pg_doc with_doc]. rewrite map_className_compose, classed_map_className. split.
      * intros (t & i & c & kids & anc & Hin & Hc).
        destruct (same_element (under_cursor event) r) eqn:Hsame.
        -- apply same_element_true in Hsame. rewrite Hsame in Hcan. auto.
        -- unfold g in Hc. rewrite tokens_remove_class in Hc. discriminate.
      * intros [Hu _]. rewrite Hu in Hcan.
        pose proof Hcan as Hchain. unfold canAnchorToElement in Hchain.
        destruct (chain_of (pg_doc p) r) as [[|n up]|] eqn:Hch; try discriminate.
        unfold chain_of in Hch. apply List.find_some in Hch as [Hin Hr].
        destruct (chains_from_head [] (pg_doc p) _ Hin)
          as (r' & t & i & c & kids & up' & E).
        injection E as -> ->. unfold chain_is in Hr. simpl in Hr.
        apply Nat.eqb_eq in Hr. subst r'.
        exists t, i, c, kids, up'. split; [exact Hin|].
        rewrite Hu. unfold same_element. rewrite Nat.eqb_refl.
        apply tokens_add_class. split; [discriminate | reflexivity].
    + cbn [pg_doc with_doc]. unfold g. rewrite classed_cleared. split; [intros []|].
      intros [Hu Hr]. rewrite Hu in Hcan. congruence.
  - unfold handleMouseUp, clearDraggingState. cbn [pg_doc with_dragging with_doc].
    apply classed_cleared.
  - reflexivity.
Qed.

(** ** The anchor under the pointer *)

(** X14.  [findNearestAnchorElement] answers with the first element a
    note can be anchored to among the element under the cursor and the
    elements stacked at the centre of its box, in that order, and with
    nothing when there is no element under the cursor.  The element it
    answers with is in the document, neither it nor an ancestor is a
    note or a text highlight, its tag is one of the preferred tags, and
    its box is at least ten pixels wide and high. *)
Theorem anchor_is_first_anchorable (event : mouse_event) (p : page) :
  findNearestAnchorElement event p
  = List.find (fun e => canAnchorToElement p (Some e)) (anchor_candidates event)
  /\ forall a, findNearestAnchorElement event p = Some a ->
       exists n up,
         chain_of (pg_doc p) a = Some (n :: up)
         /\ contains (pg_doc p) a = true
         /\ (forall m, In m (n :: up) ->
               has_class "web-notes-note" m = false /\ has_class HIGHLIGHT_CLASS m = false)
         /\ In (node_tagName n) preferredTags
         /\ (10 <= r_width (pg_layout p a))%Z /\ (10 <= r_height (pg_layout p a))%Z.
Proof.
  split.
  - unfold findNearestAnchorElement, anchor_candidates.
    destruct (under_cursor event) as [e|]; [|reflexivity].
    cbn [List.find]. destruct (canAnchorToElement p (Some e)); reflexivity.
  - intros a Ha. apply findNearestAnchorElement_anchorable in Ha.
    pose proof (canAnchorToElement_contains p a Ha) as Hin.
    unfold canAnchorToElement in Ha.
    destruct (chain_of (pg_doc p) a) as [[|n up]|]; try discriminate.
    exists n, up. split; [reflexivity|]. split; [exact Hin|].
    destruct (existsb (has_class "web-notes-note") (n :: up)
              || existsb (has_class HIGHLIGHT_CLASS) (n :: up)) eqn:Hcls; [discriminate|].
    apply orb_false_elim in Hcls as [Hnote Hhl].
    destruct ((r_width (client_rect (pg_window p) (pg_layout p) a) <? 10)%Z
              || (r_height (client_rect (pg_window p) (pg_layout p) a) <? 10)%Z) eqn:Hsize;
      [discriminate|].
    apply orb_false_elim in Hsize as [Hw Hh]. simpl in Hw, Hh.
    apply Z.ltb_ge in Hw. apply Z.ltb_ge in Hh.
    split; [|split; [|split; assumption]].
    + intros m Hm. split.
      * destruct (has_class "web-notes-note" m) eqn:E; [|reflexivity].
        assert (existsb (has_class "web-notes-note") (n :: up) = true)
          by (apply existsb_exists; exists m; auto). congruence.
      * destruct (has_class HIGHLIGHT_CLASS m) eqn:E; [|reflexivity].
        assert (existsb (has_class HIGHLIGHT_CLASS) (n :: up) = true)
          by (apply existsb_exists; exists m; auto). congruence.
    + apply array_includes_In. exact Ha.
Qed.

(** ** The offset the visibility check saves *)

Lemma findElementBySelector_attached (doc : node) (cache : element_cache)
    (s : option selector) (e : nat) :
  fst (findElementBySelector doc cache s) = Some e -> contains doc e = true.
Proof.
  destruct s as [s|]; [|discriminate]. unfold findElementBySelector.
  assert (forall c, fst (query_selectors doc c (cache_key s) s) = Some e ->
                    contains doc e = true) as Hq.
  { intros c. destruct (query_selectors_spec doc c (cache_key s) s) as [-> | (e' & He & ->)];
      [discriminate|]. intros [= <-]. exact He. }
  destruct (map_get (cache_key s) cache) as [cached|]; [|apply Hq].
  destruct (contains doc cached) eqn:E; [|apply Hq].
  intros [= <-]. exact E.
Qed.

(** X15.  When [ensureNoteVisibility] saves new offsets for a note, they
    are the offsets of the place it moved the note element to: the
    element [findElementBySelector] resolves the selectors of the note
    to is in the document, and from the saved offsets
    [calculateNotePosition] finds, against that element and at any
    scroll position, the position the note element was given. *)
Theorem visibility_offset_restores (doc : node) (cache : element_cache)
    (w w' : window_state) (layout : nat -> rect) (n : note_element) (nd : note_data)
    (r : update_request) :
  In r (snd (ensureNoteVisibility doc cache w layout n nd)) ->
  exists t ox oy,
    snd (ensureNoteVisibility doc cache w layout n nd) = [updateNoteOffset (nd_id nd) ox oy]
    /\ fst (findElementBySelector doc cache
              (Some {| css := cssSelector nd; xpath := nd_xpath nd |})) = Some t
    /\ calculateNotePosition doc w' layout (with_offsets nd ox oy) (Some t)
       = Some (style_left (visible_note doc cache w layout n nd),
               style_top (visible_note doc cache w layout n nd)).
Proof.
  unfold visible_note, ensureNoteVisibility.
  destruct (negb (contains doc (ne_ref n))); [intros []|].
  set (X := if (innerWidth w - MIN_VIEWPORT_MARGIN <? r_right (note_rect w n))%Z
            then ((innerWidth w - r_width (note_rect w n) - MIN_VIEWPORT_MARGIN
                   + pageXOffset w)%Z, true)
            else if (r_left (note_rect w n) <? MIN_VIEWPORT_MARGIN)%Z
                 then ((MIN_VIEWPORT_MARGIN + pageXOffset w)%Z, true)
                 else (style_left n, false)).
  set (Y := if (innerHeight w - MIN_VIEWPORT_MARGIN <? r_bottom (note_rect w n))%Z
            then ((innerHeight w - r_height (note_rect w n) - MIN_VIEWPORT_MARGIN
                   + pageYOffset w)%Z, true)
            else if (r_top (note_rect w n) <? MIN_VIEWPORT_MARGIN)%Z
                 then ((MIN_VIEWPORT_MARGIN + pageYOffset w)%Z, true)
                 else (style_top n, false)).
  destruct X as [newLeft adjustedX]. destruct Y as [newTop adjustedY].
  destruct (adjustedX || adjustedY); [|intros []].
  destruct (is_truthy (cssSelector nd) || is_truthy (nd_xpath nd)); [|intros []].
  destruct (findElementBySelector doc cache
              (Some {| css := cssSelector nd; xpath := nd_xpath nd |}))
    as [[t|] cache'] eqn:E; [|intros []].
  intros _. eexists t, _, _. split; [reflexivity|]. split; [reflexivity|].
  rewrite calculateNotePosition_with_offsets
    by (apply (findElementBySelector_attached doc cache
                 (Some {| css := cssSelector nd; xpath := nd_xpath nd |}));
        rewrite E; reflexivity).
  simpl. f_equal. f_equal; lia.
Qed.

Lemma visibility_offset_restores_witness :
  exists t ox oy,
    snd (ensureNoteVisibility sample_doc [] sample_window sample_layout
           offscreen_note anchored_note_data)
    = [updateNoteOffset "note-1" ox oy]
    /\ fst (findElementBySelector sample_doc [] (Some {| css := Some "p"; xpath := None |}))
       = Some t
    /\ calculateNotePosition sample_doc narrow_window sample_layout
         (with_offsets anchored_note_data ox oy) (Some t)
       = Some (804%Z, 20%Z).
Proof.
  apply (visibility_offset_restores sample_doc [] sample_window narrow_window sample_layout
           offscreen_note anchored_note_data (updateNoteOffset "note-1" 796 12)).
  vm_compute. left. reflexivity.
Defined.

(** ** Auto-scroll *)

(** X16.  [handleAutoScroll] keeps the dragged note where it is in the
    viewport: when the pointer is in a scroll zone and the page can
    scroll by the whole step, the page scrolls by five pixels on each
    axis whose zone the pointer is in, and the box of the note in
    viewport coordinates is the same before and after.  With the
    pointer outside the zones nothing changes. *)
Theorem auto_scroll_keeps_viewport_place (event : mouse_event) (p : page)
    (note : nat) (n : note_element) :
  draggedNote (DraggingState p) = Some note ->
  pg_notes p !! note = Some n ->
  let w := pg_window p in
  let dx := (pageXOffset (pg_window (handleAutoScroll event p)) - pageXOffset w)%Z in
  let dy := (pageYOffset (pg_window (handleAutoScroll event p)) - pageYOffset w)%Z in
  (0 <= pageXOffset w - SCROLL_SPEED)%Z -> (pageXOffset w + SCROLL_SPEED <= scrollMaxX w)%Z ->
  (0 <= pageYOffset w - SCROLL_SPEED)%Z -> (pageYOffset w + SCROLL_SPEED <= scrollMaxY w)%Z ->
  (exists n', pg_notes (handleAutoScroll event p) !! note = Some n'
              /\ note_rect (pg_window (handleAutoScroll event p)) n' = note_rect w n)
  /\ dx = (if (clientX event <? SCROLL_ZONE_SIZE)%Z then - SCROLL_SPEED
           else if (innerWidth w - SCROLL_ZONE_SIZE <? clientX event)%Z then SCROLL_SPEED
           else 0)%Z
  /\ dy = (if (clientY event <? SCROLL_ZONE_SIZE)%Z then - SCROLL_SPEED
           else if (innerHeight w - SCROLL_ZONE_SIZE <? clientY event)%Z then SCROLL_SPEED
           else 0)%Z
  /\ ((SCROLL_ZONE_SIZE <= clientX event <= innerWidth w - SCROLL_ZONE_SIZE)%Z ->
      (SCROLL_ZONE_SIZE <= clientY event <= innerHeight w - SCROLL_ZONE_SIZE)%Z ->
      handleAutoScroll event p = p).
Proof.
  intros Hnote Hn w dx dy Hx0 Hx1 Hy0 Hy1. subst dx dy.
  unfold handleAutoScroll. subst w.
  set (sx := if (clientX event <? SCROLL_ZONE_SIZE)%Z then (- SCROLL_SPEED)%Z
             else if (innerWidth (pg_window p) - SCROLL_ZONE_SIZE <? clientX event)%Z then SCROLL_SPEED
             else 0%Z).
  set (sy := if (clientY event <? SCROLL_ZONE_SIZE)%Z then (- SCROLL_SPEED)%Z
             else if (innerHeight (pg_window p) - SCROLL_ZONE_SIZE <? clientY event)%Z then SCROLL_SPEED
             else 0%Z).
  assert (- SCROLL_SPEED <= sx <= SCROLL_SPEED)%Z as Hsx
    by (subst sx; unfold SCROLL_SPEED; repeat case_match; lia).
  assert (- SCROLL_SPEED <= sy <= SCROLL_SPEED)%Z as Hsy
    by (subst sy; unfold SCROLL_SPEED; repeat case_match; lia).
  assert ((SCROLL_ZONE_SIZE <= clientX event <= innerWidth (pg_window p) - SCROLL_ZONE_SIZE)%Z -> sx = 0%Z)
    as Hmx.
  { intros [H1 H2]. subst sx. apply Z.ltb_ge in H1. rewrite H1.
    apply Z.ltb_ge in H2. now rewrite H2. }
  assert ((SCROLL_ZONE_SIZE <= clientY event <= innerHeight (pg_window p) - SCROLL_ZONE_SIZE)%Z -> sy = 0%Z)
    as Hmy.
  { intros [H1 H2]. subst sy. apply Z.ltb_ge in H1. rewrite H1.
    apply Z.ltb_ge in H2. now rewrite H2. }
  clearbody sx sy. unfold SCROLL_SPEED in *.
  destruct (negb (sx =? 0)%Z || negb (sy =? 0)%Z) eqn:Hmove.
  - cbn [DraggingState with_window]. rewrite Hnote.
    cbn [pg_notes update_note with_notes pg_window with_window].
    rewrite lookup_alter_eq, Hn. cbn [fmap option_fmap option_map].
    unfold note_rect, scrollBy. cbn [pageXOffset pageYOffset style_left style_top set_position
                                     ne_width ne_height].
    assert (Z.max 0 (Z.min (scrollMaxX (pg_window p)) (pageXOffset (pg_window p) + sx)) = pageXOffset (pg_window p) + sx)%Z
      as -> by lia.
    assert (Z.max 0 (Z.min (scrollMaxY (pg_window p)) (pageYOffset (pg_window p) + sy)) = pageYOffset (pg_window p) + sy)%Z
      as -> by lia.
    split; [eexists; split; [reflexivity | f_equal; simpl; lia]|].
    split; [lia|]. split; [lia|].
    intros Hx Hy. rewrite (Hmx Hx), (Hmy Hy) in Hmove. discriminate.
  - apply orb_false_elim in Hmove as [Hx Hy].
    apply negb_false_iff, Z.eqb_eq in Hx, Hy. subst sx sy.
    split; [exists n; split; [exact Hn | reflexivity]|].
    split; [lia|]. split; [lia|]. reflexivity.
Qed.

Lemma auto_scroll_keeps_viewport_place_witness :
  (exists n',
      pg_notes (handleAutoScroll (mouse_at 10 760) scrolled_dragging) !! 5%nat = Some n'
      /\ note_rect (pg_window (handleAutoScroll (mouse_at 10 760) scrolled_dragging)) n'
         = note_rect scrolled_window sample_dragged_note)
  /\ pageXOffset (pg_window (handleAutoScroll (mouse_at 10 760) scrolled_dragging)) = 95%Z
  /\ pageYOffset (pg_window (handleAutoScroll (mouse_at 10 760) scrolled_dragging)) = 505%Z.
Proof.
  assert (draggedNote (DraggingState scrolled_dragging) = Some 5%nat) as Hnote
    by (vm_compute; reflexivity).
  assert (pg_notes scrolled_dragging !! 5%nat = Some sample_dragged_note) as Hn
    by (vm_compute; reflexivity).
  destruct (auto_scroll_keeps_viewport_place (mouse_at 10 760) scrolled_dragging 5
              sample_dragged_note Hnote Hn) as (H1 & H2 & H3 & _);
    try (vm_compute; discriminate).
  split; [exact H1|]. split.
  - change (pageXOffset (pg_window scrolled_dragging)) with 100%Z in H2.
    change (clientX (mouse_at 10 760) <? SCROLL_ZONE_SIZE)%Z with true in H2.
    cbv iota in H2. unfold SCROLL_SPEED in H2. lia.
  - change (pageYOffset (pg_window scrolled_dragging)) with 500%Z in H3.
    change (clientY (mouse_at 10 760) <? SCROLL_ZONE_SIZE)%Z with false in H3.
    change (innerHeight (pg_window scrolled_dragging) - SCROLL_ZONE_SIZE
            <? clientY (mouse_at 10 760))%Z with true in H3.
    cbv iota in H3. unfold SCROLL_SPEED in H3. lia.
Defined.

(** ** The note under the pointer *)







(** ** The markdown toolbar *)

Lemma strlen_append (a b : string) : strlen (a ++ b) = (strlen a + strlen b)%Z.
Proof. unfold strlen. rewrite length_append. lia. Qed.

Lemma strlen_nonneg (a : string) : (0 <= strlen a)%Z.
Proof. unfold strlen. lia. Qed.

Lemma js_substring_head (a rest : string) : js_substring (a ++ rest) 0 (strlen a) = a.
Proof.
  pose proof (strlen_nonneg a). pose proof (strlen_nonneg rest).
  rewrite js_substring_ordered by (fold (strlen (a ++ rest)); rewrite ?strlen_append; lia).
  unfold strlen. rewrite Nat2Z.id. simpl Z.to_nat. rewrite Nat.sub_0_r.
  apply substring_prefix_append.
Qed.

Lemma js_substring_middle (a m b : string) :
  js_substring (a ++ m ++ b) (strlen a) (strlen a + strlen m) = m.
Proof.
  pose proof (strlen_nonneg a). pose proof (strlen_nonneg m). pose proof (strlen_nonneg b).
  rewrite js_substring_ordered by (fold (strlen (a ++ m ++ b)); rewrite ?strlen_append; lia).
  unfold strlen. rewrite <- Nat2Z.inj_add, !Nat2Z.id.
  replace (String.length a + String.length m - String.length a)%nat
    with (String.length m) by lia.
  apply substring_at_append.
Qed.

Lemma js_substring_tail (a b : string) : js_substring_from (a ++ b) (strlen a) = b.
Proof.
  unfold js_substring_from. rewrite strlen_append.
  rewrite <- (append_nil_r b) at 1. apply js_substring_middle.
Qed.

Lemma length_substring_exact (a l : nat) (d : string) :
  a + l <= String.length d -> String.length (substring a l d) = l.
Proof.
  revert a l. induction d as [|x d IH]; intros a l H.
  - simpl in H. assert (a = 0 /\ l = 0)%nat as [-> ->] by lia. reflexivity.
  - destruct a as [|a]; [destruct l as [|l]; [reflexivity|] | simpl in *; apply IH; lia].
    simpl in *. f_equal. apply IH. lia.
Qed.

Lemma js_substring_parts (v : string) (a b : Z) :
  (0 <= a <= b)%Z -> (b <= strlen v)%Z ->
  v = js_substring v 0 a ++ js_substring v a b ++ js_substring_from v b
  /\ strlen (js_substring v 0 a) = a
  /\ strlen (js_substring v a b) = (b - a)%Z.
Proof.
  intros Ha Hb. unfold js_substring_from.
  rewrite !js_substring_ordered by (unfold strlen in *; lia).
  unfold strlen in *. split; [|split].
  - pose proof (substring_split (Z.to_nat a) (Z.to_nat b - Z.to_nat a) v) as H.
    symmetry. etransitivity; [|exact H].
    f_equal; [f_equal; lia|]. f_equal. f_equal; lia.
  - rewrite length_substring_exact by lia. lia.
  - rewrite length_substring_exact by lia. lia.
Qed.

Lemma no_cr_append (a b : string) : no_cr (a ++ b) <-> no_cr a /\ no_cr b.
Proof. unfold no_cr. rewrite string_forall_append. apply andb_true_iff. Qed.

Lemma string_forall_substring (p : ascii -> bool) (a l : nat) (d : string) :
  string_forall p d = true -> string_forall p (substring a l d) = true.
Proof.
  revert a l. induction d as [|x d IH]; intros a l H.
  - now rewrite substring_of_empty.
  - simpl in H. apply andb_prop in H as [Hx Hd].
    destruct a as [|a]; [destruct l as [|l]; [reflexivity|] | simpl; now apply IH].
    simpl. rewrite Hx. now apply IH.
Qed.

Lemma no_cr_js_substring (v : string) (a b : Z) : no_cr v -> no_cr (js_substring v a b).
Proof. apply string_forall_substring. Qed.

Lemma normalize_no_cr (s : string) : no_cr s -> normalize_newlines s = s.
Proof.
  unfold no_cr. induction s as [|a s IH]; [reflexivity|].
  simpl string_forall. intros H. apply andb_prop in H as [Ha Hs].
  apply negb_true_iff in Ha. cbn [normalize_newlines]. rewrite Ha. f_equal. now apply IH.
Qed.

Lemma setSelectionRange_within (a b : Z) (t : textarea) :
  (0 <= a <= b)%Z -> (b <= strlen (ta_value t))%Z -> (strlen (ta_value t) < 2 ^ 32)%Z ->
  setSelectionRange a b t = {| ta_value := ta_value t; selectionStart := a; selectionEnd := b |}.
Proof.
  intros Ha Hb Hlen. unfold setSelectionRange, to_uint32.
  rewrite !Z.mod_small by lia. rewrite !Z.min_l by lia.
  destruct (Z.ltb_spec b a); [|reflexivity]. f_equal. lia.
Qed.

Lemma ta_value_set_value (v : string) (t : textarea) :
  ta_value (set_value v t) = normalize_newlines v.
Proof.
  unfold set_value. destruct (String.eqb_spec (normalize_newlines v) (ta_value t)) as [E|_];
    [now rewrite E | reflexivity].
Qed.

(** [setSelectionRange] reads the value only, so the selection the
    assignment of the value left does not matter. *)
Lemma setSelectionRange_set_value (a b : Z) (v : string) (t : textarea) :
  setSelectionRange a b (set_value v t)
  = setSelectionRange a b
      {| ta_value := normalize_newlines v; selectionStart := 0; selectionEnd := 0 |}.
Proof.
  unfold setSelectionRange. rewrite ta_value_set_value. reflexivity.
Qed.

(** X17.  [insertMarkdownSyntax] wraps the selection.  For a textarea
    whose selection lies within its value, the new value is the old one
    with [before] put in front of the selected text and [after] behind
    it, and nothing else changed.  A selection that was not empty now
    covers the markers and the text between them; an empty one leaves
    the caret between the two markers.  The selection still lies
    within the value, and one [input] event is dispatched. *)
Theorem insertMarkdownSyntax_wraps (before after : string) (t : textarea) :
  textarea_ok t -> no_cr before -> no_cr after ->
  (strlen (ta_value t) + strlen before + strlen after < 2 ^ 32)%Z ->
  let pre := js_substring (ta_value t) 0 (selectionStart t) in
  let post := js_substring_from (ta_value t) (selectionEnd t) in
  let t' := fst (insertMarkdownSyntax before after t) in
  ta_value t = pre ++ selected t ++ post
  /\ ta_value t' = pre ++ before ++ selected t ++ after ++ post
  /\ textarea_ok t'
  /\ (selected t <> "" ->
      selectionStart t' = selectionStart t
      /\ selected t' = before ++ selected t ++ after)
  /\ (selected t = "" ->
      selectionStart t' = selectionEnd t'
      /\ js_substring (ta_value t') 0 (selectionStart t') = pre ++ before)
  /\ snd (insertMarkdownSyntax before after t) = [InputEvent].
Proof.
  intros (Hsel & Hend & Hcr) Hb Ha Hlen pre post t'.
  destruct (js_substring_parts (ta_value t) (selectionStart t) (selectionEnd t) Hsel Hend)
    as (Hv & Hpre & Hmid).
  fold pre post (selected t) in Hv, Hpre, Hmid.
  set (sel := selected t) in *.
  assert (no_cr pre /\ no_cr sel /\ no_cr post) as (Hcpre & Hcsel & Hcpost).
  { rewrite Hv in Hcr. apply no_cr_append in Hcr as [H1 H2].
    apply no_cr_append in H2 as [H2 H3]. auto. }
  assert (no_cr (pre ++ (before ++ sel ++ after) ++ post)) as Hnew.
  { repeat (apply no_cr_append; split); assumption. }
  assert (strlen (ta_value t) = strlen pre + strlen sel + strlen post)%Z as Hlv.
  { rewrite Hv at 1. rewrite !strlen_append. lia. }
  pose proof (strlen_nonneg pre). pose proof (strlen_nonneg sel).
  pose proof (strlen_nonneg post). pose proof (strlen_nonneg before).
  pose proof (strlen_nonneg after).
  assert (t' = match sel with
               | String _ _ =>
                   {| ta_value := pre ++ (before ++ sel ++ after) ++ post;
                      selectionStart := strlen pre;
                      selectionEnd := strlen pre + strlen (before ++ sel ++ after) |}
               | EmptyString =>
                   {| ta_value := pre ++ (before ++ sel ++ after) ++ post;
                      selectionStart := strlen pre + strlen before;
                      selectionEnd := strlen pre + strlen before |}
               end) as Ht'.
  { subst t'. unfold insertMarkdownSyntax. cbn [fst].
    fold (selected t). fold sel. fold pre post. rewrite <- Hpre.
    rewrite !setSelectionRange_set_value, (normalize_no_cr _ Hnew).
    destruct sel as [|x sel'] eqn:Esel.
    - rewrite setSelectionRange_within; cbn [ta_value];
        rewrite ?strlen_append; try lia. reflexivity.
    - rewrite setSelectionRange_within; cbn [ta_value];
        rewrite ?strlen_append; try lia. reflexivity. }
  split; [exact Hv|]. split; [|split; [|split; [|split; [|reflexivity]]]];
    clearbody t' sel pre post; subst t'.
  - destruct sel; cbn [ta_value]; now rewrite !append_assoc.
  - destruct sel eqn:Esel; (split; [|split]); cbn [ta_value selectionStart selectionEnd];
      rewrite ?strlen_append; try lia; try exact Hnew.
  - intros Hne. destruct sel as [|x sel'] eqn:Esel; [congruence|].
    rewrite <- Esel. unfold selected. cbn [ta_value selectionStart selectionEnd].
    split; [exact Hpre|]. apply js_substring_middle.
  - intros He. rewrite He. cbn [ta_value selectionStart selectionEnd].
    split; [reflexivity|].
    rewrite <- strlen_append, append_nil_l, (append_assoc before),
      <- (append_assoc pre before).
    apply js_substring_head.
Qed.

Lemma insertMarkdownSyntax_wraps_witness :
  ta_value (fst (insertMarkdownSyntax "**" "**" sample_textarea)) = "say **hello**"
  /\ selected (fst (insertMarkdownSyntax "**" "**" sample_textarea)) = "**hello**".
Proof.
  destruct (insertMarkdownSyntax_wraps "**" "**" sample_textarea)
    as (_ & H1 & _ & H2 & _).
  - unfold textarea_ok, sample_textarea, strlen. simpl. repeat split; try lia.
  - reflexivity.
  - reflexivity.
  - unfold sample_textarea, strlen. simpl. lia.
  - split; [exact H1|]. apply H2. discriminate.
Defined.

(** *** Lines *)

Lemma substring_skip_append (p x : string) (j n : nat) :
  substring (String.length p + j) n (p ++ x) = substring j n x.
Proof. induction p as [|a p IH]; [reflexivity|]. rewrite append_cons. exact IH. Qed.

Lemma line_char_not_newline (line rest : string) (j : nat) :
  no_newline line -> j < String.length line ->
  substring j 1 (line ++ rest) <> newline.
Proof.
  unfold no_newline. revert j. induction line as [|a line IH]; intros j Hl Hj; [simpl in Hj; lia|].
  simpl in Hl. apply andb_prop in Hl as [Ha Hl]. rewrite append_cons.
  destruct j as [|j].
  - simpl. rewrite substring_0_0. intros [= E]. rewrite E in Ha. discriminate.
  - simpl. apply IH; [exact Hl | simpl in Hj; lia].
Qed.

Lemma last_occurrence_none (s t : string) (p : nat) :
  (forall j, j <= p -> substring j (String.length t) s <> t) ->
  last_occurrence s t p = (-1)%Z.
Proof.
  induction p as [|p IH]; intros H; simpl.
  - destruct (String.eqb_spec (substring 0 (String.length t) s) t) as [E|_]; [|reflexivity].
    exfalso. exact (H 0 (Nat.le_refl 0) E).
  - destruct (String.eqb_spec (substring (S p) (String.length t) s) t) as [E|_].
    + exfalso. exact (H (S p) (Nat.le_refl _) E).
    + apply IH. intros j Hj. apply H. lia.
Qed.

Lemma last_occurrence_found (s t : string) (k p : nat) :
  substring k (String.length t) s = t -> k <= p ->
  (forall j, k < j -> j <= p -> substring j (String.length t) s <> t) ->
  last_occurrence s t p = Z.of_nat k.
Proof.
  intros Hk. induction p as [|p IH]; intros Hle H.
  - assert (k = 0) as -> by lia. simpl. rewrite Hk, String.eqb_refl. reflexivity.
  - destruct (Nat.eq_dec k (S p)) as [->|Hne].
    + simpl. rewrite Hk, String.eqb_refl. reflexivity.
    + simpl. destruct (String.eqb_spec (substring (S p) (String.length t) s) t) as [E|_].
      * exfalso. apply (H (S p)); [lia | lia | exact E].
      * apply IH; [lia|]. intros j H1 H2. apply H; lia.
Qed.

Lemma index_skip (p x t : string) (n : nat) :
  index (String.length p + n) t (p ++ x)
  = option_map (fun i => String.length p + i)%nat (index n t x).
Proof.
  induction p as [|a p IH].
  - rewrite append_nil_l. simpl. destruct (index n t x); reflexivity.
  - rewrite append_cons. simpl. rewrite IH. destruct (index n t x); reflexivity.
Qed.

Lemma prefix_empty (s : string) : String.prefix "" s = true.
Proof. destruct s; reflexivity. Qed.

Lemma index_at_newline (B' : string) : index 0 newline (newline ++ B') = Some 0.
Proof.
  unfold newline. rewrite append_cons, append_nil_l. cbn [index].
  simpl String.prefix. now rewrite prefix_empty.
Qed.

Lemma index_line (line B : string) (k : nat) :
  no_newline line -> k <= String.length line ->
  (B = "" \/ exists B', B = newline ++ B') ->
  index k newline (line ++ B)
  = match B with "" => None | String _ _ => Some (String.length line) end.
Proof.
  unfold no_newline. intros Hl Hk HB. revert k Hk.
  induction line as [|a line IH]; intros k Hk.
  - simpl in Hk. assert (k = 0) as -> by lia. rewrite append_nil_l.
    destruct HB as [-> | (B' & ->)]; [reflexivity | apply index_at_newline].
  - simpl in Hl. apply andb_prop in Hl as [Ha Hl]. rewrite append_cons.
    assert (String.prefix newline (String a (line ++ B)) = false) as Hp.
    { unfold newline. cbn [String.prefix].
      destruct (ascii_dec "010" a) as [E|_]; [subst a; discriminate Ha | reflexivity]. }
    destruct k as [|k].
    + cbn [index]. rewrite Hp, (IH Hl 0) by lia. destruct B; reflexivity.
    + cbn [index]. rewrite (IH Hl k) by (simpl in Hk; lia). destruct B; reflexivity.
Qed.

Lemma lineEnd_spec (A line B : string) (start : Z) :
  on_line A line B start ->
  (let lineEnd := indexOf_from (A ++ line ++ B) newline start in
   if (lineEnd =? -1)%Z then strlen (A ++ line ++ B) else lineEnd)
  = (strlen A + strlen line)%Z.
Proof.
  intros [HA Hl HB Hs _]. cbv zeta. unfold indexOf_from.
  pose proof (strlen_nonneg A). pose proof (strlen_nonneg line). pose proof (strlen_nonneg B).
  rewrite !strlen_append.
  rewrite Z.min_l, Z.max_r by lia.
  replace (Z.to_nat start) with (String.length A + Z.to_nat (start - strlen A))%nat
    by (unfold strlen in *; lia).
  rewrite index_skip, index_line; [|exact Hl | unfold strlen in *; lia | exact HB].
  destruct B as [|b B].
  - simpl. unfold strlen. simpl. lia.
  - cbn [option_map]. destruct (Z.eqb_spec (Z.of_nat (String.length A + String.length line)) (-1));
      unfold strlen; lia.
Qed.

Lemma lineStart_spec (A line B : string) (start : Z) :
  on_line A line B start ->
  (lastIndexOf (A ++ line ++ B) newline (start - 1) + 1)%Z = strlen A.
Proof.
  intros [HA Hl HB Hs Hf]. unfold lastIndexOf.
  pose proof (strlen_nonneg A). pose proof (strlen_nonneg line). pose proof (strlen_nonneg B).
  change (strlen newline) with 1%Z.
  destruct (Z.ltb_spec (strlen (A ++ line ++ B)) 1) as [Hempty|Hlen].
  - rewrite !strlen_append in Hempty. lia.
  - rewrite !strlen_append in *.
    destruct HA as [-> | (A' & ->)].
    + rewrite append_nil_l. change (strlen "") with 0%Z in *.
      rewrite last_occurrence_none; [reflexivity|].
      intros j Hj. change (String.length newline) with 1%nat.
      apply line_char_not_newline; [exact Hl|].
      destruct Hf as [Hf | [Hf | ->]].
      * unfold strlen in *. lia.
      * destruct line; [congruence|]. unfold strlen in *. simpl in *. lia.
      * unfold strlen in *. simpl in *. lia.
    + rewrite strlen_append in *. change (strlen newline) with 1%Z in *.
      pose proof (strlen_nonneg A').
      rewrite (last_occurrence_found _ _ (String.length A')).
      * unfold strlen. lia.
      * rewrite !append_assoc. change (String.length newline) with (String.length newline).
        apply substring_at_append.
      * unfold strlen in *. lia.
      * intros j Hj1 Hj2. change (String.length newline) with 1%nat.
        replace j with (String.length (A' ++ newline) + (j - String.length (A' ++ newline)))%nat
          by (rewrite length_append; simpl; lia).
        rewrite substring_skip_append. apply line_char_not_newline; [exact Hl|].
        rewrite length_append. simpl. unfold strlen in *. lia.
Qed.

(** *** [insertLinePrefix] *)

Lemma insertLinePrefix_on_line (prefix A line B : string) (t : textarea) :
  ta_value t = A ++ line ++ B ->
  on_line A line B (selectionStart t) ->
  fst (insertLinePrefix prefix t)
  = if startsWith line prefix
    then setSelectionRange (selectionStart t - strlen prefix) (selectionStart t - strlen prefix)
           (set_value (A ++ js_substring_from line (strlen prefix) ++ B) t)
    else setSelectionRange (selectionStart t + strlen prefix) (selectionStart t + strlen prefix)
           (set_value (A ++ (prefix ++ line) ++ B) t).
Proof.
  intros Hv Hon. unfold insertLinePrefix. cbn [fst]. rewrite Hv.
  pose proof (lineEnd_spec A line B _ Hon) as HE. cbv zeta in HE. rewrite HE.
  rewrite (lineStart_spec A line B _ Hon).
  rewrite js_substring_head, js_substring_middle.
  rewrite <- (strlen_append A line), <- (append_assoc A line B), js_substring_tail.
  reflexivity.
Qed.

Lemma setSelectionRange_caret (x : Z) (t : textarea) :
  (strlen (ta_value t) < 2 ^ 32)%Z -> (strlen (ta_value t) <= x + 2 ^ 32)%Z ->
  (x <= strlen (ta_value t))%Z ->
  setSelectionRange x x t
  = caret_at (ta_value t) (if (0 <=? x)%Z then x else strlen (ta_value t)).
Proof.
  intros Hlen Hlo Hhi. unfold setSelectionRange, caret_at, to_uint32.
  pose proof (strlen_nonneg (ta_value t)).
  rewrite Z.ltb_irrefl. destruct (Z.leb_spec 0 x).
  - rewrite Z.mod_small by lia. rewrite Z.min_l by lia. reflexivity.
  - replace (x mod 2 ^ 32)%Z with (x + 2 ^ 32)%Z.
    + rewrite Z.min_r by lia. reflexivity.
    + apply (Z.mod_unique_pos _ _ (-1)); lia.
Qed.

Lemma no_newline_append (a b : string) : no_newline (a ++ b) <-> no_newline a /\ no_newline b.
Proof. unfold no_newline. rewrite string_forall_append. apply andb_true_iff. Qed.

Lemma prefix_append (p s : string) : String.prefix p (p ++ s) = true.
Proof.
  induction p as [|a p IH]; [apply prefix_empty|].
  rewrite append_cons. cbn [String.prefix].
  destruct (ascii_dec a a); [exact IH | congruence].
Qed.

(** X18.  [insertLinePrefix] toggles.  With the caret on a line that
    does not start with the prefix, the prefix is put at the start of
    that line, the rest of the text is left as it was and the caret
    moves right by the length of the prefix; a second call takes the
    prefix off again and gives back the text and the caret of the
    start. *)
Theorem insertLinePrefix_toggles (prefix A line B : string) (t : textarea) :
  ta_value t = A ++ line ++ B ->
  on_line A line B (selectionStart t) ->
  no_cr (ta_value t) -> no_cr prefix -> no_newline prefix ->
  startsWith line prefix = false ->
  (strlen (ta_value t) + strlen prefix < 2 ^ 32)%Z ->
  fst (insertLinePrefix prefix t)
  = caret_at (A ++ prefix ++ line ++ B) (selectionStart t + strlen prefix)
  /\ fst (insertLinePrefix prefix (fst (insertLinePrefix prefix t)))
     = caret_at (A ++ line ++ B) (selectionStart t).
Proof.
  intros Hv Hon Hcr Hcp Hnp Hstarts Hlen.
  pose proof (strlen_nonneg A). pose proof (strlen_nonneg line).
  pose proof (strlen_nonneg B). pose proof (strlen_nonneg prefix).
  assert (strlen (ta_value t) = strlen A + strlen line + strlen B)%Z as Hlv
    by (rewrite Hv, !strlen_append; lia).
  assert (no_cr A /\ no_cr line /\ no_cr B) as (HcA & Hcl & HcB).
  { rewrite Hv in Hcr. apply no_cr_append in Hcr as [H3 H4].
    apply no_cr_append in H4 as [H4 H5]. auto. }
  assert (prefix <> "") as Hne.
  { intros ->. unfold startsWith in Hstarts. rewrite prefix_empty in Hstarts. discriminate. }
  assert (0 < strlen prefix)%Z as Hpos
    by (destruct prefix; [congruence | unfold strlen; simpl; lia]).
  destruct Hon as [HA Hl HB Hs Hf].
  assert (fst (insertLinePrefix prefix t)
          = caret_at (A ++ prefix ++ line ++ B) (selectionStart t + strlen prefix)) as Hfirst.
  { rewrite (insertLinePrefix_on_line prefix A line B t Hv) by (constructor; assumption).
    rewrite Hstarts, setSelectionRange_set_value.
    rewrite normalize_no_cr by (repeat (apply no_cr_append; split); assumption).
    rewrite setSelectionRange_caret; cbn [ta_value]; rewrite ?strlen_append; try lia.
    destruct (Z.leb_spec 0 (selectionStart t + strlen prefix)); [|lia].
    now rewrite append_assoc. }
  split; [exact Hfirst|]. rewrite Hfirst.
  rewrite (insertLinePrefix_on_line prefix A (prefix ++ line) B).
  - unfold startsWith. rewrite prefix_append. cbn [caret_at selectionStart].
    rewrite js_substring_tail, setSelectionRange_set_value.
    rewrite normalize_no_cr by (repeat (apply no_cr_append; split); assumption).
    rewrite setSelectionRange_caret; cbn [ta_value]; rewrite ?strlen_append; try lia.
    replace (selectionStart t + strlen prefix - strlen prefix)%Z with (selectionStart t) by lia.
    destruct (Z.leb_spec 0 (selectionStart t)); [reflexivity | lia].
  - cbn [caret_at ta_value]. now rewrite append_assoc.
  - cbn [caret_at selectionStart]. constructor; try assumption.
    + apply no_newline_append. split; assumption.
    + rewrite strlen_append. lia.
    + left. lia.
Qed.

(** X19.  [insertLinePrefix] on a line that starts with the prefix
    takes the prefix off and leaves the rest of the text as it was.
    The caret moves left by the length of the prefix; when it stood
    nearer to the start of the text than that, the position handed to
    [setSelectionRange] is negative and the caret lands at the end of
    the text. *)
Theorem insertLinePrefix_removes (prefix A rest B : string) (t : textarea) :
  ta_value t = A ++ (prefix ++ rest) ++ B ->
  on_line A (prefix ++ rest) B (selectionStart t) ->
  no_cr (ta_value t) ->
  (strlen (ta_value t) < 2 ^ 32)%Z ->
  fst (insertLinePrefix prefix t)
  = caret_at (A ++ rest ++ B)
      (if (strlen prefix <=? selectionStart t)%Z
       then selectionStart t - strlen prefix
       else strlen (A ++ rest ++ B)).
Proof.
  intros Hv Hon Hcr Hlen.
  pose proof (strlen_nonneg A). pose proof (strlen_nonneg rest).
  pose proof (strlen_nonneg B). pose proof (strlen_nonneg prefix).
  assert (strlen (ta_value t) = strlen A + (strlen prefix + strlen rest) + strlen B)%Z as Hlv
    by (rewrite Hv, !strlen_append; lia).
  assert (no_cr A /\ no_cr rest /\ no_cr B) as (HcA & Hcr' & HcB).
  { rewrite Hv in Hcr. apply no_cr_append in Hcr as [H3 H4].
    apply no_cr_append in H4 as [H4 H5]. apply no_cr_append in H4 as [_ H4]. auto. }
  rewrite (insertLinePrefix_on_line prefix A (prefix ++ rest) B t Hv Hon).
  destruct Hon as [_ _ _ Hs _]. rewrite strlen_append in Hs.
  unfold startsWith. rewrite prefix_append, js_substring_tail, setSelectionRange_set_value.
  rewrite normalize_no_cr by (repeat (apply no_cr_append; split); assumption).
  rewrite setSelectionRange_caret; cbn [ta_value]; rewrite ?strlen_append; try lia.
  f_equal.
  destruct (Z.leb_spec 0 (selectionStart t - strlen prefix)),
           (Z.leb_spec (strlen prefix) (selectionStart t)); try lia.
Qed.

(** X20.  [insertLinePrefix] with the caret at the very start of a text
    that starts with a line break.  The search for the start of the
    line then finds that line break, the line it cuts out is the line
    break itself, and the new value is the old one with a line break,
    the prefix and another line break put in front: the text gains a
    line, and the prefix stands on a line of its own. *)
Theorem insertLinePrefix_leading_newline (prefix rest : string) (e : Z) :
  no_cr prefix -> no_cr rest ->
  startsWith newline prefix = false ->
  (strlen rest + strlen prefix + 3 < 2 ^ 32)%Z ->
  fst (insertLinePrefix prefix
         {| ta_value := newline ++ rest; selectionStart := 0; selectionEnd := e |})
  = caret_at (newline ++ prefix ++ newline ++ newline ++ rest) (strlen prefix).
Proof.
  intros Hcp Hcrest Hstarts Hlen.
  pose proof (strlen_nonneg rest). pose proof (strlen_nonneg prefix).
  unfold insertLinePrefix. cbn [fst ta_value selectionStart].
  assert (lastIndexOf (newline ++ rest) newline (0 - 1) = 0%Z) as ->.
  { unfold lastIndexOf. rewrite strlen_append. change (strlen newline) with 1%Z.
    destruct (Z.ltb_spec (1 + strlen rest) 1); [lia|].
    replace (Z.to_nat (Z.max 0 (Z.min (0 - 1) (1 + strlen rest - 1)))) with 0%nat by lia.
    unfold newline at 1. rewrite append_cons, append_nil_l.
    simpl. rewrite substring_0_0. reflexivity. }
  assert (indexOf_from (newline ++ rest) newline 0 = 0%Z) as ->.
  { unfold indexOf_from. rewrite strlen_append. change (strlen newline) with 1%Z.
    replace (Z.to_nat (Z.max 0 (Z.min 0 (1 + strlen rest)))) with 0%nat by lia.
    now rewrite index_at_newline. }
  cbn [Z.eqb]. change (0 + 1)%Z with 1%Z.
  assert (js_substring (newline ++ rest) 1 0 = newline) as ->.
  { unfold js_substring. fold (strlen (newline ++ rest)). rewrite strlen_append.
    change (strlen newline) with 1%Z.
    replace (Z.max 0 (Z.min 1 (1 + strlen rest))) with 1%Z by lia.
    replace (Z.max 0 (Z.min 0 (1 + strlen rest))) with 0%Z by lia.
    change (Z.to_nat (Z.min 1 0)) with 0%nat.
    change (Z.to_nat (Z.max 1 0 - Z.min 1 0)) with (String.length newline).
    apply substring_prefix_append. }
  rewrite Hstarts.
  change 1%Z with (strlen newline) at 1. rewrite js_substring_head.
  change 0%Z with (strlen "") at 1.
  rewrite <- (append_nil_l (newline ++ rest)) at 1. rewrite js_substring_tail.
  rewrite setSelectionRange_set_value.
  rewrite normalize_no_cr
    by (repeat (apply no_cr_append; split); try assumption; reflexivity).
  rewrite setSelectionRange_caret; cbn [ta_value]; rewrite ?strlen_append;
    change (strlen newline) with 1%Z; try lia.
  destruct (Z.leb_spec 0 (0 + strlen prefix)); [|lia].
  now rewrite !append_assoc.
Qed.

Lemma insertLinePrefix_toggles_witness :
  fst (insertLinePrefix "# " two_lines)
  = caret_at (("title" ++ newline) ++ "# " ++ "body" ++ "") (selectionStart two_lines + strlen "# ")
  /\ fst (insertLinePrefix "# " (fst (insertLinePrefix "# " two_lines)))
     = caret_at (("title" ++ newline) ++ "body" ++ "") (selectionStart two_lines).
Proof.
  apply (insertLinePrefix_toggles "# " ("title" ++ newline) "body" "" two_lines);
    try reflexivity.
  - constructor.
    + right. exists "title". reflexivity.
    + reflexivity.
    + left. reflexivity.
    + unfold two_lines, strlen. simpl. lia.
    + left. unfold two_lines. simpl. lia.
Defined.

Lemma insertLinePrefix_removes_witness :
  fst (insertLinePrefix "# " (caret_at "# ab" 1)) = caret_at "ab" 2.
Proof.
  apply (insertLinePrefix_removes "# " "" "ab" "" (caret_at "# ab" 1)); try reflexivity.
  constructor.
  - left. reflexivity.
  - reflexivity.
  - left. reflexivity.
  - unfold strlen. simpl. lia.
  - left. simpl. lia.
Defined.

Lemma insertLinePrefix_leading_newline_witness :
  fst (insertLinePrefix "# " (caret_at (newline ++ "abc") 0))
  = caret_at (newline ++ "# " ++ newline ++ newline ++ "abc") 2.
Proof.
  apply (insertLinePrefix_leading_newline "# " "abc" 0); reflexivity.
Defined.

(** *** [insertMarkdownLink] *)

(** X21.  [insertMarkdownLink] puts a link in place of the selection
    and selects its address.  The new value is the old one with
    [[text](url)] in place of the selected text; the selection of the
    new textarea is exactly [url] and lies within the value.  A
    selection that starts with [http://] or [https://] becomes the
    address, with [link text] as text; any other selection becomes the
    text, with [https://] as address; without a selection the text is
    [link text]. *)
Theorem insertMarkdownLink_selects_url (t : textarea) :
  textarea_ok t ->
  (strlen (ta_value t) + 21 < 2 ^ 32)%Z ->
  let pre := js_substring (ta_value t) 0 (selectionStart t) in
  let post := js_substring_from (ta_value t) (selectionEnd t) in
  let t' := fst (insertMarkdownLink t) in
  exists text url,
    ta_value t' = pre ++ "[" ++ text ++ "](" ++ url ++ ")" ++ post
    /\ selected t' = url
    /\ textarea_ok t'
    /\ (if startsWith (selected t) "http://" || startsWith (selected t) "https://"
        then text = "link text" /\ url = selected t
        else url = "https://"
             /\ text = match selected t with "" => "link text" | _ => selected t end).
Proof.
  intros (Hsel & Hend & Hcr) Hlen pre post t'.
  destruct (js_substring_parts (ta_value t) (selectionStart t) (selectionEnd t) Hsel Hend)
    as (Hv & Hpre & Hmid).
  fold pre post (selected t) in Hv, Hpre, Hmid.
  set (sel := selected t) in *.
  assert (no_cr pre /\ no_cr sel /\ no_cr post) as (Hcpre & Hcsel & Hcpost).
  { rewrite Hv in Hcr. apply no_cr_append in Hcr as [H1 H2].
    apply no_cr_append in H2 as [H2 H3]. auto. }
  assert (strlen (ta_value t) = strlen pre + strlen sel + strlen post)%Z as Hlv.
  { rewrite Hv at 1. rewrite !strlen_append. lia. }
  pose proof (strlen_nonneg pre). pose proof (strlen_nonneg sel).
  pose proof (strlen_nonneg post).
  assert (forall text url,
            no_cr text -> no_cr url -> (strlen text + strlen url <= strlen sel + 17)%Z ->
            let v := pre ++ ("[" ++ text ++ "](" ++ url ++ ")") ++ post in
            let r := setSelectionRange (selectionStart t + strlen text + 3)
                       (selectionStart t + strlen text + 3 + strlen url)
                       (set_value v t) in
            ta_value r = pre ++ "[" ++ text ++ "](" ++ url ++ ")" ++ post
            /\ selected r = url /\ textarea_ok r) as Hgen.
  { intros text url Hct Hcu Hbound v r.
    pose proof (strlen_nonneg text). pose proof (strlen_nonneg url).
    assert (no_cr v) as Hcv.
    { unfold v. repeat (apply no_cr_append; split); try assumption; reflexivity. }
    assert (strlen v = strlen pre + (strlen text + strlen url + 4) + strlen post)%Z as Hlen_v.
    { unfold v. rewrite !strlen_append. change (strlen "[") with 1%Z.
      change (strlen "](") with 2%Z. change (strlen ")") with 1%Z. lia. }
    assert (r = {| ta_value := v;
                   selectionStart := strlen (pre ++ "[" ++ text ++ "](");
                   selectionEnd := strlen (pre ++ "[" ++ text ++ "](") + strlen url |}) as ->.
    { unfold r. rewrite setSelectionRange_set_value, (normalize_no_cr _ Hcv).
      rewrite setSelectionRange_within; cbn [ta_value]; try lia.
      rewrite !strlen_append. change (strlen "[") with 1%Z. change (strlen "](") with 2%Z.
      f_equal; lia. }
    cbn [ta_value]. split; [|split].
    - unfold v. now rewrite !append_assoc.
    - unfold selected. cbn [ta_value selectionStart selectionEnd]. unfold v.
      replace (pre ++ ("[" ++ text ++ "](" ++ url ++ ")") ++ post)
        with ((pre ++ "[" ++ text ++ "](") ++ url ++ ")" ++ post)
        by (now rewrite !append_assoc).
      apply js_substring_middle.
    - split; [|split]; cbn [ta_value selectionStart selectionEnd]; try exact Hcv.
      + rewrite !strlen_append. pose proof (strlen_nonneg "["). pose proof (strlen_nonneg "](").
        lia.
      + rewrite Hlen_v, !strlen_append. change (strlen "[") with 1%Z.
        change (strlen "](") with 2%Z. lia. }
  subst t'. unfold insertMarkdownLink. cbn [fst]. fold (selected t). fold sel. fold pre post.
  destruct sel as [|x sel'] eqn:Esel.
  - exists "link text", "https://".
    destruct (Hgen "link text" "https://") as (H2 & H3 & H4);
      [reflexivity | reflexivity | unfold strlen; simpl; lia |].
    cbn [startsWith String.prefix orb]. auto.
  - rewrite <- Esel in *.
    destruct (startsWith sel "http://" || startsWith sel "https://") eqn:Eurl.
    + exists "link text", sel.
      destruct (Hgen "link text" sel) as (H2 & H3 & H4);
        [reflexivity | exact Hcsel | unfold strlen in *; simpl; lia |]. auto.
    + exists sel, "https://".
      destruct (Hgen sel "https://") as (H2 & H3 & H4);
        [exact Hcsel | reflexivity | unfold strlen in *; simpl; lia |].
      rewrite Esel at 5. rewrite <- Esel. auto.
Qed.

Lemma insertMarkdownLink_selects_url_witness :
  exists text url,
    ta_value (fst (insertMarkdownLink sample_textarea))
    = "say " ++ "[" ++ text ++ "](" ++ url ++ ")" ++ ""
    /\ selected (fst (insertMarkdownLink sample_textarea)) = url
    /\ textarea_ok (fst (insertMarkdownLink sample_textarea))
    /\ url = "https://" /\ text = "hello".
Proof.
  apply (insertMarkdownLink_selects_url sample_textarea).
  - unfold textarea_ok, sample_textarea, strlen. simpl. repeat split; try lia.
  - unfold sample_textarea, strlen. simpl. lia.
Defined.

(** ** The auto-save timers *)

Lemma filter_none {A} (f : A -> bool) (l : list A) :
  (forall t, In t l -> f t = false) -> List.filter f l = [].
Proof.
  induction l as [|t l IH]; intros H; [reflexivity|]. cbn [List.filter].
  rewrite (H t) by (left; reflexivity). apply IH. intros u Hu. apply H. right. exact Hu.
Qed.

Lemma filter_filter_same {A} (f g : A -> bool) (l : list A) :
  (forall t, In t l -> f t = true -> g t = true) ->
  List.filter f (List.filter g l) = List.filter f l.
Proof.
  induction l as [|t l IH]; intros H; [reflexivity|]. cbn [List.filter].
  assert (List.filter f (List.filter g l) = List.filter f l) as IH'
    by (apply IH; intros u Hu; apply H; right; exact Hu).
  destruct (g t) eqn:Hg.
  - cbn [List.filter]. now rewrite IH'.
  - rewrite IH'. destruct (f t) eqn:Hf; [|reflexivity].
    rewrite (H t) in Hg by (auto; left; reflexivity). discriminate.
Qed.

Lemma autoSaveNote_step (noteId content : string) (e : editor) :
  timers_tracked e ->
  let e' := autoSaveNote noteId content e in
  timers_tracked e'
  /\ pending_for noteId e'
     = [{| timer_id := ed_next_timer e; timer_noteId := noteId; timer_content := content |}]
  /\ (forall other, other <> noteId -> pending_for other e' = pending_for other e)
  /\ ed_requests e' = ed_requests e
  /\ autosaveTimeouts e' !! noteId = Some (ed_next_timer e)
  /\ (forall t, In t (ed_timers e') -> timer_id t = ed_next_timer e -> timer_noteId t = noteId).
Proof.
  intros [Hreg Hold Honce]. cbv zeta.
  set (timers := match autosaveTimeouts e !! noteId with
                 | Some existingTimeout => clearTimeout existingTimeout (ed_timers e)
                 | None => ed_timers e
                 end).
  assert (forall t, In t timers -> In t (ed_timers e)) as Hsub.
  { intros t. unfold timers. destruct (autosaveTimeouts e !! noteId); [|auto].
    unfold clearTimeout. rewrite filter_In. tauto. }
  assert (forall t, In t timers -> timer_noteId t <> noteId) as Hgone.
  { intros t Hin Heq. pose proof (Hreg t (Hsub t Hin)) as Ht. rewrite Heq in Ht.
    unfold timers in Hin. rewrite Ht in Hin. unfold clearTimeout in Hin.
    apply filter_In in Hin as [_ Hne]. rewrite Nat.eqb_refl in Hne. discriminate. }
  assert (forall other, other <> noteId ->
            List.filter (fun t => (timer_noteId t =? other)%string) timers
            = List.filter (fun t => (timer_noteId t =? other)%string) (ed_timers e)) as Hkept.
  { intros other Hne. unfold timers.
    destruct (autosaveTimeouts e !! noteId) as [x|] eqn:Hx; [|reflexivity].
    unfold clearTimeout. apply filter_filter_same. intros t Hin Ht.
    apply String.eqb_eq in Ht.
    destruct (Nat.eqb_spec (timer_id t) x) as [E|_]; [|reflexivity].
    exfalso. apply Hne. apply (Honce _ _ x); [|exact Hx].
    rewrite <- Ht, <- E. apply Hreg, Hin. }
  assert (ed_timers (autoSaveNote noteId content e)
          = (timers ++ [{| timer_id := ed_next_timer e; timer_noteId := noteId;
                           timer_content := content |}])%list) as Htimers by reflexivity.
  split; [|split; [|split; [|split; [|split]]]].
  - constructor.
    + intros t. rewrite Htimers, in_app_iff. cbn [autosaveTimeouts autoSaveNote].
      intros [Hin | [<- | []]].
      * rewrite lookup_insert_ne by (intros E; exact (Hgone t Hin (eq_sym E))).
        apply Hreg, Hsub, Hin.
      * cbn [timer_noteId timer_id]. apply lookup_insert_eq.
    + intros k x. cbn [autosaveTimeouts autoSaveNote ed_next_timer].
      destruct (String.eqb_spec noteId k) as [E|Hne].
      * rewrite E, lookup_insert_eq. intros [= <-]. lia.
      * rewrite lookup_insert_ne by exact Hne. intros H. apply Hold in H. lia.
    + intros a b x. cbn [autosaveTimeouts autoSaveNote].
      destruct (String.eqb_spec noteId a) as [Ea|Ha], (String.eqb_spec noteId b) as [Eb|Hb];
        rewrite ?Ea, ?Eb.
      * congruence.
      * rewrite <- Ea, lookup_insert_eq, lookup_insert_ne by exact Hb.
        intros [= <-] H. apply Hold in H. lia.
      * rewrite <- Eb, lookup_insert_eq, lookup_insert_ne by exact Ha.
        intros H [= <-]. apply Hold in H. lia.
      * rewrite !lookup_insert_ne by assumption. apply Honce.
  - unfold pending_for. rewrite Htimers, List.filter_app. cbn [List.filter timer_noteId].
    rewrite String.eqb_refl, filter_none; [reflexivity|].
    intros t Hin. apply String.eqb_neq, Hgone, Hin.
  - intros other Hne. unfold pending_for. rewrite Htimers, List.filter_app.
    cbn [List.filter timer_noteId].
    destruct (String.eqb_spec noteId other) as [E|_]; [congruence|].
    rewrite app_nil_r. apply Hkept, Hne.
  - reflexivity.
  - cbn [autosaveTimeouts autoSaveNote]. apply lookup_insert_eq.
  - intros t. rewrite Htimers, in_app_iff. intros [Hin | [<- | []]] Hid; [|reflexivity].
    exfalso. pose proof (Hold _ _ (Hreg t (Hsub t Hin))). lia.
Qed.

Lemma keystrokes_app noteId cs1 cs2 e :
  keystrokes noteId (cs1 ++ cs2) e = keystrokes noteId cs2 (keystrokes noteId cs1 e).
Proof. apply fold_left_app. Qed.

Lemma keystrokes_tracked (noteId : string) (cs : list string) (e : editor) :
  timers_tracked e ->
  timers_tracked (keystrokes noteId cs e)
  /\ (forall other, other <> noteId ->
        pending_for other (keystrokes noteId cs e) = pending_for other e)
  /\ ed_requests (keystrokes noteId cs e) = ed_requests e.
Proof.
  revert e. induction cs as [|c cs IH]; intros e He; [auto|].
  destruct (autoSaveNote_step noteId c e He) as (H1 & _ & H3 & H4 & _).
  destruct (IH _ H1) as (I1 & I2 & I3).
  change (keystrokes noteId (c :: cs) e) with (keystrokes noteId cs (autoSaveNote noteId c e)).
  split; [exact I1|]. split.
  - intros other Hne. rewrite (I2 other Hne). apply H3, Hne.
  - now rewrite I3.
Qed.

(** X22.  The auto-save is debounced.  Starting from a state in which
    the pending timers are the registered ones, after any run of input
    events in the textarea of a note exactly one timer is pending for
    that note, and it holds the content of the last event; the timers
    of the other notes are untouched and nothing has been sent to the
    store yet.  When the registered timer fires, one save goes out,
    with that last content. *)
Theorem autosave_debounced (noteId : string) (contents : list string) (last : string)
    (e : editor) :
  timers_tracked e ->
  let e' := keystrokes noteId (contents ++ [last]) e in
  List.map timer_content (pending_for noteId e') = [last]
  /\ (forall other, other <> noteId -> pending_for other e' = pending_for other e)
  /\ ed_requests e' = ed_requests e
  /\ timers_tracked e'
  /\ exists id,
       autosaveTimeouts e' !! noteId = Some id
       /\ ed_requests (fire_timer id e')
          = (ed_requests e ++ [{| req_noteId := noteId; req_fields := ContentFields last |}])%list
       /\ pending_for noteId (fire_timer id e') = [].
Proof.
  intros He e'. subst e'. rewrite keystrokes_app.
  destruct (keystrokes_tracked noteId contents e He) as (H1 & H2 & H3).
  set (e1 := keystrokes noteId contents e) in *.
  change (keystrokes noteId [last] e1) with (autoSaveNote noteId last e1).
  destruct (autoSaveNote_step noteId last e1 H1) as (S1 & S2 & S3 & S4 & S5 & S6).
  split; [now rewrite S2|]. split; [|split; [|split; [exact S1|]]].
  - intros other Hne. rewrite (S3 other Hne). apply H2, Hne.
  - now rewrite S4.
  - exists (ed_next_timer e1). split; [exact S5|].
    set (e2 := autoSaveNote noteId last e1) in *.
    assert (exists t, List.find (fun t => (timer_id t =? ed_next_timer e1)%nat) (ed_timers e2)
                      = Some t
                      /\ timer_noteId t = noteId /\ timer_content t = last) as (t & Hfind & Hn & Hc).
    { destruct (List.find (fun t => (timer_id t =? ed_next_timer e1)%nat) (ed_timers e2))
        as [t|] eqn:Hfind.
      - exists t. split; [reflexivity|]. apply List.find_some in Hfind as [Hin Hid].
        apply Nat.eqb_eq in Hid. pose proof (S6 t Hin Hid) as Hn. split; [exact Hn|].
        assert (In t (pending_for noteId e2)) as Hp.
        { unfold pending_for. apply filter_In. split; [exact Hin|]. now apply String.eqb_eq. }
        rewrite S2 in Hp. destruct Hp as [<- | []]. reflexivity.
      - exfalso.
        assert (In {| timer_id := ed_next_timer e1; timer_noteId := noteId;
                      timer_content := last |} (ed_timers e2)) as Hin.
        { assert (In {| timer_id := ed_next_timer e1; timer_noteId := noteId;
                        timer_content := last |} (pending_for noteId e2)) as Hp
            by (rewrite S2; left; reflexivity).
          unfold pending_for in Hp. apply filter_In in Hp. tauto. }
        pose proof (List.find_none _ _ Hfind _ Hin) as Hno. cbn [timer_id] in Hno.
        rewrite Nat.eqb_refl in Hno. discriminate. }
    unfold fire_timer. rewrite Hfind. cbn [ed_requests]. rewrite S4, H3, Hn, Hc.
    split; [reflexivity|].
    unfold pending_for. cbn [ed_timers]. fold (pending_for noteId e2).
    unfold clearTimeout.
    apply filter_none. intros u Hu. apply filter_In in Hu as [Hin Hid].
    destruct (String.eqb_spec (timer_noteId u) noteId) as [E|_]; [|reflexivity].
    assert (In u (pending_for noteId e2)) as Hp.
    { unfold pending_for. apply filter_In. split; [exact Hin|]. now apply String.eqb_eq. }
    rewrite S2 in Hp. destruct Hp as [<- | []]. cbn [timer_id] in Hid.
    rewrite Nat.eqb_refl in Hid. discriminate.
Qed.

Lemma autosave_debounced_witness :
  List.map timer_content
    (pending_for "note-1" (keystrokes "note-1" (["d"; "dr"; "dra"] ++ ["draft"]) editing_note))
  = ["draft"].
Proof.
  apply (autosave_debounced "note-1" ["d"; "dr"; "dra"] "draft" editing_note).
  constructor.
  - intros t [].
  - intros k x H. unfold editing_note in H. cbn [autosaveTimeouts] in H.
    rewrite lookup_empty in H. discriminate.
  - intros a b x H. unfold editing_note in H. cbn [autosaveTimeouts] in H.
    rewrite lookup_empty in H. discriminate.
Defined.

(** ** Numbered lists *)




Lemma little_succ_nonnil (d : Decimal.uint) : Decimal.Little.succ d <> Decimal.Nil.
Proof. induction d; simpl; try discriminate. Qed.














Lemma lines_text_cons (l : string) (ls : list string) :
  lines_text (l :: ls) = l ++ newline ++ lines_text ls.
Proof.
  unfold lines_text. cbn [List.map]. destruct (List.map (fun l => l ++ newline) ls) eqn:E.
  - simpl. now rewrite append_nil_r.
  - cbn [String.concat]. now rewrite append_nil_l, append_assoc.
Qed.

Lemma lines_text_app (ls1 ls2 : list string) :
  lines_text (ls1 ++ ls2) = lines_text ls1 ++ lines_text ls2.
Proof.
  induction ls1 as [|l ls1 IH]; [now rewrite append_nil_l|].
  cbn [app]. rewrite !lines_text_cons, IH, !append_assoc. reflexivity.
Qed.









(** ** Capturing a selection and finding it again *)





(** ** The characters of a sanitized color *)






